(** * GRAFITOS: graph data model and algorithm engine

    A shallow embedding of [src/js/graph.js] (class [Graph]) and of the
    classes [GraphAlgorithms] and [UnionFind] of [src/js/export.js],
    together with the properties the specification states about them.

    Conventions of the embedding
    - a JavaScript [Map] with string keys is an insertion-ordered
      association list with one entry per key ([JSMap]): iteration order is
      observable in the source ([getEdgeWeight] returns the first match,
      [prim] starts from the first key), so it is kept;
    - the [Map]s and [Set]s that the algorithms only query by key
      ([visited], [distance], [parent], [rank]) are stdpp [gmap]/[gset];
    - a thrown [Error] is a [Throw] result; the object state at the moment
      of the [throw] is returned with it, as a caller that catches the
      exception observes it;
    - a Number is an integer among the doubles (IEEE 754 binary64), taken
      as [Z]: the weights are what [parseInt] gave the editor, the counters
      count from [1]; a sum of weights is rounded as the machine rounds
      it and can overflow to an infinity, and a Number is printed as
      [Number::toString] prints it;
    - [while] loops and the recursion of [find] take a fuel argument that
      the entry points compute from their input; the theorems about
      [find], [bfs] and [prim] include that this amount is enough for the
      call to return. *)

From stdpp Require Import gmap strings list fin_maps pretty sorting.
From Stdlib Require Import ZArith Lia.

Open Scope Z_scope.
Set Warnings "-clear-no-such-hyp".

(* ================================================================== *)
(** * Part I. The embedding                                            *)
(* ================================================================== *)

(** ** JavaScript [Map] with string keys, in insertion order *)

Module JSMap.
Section ops.
Context {V : Type}.

(** [Map.prototype.get]; [None] is [undefined]. *)
Fixpoint mget (m : list (string * V)) (k : string) : option V :=
  match m with
  | [] => None
  | (k', v) :: m' => if decide (k' = k) then Some v else mget m' k
  end.

(** [Map.prototype.has]. *)
Definition mhas (m : list (string * V)) (k : string) : bool :=
  match mget m k with Some _ => true | None => false end.

(** [Map.prototype.set]: an existing key keeps its position, a new key
    goes to the end. *)
Fixpoint mset (m : list (string * V)) (k : string) (v : V) : list (string * V) :=
  match m with
  | [] => [(k, v)]
  | (k', v') :: m' =>
      if decide (k' = k) then (k', v) :: m' else (k', v') :: mset m' k v
  end.

(** [Map.prototype.delete]. *)
Fixpoint mdelete (m : list (string * V)) (k : string) : list (string * V) :=
  match m with
  | [] => []
  | (k', v') :: m' =>
      if decide (k' = k) then m' else (k', v') :: mdelete m' k
  end.

Definition mkeys (m : list (string * V)) : list string := m.*1.
Definition mvalues (m : list (string * V)) : list V := m.*2.
Definition msize (m : list (string * V)) : Z := Z.of_nat (length m).
End ops.
End JSMap.
Import JSMap.

(** ** Records of the data model *)

(** [{id, label, x, y, data}].  The coordinates and the attribute bag are
    never inspected by the operations modelled here. *)
Record Node := mkNode {
  n_id : string;
  n_label : string;
  n_x : Z;
  n_y : Z;
  n_data : list (string * string)
}.

(** [{id, source, target, weight, label, directed}].  Weights are the
    integers the editor produces with [parseInt]. *)
Record Edge := mkEdge {
  e_id : string;
  source : string;
  target : string;
  weight : Z;
  e_label : string;
  directed : bool
}.

Global Instance Node_eq_dec : EqDecision Node.
Proof. solve_decision. Defined.
Global Instance Edge_eq_dec : EqDecision Edge.
Proof. solve_decision. Defined.

(** The fields of [class Graph]. *)
Record Graph := mkGraph {
  nodes : list (string * Node);
  edges : list (string * Edge);
  isDirected : bool;
  isWeighted : bool;
  nodeIdCounter : Z;
  edgeIdCounter : Z
}.

(** The errors of the specification's taxonomy.  The source throws plain
    [Error] objects; the constructor records which [throw] statement ran. *)
Inductive GraphError :=
  | DuplicateIdError        (* 'El nodo con ID ... ya existe' *)
  | MissingEndpointError    (* 'Los nodos fuente y destino deben existir' *)
  | DuplicateEdgeError      (* 'Ya existe una arista ... entre estos nodos' *)
  | UnknownNodeError        (* 'El nodo inicial/objetivo ... no existe' *)
  | UnweightedGraphError.   (* '... requiere un grafo ponderado' *)

Inductive result (A : Type) :=
  | Ok (a : A)
  | Throw (e : GraphError).
Arguments Ok {A} a.
Arguments Throw {A} e.

(** [!id] for an optional string argument: [null], [undefined] and the
    empty string are falsy. *)
Definition falsy (s : option string) : bool :=
  match s with
  | None => true
  | Some s => bool_decide (s = "")
  end.

(** [a || b] on strings. *)
Definition str_or (a b : string) : string :=
  if bool_decide (a = "") then b else a.

(** The sentinel [Infinity] of [getEdgeWeight]. *)
Inductive ext :=
  | Finite (z : Z)
  | Infinity.

(** ** Numbers *)

(** The double nearest to an integer: 53 significant bits are kept, and
    a tie goes to the neighbour whose last kept bit is [0]. *)
Definition round_double (x : Z) : Z :=
  let a := Z.abs x in
  let e := Z.log2 a - 52 in
  if e <=? 0 then x
  else
    let u := 2 ^ e in
    let q := a / u in
    let r := a mod u in
    let q' := if 2 * r <? u then q
              else if u <? 2 * r then q + 1
              else if Z.even q then q else q + 1 in
    Z.sgn x * (q' * u).

(** What a sum of Numbers can be. *)
Inductive number :=
  | Num (z : Z)
  | PlusInfinity
  | MinusInfinity
  | NaN.

(** The Number that an exact result is rounded to: beyond the largest
    double, [(2^53 - 1) * 2^971], it is an infinity. *)
Definition to_number (x : Z) : number :=
  let r := round_double x in
  if 2 ^ 1024 <=? r then PlusInfinity
  else if r <=? - 2 ^ 1024 then MinusInfinity
  else Num r.

(** [a + b]. *)
Definition number_add (a b : number) : number :=
  match a, b with
  | Num x, Num y => to_number (x + y)
  | NaN, _ | _, NaN => NaN
  | PlusInfinity, MinusInfinity | MinusInfinity, PlusInfinity => NaN
  | PlusInfinity, _ | _, PlusInfinity => PlusInfinity
  | MinusInfinity, _ | _, MinusInfinity => MinusInfinity
  end.

Definition number_of_ext (w : ext) : number :=
  match w with
  | Finite z => Num z
  | Infinity => PlusInfinity
  end.

(** The number of decimal digits of a positive integer. *)
Definition decimal_length (a : Z) : Z := Z.of_nat (String.length (pretty a)).

(** The decimal number [v] is read back as the double [a > 0]: it lies
    within half the distance to the next double on its side; the bound
    itself is read as [a] when the last bit of [a] is [0]. *)
Definition reads_as (a v : Z) : bool :=
  let e := Z.log2 a - 52 in
  let m := a / 2 ^ e in
  let gap := if (v <? a) && (m =? 2 ^ 52) then 2 ^ (e - 1) else 2 ^ e in
  if Z.even m then 2 * Z.abs (v - a) <=? gap else 2 * Z.abs (v - a) <? gap.

(** The search for the decimal number with the fewest significant digits
    that is read back as [a], from [k] digits on; [n] is the number of
    digits of [a].  Of the two numbers of [k] digits around [a] the
    nearer is taken and, at equal distance, the one with an even last
    digit.  (The language leaves the last digit open; the engines print
    the nearest number.) *)
Fixpoint shortest_from (fuel : nat) (k : Z) (a n : Z) : Z :=
  match fuel with
  | O => a
  | S fuel' =>
      let p := 10 ^ (n - k) in
      let below := a / p * p in
      let above := below + p in
      match reads_as a below, reads_as a above with
      | true, true =>
          if a - below <? above - a then below
          else if above - a <? a - below then above
          else if Z.even (a / p) then below else above
      | true, false => below
      | false, true => above
      | false, false => shortest_from fuel' (k + 1) a n
      end
  end.

(** The integer whose digits are printed for the double [a > 0]; up to
    [2^53] it is [a]. *)
Definition shortest (a : Z) : Z :=
  if Z.log2 a - 52 <=? 0 then a
  else
    let n := decimal_length a in
    shortest_from (Z.to_nat (Z.min 17 n)) 1 a n.

Fixpoint strip_zeros (fuel : nat) (v : Z) : Z :=
  match fuel with
  | O => v
  | S fuel' =>
      if (0 <? v) && (v mod 10 =? 0) then strip_zeros fuel' (v / 10) else v
  end.

(** [d.ddde+x], the form of the numbers from [10^21] on. *)
Definition exponent_form (v : Z) : string :=
  let n := String.length (pretty v) in
  match pretty (strip_zeros n v) with
  | String d rest =>
      String d (if bool_decide (rest = "") then "" else "." +:+ rest)
        +:+ "e+" +:+ pretty (Z.of_nat n - 1)
  | EmptyString => ""
  end.

(** [Number::toString] on integers: [weight.toString()] and a Number in
    a template literal. *)
Definition Number_toString (x : Z) : string :=
  let a := round_double (Z.abs x) in
  let text :=
    if 2 ^ 1024 <=? a then "Infinity"
    else
      let v := shortest a in
      if v <? 10 ^ 21 then pretty v else exponent_form v in
  if x <? 0 then "-" +:+ text else text.

(** The property bags given to [updateNode] and [updateEdge], restricted
    to the fields of the records. *)
Record NodeProps := mkNodeProps {
  np_id : option string;
  np_label : option string;
  np_x : option Z;
  np_y : option Z;
  np_data : option (list (string * string))
}.

Record EdgeProps := mkEdgeProps {
  ep_id : option string;
  ep_source : option string;
  ep_target : option string;
  ep_weight : option Z;
  ep_label : option string;
  ep_directed : option bool
}.

(** The object produced by [toJSON] and read by [fromJSON].  A field that
    is missing from an imported object behaves as [false], [0] or the empty
    array of this record. *)
Record Snapshot := mkSnapshot {
  s_nodes : list Node;
  s_edges : list Edge;
  s_isDirected : bool;
  s_isWeighted : bool;
  s_nodeIdCounter : Z;
  s_edgeIdCounter : Z
}.

(** ** [class Graph] *)

Definition newGraph : Graph := mkGraph [] [] false false 1 1.

Definition setGraphType (g : Graph) (dir wtd : bool) : Graph :=
  mkGraph (nodes g) (edges g) dir wtd (nodeIdCounter g) (edgeIdCounter g).

Definition set_nodes (g : Graph) (ns : list (string * Node)) : Graph :=
  mkGraph ns (edges g) (isDirected g) (isWeighted g)
          (nodeIdCounter g) (edgeIdCounter g).

Definition set_edges (g : Graph) (es : list (string * Edge)) : Graph :=
  mkGraph (nodes g) es (isDirected g) (isWeighted g)
          (nodeIdCounter g) (edgeIdCounter g).

Definition bump_nodeIdCounter (g : Graph) : Graph :=
  mkGraph (nodes g) (edges g) (isDirected g) (isWeighted g)
          (nodeIdCounter g + 1) (edgeIdCounter g).

Definition bump_edgeIdCounter (g : Graph) : Graph :=
  mkGraph (nodes g) (edges g) (isDirected g) (isWeighted g)
          (nodeIdCounter g) (edgeIdCounter g + 1).

(** [if (!id) id = `node_${this.nodeIdCounter++}`] *)
Definition fresh_node_id (g : Graph) (id : option string) : string * Graph :=
  if falsy id
  then ("node_" +:+ Number_toString (nodeIdCounter g), bump_nodeIdCounter g)
  else (default "" id, g).

Definition addNode (g : Graph) (id : option string) (label : string)
    (x y : Z) (data : list (string * string)) : Graph * result Node :=
  let '(id, g1) := fresh_node_id g id in
  if mhas (nodes g1) id then (g1, Throw DuplicateIdError)
  else
    let node := mkNode id (str_or label id) x y data in
    (set_nodes g1 (mset (nodes g1) id node), Ok node).

(** The keys pushed on [edgesToRemove]. *)
Definition edgesToRemove (es : list (string * Edge)) (nodeId : string) : list string :=
  (filter (λ kv, source kv.2 = nodeId ∨ target kv.2 = nodeId) es).*1.

Definition removeNode (g : Graph) (nodeId : string) : Graph * bool :=
  if mhas (nodes g) nodeId then
    let es := foldl mdelete (edges g) (edgesToRemove (edges g) nodeId) in
    (set_nodes (set_edges g es) (mdelete (nodes g) nodeId), true)
  else (g, false).

(** [if (!id) id = `edge_${this.edgeIdCounter++}`] *)
Definition fresh_edge_id (g : Graph) (id : option string) : string * Graph :=
  if falsy id
  then ("edge_" +:+ Number_toString (edgeIdCounter g), bump_edgeIdCounter g)
  else (default "" id, g).

(** The test of the two duplicate-detection loops of [addEdge]. *)
Definition joins (dir : bool) (s t : string) (e : Edge) : bool :=
  if dir then bool_decide (source e = s ∧ target e = t)
  else bool_decide ((source e = s ∧ target e = t) ∨
                    (source e = t ∧ target e = s)).

Definition addEdge (g : Graph) (sourceId targetId : string) (w : Z)
    (label : string) (id : option string) : Graph * result Edge :=
  if negb (mhas (nodes g) sourceId) || negb (mhas (nodes g) targetId)
  then (g, Throw MissingEndpointError)
  else
    let '(id, g1) := fresh_edge_id g id in
    if existsb (joins (isDirected g1) sourceId targetId) (mvalues (edges g1))
    then (g1, Throw DuplicateEdgeError)
    else
      let edge :=
        mkEdge id sourceId targetId
               (if isWeighted g1 then w else 1)
               (str_or label (if isWeighted g1 then Number_toString w else ""))
               (isDirected g1) in
      (set_edges g1 (mset (edges g1) id edge), Ok edge).

Definition removeEdge (g : Graph) (edgeId : string) : Graph * bool :=
  (set_edges g (mdelete (edges g) edgeId), mhas (edges g) edgeId).

(** [Set.prototype.add] on an insertion-ordered set. *)
Definition set_add (s : list string) (x : string) : list string :=
  if bool_decide (x ∈ s) then s else s ++ [x].

Definition getNeighbors (g : Graph) (nodeId : string) : list string :=
  foldl (λ nb e,
           if bool_decide (source e = nodeId) then set_add nb (target e)
           else if negb (isDirected g) && bool_decide (target e = nodeId)
                then set_add nb (source e)
                else nb)
        [] (mvalues (edges g)).

(** The test shared by [getEdgeWeight], [hasEdge] and the inner loop of
    [prim]. *)
Definition connects (dir : bool) (s t : string) (e : Edge) : bool :=
  bool_decide (source e = s ∧ target e = t)
  || (negb dir && bool_decide (source e = t ∧ target e = s)).

Definition findEdge (g : Graph) (s t : string) : option Edge :=
  List.find (connects (isDirected g) s t) (mvalues (edges g)).

Definition getEdgeWeight (g : Graph) (s t : string) : ext :=
  match findEdge g s t with
  | Some e => Finite (weight e)
  | None => Infinity
  end.

Definition hasEdge (g : Graph) (s t : string) : bool :=
  match findEdge g s t with Some _ => true | None => false end.

Definition getNode (g : Graph) (nodeId : string) : option Node :=
  mget (nodes g) nodeId.

Definition getEdge (g : Graph) (edgeId : string) : option Edge :=
  mget (edges g) edgeId.

Definition getEdges (g : Graph) : list Edge := mvalues (edges g).

(** [Object.assign(node, properties)] *)
Definition assign_node (n : Node) (p : NodeProps) : Node :=
  mkNode (default (n_id n) (np_id p)) (default (n_label n) (np_label p))
         (default (n_x n) (np_x p)) (default (n_y n) (np_y p))
         (default (n_data n) (np_data p)).

Definition assign_edge (e : Edge) (p : EdgeProps) : Edge :=
  mkEdge (default (e_id e) (ep_id p)) (default (source e) (ep_source p))
         (default (target e) (ep_target p)) (default (weight e) (ep_weight p))
         (default (e_label e) (ep_label p)) (default (directed e) (ep_directed p)).

(** The object is mutated in place: its key and position in the map stay. *)
Definition updateNode (g : Graph) (nodeId : string) (p : NodeProps) : Graph :=
  match mget (nodes g) nodeId with
  | Some n => set_nodes g (mset (nodes g) nodeId (assign_node n p))
  | None => g
  end.

Definition updateNodePosition (g : Graph) (nodeId : string) (x y : Z) : Graph :=
  updateNode g nodeId (mkNodeProps None None (Some x) (Some y) None).

Definition updateEdge (g : Graph) (edgeId : string) (p : EdgeProps) : Graph :=
  match mget (edges g) edgeId with
  | Some e => set_edges g (mset (edges g) edgeId (assign_edge e p))
  | None => g
  end.

Definition clear (g : Graph) : Graph :=
  mkGraph [] [] (isDirected g) (isWeighted g) 1 1.

Definition toJSON (g : Graph) : Snapshot :=
  mkSnapshot (mvalues (nodes g)) (mvalues (edges g))
             (isDirected g) (isWeighted g)
             (nodeIdCounter g) (edgeIdCounter g).

(** [data.nodeIdCounter || 1] *)
Definition num_or_1 (z : Z) : Z := if bool_decide (z = 0) then 1 else z.

Definition fromJSON (g : Graph) (data : Snapshot) : Graph :=
  let g0 := clear g in
  mkGraph (foldl (λ m n, mset m (n_id n) n) (nodes g0) (s_nodes data))
          (foldl (λ m e, mset m (e_id e) e) (edges g0) (s_edges data))
          (s_isDirected data) (s_isWeighted data)
          (num_or_1 (s_nodeIdCounter data)) (num_or_1 (s_edgeIdCounter data)).

(** The mutating operations of [Graph] as data, to speak about sequences
    of calls.  [exec] gives the state left behind by one call, also when
    the call throws. *)
Inductive Mutation :=
  | MAddNode (id : option string) (label : string) (x y : Z)
             (data : list (string * string))
  | MRemoveNode (nodeId : string)
  | MAddEdge (sourceId targetId : string) (w : Z) (label : string)
             (id : option string)
  | MRemoveEdge (edgeId : string)
  | MUpdateNode (nodeId : string) (p : NodeProps)
  | MUpdateNodePosition (nodeId : string) (x y : Z)
  | MUpdateEdge (edgeId : string) (p : EdgeProps)
  | MSetGraphType (dir wtd : bool)
  | MClear
  | MFromJSON (data : Snapshot).

Definition exec (g : Graph) (m : Mutation) : Graph :=
  match m with
  | MAddNode id label x y data => (addNode g id label x y data).1
  | MRemoveNode nodeId => (removeNode g nodeId).1
  | MAddEdge s t w label id => (addEdge g s t w label id).1
  | MRemoveEdge edgeId => (removeEdge g edgeId).1
  | MUpdateNode nodeId p => updateNode g nodeId p
  | MUpdateNodePosition nodeId x y => updateNodePosition g nodeId x y
  | MUpdateEdge edgeId p => updateEdge g edgeId p
  | MSetGraphType dir wtd => setGraphType g dir wtd
  | MClear => clear g
  | MFromJSON data => fromJSON g data
  end.

Definition run (g : Graph) (ms : list Mutation) : Graph := foldl exec g ms.

(** ** [class UnionFind] *)

(** The values handed to [find], [union] and [connected] are strings or
    [undefined] ([None]).  [Map.prototype.get] answers [undefined] both for
    a missing key and for a key bound to [undefined].  A rank is a number;
    [None] stands for the two non-numbers [undefined] and [NaN], which the
    comparisons and the increment of [union] do not tell apart. *)
Record UnionFind := mkUnionFind {
  parent : gmap (option string) (option string);
  rank : gmap (option string) (option nat)
}.

Definition parent_get (uf : UnionFind) (x : option string) : option string :=
  mjoin (parent uf !! x).

Definition rank_get (uf : UnionFind) (x : option string) : option nat :=
  mjoin (rank uf !! x).

Definition parent_set (uf : UnionFind) (x p : option string) : UnionFind :=
  mkUnionFind (<[x := p]> (parent uf)) (rank uf).

Definition rank_set (uf : UnionFind) (x : option string) (r : option nat) : UnionFind :=
  mkUnionFind (parent uf) (<[x := r]> (rank uf)).

(** [constructor(elements)] *)
Definition newUnionFind (elements : list string) : UnionFind :=
  foldl (λ uf e, rank_set (parent_set uf (Some e) (Some e)) (Some e) (Some 0%nat))
        (mkUnionFind ∅ ∅) elements.

(** [find], recursive with path compression; [None] when the recursion
    depth exceeds the fuel. *)
Fixpoint find_fuel (fuel : nat) (uf : UnionFind) (element : option string)
    : option (option string * UnionFind) :=
  match fuel with
  | O => None
  | S fuel =>
      if decide (parent_get uf element = element) then
        Some (parent_get uf element, uf)
      else
        match find_fuel fuel uf (parent_get uf element) with
        | Some (r, uf1) =>
            let uf2 := parent_set uf1 element r in
            Some (parent_get uf2 element, uf2)
        | None => None
        end
  end.

Definition find (uf : UnionFind) (element : option string)
    : option (option string * UnionFind) :=
  find_fuel (2 + size (parent uf)) uf element.

(** [a < b] on ranks: false as soon as one side is not a number. *)
Definition rank_lt (a b : option nat) : bool :=
  match a, b with
  | Some x, Some y => bool_decide (x < y)%nat
  | _, _ => false
  end.

Definition union (uf : UnionFind) (element1 element2 : option string)
    : option UnionFind :=
  match find uf element1 with
  | None => None
  | Some (root1, uf1) =>
      match find uf1 element2 with
      | None => None
      | Some (root2, uf2) =>
          if decide (root1 = root2) then Some uf2
          else
            let rank1 := rank_get uf2 root1 in
            let rank2 := rank_get uf2 root2 in
            if rank_lt rank1 rank2 then Some (parent_set uf2 root1 root2)
            else if rank_lt rank2 rank1 then Some (parent_set uf2 root2 root1)
            else Some (rank_set (parent_set uf2 root2 root1) root1 (S <$> rank1))
      end
  end.

Definition connected (uf : UnionFind) (element1 element2 : option string)
    : option (bool * UnionFind) :=
  match find uf element1 with
  | None => None
  | Some (root1, uf1) =>
      match find uf1 element2 with
      | None => None
      | Some (root2, uf2) => Some (bool_decide (root1 = root2), uf2)
      end
  end.

(** Calls on a [UnionFind], to speak about sequences of them.  The
    arguments are any values: strings or [undefined]. *)
Inductive UFCall :=
  | CFind (x : option string)
  | CUnion (x y : option string)
  | CConnected (x y : option string).

Definition uf_call (uf : UnionFind) (c : UFCall) : option UnionFind :=
  match c with
  | CFind x => snd <$> find uf x
  | CUnion x y => union uf x y
  | CConnected x y => snd <$> connected uf x y
  end.

(** The elements a [UnionFind] was built over, as the values they are. *)
Definition els_of (elements : list string) : gset (option string) :=
  list_to_set (Some <$> elements).

(** The call names elements only. *)
Definition call_on (elements : list string) (c : UFCall) : Prop :=
  match c with
  | CFind x => x ∈ els_of elements
  | CUnion x y | CConnected x y => x ∈ els_of elements ∧ y ∈ els_of elements
  end.

(** The states a [UnionFind] built over [elements] can be in after any
    number of calls, whatever their arguments. *)
Inductive uf_reachable_any (elements : list string) : UnionFind → Prop :=
  | uf_any_new : uf_reachable_any elements (newUnionFind elements)
  | uf_any_call uf c uf' :
      uf_reachable_any elements uf →
      uf_call uf c = Some uf' →
      uf_reachable_any elements uf'.

(** The states it can be in after calls on its elements only. *)
Inductive uf_reachable (elements : list string) : UnionFind → Prop :=
  | uf_reach_new : uf_reachable elements (newUnionFind elements)
  | uf_reach_call uf c uf' :
      uf_reachable elements uf →
      call_on elements c →
      uf_call uf c = Some uf' →
      uf_reachable elements uf'.

(** [connected(a, b)] returns [true]. *)
Definition same_class (uf : UnionFind) (a b : option string) : Prop :=
  ∃ uf', connected uf a b = Some (true, uf').

(** ** [class GraphAlgorithms] *)

(** *** The neighbour ordering of [dfs] and [bfs] *)

Definition is_digit (c : Ascii.ascii) : bool :=
  let n := Ascii.N_of_ascii c in ((48 <=? n) && (n <=? 57))%N.

Definition digit_value (c : Ascii.ascii) : N := (Ascii.N_of_ascii c - 48)%N.

(** [parseInt] of the digit run that starts the string. *)
Fixpoint leading_number (s : string) (acc : N) : N :=
  match s with
  | String c s' =>
      if is_digit c then leading_number s' (10 * acc + digit_value c)%N else acc
  | EmptyString => acc
  end.

(** [getNum]: the first run of decimal digits of the id, [0] without one. *)
Fixpoint getNum (id : string) : N :=
  match id with
  | EmptyString => 0%N
  | String c s' => if is_digit c then leading_number id 0 else getNum s'
  end.

(** One value of [localeCompare] for closed examples: the order of the
    code units.  The host's collation decides the real one, so the
    algorithms below take it as an argument. *)
Definition codeUnitCompare (a b : string) : Z :=
  match String.compare a b with
  | Lt => -1
  | Eq => 0
  | Gt => 1
  end.

Section Algorithms.

(** [a.localeCompare(b)]; only the sign of the result is used. *)
Variable localeCompare : string → string → Z.

(** The comparator given to [neighbors.sort]. *)
Definition compareIds (a b : string) : Z :=
  let numA := getNum a in
  let numB := getNum b in
  if bool_decide (numA ≠ numB) then Z.of_N numA - Z.of_N numB
  else localeCompare a b.

(** [Array.prototype.sort] is stable; a stable insertion sort returns
    the same array whenever the comparator is a consistent order. *)
Fixpoint sort_insert (x : string) (l : list string) : list string :=
  match l with
  | [] => [x]
  | y :: l' =>
      if compareIds x y <=? 0 then x :: y :: l' else y :: sort_insert x l'
  end.

Definition sortNeighbors (l : list string) : list string :=
  foldr sort_insert [] l.

(** *** [reconstructPath] *)

(** The parent maps bind a node to its predecessor, [None] being [null].
    When the walk reaches a key that the map does not bind, [current]
    becomes [undefined] and the source loops for ever: the model runs out
    of fuel. *)
Fixpoint reconstruct_loop (fuel : nat) (parents : gmap string (option string))
    (current : option string) (path : list string) : option (list string) :=
  match fuel with
  | O => None
  | S fuel =>
      match current with
      | None => Some path
      | Some c =>
          match parents !! c with
          | Some next => reconstruct_loop fuel parents next (c :: path)
          | None => None
          end
      end
  end.

Definition reconstructPath (parents : gmap string (option string))
    (start end_ : string) : option (list string) :=
  match reconstruct_loop (2 + size parents) parents (Some end_) [] with
  | Some path => if decide (head path = Some start) then Some path else Some []
  | None => None
  end.

(** [targetNodeId && currentNode === targetNodeId] *)
Definition is_target (targetNodeId : option string) (currentNode : string) : bool :=
  negb (falsy targetNodeId) && bool_decide (targetNodeId = Some currentNode).

(** *** [bfs] *)

Record BfsState := mkBfsState {
  b_visited : gset string;
  b_queue : list string;
  b_visitOrder : list string;
  b_parent : gmap string (option string);
  b_distance : gmap string (option nat);
  b_found : bool
}.

(** The body of [for (const neighbor of neighbors)].  A distance is a
    number; [None] is the [NaN] that [undefined + 1] would give. *)
Definition bfs_visit (currentNode : string) (st : BfsState) (neighbor : string)
    : BfsState :=
  if bool_decide (neighbor ∈ b_visited st) then st
  else
    mkBfsState ({[neighbor]} ∪ b_visited st)
               (b_queue st ++ [neighbor])
               (b_visitOrder st)
               (<[neighbor := Some currentNode]> (b_parent st))
               (<[neighbor := S <$> mjoin (b_distance st !! currentNode)]>
                  (b_distance st))
               (b_found st).

Fixpoint bfs_loop (fuel : nat) (g : Graph) (targetNodeId : option string)
    (st : BfsState) : option BfsState :=
  match fuel with
  | O => None
  | S fuel =>
      match b_queue st with
      | [] => Some st
      | currentNode :: queue =>
          let st1 := mkBfsState (b_visited st) queue
                       (b_visitOrder st ++ [currentNode])
                       (b_parent st) (b_distance st) (b_found st) in
          if is_target targetNodeId currentNode then
            Some (mkBfsState (b_visited st1) (b_queue st1) (b_visitOrder st1)
                             (b_parent st1) (b_distance st1) true)
          else
            let neighbors := sortNeighbors (getNeighbors g currentNode) in
            bfs_loop fuel g targetNodeId
                     (foldl (bfs_visit currentNode) st1 neighbors)
      end
  end.

Definition bfs_init (startNodeId : string) : BfsState :=
  mkBfsState {[startNodeId]} [startNodeId] []
             {[startNodeId := None]} {[startNodeId := Some 0%nat]} false.

(** Every id that can enter the queue: the start and the endpoints of
    the edges. *)
Definition bfs_universe (g : Graph) (startNodeId : string) : gset string :=
  {[startNodeId]} ∪ list_to_set (source <$> mvalues (edges g))
                  ∪ list_to_set (target <$> mvalues (edges g)).

Record BfsResult := mkBfsResult {
  bfs_startNode : string;
  bfs_targetNode : option string;
  bfs_visitOrder : list string;
  bfs_path : list string;
  bfs_found : bool;
  bfs_distance : option Z;          (* [-1], a hop count, or not a number *)
  bfs_distances : gmap string (option nat);
  bfs_nodesVisited : nat;
  bfs_totalNodes : nat;
  bfs_pathLength : nat
}.

(** [bfs] has no [throw] statement: it either returns a record or, in
    the model, runs out of fuel. *)
Definition bfs (g : Graph) (startNodeId : string) (targetNodeId : option string)
    : option BfsResult :=
  match bfs_loop (2 + size (bfs_universe g startNodeId)) g targetNodeId
                 (bfs_init startNodeId) with
  | None => None
  | Some st =>
      let finish (finalPath : list string) (shortestDistance : option Z) :=
        Some (mkBfsResult startNodeId targetNodeId (b_visitOrder st) finalPath
                (if falsy targetNodeId then true else b_found st)
                shortestDistance (b_distance st)
                (size (b_visited st)) (length (nodes g)) (length finalPath)) in
      if negb (falsy targetNodeId) && b_found st then
        match reconstructPath (b_parent st) startNodeId
                              (default "" targetNodeId) with
        | None => None
        | Some finalPath =>
            finish finalPath
              (Z.of_nat <$> mjoin (b_distance st !! default "" targetNodeId))
        end
      else if falsy targetNodeId then finish (b_visitOrder st) (Some (-1))
      else finish [] (Some (-1))
  end.

(** *** [dfs] *)

Record DfsState := mkDfsState {
  d_stack : list string;            (* top of the stack first *)
  d_visited : gset string;
  d_visitOrder : list string;
  d_parent : gmap string (option string);
  d_found : bool
}.

(** The body of [for (let i = neighbors.length - 1; i >= 0; i--)]. *)
Definition dfs_push (currentNode : string) (st : DfsState) (neighbor : string)
    : DfsState :=
  if bool_decide (neighbor ∈ d_visited st) then st
  else
    mkDfsState (neighbor :: d_stack st) (d_visited st) (d_visitOrder st)
               (if bool_decide (is_Some (d_parent st !! neighbor))
                then d_parent st
                else <[neighbor := Some currentNode]> (d_parent st))
               (d_found st).

Fixpoint dfs_loop (fuel : nat) (g : Graph) (targetNodeId : option string)
    (st : DfsState) : option DfsState :=
  match fuel with
  | O => None
  | S fuel =>
      match d_stack st with
      | [] => Some st
      | currentNode :: stack =>
          if bool_decide (currentNode ∈ d_visited st) then
            dfs_loop fuel g targetNodeId
              (mkDfsState stack (d_visited st) (d_visitOrder st)
                          (d_parent st) (d_found st))
          else
            let st1 := mkDfsState stack ({[currentNode]} ∪ d_visited st)
                         (d_visitOrder st ++ [currentNode])
                         (d_parent st) (d_found st) in
            if is_target targetNodeId currentNode then
              Some (mkDfsState (d_stack st1) (d_visited st1) (d_visitOrder st1)
                               (d_parent st1) true)
            else
              let neighbors := sortNeighbors (getNeighbors g currentNode) in
              dfs_loop fuel g targetNodeId
                       (foldl (dfs_push currentNode) st1 (rev neighbors))
      end
  end.

Record DfsResult := mkDfsResult {
  dfs_startNode : string;
  dfs_targetNode : option string;
  dfs_visitOrder : list string;
  dfs_path : list string;
  dfs_found : bool;
  dfs_distance : Z;
  dfs_isComplete : bool;
  dfs_nodesVisited : nat;
  dfs_totalNodes : nat;
  dfs_pathLength : nat
}.

(** The two guards that open [dfs]. *)
Definition dfs_guard (g : Graph) (startNodeId : string)
    (targetNodeId : option string) : bool :=
  match getNode g startNodeId with
  | None => false
  | Some _ =>
      if negb (falsy targetNodeId)
      then match getNode g (default "" targetNodeId) with
           | None => false
           | Some _ => true
           end
      else true
  end.

Definition dfs (g : Graph) (startNodeId : string) (targetNodeId : option string)
    : option (result DfsResult) :=
  if negb (dfs_guard g startNodeId targetNodeId) then Some (Throw UnknownNodeError)
  else
    match dfs_loop (2 + 2 * length (edges g)) g targetNodeId
            (mkDfsState [startNodeId] ∅ [] {[startNodeId := None]} false) with
    | None => None
    | Some st =>
        let finish (finalPath : list string) (distance : Z) :=
          Some (Ok (mkDfsResult startNodeId targetNodeId (d_visitOrder st)
                      finalPath
                      (if falsy targetNodeId then true else d_found st)
                      distance (falsy targetNodeId)
                      (size (d_visited st)) (length (nodes g))
                      (length finalPath))) in
        if negb (falsy targetNodeId) then
          if d_found st then
            match reconstructPath (d_parent st) startNodeId
                                  (default "" targetNodeId) with
            | None => None
            | Some finalPath =>
                finish finalPath
                  (if bool_decide (finalPath = []) then -1
                   else Z.of_nat (length finalPath) - 1)
            end
          else finish [] (-1)
        else
          finish (d_visitOrder st)
                 (if bool_decide (d_visitOrder st = []) then 0
                  else Z.of_nat (length (d_visitOrder st)) - 1)
    end.

End Algorithms.

(** *** [kruskal] *)

Inductive Action := Added | Rejected.

Record KruskalStep := mkKruskalStep {
  ks_edge : Edge;
  ks_action : Action;
  ks_currentMST : list Edge
}.

Record KruskalState := mkKruskalState {
  k_unionFind : UnionFind;
  k_mst : list Edge;
  k_total : number;
  k_stepsAcc : list KruskalStep
}.

Record KruskalResult := mkKruskalResult {
  k_mstEdges : list Edge;
  k_totalWeight : number;
  k_steps : list KruskalStep;
  k_originalEdges : nat;
  k_totalNodes : nat
}.

(** [.sort((a, b) => a.weight - b.weight)], stable. *)
Fixpoint weight_insert (e : Edge) (l : list Edge) : list Edge :=
  match l with
  | [] => [e]
  | y :: l' =>
      if weight e <=? weight y then e :: y :: l' else y :: weight_insert e l'
  end.

Definition sortByWeight (l : list Edge) : list Edge := foldr weight_insert [] l.

(** The body of [for (const edge of edges)], up to the test for [break]. *)
Definition kruskal_step (st : KruskalState) (edge : Edge) : option KruskalState :=
  match connected (k_unionFind st) (Some (source edge)) (Some (target edge)) with
  | None => None
  | Some (true, uf1) =>
      Some (mkKruskalState uf1 (k_mst st) (k_total st)
              (k_stepsAcc st ++ [mkKruskalStep edge Rejected (k_mst st)]))
  | Some (false, uf1) =>
      match union uf1 (Some (source edge)) (Some (target edge)) with
      | None => None
      | Some uf2 =>
          Some (mkKruskalState uf2 (k_mst st ++ [edge])
                  (number_add (k_total st) (Num (weight edge)))
                  (k_stepsAcc st
                     ++ [mkKruskalStep edge Added (k_mst st ++ [edge])]))
      end
  end.

Fixpoint kruskal_loop (nodeCount : Z) (es : list Edge) (st : KruskalState)
    : option KruskalState :=
  match es with
  | [] => Some st
  | edge :: es' =>
      match kruskal_step st edge with
      | None => None
      | Some st1 =>
          if bool_decide (Z.of_nat (length (k_mst st1)) = nodeCount - 1)
          then Some st1
          else kruskal_loop nodeCount es' st1
      end
  end.

(** [parseFloat(edge.weight)] gives back the weight, a Number already.
    The [efficiency] statistic, a ratio, is left out. *)
Definition kruskal (g : Graph) : option (result KruskalResult) :=
  if negb (isWeighted g) then Some (Throw UnweightedGraphError)
  else
    let es := sortByWeight (getEdges g) in
    let uf := newUnionFind (mkeys (nodes g)) in
    match kruskal_loop (msize (nodes g)) es (mkKruskalState uf [] (Num 0) []) with
    | None => None
    | Some st =>
        Some (Ok (mkKruskalResult (k_mst st) (k_total st) (k_stepsAcc st)
                    (length es) (length (nodes g))))
    end.

(** *** [prim] *)

(** [a < b] on numbers that may be [Infinity]. *)
Definition ext_lt (a b : ext) : bool :=
  match a, b with
  | Finite x, Finite y => x <? y
  | Finite _, Infinity => true
  | Infinity, _ => false
  end.

(** The body of [for (const neighbor of neighbors)] in the scan. *)
Definition prim_consider (g : Graph) (inMST : list string) (nodeInMST : string)
    (acc : option Edge * ext) (neighbor : string) : option Edge * ext :=
  if bool_decide (neighbor ∈ inMST) then acc
  else
    let w := getEdgeWeight g nodeInMST neighbor in
    if ext_lt w acc.2 then
      (match findEdge g nodeInMST neighbor with
       | Some e => Some e
       | None => acc.1
       end, w)
    else acc.

(** The two nested loops that look for the lightest boundary edge;
    the result is [(minEdge, minWeight)]. *)
Definition prim_scan (g : Graph) (inMST : list string) : option Edge * ext :=
  foldl (λ acc nodeInMST,
           foldl (prim_consider g inMST nodeInMST) acc (getNeighbors g nodeInMST))
        (None, Infinity) inMST.

Record PrimStep := mkPrimStep {
  ps_edge : Edge;
  ps_newNode : string;
  ps_currentMST : list Edge;
  ps_nodesInMST : list string
}.

Record PrimState := mkPrimState {
  p_inMST : list string;              (* a [Set], in insertion order *)
  p_mst : list Edge;
  p_total : number;
  p_stepsAcc : list PrimStep
}.

Fixpoint prim_loop (fuel : nat) (g : Graph) (st : PrimState) : option PrimState :=
  if bool_decide (length (p_inMST st) < length (nodes g))%nat then
    match fuel with
    | O => None
    | S fuel =>
        match prim_scan g (p_inMST st) with
        | (Some minEdge, minWeight) =>
            let mstEdges := p_mst st ++ [minEdge] in
            let newNode := if bool_decide (source minEdge ∈ p_inMST st)
                           then target minEdge else source minEdge in
            let inMST := set_add (p_inMST st) newNode in
            prim_loop fuel g
              (mkPrimState inMST mstEdges
                 (number_add (p_total st) (number_of_ext minWeight))
                 (p_stepsAcc st ++ [mkPrimStep minEdge newNode mstEdges inMST]))
        | (None, _) => Some st
        end
    end
  else Some st.

Record PrimResult := mkPrimResult {
  p_startNode : option string;        (* absent when the graph is empty *)
  p_mstEdges : list Edge;
  p_totalWeight : number;
  p_steps : list PrimStep;
  p_totalNodes : nat;
  p_nodesReached : nat;
  p_isComplete : bool
}.

Definition prim (g : Graph) (startNodeId : option string)
    : option (result PrimResult) :=
  if negb (isWeighted g) then Some (Throw UnweightedGraphError)
  else
    match mkeys (nodes g) with
    | [] => Some (Ok (mkPrimResult None [] (Num 0) [] 0 0 true))
    | first :: _ =>
        let start := if falsy startNodeId then first
                     else default "" startNodeId in
        match prim_loop (length (nodes g)) g
                (mkPrimState [start] [] (Num 0) []) with
        | None => None
        | Some st =>
            Some (Ok (mkPrimResult (Some start) (p_mst st) (p_total st)
                        (p_stepsAcc st) (length (nodes g))
                        (length (p_inMST st))
                        (bool_decide (length (p_inMST st) = length (nodes g)))))
        end
    end.

(** *** [areMSTsIdentical] and [compareMST] *)

(** The numbers that [Math.min] and [Math.max] work on here. *)
Inductive jsnum :=
  | JNaN
  | JNum (n : N).

Definition is_letter (c : Ascii.ascii) : bool :=
  let n := Ascii.N_of_ascii c in
  (((65 <=? n) && (n <=? 90)) || ((97 <=? n) && (n <=? 122)))%N.

Definition all_digits (s : string) : bool :=
  forallb is_digit (String.list_ascii_of_string s).

(** The conversion of a string to a number that [Math.min] applies to its
    arguments, on the part of its domain that the ids of this program use:
    - the empty string is [0];
    - a string of decimal digits is its value (exact below [2^53]);
    - a string that starts with a letter other than [I] is no numeric
      literal, hence [NaN].
    [None] marks the strings outside this part (signs, fractions,
    exponents, radix prefixes, surrounding blanks, [Infinity]). *)
Definition StringToNumber (s : string) : option jsnum :=
  match s with
  | EmptyString => Some (JNum 0)
  | String c _ =>
      if all_digits s then
        let n := leading_number s 0 in
        if (n <? 2 ^ 53)%N then Some (JNum n) else None
      else if is_letter c && negb (bool_decide (Ascii.N_of_ascii c = 73%N)) then Some JNaN
      else None
  end.

Definition js_min (a b : jsnum) : jsnum :=
  match a, b with
  | JNum x, JNum y => JNum (N.min x y)
  | _, _ => JNaN
  end.

Definition js_max (a b : jsnum) : jsnum :=
  match a, b with
  | JNum x, JNum y => JNum (N.max x y)
  | _, _ => JNaN
  end.

(** The text of a number inside a template literal. *)
Definition jsnum_to_string (x : jsnum) : string :=
  match x with
  | JNaN => "NaN"
  | JNum n => pretty n
  end.

(** [`${Math.min(source, target)}-${Math.max(source, target)}-${weight}`] *)
Definition normalize (edge : Edge) : option string :=
  match StringToNumber (source edge), StringToNumber (target edge) with
  | Some s, Some t =>
      Some (jsnum_to_string (js_min s t) +:+ "-" +:+
            jsnum_to_string (js_max s t) +:+ "-" +:+
            Number_toString (weight edge))
  | _, _ => None
  end.

Definition areMSTsIdentical (edges1 edges2 : list Edge) : option bool :=
  if negb (bool_decide (length edges1 = length edges2)) then Some false
  else
    match mapM normalize edges1, mapM normalize edges2 with
    | Some keys1, Some keys2 =>
        let set1 : gset string := list_to_set keys1 in
        let set2 : gset string := list_to_set keys2 in
        if negb (bool_decide (size set1 = size set2)) then Some false
        else Some (forallb (λ k, bool_decide (k ∈ set2)) (elements set1))
    | _, _ => None
    end.

Record MSTComparison := mkMSTComparison {
  c_kruskal : KruskalResult;
  c_prim : PrimResult;
  c_sameWeight : bool;
  c_kruskalEdges : nat;
  c_primEdges : nat;
  c_identical : bool
}.

(** [Math.abs(k - p) < 0.001]: the difference of two integers is [0] or
    at least [1], also when it is rounded; the difference of an infinity
    and a Number is an infinity, that of two equal infinities is [NaN],
    and neither is less than [0.001]. *)
Definition sameWeight (k p : number) : bool :=
  match k, p with
  | Num x, Num y => bool_decide (x = y)
  | _, _ => false
  end.

(** The [catch] clause rethrows with a longer message; the error stays the
    one that [kruskal] or [prim] raised. *)
Definition compareMST (g : Graph) : option (result MSTComparison) :=
  match kruskal g with
  | None => None
  | Some (Throw e) => Some (Throw e)
  | Some (Ok kr) =>
      match prim g None with
      | None => None
      | Some (Throw e) => Some (Throw e)
      | Some (Ok pr) =>
          match areMSTsIdentical (k_mstEdges kr) (p_mstEdges pr) with
          | None => None
          | Some same =>
              Some (Ok (mkMSTComparison kr pr
                          (sameWeight (k_totalWeight kr) (p_totalWeight pr))
                          (length (k_mstEdges kr)) (length (p_mstEdges pr))
                          same))
          end
      end
  end.

(** ** [class Graph], continued *)

Definition getNodes (g : Graph) : list Node := mvalues (nodes g).

Definition getNodeEdges (g : Graph) (nodeId : string) : list Edge :=
  filter (λ e, source e = nodeId ∨ (isDirected g = false ∧ target e = nodeId))
         (mvalues (edges g)).

(** [clone]: the copy is filled through [addNode] and [addEdge], so it
    throws what they throw; the counters are copied at the end. *)
Definition clone_node (acc : result Graph) (node : Node) : result Graph :=
  match acc with
  | Throw e => Throw e
  | Ok h =>
      match addNode h (Some (n_id node)) (n_label node) (n_x node) (n_y node)
                    (n_data node) with
      | (h', Ok _) => Ok h'
      | (_, Throw e) => Throw e
      end
  end.

Definition clone_edge (acc : result Graph) (edge : Edge) : result Graph :=
  match acc with
  | Throw e => Throw e
  | Ok h =>
      match addEdge h (source edge) (target edge) (weight edge) (e_label edge)
                    (Some (e_id edge)) with
      | (h', Ok _) => Ok h'
      | (_, Throw e) => Throw e
      end
  end.

Definition clone (g : Graph) : result Graph :=
  let newGraph0 := setGraphType newGraph (isDirected g) (isWeighted g) in
  match foldl clone_edge (foldl clone_node (Ok newGraph0) (mvalues (nodes g)))
              (mvalues (edges g)) with
  | Throw e => Throw e
  | Ok h =>
      Ok (mkGraph (nodes h) (edges h) (isDirected h) (isWeighted h)
                  (nodeIdCounter g) (edgeIdCounter g))
  end.

(** [if (!visited.has(neighbor)) stack.push(neighbor)]; the top of the
    stack is the head of the list. *)
Definition push_unvisited (visited : gset string) (stack : list string)
    (neighbor : string) : list string :=
  if bool_decide (neighbor ∈ visited) then stack else neighbor :: stack.

(** The [while] loop of [isConnected]. *)
Fixpoint isConnected_loop (fuel : nat) (g : Graph) (stack : list string)
    (visited : gset string) : option (gset string) :=
  match fuel with
  | O => None
  | S fuel =>
      match stack with
      | [] => Some visited
      | nodeId :: stack =>
          if bool_decide (nodeId ∈ visited) then isConnected_loop fuel g stack visited
          else
            let visited := {[nodeId]} ∪ visited in
            isConnected_loop fuel g
              (foldl (push_unvisited visited) stack (getNeighbors g nodeId))
              visited
      end
  end.

(** [isConnected]: with fewer than two nodes the answer is [true];
    otherwise the search starts from the first key of the node map. *)
Definition isConnected (g : Graph) : option bool :=
  match mkeys (nodes g) with
  | first :: _ :: _ =>
      match isConnected_loop (2 + 2 * length (edges g)) g [first] ∅ with
      | Some visited =>
          Some (bool_decide (Z.of_nat (size visited) = msize (nodes g)))
      | None => None
      end
  | _ => Some true
  end.

(** ** [class GraphAlgorithms], continued *)

Section More_algorithms.

Variable localeCompare : string → string → Z.

Record ShortestPath := mkShortestPath {
  sp_startNode : string;
  sp_targetNode : option string;
  sp_path : list string;
  sp_distance : option Z;
  sp_found : bool;
  sp_hops : option Z
}.

Definition shortestPath (g : Graph) (startNodeId : string)
    (targetNodeId : option string) : option ShortestPath :=
  match bfs localeCompare g startNodeId targetNodeId with
  | None => None
  | Some bfsResult =>
      Some (mkShortestPath startNodeId targetNodeId (bfs_path bfsResult)
              (bfs_distance bfsResult) (bfs_found bfsResult)
              (bfs_distance bfsResult))
  end.

Record HasPath := mkHasPath {
  hp_hasPath : bool;
  hp_path : list string;
  hp_distance : option Z
}.

Definition hasPath (g : Graph) (startNodeId : string)
    (targetNodeId : option string) : option HasPath :=
  match bfs localeCompare g startNodeId targetNodeId with
  | None => None
  | Some bfsResult =>
      Some (mkHasPath (bfs_found bfsResult) (bfs_path bfsResult)
              (bfs_distance bfsResult))
  end.

Record ShortestDistances := mkShortestDistances {
  sd_startNode : string;
  sd_distances : gmap string (option nat);
  sd_reachableNodes : nat
}.

Definition shortestDistances (g : Graph) (startNodeId : string)
    : option ShortestDistances :=
  match bfs localeCompare g startNodeId None with
  | None => None
  | Some bfsResult =>
      Some (mkShortestDistances startNodeId (bfs_distances bfsResult)
              (size (bfs_distances bfsResult)))
  end.

End More_algorithms.

(** *** [connectivityAnalysis] *)

(** The inner [while] loop: it extends [visited] and collects the nodes of
    one component in the order of their visit. *)
Fixpoint component_loop (fuel : nat) (g : Graph) (stack : list string)
    (visited : gset string) (component : list string)
    : option (gset string * list string) :=
  match fuel with
  | O => None
  | S fuel =>
      match stack with
      | [] => Some (visited, component)
      | current :: stack =>
          if bool_decide (current ∈ visited)
          then component_loop fuel g stack visited component
          else
            let visited := {[current]} ∪ visited in
            component_loop fuel g
              (foldl (push_unvisited visited) stack (getNeighbors g current))
              visited (component ++ [current])
      end
  end.

(** The body of [for (const nodeId of this.graph.nodes.keys())]. *)
Definition component_step (g : Graph)
    (acc : option (gset string * list (list string))) (nodeId : string)
    : option (gset string * list (list string)) :=
  match acc with
  | None => None
  | Some (visited, components) =>
      if bool_decide (nodeId ∈ visited) then Some (visited, components)
      else
        match component_loop (2 + 2 * length (edges g)) g [nodeId] visited [] with
        | None => None
        | Some (visited, component) => Some (visited, components ++ [component])
        end
  end.

Record Connectivity := mkConnectivity {
  ca_isConnected : bool;
  ca_componentCount : nat;
  ca_components : list (list string);
  ca_largestComponent : list string
}.

(** [components.reduce((largest, current) =>
      current.length > largest.length ? current : largest, [])] *)
Definition largest_of (components : list (list string)) : list string :=
  foldl (λ largest current,
           if bool_decide (length largest < length current)%nat
           then current else largest)
        [] components.

Definition connectivityAnalysis (g : Graph) : option Connectivity :=
  match foldl (component_step g) (Some (∅, [])) (mkeys (nodes g)) with
  | None => None
  | Some (_, components) =>
      Some (mkConnectivity (bool_decide (length components ≤ 1)%nat)
              (length components) components (largest_of components))
  end.

(** ** [class GraphHistory] *)

(** [array[i]] for an integer [i]; [None] is [undefined]. *)
Definition js_index {A} (l : list A) (i : Z) : option A :=
  if bool_decide (i < 0) then None else l !! Z.to_nat i.

(** [array.slice(0, end)] for an integer [end]: a negative [end] counts
    from the end of the array. *)
Definition js_slice0 {A} (l : list A) (end_ : Z) : list A :=
  if bool_decide (end_ < 0)
  then take (Z.to_nat (Z.max (Z.of_nat (length l) + end_) 0)) l
  else take (Z.to_nat end_) l.

(** [array.findIndex(p)]; [None] is the answer [-1]. *)
Fixpoint findIndex {A} (p : A → bool) (l : list A) : option nat :=
  match l with
  | [] => None
  | x :: l' => if p x then Some 0%nat else S <$> findIndex p l'
  end.

Section History.

(** The results of an algorithm run and the statistics of a graph are
    stored in a state and handed back with it; the operations modelled
    here do not look into them.  [getStatistics] computes ratios in
    floating point.  The three are parameters. *)
Variable Results : Type.
Variable Statistics : Type.
Variable getStatistics : Graph → Statistics.

(** A state of the history.  [parent] exists in the states made by
    [createBranch] only; [image] is [null] until a thumbnail is stored.
    The snapshot shares its node and edge records with the graph it was
    taken from. *)
Record HistoryState := mkHistoryState {
  hs_id : string;
  hs_timestamp : string;
  hs_description : string;
  hs_graph : Snapshot;
  hs_algorithmResults : option Results;
  hs_statistics : Statistics;
  hs_image : option string;
  hs_parent : option string
}.

(** The fields that the operations change; [maxHistorySize] is set by
    the constructor and never assigned again. *)
Record GraphHistory := mkGraphHistory {
  history : list HistoryState;
  currentIndex : Z
}.

Definition maxHistorySize : Z := 50.

(** [loadFromStorage], on what [JSON.parse] gave for the stored text, if
    there was one and it could be read:
    [parsed.history || []] and [parsed.currentIndex || -1]. *)
Definition loadFromStorage (parsed : option (list HistoryState * Z)) : GraphHistory :=
  match parsed with
  | Some (states, index) =>
      mkGraphHistory states (if bool_decide (index = 0) then -1 else index)
  | None => mkGraphHistory [] (-1)
  end.

(** The constructor. *)
Definition newGraphHistory (parsed : option (list HistoryState * Z)) : GraphHistory :=
  loadFromStorage parsed.

(** [saveState]: the id and the timestamp come from [generateId()] and
    the clock.  Writing to [localStorage] leaves the object as it is. *)
Definition saveState (h : GraphHistory) (graph : Graph)
    (algorithmResults : option Results) (description : string)
    (id timestamp : string) : GraphHistory * HistoryState :=
  let state :=
    mkHistoryState id timestamp
      (str_or description
              ("Estado " +:+
               Number_toString (Z.of_nat (length (history h)) + 1)))
      (toJSON graph) algorithmResults (getStatistics graph) None None in
  let kept :=
    if bool_decide (currentIndex h < Z.of_nat (length (history h)) - 1)
    then js_slice0 (history h) (currentIndex h + 1)
    else history h in
  let pushed := kept ++ [state] in
  let index := Z.of_nat (length pushed) - 1 in
  if bool_decide (maxHistorySize < Z.of_nat (length pushed))
  then (mkGraphHistory (tail pushed) (index - 1), state)
  else (mkGraphHistory pushed index, state).

(** The getters answer [None] for both [null] and [undefined]. *)
Definition getPreviousState (h : GraphHistory) : GraphHistory * option HistoryState :=
  if bool_decide (0 < currentIndex h)
  then (mkGraphHistory (history h) (currentIndex h - 1),
        js_index (history h) (currentIndex h - 1))
  else (h, None).

Definition getNextState (h : GraphHistory) : GraphHistory * option HistoryState :=
  if bool_decide (currentIndex h < Z.of_nat (length (history h)) - 1)
  then (mkGraphHistory (history h) (currentIndex h + 1),
        js_index (history h) (currentIndex h + 1))
  else (h, None).

Definition getState (h : GraphHistory) (id : string) : option HistoryState :=
  List.find (λ state, bool_decide (hs_id state = id)) (history h).

Definition getCurrentState (h : GraphHistory) : option HistoryState :=
  if bool_decide (0 ≤ currentIndex h)
     && bool_decide (currentIndex h < Z.of_nat (length (history h)))
  then js_index (history h) (currentIndex h)
  else None.

Definition getAllStates (h : GraphHistory) : list HistoryState := history h.

Definition removeState (h : GraphHistory) (id : string) : GraphHistory * bool :=
  match findIndex (λ state, bool_decide (hs_id state = id)) (history h) with
  | Some index =>
      (mkGraphHistory (delete index (history h))
         (if bool_decide (Z.of_nat index ≤ currentIndex h)
          then Z.max 0 (currentIndex h - 1)
          else currentIndex h),
       true)
  | None => (h, false)
  end.

Definition clearHistory (h : GraphHistory) : GraphHistory :=
  mkGraphHistory [] (-1).

Definition canUndo (h : GraphHistory) : bool := bool_decide (0 < currentIndex h).

Definition canRedo (h : GraphHistory) : bool :=
  bool_decide (currentIndex h < Z.of_nat (length (history h)) - 1).

(** [createBranch]: a copy of the current state with a new id, timestamp
    and description, and the id of the current state as [parent]. *)
Definition createBranch (h : GraphHistory) (description : string)
    (id timestamp : string) : GraphHistory * option HistoryState :=
  match getCurrentState h with
  | None => (h, None)
  | Some currentState =>
      let branchState :=
        mkHistoryState id timestamp
          (str_or description ("Rama de " +:+ hs_description currentState))
          (hs_graph currentState) (hs_algorithmResults currentState)
          (hs_statistics currentState) (hs_image currentState)
          (Some (hs_id currentState)) in
      let pushed := history h ++ [branchState] in
      (mkGraphHistory pushed (Z.of_nat (length pushed) - 1), Some branchState)
  end.

(** The calls that change a history, as data. *)
Inductive HistoryCall :=
  | HSaveState (graph : Graph) (algorithmResults : option Results)
               (description : string) (id timestamp : string)
  | HGetPreviousState
  | HGetNextState
  | HRemoveState (id : string)
  | HClearHistory
  | HCreateBranch (description : string) (id timestamp : string).

Definition history_exec (h : GraphHistory) (c : HistoryCall) : GraphHistory :=
  match c with
  | HSaveState graph results description id timestamp =>
      (saveState h graph results description id timestamp).1
  | HGetPreviousState => (getPreviousState h).1
  | HGetNextState => (getNextState h).1
  | HRemoveState id => (removeState h id).1
  | HClearHistory => clearHistory h
  | HCreateBranch description id timestamp =>
      (createBranch h description id timestamp).1
  end.

End History.

Arguments mkHistoryState {Results Statistics}.
Arguments hs_id {Results Statistics}.
Arguments hs_timestamp {Results Statistics}.
Arguments hs_description {Results Statistics}.
Arguments hs_graph {Results Statistics}.
Arguments hs_algorithmResults {Results Statistics}.
Arguments hs_statistics {Results Statistics}.
Arguments hs_image {Results Statistics}.
Arguments hs_parent {Results Statistics}.
Arguments mkGraphHistory {Results Statistics}.
Arguments history {Results Statistics}.
Arguments currentIndex {Results Statistics}.
Arguments loadFromStorage {Results Statistics}.
Arguments newGraphHistory {Results Statistics}.
Arguments saveState {Results Statistics}.
Arguments getPreviousState {Results Statistics}.
Arguments getNextState {Results Statistics}.
Arguments getState {Results Statistics}.
Arguments getCurrentState {Results Statistics}.
Arguments getAllStates {Results Statistics}.
Arguments removeState {Results Statistics}.
Arguments clearHistory {Results Statistics}.
Arguments canUndo {Results Statistics}.
Arguments canRedo {Results Statistics}.
Arguments createBranch {Results Statistics}.
Arguments HSaveState {Results}.
Arguments HGetPreviousState {Results}.
Arguments HGetNextState {Results}.
Arguments HRemoveState {Results}.
Arguments HClearHistory {Results}.
Arguments HCreateBranch {Results}.
Arguments history_exec {Results Statistics}.

(** ** Searches for cycles *)

(** The depth of the recursion of [hasCycleDFS] and of [dfsForCycles]:
    a call is made on an id that is not visited and visits it, and an id
    is a key of [nodes] or an end of an edge. *)
Definition cycle_fuel (g : Graph) : nat :=
  S (length (nodes g) + 2 * length (edges g)).

(** *** [Graph.hasCycles] *)

Record CycleSearch := mkCycleSearch {
  hc_visited : gset string;
  hc_recursionStack : gset string
}.

(** The loop of [hasCycleDFS(nodeId, parent)] over the neighbours that
    are left, and what follows it; [call st neighbor] is
    [hasCycleDFS(neighbor, nodeId)].  The answer comes with the sets as
    the call leaves them. *)
Fixpoint hasCycleDFS_loop (g : Graph)
    (call : CycleSearch → string → option (CycleSearch * bool))
    (nodeId : string) (parent : option string)
    (neighbors : list string) (st : CycleSearch)
    : option (CycleSearch * bool) :=
  match neighbors with
  | [] =>
      Some (mkCycleSearch (hc_visited st) (hc_recursionStack st ∖ {[nodeId]}),
            false)
  | neighbor :: rest =>
      if negb (isDirected g) && bool_decide (parent = Some neighbor)
      then hasCycleDFS_loop g call nodeId parent rest st
      else if negb (bool_decide (neighbor ∈ hc_visited st))
      then match call st neighbor with
           | Some (st', true) => Some (st', true)
           | Some (st', false) => hasCycleDFS_loop g call nodeId parent rest st'
           | None => None
           end
      else if bool_decide (neighbor ∈ hc_recursionStack st)
      then Some (st, true)
      else hasCycleDFS_loop g call nodeId parent rest st
  end.

(** [hasCycleDFS]; [parent] is [None] for [null]. *)
Fixpoint hasCycleDFS (g : Graph) (fuel : nat) (st : CycleSearch)
    (nodeId : string) (parent : option string)
    : option (CycleSearch * bool) :=
  match fuel with
  | O => None
  | S fuel' =>
      hasCycleDFS_loop g
        (λ st' neighbor, hasCycleDFS g fuel' st' neighbor (Some nodeId))
        nodeId parent (getNeighbors g nodeId)
        (mkCycleSearch (hc_visited st ∪ {[nodeId]})
                       (hc_recursionStack st ∪ {[nodeId]}))
  end.

(** The loop of [hasCycles] over the keys of [nodes]. *)
Fixpoint hasCycles_loop (g : Graph) (fuel : nat) (keys : list string)
    (st : CycleSearch) : option bool :=
  match keys with
  | [] => Some false
  | nodeId :: rest =>
      if negb (bool_decide (nodeId ∈ hc_visited st))
      then match hasCycleDFS g fuel st nodeId None with
           | Some (_, true) => Some true
           | Some (st', false) => hasCycles_loop g fuel rest st'
           | None => None
           end
      else hasCycles_loop g fuel rest st
  end.

Definition hasCycles (g : Graph) : option bool :=
  if bool_decide (msize (nodes g) ≤ 2) then Some false
  else hasCycles_loop g (cycle_fuel g) (mkeys (nodes g)) (mkCycleSearch ∅ ∅).

(** *** [GraphAlgorithms.detectCycles] *)

Record CycleReport := mkCycleReport {
  dc_visited : gset string;
  dc_cycles : list (list string)
}.

(** [path.indexOf(x)]; [None] is the answer [-1]. *)
Definition indexOf (x : string) (path : list string) : option nat :=
  findIndex (λ y, bool_decide (y = x)) path.

(** The loop of [dfsForCycles(node, path, parent)] over the neighbours
    that are left; [path] has [node] as its last member, and
    [call st neighbor] is [dfsForCycles(neighbor, [...path], node)]. *)
Fixpoint dfsForCycles_loop (g : Graph)
    (call : CycleReport → string → option CycleReport)
    (path : list string) (parent : option string)
    (neighbors : list string) (st : CycleReport) : option CycleReport :=
  match neighbors with
  | [] => Some st
  | neighbor :: rest =>
      if bool_decide (parent = Some neighbor) && negb (isDirected g)
      then dfsForCycles_loop g call path parent rest st
      else match indexOf neighbor path with
           | Some pathIndex =>
               let cycle := drop pathIndex path ++ [neighbor] in
               dfsForCycles_loop g call path parent rest
                 (mkCycleReport (dc_visited st) (dc_cycles st ++ [cycle]))
           | None =>
               if negb (bool_decide (neighbor ∈ dc_visited st))
               then match call st neighbor with
                    | Some st' => dfsForCycles_loop g call path parent rest st'
                    | None => None
                    end
               else dfsForCycles_loop g call path parent rest st
           end
  end.

(** [dfsForCycles]: the callee owns the copy of the path it is given. *)
Fixpoint dfsForCycles (g : Graph) (fuel : nat) (st : CycleReport)
    (node : string) (path : list string) (parent : option string)
    : option CycleReport :=
  match fuel with
  | O => None
  | S fuel' =>
      let path := path ++ [node] in
      dfsForCycles_loop g
        (λ st' neighbor, dfsForCycles g fuel' st' neighbor path (Some node))
        path parent (getNeighbors g node)
        (mkCycleReport (dc_visited st ∪ {[node]}) (dc_cycles st))
  end.

(** The loop of [detectCycles] over the keys of [nodes]. *)
Fixpoint detectCycles_loop (g : Graph) (fuel : nat) (keys : list string)
    (st : CycleReport) : option CycleReport :=
  match keys with
  | [] => Some st
  | nodeId :: rest =>
      if negb (bool_decide (nodeId ∈ dc_visited st))
      then match dfsForCycles g fuel st nodeId [] None with
           | Some st' => detectCycles_loop g fuel rest st'
           | None => None
           end
      else detectCycles_loop g fuel rest st
  end.

Definition detectCycles (g : Graph) : option (list (list string)) :=
  dc_cycles <$>
    detectCycles_loop g (cycle_fuel g) (mkeys (nodes g)) (mkCycleReport ∅ []).

(** ** Vocabulary of the properties *)



(** A JavaScript [Map] holds one entry per key. *)
Definition maps_ok (g : Graph) : Prop :=
  NoDup (mkeys (nodes g)) ∧ NoDup (mkeys (edges g)).

(** Invariant 1 of the data model. *)
Definition refs_ok (g : Graph) : Prop :=
  ∀ e, e ∈ mvalues (edges g) →
       mhas (nodes g) (source e) = true ∧ mhas (nodes g) (target e) = true.

(** The calls that cannot introduce a dangling endpoint in [g]. *)
Definition endpoint_safe (g : Graph) (m : Mutation) : Prop :=
  match m with
  | MUpdateEdge _ p =>
      (∀ s, ep_source p = Some s → mhas (nodes g) s = true) ∧
      (∀ t, ep_target p = Some t → mhas (nodes g) t = true)
  | MFromJSON data =>
      ∀ e, e ∈ s_edges data →
           source e ∈ n_id <$> s_nodes data ∧ target e ∈ n_id <$> s_nodes data
  | _ => True
  end.

(** Every stored weight is [1]. *)
Definition unit_weights (g : Graph) : Prop :=
  ∀ e, e ∈ mvalues (edges g) → weight e = 1.

(** The calls that store no weight of their own choice and keep the graph
    unweighted. *)
Definition weight_neutral (m : Mutation) : Prop :=
  match m with
  | MUpdateEdge _ p => ep_weight p = None ∨ ep_weight p = Some 1
  | MSetGraphType _ wtd => wtd = false
  | MFromJSON data =>
      s_isWeighted data = false ∧ ∀ e, e ∈ s_edges data → weight e = 1
  | _ => True
  end.

(** Every node and edge is stored under its own [id], and the counters are
    not the falsy number. *)
Definition keyed (g : Graph) : Prop :=
  maps_ok g ∧
  (∀ k n, (k, n) ∈ nodes g → n_id n = k) ∧
  (∀ k e, (k, e) ∈ edges g → e_id e = k) ∧
  nodeIdCounter g ≠ 0 ∧ edgeIdCounter g ≠ 0.


(** *** Disjoint sets *)

(** The numeric rank of an element ([0] when it has none). *)
Definition rk (uf : UnionFind) (x : option string) : nat :=
  default 0%nat (rank_get uf x).

(** The representative that the parent pointers lead to, without any
    compression. *)
Inductive root_of (uf : UnionFind) : option string → option string → Prop :=
  | root_self x : parent uf !! x = Some x → root_of uf x x
  | root_step x p r :
      parent uf !! x = Some p → p ≠ x → root_of uf p r → root_of uf x r.

(** The forest invariant: parent pointers of elements stay among the
    elements, every element has a rank, and ranks grow strictly towards the
    roots. *)
Record uf_inv (els : gset (option string)) (uf : UnionFind) : Prop := {
  inv_parent : ∀ x, x ∈ els → ∃ p, parent uf !! x = Some p ∧ p ∈ els;
  inv_rank : ∀ x, x ∈ els → ∃ k, rank uf !! x = Some (Some k);
  inv_mono : ∀ x p, x ∈ els → parent uf !! x = Some p → p ≠ x →
                    (rk uf x < rk uf p)%nat
}.

(** The elements ranked above [x]: they bound the length of the walk from
    [x] to its root. *)
Definition above (uf : UnionFind) (x : option string) : gset (option string) :=
  filter (λ y, (rk uf x < rk uf y)%nat) (dom (parent uf)).

(** What one [find] does: it returns the root and redirects pointers on
    the way, which moves no element to another root. *)
Definition find_post (els : gset (option string)) (uf : UnionFind)
    (x r : option string) (uf' : UnionFind) : Prop :=
  root_of uf x r ∧ rank uf' = rank uf ∧ dom (parent uf') = dom (parent uf) ∧
  uf_inv els uf' ∧
  (∀ y r', root_of uf y r' → root_of uf' y r') ∧
  (∀ y, y ∉ els → parent uf' !! y = parent uf !! y).

(** What [union] does to the classes: the two roots get one of them as
    common root, every other class keeps its root. *)
Definition union_post (els : gset (option string)) (uf : UnionFind)
    (a b : option string) (uf' : UnionFind) : Prop :=
  ∃ ra rb w, root_of uf a ra ∧ root_of uf b rb ∧ (w = ra ∨ w = rb) ∧
    uf_inv els uf' ∧ dom (parent uf') = dom (parent uf) ∧
    (∀ y r, root_of uf y r →
            root_of uf' y (if decide (r = ra ∨ r = rb) then w else r)) ∧
    (∀ y, y ∉ els → parent uf' !! y = parent uf !! y).

(** *** Paths *)

(** One edge leads from [u] to [v]: along its direction, or against it
    when the graph is undirected. *)
Definition hop (g : Graph) (u v : string) : Prop :=
  ∃ e, e ∈ mvalues (edges g) ∧
       ((source e = u ∧ target e = v) ∨
        (isDirected g = false ∧ target e = u ∧ source e = v)).

(** A path of [n] edges from [s] to [v]. *)
Inductive walk (g : Graph) (s : string) : string → nat → Prop :=
  | walk_start : walk g s s 0
  | walk_hop u v n : walk g s u n → hop g u v → walk g s v (S n).

(** [d] is the least number of edges on a path from [s] to [v]. *)
Definition min_hops (g : Graph) (s v : string) (d : nat) : Prop :=
  walk g s v d ∧ ∀ n, walk g s v n → (d ≤ n)%nat.

(** The loop invariant of [bfs] without a target, at level [k]: the queue
    holds nodes at distance [k] followed by nodes at distance [k + 1];
    every recorded distance is the least hop count; every node within [k]
    hops is visited; every visited node that has left the queue, except
    the one being expanded, has all its neighbours visited. *)
Record bfs_inv (g : Graph) (s : string) (k : nat) (cur : option string)
    (st : BfsState) : Prop := {
  bi_start : s ∈ b_visited st;
  bi_dom : ∀ v, v ∈ b_visited st ↔ is_Some (b_distance st !! v);
  bi_dist : ∀ v o, b_distance st !! v = Some o →
                   ∃ d, o = Some d ∧ min_hops g s v d;
  bi_queue : ∃ q1 q2, b_queue st = q1 ++ q2 ∧
      (∀ u, u ∈ q1 → b_distance st !! u = Some (Some k)) ∧
      (∀ u, u ∈ q2 → b_distance st !! u = Some (Some (S k)));
  bi_level : ∀ v n, walk g s v n → (n ≤ k)%nat → v ∈ b_visited st;
  bi_closed : ∀ u, u ∈ b_visited st → u ∉ b_queue st → Some u ≠ cur →
                   ∀ v, hop g u v → v ∈ b_visited st;
  bi_cur : ∀ u, cur = Some u → b_distance st !! u = Some (Some k);
  bi_univ : b_visited st ⊆ bfs_universe g s
}.

(** What is left to do: the ids not yet visited and the queue. *)
Definition bfs_measure (g : Graph) (s : string) (st : BfsState) : nat :=
  (size (bfs_universe g s ∖ b_visited st) + length (b_queue st))%nat.

(** *** Sample graphs for closed statements *)

Definition sample_graph : Graph :=
  run newGraph [MAddNode (Some "A") "" 0 0 []; MAddNode (Some "B") "" 0 0 [];
                MAddEdge "A" "B" 1 "" None].

Definition sample_calls : list Mutation :=
  [MAddNode (Some "A") "" 0 0 []; MAddNode (Some "B") "" 0 0 [];
   MAddEdge "A" "B" 7 "" None;
   MUpdateEdge "edge_1" (mkEdgeProps None None None None (Some "ab") None)].

Definition relabelled_graph : Graph :=
  run newGraph [MAddNode (Some "A") "" 0 0 []; MAddNode (Some "B") "" 0 0 [];
                MUpdateNode "B" (mkNodeProps (Some "A") None None None None)].

(** A weighted triangle with equal weights. *)
Definition triangle : Graph :=
  run (setGraphType newGraph false true)
      [MAddNode (Some "A") "" 0 0 []; MAddNode (Some "B") "" 0 0 [];
       MAddNode (Some "C") "" 0 0 [];
       MAddEdge "A" "B" 1 "" None; MAddEdge "B" "C" 1 "" None;
       MAddEdge "A" "C" 1 "" None].

(** A weighted directed graph with the single edge [A -> B]. *)
Definition one_way : Graph :=
  run (setGraphType newGraph true true)
      [MAddNode (Some "A") "" 0 0 []; MAddNode (Some "B") "" 0 0 [];
       MAddEdge "A" "B" 5 "" None].

(** *** Spanning trees *)

(** The edge [e] joins [x] and [y], in either orientation. *)
Definition ends (e : Edge) (x y : string) : Prop :=
  (source e = x ∧ target e = y) ∨ (source e = y ∧ target e = x).

(** Some edge of the list joins [x] and [y]. *)
Definition adj (L : list Edge) (x y : string) : Prop :=
  ∃ e, e ∈ L ∧ ends e x y.

(** [x] and [y] are linked by a chain of edges of the list. *)
Definition conn (L : list Edge) : string → string → Prop := rtc (adj L).

(** The list without the edge [e]. *)
Definition without (e : Edge) (L : list Edge) : list Edge :=
  filter (λ f, f ≠ e) L.

Definition total_weight (L : list Edge) : Z :=
  foldr (λ e acc, weight e + acc) 0 L.

(** The sum as [kruskal] and [prim] compute it: from [0], one weight
    after the other, each sum rounded. *)
Definition number_sum (L : list Edge) : number :=
  foldl (λ acc e, number_add acc (Num (weight e))) (Num 0) L.

(** The absolute values of the weights, added up. *)
Definition abs_weight (L : list Edge) : Z :=
  foldr (λ e acc, Z.abs (weight e) + acc) 0 L.

(** The weights of the graph are small enough for every sum of some of
    them to be exact: their absolute values add up to [2^53] at most. *)
Definition exact_weights (g : Graph) : Prop :=
  abs_weight (mvalues (edges g)) ≤ 2 ^ 53.

(** [T] is a spanning tree of the graph with nodes [V] and edges [E]:
    distinct edges of [E], one fewer than there are nodes, linking every
    two nodes. *)
Definition spanning (V : list string) (E T : list Edge) : Prop :=
  (∀ e, e ∈ T → e ∈ E) ∧ NoDup T ∧ (length T + 1 = length V)%nat ∧
  ∀ x y, x ∈ V → y ∈ V → conn T x y.

(** The edge crosses the cut [S]: [a] inside, [b] outside. *)
Definition crosses (S : string → Prop) (e : Edge) (a b : string) : Prop :=
  ends e a b ∧ S a ∧ ¬ S b.

(** A weighted undirected graph that satisfies invariants 1 and 2 of the
    data model. *)
Definition simple_undirected (g : Graph) : Prop :=
  isDirected g = false ∧ isWeighted g = true ∧ maps_ok g ∧ refs_ok g ∧
  NoDup (mvalues (edges g)) ∧
  ∀ e1 e2 x y, e1 ∈ mvalues (edges g) → e2 ∈ mvalues (edges g) →
               ends e1 x y → ends e2 x y → e1 = e2.

(** Every two nodes are linked by a chain of edges. *)
Definition connected_graph (g : Graph) : Prop :=
  ∀ x y, x ∈ mkeys (nodes g) → y ∈ mkeys (nodes g) →
         conn (mvalues (edges g)) x y.

(** The greedy invariant shared by [kruskal] and [prim]: every spanning
    tree can be turned, at no cost, into one that contains the edges
    accepted so far. *)
Definition extendable (V : list string) (E F : list Edge) : Prop :=
  ∀ T, spanning V E T →
       ∃ T', spanning V E T' ∧ (∀ f, f ∈ F → f ∈ T') ∧
             total_weight T' ≤ total_weight T.

(** The roots of the forest. *)
Definition roots (els : gset (option string)) (uf : UnionFind)
    : gset (option string) :=
  filter (λ r, parent uf !! r = Some r) els.

(** Two values have the same representative. *)
Definition same_root (uf : UnionFind) (x y : option string) : Prop :=
  ∃ r, root_of uf x r ∧ root_of uf y r.

(** The loop invariant of [kruskal] after the edges [done] of the sorted
    list: the classes of the union-find are the components of the
    accepted edges, every processed edge lies inside a component, and the
    accepted edges extend to a spanning tree of least weight. *)
Record kruskal_inv (g : Graph) (done : list Edge) (st : KruskalState) : Prop := {
  ki_uf : uf_inv (els_of (mkeys (nodes g))) (k_unionFind st);
  ki_classes : ∀ x y, x ∈ mkeys (nodes g) → y ∈ mkeys (nodes g) →
      same_root (k_unionFind st) (Some x) (Some y) ↔ conn (k_mst st) x y;
  ki_sub : ∀ f, f ∈ k_mst st → f ∈ done;
  ki_nodup : NoDup (k_mst st);
  ki_done : ∀ f, f ∈ done → conn (k_mst st) (source f) (target f);
  ki_total : k_total st = number_sum (k_mst st);
  ki_count : (size (roots (els_of (mkeys (nodes g))) (k_unionFind st))
              + length (k_mst st) = length (nodes g))%nat;
  ki_greedy : extendable (mkeys (nodes g)) (mvalues (edges g)) (k_mst st)
}.


(** Every edge of the list is at most as heavy as those after it. *)
Definition ascending (l : list Edge) : Prop :=
  ∀ l1 e l2, l = l1 ++ e :: l2 → ∀ f, f ∈ l2 → weight e ≤ weight f.

(** The accumulator [(minEdge, minWeight)] of the scan of [prim] is
    either still empty or holds an edge of the graph that leaves
    [inMST], with its weight. *)
Definition scan_wf (g : Graph) (inMST : list string) (acc : option Edge * ext)
    : Prop :=
  match acc with
  | (None, Infinity) => True
  | (Some e, Finite w) =>
      w = weight e ∧ e ∈ mvalues (edges g) ∧
      ∃ u v, ends e u v ∧ u ∈ inMST ∧ v ∉ inMST
  | _ => False
  end.

(** The accumulator holds an edge that is at most as heavy as [f]. *)
Definition scan_bound (acc : option Edge * ext) (f : Edge) : Prop :=
  match acc with
  | (Some e, Finite _) => weight e ≤ weight f
  | _ => False
  end.

(** The accumulator accounts for every boundary edge over a pair of nodes
    that the scan has [seen]. *)
Definition scan_ok (g : Graph) (inMST : list string)
    (seen : string → string → Prop) (acc : option Edge * ext) : Prop :=
  scan_wf g inMST acc ∧
  ∀ u v f, seen u v → u ∈ inMST → v ∉ inMST →
           f ∈ mvalues (edges g) → ends f u v → scan_bound acc f.

(** The loop invariant of [prim]. *)
Record prim_inv (g : Graph) (start : string) (st : PrimState) : Prop := {
  pi_nodup : NoDup (p_inMST st);
  pi_start : start ∈ p_inMST st;
  pi_sub : ∀ x, x ∈ p_inMST st → x ∈ mkeys (nodes g);
  pi_len : length (p_inMST st) = S (length (p_mst st));
  pi_edges : ∀ f, f ∈ p_mst st →
      f ∈ mvalues (edges g) ∧ source f ∈ p_inMST st ∧ target f ∈ p_inMST st;
  pi_mst_nodup : NoDup (p_mst st);
  pi_conn : ∀ x, x ∈ p_inMST st → conn (p_mst st) start x;
  pi_total : p_total st = number_sum (p_mst st);
  pi_greedy : extendable (mkeys (nodes g)) (mvalues (edges g)) (p_mst st)
}.

(** The start node that [prim] is called with is absent or a node. *)
Definition prim_start_ok (g : Graph) (startNodeId : option string) : Prop :=
  falsy startNodeId = true ∨ mhas (nodes g) (default "" startNodeId) = true.

(** Two edges between [A] and [B], added while the graph was directed; the
    graph is then switched to undirected. *)
Definition parallel_edges : Graph :=
  setGraphType
    (run (setGraphType newGraph true true)
         [MAddNode (Some "A") "" 0 0 []; MAddNode (Some "B") "" 0 0 [];
          MAddEdge "A" "B" 5 "" None; MAddEdge "B" "A" 1 "" None])
    false true.

(** A weighted undirected path whose first edge weighs [2^53]. *)
Definition heavy_path : Graph :=
  run (setGraphType newGraph false true)
      [MAddNode (Some "A") "" 0 0 []; MAddNode (Some "B") "" 0 0 [];
       MAddNode (Some "C") "" 0 0 []; MAddNode (Some "D") "" 0 0 [];
       MAddEdge "A" "B" 9007199254740992 "" None;
       MAddEdge "B" "C" 1 "" None; MAddEdge "C" "D" 1 "" None].

(** The weighted undirected graph of the specification's scenario. *)
Definition scenario : Graph :=
  run (setGraphType newGraph false true)
      [MAddNode (Some "A") "" 0 0 []; MAddNode (Some "B") "" 0 0 [];
       MAddNode (Some "C") "" 0 0 []; MAddNode (Some "D") "" 0 0 [];
       MAddEdge "A" "B" 1 "" None; MAddEdge "B" "C" 2 "" None;
       MAddEdge "A" "C" 4 "" None; MAddEdge "C" "D" 3 "" None].

(** *** Disjoint sets used with arbitrary values *)

(** The representative that [parent.get] leads to from any value, known or
    not. *)
Inductive groot (uf : UnionFind) : option string → option string → Prop :=
  | groot_self x : parent_get uf x = x → groot uf x x
  | groot_step x r :
      parent_get uf x ≠ x → groot uf (parent_get uf x) r → groot uf x r.

(** The pointers given by [parent.get] climb with respect to [h]. *)
Definition climbs (h : option string → nat) (uf : UnionFind) : Prop :=
  ∀ x, parent_get uf x ≠ x → (h x < h (parent_get uf x))%nat.

(** The pointers form a forest over all values (those without an entry
    point to [undefined]), and every string stored as a parent has an
    entry of its own. *)
Record uf_forest (uf : UnionFind) : Prop := {
  uf_height : ∃ h, climbs h uf;
  uf_values : ∀ x p, parent uf !! x = Some (Some p) →
                     Some p ∈ dom (parent uf)
}.

(** The values that a walk along the pointers can pass after its start. *)
Definition stations (uf : UnionFind) : gset (option string) :=
  dom (parent uf) ∪ {[None]}.

(** The stations above [x]. *)
Definition higher (h : option string → nat) (uf : UnionFind)
    (x : option string) : gset (option string) :=
  filter (λ y, (h x < h y)%nat) (stations uf).

(** [y] and [z] have the same representative. *)
Definition same_groot (uf : UnionFind) (y z : option string) : Prop :=
  ∃ r, groot uf y r ∧ groot uf z r.


(** *** Further vocabulary *)

(** [T] is a spanning tree of least total weight. *)
Definition minimum_spanning (V : list string) (E T : list Edge) : Prop :=
  spanning V E T ∧ ∀ T', spanning V E T' → total_weight T ≤ total_weight T'.

(** The union-find after a sequence of calls. *)
Fixpoint uf_run (uf : UnionFind) (calls : list UFCall) : option UnionFind :=
  match calls with
  | [] => Some uf
  | c :: calls' =>
      match uf_call uf c with
      | Some uf' => uf_run uf' calls'
      | None => None
      end
  end.

(** What a sequence of calls has joined: the least equivalence that
    relates the two arguments of every [union] call, and any two values
    that are not elements (they share the representative of
    [undefined]). *)
Inductive joined (elements : list string) (calls : list UFCall)
    : option string → option string → Prop :=
  | joined_refl x : joined elements calls x x
  | joined_unknown x y :
      x ∉ els_of elements → y ∉ els_of elements → joined elements calls x y
  | joined_union x y : CUnion x y ∈ calls → joined elements calls x y
  | joined_sym x y : joined elements calls x y → joined elements calls y x
  | joined_trans x y z :
      joined elements calls x y → joined elements calls y z →
      joined elements calls x z.

(** *** Graphs as the editor builds them *)

(** Invariant 2 of the data model: no second edge over the same pair of
    nodes, as the duplicate test of [addEdge] reads it under the current
    direction flag. *)
Definition no_parallel (g : Graph) : Prop :=
  ∀ k1 e1 k2 e2, (k1, e1) ∈ edges g → (k2, e2) ∈ edges g →
    joins (isDirected g) (source e1) (target e1) e2 = true → k1 = k2.

(** What [addNode] and [addEdge] establish for each record, beyond
    invariants 1 and 2: it is stored under its own non-empty id; a node
    has a label; an edge carries the direction flag of the graph, weight
    [1] in an unweighted graph and a label in a weighted one. *)
Record well_formed (g : Graph) : Prop := {
  wf_maps : maps_ok g;
  wf_nodes : ∀ k n, (k, n) ∈ nodes g → n_id n = k ∧ k ≠ "" ∧ n_label n ≠ "";
  wf_edges : ∀ k e, (k, e) ∈ edges g →
      e_id e = k ∧ k ≠ "" ∧ directed e = isDirected g ∧
      mhas (nodes g) (source e) = true ∧ mhas (nodes g) (target e) = true ∧
      (isWeighted g = false → weight e = 1) ∧
      (isWeighted g = true → e_label e ≠ "");
  wf_simple : no_parallel g
}.

(** The calls that add and remove nodes and edges or move a node. *)
Definition structural (m : Mutation) : Prop :=
  match m with
  | MAddNode _ _ _ _ _ | MRemoveNode _ | MAddEdge _ _ _ _ _ | MRemoveEdge _
  | MUpdateNodePosition _ _ _ | MClear => True
  | _ => False
  end.

(** *** Reachability and searches with a stack *)

(** Some path leads from [s] to [v]. *)
Definition reaches (g : Graph) (s v : string) : Prop := ∃ n, walk g s v n.

(** Consecutive members of the list are joined by an edge that can be
    followed from the first to the second. *)
Fixpoint trail (g : Graph) (path : list string) : Prop :=
  match path with
  | u :: rest =>
      match rest with
      | v :: _ => hop g u v ∧ trail g rest
      | [] => True
      end
  | [] => True
  end.

(** The list is a path from [s] to [t]. *)
Definition path_from_to (g : Graph) (s t : string) (path : list string) : Prop :=
  head path = Some s ∧ last path = Some t ∧ trail g path.

(** The ids that occur as an endpoint of an edge. *)
Definition endpoints (g : Graph) : list string :=
  elements (list_to_set (source <$> mvalues (edges g))
            ∪ list_to_set (target <$> mvalues (edges g)) : gset string).

(** The number of edges that have [v] as an endpoint. *)
Definition incident (g : Graph) (v : string) : nat :=
  length (filter (λ e, source e = v ∨ target e = v) (mvalues (edges g))).

(** The pushes that a search may still make: the neighbours of the ids
    not yet visited. *)
Definition todo (g : Graph) (visited : gset string) : nat :=
  sum_list_with (λ v, length (getNeighbors g v))
                (filter (λ v, v ∉ visited) (endpoints g)).

(** The set is closed under following an edge. *)
Definition hop_closed (g : Graph) (X : gset string) : Prop :=
  ∀ u v, u ∈ X → hop g u v → v ∈ X.

(** The invariant of the inner loop of [connectivityAnalysis], started at
    [s] with [V0] visited before: the component collects, without
    repetition, ids outside [V0] that a path from [s] reaches; whatever
    follows a collected id is visited or waits on the stack. *)
Record comp_inv (g : Graph) (s : string) (V0 : gset string)
    (stack : list string) (visited : gset string) (component : list string)
    : Prop := {
  ci_nodup : NoDup component;
  ci_visited : ∀ x, x ∈ visited ↔ x ∈ V0 ∨ x ∈ component;
  ci_new : ∀ x, x ∈ component → x ∉ V0;
  ci_reach : ∀ x, x ∈ stack ∨ x ∈ component → reaches g s x;
  ci_next : ∀ u v, u ∈ component → hop g u v → v ∈ visited ∨ v ∈ stack;
  ci_start : s ∈ visited ∨ s ∈ stack
}.

(** The invariant of the outer loop of [connectivityAnalysis] after the
    keys [pre]: the visited ids are closed under following edges, they are
    the members of the components found, each once, they include the
    processed keys and are nodes; every component holds a processed key
    that reaches all its members; the first component is what the first
    key reaches, and a further component witnesses a key that the first
    key does not reach. *)
Record analysis_inv (g : Graph) (pre : list string) (visited : gset string)
    (components : list (list string)) : Prop := {
  ai_closed : hop_closed g visited;
  ai_members : ∀ x, x ∈ visited ↔ x ∈ concat components;
  ai_nodup : NoDup (concat components);
  ai_done : ∀ k, k ∈ pre → k ∈ visited;
  ai_nodes : ∀ x, x ∈ visited → x ∈ mkeys (nodes g);
  ai_root : ∀ c, c ∈ components →
      ∃ s, s ∈ pre ∧ s ∈ c ∧ ∀ x, x ∈ c → reaches g s x;
  ai_class : isDirected g = false →
      ∀ c x y, c ∈ components → x ∈ c → reaches g x y → y ∈ c;
  ai_first : match pre with
             | [] => components = []
             | first :: _ =>
                 ∃ c1 cs, components = c1 :: cs ∧
                   (∀ x, x ∈ c1 ↔ reaches g first x) ∧
                   (cs ≠ [] → ∃ k, k ∈ pre ∧ ¬ reaches g first k)
             end
}.


(** *** Parent maps *)

(** The parent map of a search from [s]: [s] alone is bound to [null];
    every other binding follows an edge from a bound id; and the bindings
    can be numbered so that a parent comes before its children, the
    numbers staying below the size of the map. *)
Record parent_tree (g : Graph) (s : string)
    (parents : gmap string (option string)) : Prop := {
  pt_start : parents !! s = Some None;
  pt_root : ∀ v, parents !! v = Some None → v = s;
  pt_edge : ∀ v p, parents !! v = Some (Some p) →
                   hop g p v ∧ is_Some (parents !! p);
  pt_rank : ∃ rk : string → nat,
      (∀ x, is_Some (parents !! x) → (rk x < size parents)%nat) ∧
      (∀ v p, parents !! v = Some (Some p) → (rk p < rk v)%nat)
}.

(** The loop invariant of [dfs]. *)
Record dfs_inv (g : Graph) (s : string) (t : option string) (st : DfsState)
    : Prop := {
  di_nodup : NoDup (d_visitOrder st);
  di_visited : ∀ x, x ∈ d_visited st ↔ x ∈ d_visitOrder st;
  di_reach : ∀ x, x ∈ d_stack st ∨ x ∈ d_visitOrder st → reaches g s x;
  di_next : d_found st = false →
            ∀ u v, u ∈ d_visitOrder st → hop g u v →
                   v ∈ d_visited st ∨ v ∈ d_stack st;
  di_start : s ∈ d_visited st ∨ s ∈ d_stack st;
  di_head : (d_visitOrder st = [] ∧ d_stack st = [s]) ∨
            head (d_visitOrder st) = Some s;
  di_miss : d_found st = false →
            ∀ x, x ∈ d_visitOrder st → is_target t x = false;
  di_hit : d_found st = true →
           ∃ x, last (d_visitOrder st) = Some x ∧ is_target t x = true;
  di_tree : parent_tree g s (d_parent st);
  di_known : ∀ x, x ∈ d_stack st ∨ x ∈ d_visited st →
                  is_Some (d_parent st !! x)
}.

(** What the loop of [bfs] keeps besides [bfs_inv]: the parent map is a
    tree over the visited ids in which a child is one level below its
    parent; the visited ids are those already taken from the queue and
    those still in it; and, as long as the target has not been found, it
    has not been taken from the queue. *)
Record bfs_tree (g : Graph) (s : string) (t : option string) (st : BfsState)
    : Prop := {
  bt_tree : parent_tree g s (b_parent st);
  bt_dom : ∀ x, is_Some (b_parent st !! x) ↔ x ∈ b_visited st;
  bt_level : ∀ v p, b_parent st !! v = Some (Some p) →
      ∃ d, b_distance st !! p = Some (Some d) ∧
           b_distance st !! v = Some (Some (S d));
  bt_zero : b_distance st !! s = Some (Some 0%nat);
  bt_split : ∀ x, x ∈ b_visited st ↔ x ∈ b_visitOrder st ∨ x ∈ b_queue st;
  bt_miss : b_found st = false →
            ∀ x, x ∈ b_visitOrder st → is_target t x = false
}.


(** *** Histories *)

Section History_vocabulary.

Context {Results Statistics : Type}.

(** The index of a history is [-1] or the position of a state; on an
    empty history it may also be [0]. *)
Definition history_ok (h : GraphHistory Results Statistics) : Prop :=
  -1 ≤ currentIndex h ≤ Z.max 0 (Z.of_nat (length (history h)) - 1).

(** The same of what was read from the storage. *)
Definition stored_ok
    (parsed : option (list (HistoryState Results Statistics) * Z)) : Prop :=
  match parsed with
  | Some (states, index) =>
      -1 ≤ index ≤ Z.max 0 (Z.of_nat (length states) - 1)
  | None => True
  end.

Definition stored_length
    (parsed : option (list (HistoryState Results Statistics) * Z)) : nat :=
  match parsed with
  | Some (states, _) => length states
  | None => 0
  end.

Definition is_branch (c : HistoryCall Results) : bool :=
  match c with
  | HCreateBranch _ _ _ => true
  | _ => false
  end.

(** The number of calls of [createBranch] among [calls]. *)
Definition branches (calls : list (HistoryCall Results)) : nat :=
  length (filter is_branch calls).

End History_vocabulary.

(** A history of three states of which the second is the current one;
    nothing is stored as results or statistics. *)
Definition sample_history_calls : list (HistoryCall unit) :=
  [HSaveState sample_graph None "uno" "s1" "t1";
   HSaveState one_way None "" "s2" "t2";
   HSaveState newGraph None "tres" "s3" "t3";
   HGetPreviousState].

Definition sample_history : GraphHistory unit unit :=
  foldl (history_exec (λ _, ())) (newGraphHistory None) sample_history_calls.


(** *** Cycles *)

(** The ids [p], no two the same, form a cycle: an edge can be followed
    from each to the next and from the last to the first.  One id with a
    loop is a cycle; in an undirected graph two ids are none, as the way
    back would take the edge of the way there. *)
Definition cycle (g : Graph) (p : list string) : Prop :=
  NoDup p ∧
  (∃ first, head p = Some first ∧ trail g (p ++ [first])) ∧
  (isDirected g = false → length p ≠ 2%nat).

Definition cyclic (g : Graph) : Prop := ∃ p, cycle g p.

(** A cycle as [detectCycles] writes it: closed by its first id. *)
Definition closed_cycle (g : Graph) (c : list string) : Prop :=
  ∃ p first, c = p ++ [first] ∧ head p = Some first ∧ cycle g p.

(** The ids that a search can meet. *)
Definition ids (g : Graph) : gset string :=
  list_to_set (mkeys (nodes g))
  ∪ list_to_set (source <$> mvalues (edges g))
  ∪ list_to_set (target <$> mvalues (edges g)).

(** The calls that have returned without finding a cycle, in the order
    of their return, each with its [parent] argument: whatever follows
    an id has returned before it, or, in an undirected graph, is its
    parent. *)
Definition finished (g : Graph) (fin : list (string * option string)) : Prop :=
  NoDup fin.*1 ∧
  ∀ i u p, fin !! i = Some (u, p) →
    ∀ v, hop g u v →
      (∃ j q, (j < i)%nat ∧ fin !! j = Some (v, q)) ∨
      (isDirected g = false ∧ p = Some v ∧ v ≠ u).

(** The invariant of a search without a cycle so far: [path] holds the
    ids of the calls that are running, outermost first. *)
Record search_inv (g : Graph) (visited : gset string) (path : list string)
    (fin : list (string * option string)) : Prop := {
  si_nodup : NoDup path;
  si_trail : trail g path;
  si_visited : ∀ x, x ∈ visited ↔ x ∈ path ∨ x ∈ fin.*1;
  si_apart : ∀ x, x ∈ path → x ∉ fin.*1;
  si_finished : finished g fin
}.

(** What the loop of a call on [node] has found of a neighbour [v] that
    it has passed without finding a cycle. *)
Definition settled (g : Graph) (fin : list (string * option string))
    (parent : option string) (node v : string) : Prop :=
  v ∈ fin.*1 ∨ (isDirected g = false ∧ parent = Some v ∧ v ≠ node).

(** A directed graph of three nodes with an edge from the first to the
    second and one back. *)
Definition there_and_back : Graph :=
  run (setGraphType newGraph true false)
      [MAddNode (Some "A") "" 0 0 []; MAddNode (Some "B") "" 0 0 [];
       MAddNode (Some "C") "" 0 0 [];
       MAddEdge "A" "B" 1 "" None; MAddEdge "B" "A" 1 "" None].

(* ================================================================== *)
(** * Part II. Properties                                              *)
(* ================================================================== *)


(** ** Lemmas on [JSMap] *)

Section JSMap_lemmas.
Context {V : Type}.
Implicit Types (m : list (string * V)) (k : string) (v : V).

Lemma mget_Some_elem m k v : mget m k = Some v → (k, v) ∈ m.
Proof.
  induction m as [|[k' v'] m IH]; simpl; [done|].
  case_decide; intros Hg.
  - simplify_eq. left.
  - right. auto.
Qed.

Lemma mget_None m k : mget m k = None ↔ k ∉ mkeys m.
Proof.
  unfold mkeys. induction m as [|[k' v'] m IH]; simpl.
  - split; [intros _; apply not_elem_of_nil | done].
  - case_decide; subst.
    + split; [done|]. intros Hn. exfalso. apply Hn. left.
    + rewrite IH, not_elem_of_cons. split; [by intros|by intros [_ ?]].
Qed.

Lemma mhas_true m k : mhas m k = true ↔ k ∈ mkeys m.
Proof.
  unfold mhas. destruct (mget m k) eqn:E.
  - split; [intros _|done].
    apply mget_Some_elem in E. unfold mkeys.
    apply list_elem_of_fmap. by exists (k, v).
  - apply mget_None in E. split; [done|]. intros; contradiction.
Qed.

Lemma mhas_false m k : mhas m k = false ↔ k ∉ mkeys m.
Proof. rewrite <- mhas_true. destruct (mhas m k); naive_solver. Qed.

Lemma elem_mkeys m k v : (k, v) ∈ m → k ∈ mkeys m.
Proof. intros. unfold mkeys. apply list_elem_of_fmap. by exists (k, v). Qed.

Lemma elem_mvalues m v : v ∈ mvalues m ↔ ∃ k, (k, v) ∈ m.
Proof.
  unfold mvalues. rewrite list_elem_of_fmap. split.
  - intros [[k v'] [-> Hin]]. by exists k.
  - intros [k Hin]. by exists (k, v).
Qed.

Lemma mget_NoDup m k v : NoDup (mkeys m) → (k, v) ∈ m → mget m k = Some v.
Proof.
  unfold mkeys. induction m as [|[k' v'] m IH]; simpl; intros Hnd Hin.
  - by apply elem_of_nil in Hin.
  - apply NoDup_cons in Hnd as [Hk Hnd].
    apply elem_of_cons in Hin as [Hin|Hin].
    + simplify_eq. by rewrite decide_True.
    + case_decide; [|by apply IH]. subst. exfalso. apply Hk.
      apply list_elem_of_fmap. by exists (k, v).
Qed.

Lemma mset_fresh m k v : k ∉ mkeys m → mset m k v = m ++ [(k, v)].
Proof.
  unfold mkeys. induction m as [|[k' v'] m IH]; simpl; [done|].
  rewrite not_elem_of_cons. intros [Hne Hk].
  rewrite decide_False by done. by rewrite IH.
Qed.

Lemma mkeys_mset m k v :
  mkeys (mset m k v) = if mhas m k then mkeys m else mkeys m ++ [k].
Proof.
  destruct (mhas m k) eqn:E.
  - apply mhas_true in E. unfold mkeys in *.
    induction m as [|[k' v'] m IH]; simpl in *; [by apply elem_of_nil in E|].
    case_decide; csimpl; [done|].
    apply elem_of_cons in E as [E|E]; [congruence|]. by rewrite IH.
  - apply mhas_false in E. rewrite mset_fresh by done.
    unfold mkeys. by rewrite fmap_app.
Qed.

Lemma elem_of_mkeys_mset m k v k' :
  k' ∈ mkeys (mset m k v) ↔ k' = k ∨ k' ∈ mkeys m.
Proof.
  rewrite mkeys_mset. destruct (mhas m k) eqn:E.
  - apply mhas_true in E. naive_solver.
  - rewrite elem_of_app, list_elem_of_singleton. naive_solver.
Qed.

Lemma mset_NoDup m k v : NoDup (mkeys m) → NoDup (mkeys (mset m k v)).
Proof.
  intros Hnd. rewrite mkeys_mset. destruct (mhas m k) eqn:E; [done|].
  apply mhas_false in E. apply NoDup_app. split_and!; [done| |apply NoDup_singleton].
  intros x Hx ->%list_elem_of_singleton. done.
Qed.

(** Whatever a [set] leaves in the map is the new value or was there. *)
Lemma elem_of_mvalues_mset m k v v' :
  v' ∈ mvalues (mset m k v) → v' = v ∨ v' ∈ mvalues m.
Proof.
  unfold mvalues. induction m as [|[k1 v1] m IH]; simpl.
  - intros Hin%list_elem_of_singleton. by left.
  - case_decide; simpl; intros Hin%elem_of_cons.
    + destruct Hin as [Hin|Hin]; [by left|right; by right].
    + destruct Hin as [Hin|Hin]; [right; subst; left|].
      destruct (IH Hin); [by left|right; by right].
Qed.

Lemma mvalues_mset_new m k v : v ∈ mvalues (mset m k v).
Proof.
  unfold mvalues. induction m as [|[k1 v1] m IH]; simpl; [left|].
  case_decide; simpl; [left|by right].
Qed.

Lemma elem_of_mdelete m k kv : kv ∈ mdelete m k → kv ∈ m.
Proof.
  induction m as [|[k1 v1] m IH]; simpl; [done|].
  case_decide; [by right|].
  intros [->|Hin]%elem_of_cons; [left|right; auto].
Qed.

Lemma elem_of_mdelete_ne m k k' v :
  (k', v) ∈ m → k' ≠ k → (k', v) ∈ mdelete m k.
Proof.
  induction m as [|[k1 v1] m IH]; simpl; [done|].
  intros [Heq|Hin]%elem_of_cons Hne.
  - simplify_eq. rewrite decide_False by done. left.
  - case_decide; [done|]. right. auto.
Qed.

Lemma mkeys_mdelete_sub m k k' : k' ∈ mkeys (mdelete m k) → k' ∈ mkeys m.
Proof.
  unfold mkeys. rewrite !list_elem_of_fmap.
  intros [kv [-> Hin]]. exists kv. split; [done|]. by eapply elem_of_mdelete.
Qed.

Lemma mdelete_NoDup m k : NoDup (mkeys m) → NoDup (mkeys (mdelete m k)).
Proof.
  unfold mkeys. induction m as [|[k1 v1] m IH]; simpl; [done|].
  intros [Hk Hnd]%NoDup_cons. case_decide; [done|].
  simpl. apply NoDup_cons. split; [|auto].
  intros Hin. apply Hk. by apply (mkeys_mdelete_sub m k).
Qed.

Lemma mdelete_gone m k : NoDup (mkeys m) → k ∉ mkeys (mdelete m k).
Proof.
  unfold mkeys. induction m as [|[k1 v1] m IH]; simpl.
  - intros _. apply not_elem_of_nil.
  - intros [Hk Hnd]%NoDup_cons. case_decide; subst; [done|].
    simpl. rewrite not_elem_of_cons. split; [done|auto].
Qed.

Lemma foldl_mdelete_sub m ks kv : kv ∈ foldl mdelete m ks → kv ∈ m.
Proof.
  revert m. induction ks as [|k ks IH]; simpl; intros m; [done|].
  intros Hin%IH. by eapply elem_of_mdelete.
Qed.

Lemma foldl_mdelete_NoDup m ks :
  NoDup (mkeys m) → NoDup (mkeys (foldl mdelete m ks)).
Proof.
  revert m. induction ks as [|k ks IH]; simpl; intros m Hnd; [done|].
  apply IH. by apply mdelete_NoDup.
Qed.

Lemma foldl_mdelete_gone m ks k :
  NoDup (mkeys m) → k ∈ ks → k ∉ mkeys (foldl mdelete m ks).
Proof.
  revert m. induction ks as [|k1 ks IH]; simpl; intros m Hnd Hin.
  - by apply elem_of_nil in Hin.
  - apply elem_of_cons in Hin as [->|Hin].
    + intros Hk. apply (mdelete_gone m k1 Hnd).
      unfold mkeys in *. apply list_elem_of_fmap in Hk as [kv [-> Hkv]].
      apply list_elem_of_fmap. exists kv. split; [done|].
      by eapply foldl_mdelete_sub.
    + apply IH; [by apply mdelete_NoDup|done].
Qed.

Lemma foldl_mdelete_keep m ks k v :
  (k, v) ∈ m → k ∉ ks → (k, v) ∈ foldl mdelete m ks.
Proof.
  revert m. induction ks as [|k1 ks IH]; simpl; intros m Hin Hk; [done|].
  apply not_elem_of_cons in Hk as [Hne Hk].
  apply IH; [|done]. by apply elem_of_mdelete_ne.
Qed.

(** Rebuilding a map from its own entries gives it back. *)
Lemma foldl_mset_rebuild (f : V → string) (m0 m : list (string * V)) :
  NoDup (mkeys (m0 ++ m)) →
  (∀ k v, (k, v) ∈ m → f v = k) →
  foldl (λ acc v, mset acc (f v) v) m0 (mvalues m) = m0 ++ m.
Proof.
  revert m0. induction m as [|[k v] m IH]; simpl; intros m0 Hnd Hf.
  - by rewrite app_nil_r.
  - assert (f v = k) as -> by (apply Hf; left).
    rewrite mset_fresh.
    + rewrite (IH (m0 ++ [(k, v)])).
      * by rewrite <- app_assoc.
      * by rewrite <- app_assoc.
      * intros k' v' Hin. apply Hf. by right.
    + unfold mkeys in *. rewrite fmap_app in Hnd.
      apply NoDup_app in Hnd as (_ & Hd & _).
      intros Hk. apply (Hd k Hk). simpl. left.
Qed.

Lemma foldl_mset_NoDup (f : V → string) (m0 : list (string * V)) (l : list V) :
  NoDup (mkeys m0) → NoDup (mkeys (foldl (λ acc v, mset acc (f v) v) m0 l)).
Proof.
  revert m0. induction l as [|v l IH]; simpl; intros m0 Hnd; [done|].
  apply IH. by apply mset_NoDup.
Qed.

Lemma foldl_mset_keys (f : V → string) (m0 : list (string * V)) (l : list V) k :
  k ∈ mkeys (foldl (λ acc v, mset acc (f v) v) m0 l) ↔
  k ∈ mkeys m0 ∨ k ∈ f <$> l.
Proof.
  revert m0. induction l as [|v l IH]; simpl; intros m0.
  - rewrite elem_of_nil. naive_solver.
  - rewrite IH, elem_of_mkeys_mset, elem_of_cons. naive_solver.
Qed.

Lemma foldl_mset_values (f : V → string) (m0 : list (string * V)) (l : list V) v :
  v ∈ mvalues (foldl (λ acc v, mset acc (f v) v) m0 l) →
  v ∈ mvalues m0 ∨ v ∈ l.
Proof.
  revert m0. induction l as [|v1 l IH]; simpl; intros m0; [by left|].
  intros [Hin|Hin]%IH.
  - apply elem_of_mvalues_mset in Hin as [->|Hin]; [right; left|by left].
  - right. by right.
Qed.
End JSMap_lemmas.


(** ** The graph after a failed call *)

Lemma fresh_node_id_frame g id s g1 :
  fresh_node_id g id = (s, g1) →
  nodes g1 = nodes g ∧ edges g1 = edges g ∧ isDirected g1 = isDirected g ∧
  isWeighted g1 = isWeighted g ∧ edgeIdCounter g1 = edgeIdCounter g ∧
  nodeIdCounter g1 = nodeIdCounter g + (if falsy id then 1 else 0).
Proof.
  unfold fresh_node_id. destruct (falsy id); intros [= <- <-]; simpl;
    split_and!; try done; lia.
Qed.

Lemma fresh_edge_id_frame g id s g1 :
  fresh_edge_id g id = (s, g1) →
  nodes g1 = nodes g ∧ edges g1 = edges g ∧ isDirected g1 = isDirected g ∧
  isWeighted g1 = isWeighted g ∧ nodeIdCounter g1 = nodeIdCounter g ∧
  edgeIdCounter g1 = edgeIdCounter g + (if falsy id then 1 else 0).
Proof.
  unfold fresh_edge_id. destruct (falsy id); intros [= <- <-]; simpl;
    split_and!; try done; lia.
Qed.

Lemma Graph_eq (g h : Graph) :
  nodes g = nodes h → edges g = edges h → isDirected g = isDirected h →
  isWeighted g = isWeighted h → nodeIdCounter g = nodeIdCounter h →
  edgeIdCounter g = edgeIdCounter h → g = h.
Proof. destruct g, h; simpl; intros; by subst. Qed.





(** ** What the mutators do to the two maps *)

Lemma addNode_edges g id label x y data :
  edges (addNode g id label x y data).1 = edges g ∧
  isWeighted (addNode g id label x y data).1 = isWeighted g ∧
  isDirected (addNode g id label x y data).1 = isDirected g.
Proof.
  unfold addNode. destruct (fresh_node_id g id) as [s g1] eqn:Hf.
  apply fresh_node_id_frame in Hf as (? & ? & ? & ? & ? & ?).
  by destruct (mhas (nodes g1) s).
Qed.

Lemma addNode_keys g id label x y data k :
  k ∈ mkeys (nodes g) → k ∈ mkeys (nodes (addNode g id label x y data).1).
Proof.
  unfold addNode. destruct (fresh_node_id g id) as [s g1] eqn:Hf.
  apply fresh_node_id_frame in Hf as (Hn & _).
  destruct (mhas (nodes g1) s); simpl; rewrite Hn; [done|].
  intros. apply elem_of_mkeys_mset. by right.
Qed.

Lemma addNode_NoDup g id label x y data :
  NoDup (mkeys (nodes g)) → NoDup (mkeys (nodes (addNode g id label x y data).1)).
Proof.
  unfold addNode. destruct (fresh_node_id g id) as [s g1] eqn:Hf.
  apply fresh_node_id_frame in Hf as (Hn & _).
  destruct (mhas (nodes g1) s); simpl; rewrite Hn; [done|].
  apply mset_NoDup.
Qed.

(** What [addEdge] leaves in the edge map is what was there, or one new
    edge between existing nodes whose weight is the supplied one in a
    weighted graph and [1] otherwise. *)
Lemma addEdge_spec g s t w label id :
  let g' := (addEdge g s t w label id).1 in
  nodes g' = nodes g ∧ isWeighted g' = isWeighted g ∧
  isDirected g' = isDirected g ∧
  (NoDup (mkeys (edges g)) → NoDup (mkeys (edges g'))) ∧
  ∀ e, e ∈ mvalues (edges g') →
       e ∈ mvalues (edges g) ∨
       (source e = s ∧ target e = t ∧
        mhas (nodes g) s = true ∧ mhas (nodes g) t = true ∧
        weight e = if isWeighted g then w else 1).
Proof.
  unfold addEdge.
  destruct (mhas (nodes g) s) eqn:Hs; simpl;
    [|split_and!; auto].
  destruct (mhas (nodes g) t) eqn:Ht; simpl;
    [|split_and!; auto].
  destruct (fresh_edge_id g id) as [i g1] eqn:Hf.
  apply fresh_edge_id_frame in Hf as (Hn & He & Hd & Hw & _).
  destruct (existsb _ _); simpl; rewrite ?Hn, ?He, ?Hd, ?Hw.
  - split_and!; auto.
  - split_and!; auto; [apply mset_NoDup|].
    intros e [->|Hin]%elem_of_mvalues_mset; [right|by left].
    simpl. by split_and!.
Qed.

Lemma edgesToRemove_spec (es : list (string * Edge)) nodeId k e :
  (k, e) ∈ es → k ∉ edgesToRemove es nodeId →
  source e ≠ nodeId ∧ target e ≠ nodeId.
Proof.
  intros Hin Hk. unfold edgesToRemove in Hk.
  destruct (decide (source e = nodeId ∨ target e = nodeId)) as [Hp|Hp];
    [|by split; intros ?; apply Hp; [left|right]].
  exfalso. apply Hk. apply list_elem_of_fmap. exists (k, e). split; [done|].
  apply list_elem_of_filter. by split.
Qed.

Lemma removeNode_spec g nodeId :
  let g' := (removeNode g nodeId).1 in
  isWeighted g' = isWeighted g ∧ isDirected g' = isDirected g ∧
  (∀ kv, kv ∈ edges g' → kv ∈ edges g) ∧
  (∀ k, k ∈ mkeys (nodes g) → k ≠ nodeId → k ∈ mkeys (nodes g')) ∧
  (maps_ok g → maps_ok g') ∧
  (NoDup (mkeys (edges g)) → mhas (nodes g) nodeId = true →
   ∀ e, e ∈ mvalues (edges g') → source e ≠ nodeId ∧ target e ≠ nodeId).
Proof.
  unfold removeNode. destruct (mhas (nodes g) nodeId) eqn:Hh; simpl.
  - split_and!; auto.
    + intros kv. apply foldl_mdelete_sub.
    + intros k Hk Hne. unfold mkeys in Hk.
      apply list_elem_of_fmap in Hk as [[k' v] [-> Hin]].
      eapply elem_mkeys. by apply elem_of_mdelete_ne.
    + intros [Hn He]. split; simpl;
        [by apply mdelete_NoDup|by apply foldl_mdelete_NoDup].
    + intros Hnd _ e [k Hin]%elem_mvalues.
      apply (edgesToRemove_spec (edges g) nodeId k e).
      * by eapply foldl_mdelete_sub.
      * intros Hk. apply (foldl_mdelete_gone _ _ _ Hnd Hk).
        by eapply elem_mkeys.
  - split_and!; auto; discriminate.
Qed.

Lemma updateNode_spec g nodeId p :
  let g' := updateNode g nodeId p in
  edges g' = edges g ∧ isWeighted g' = isWeighted g ∧
  isDirected g' = isDirected g ∧ mkeys (nodes g') = mkeys (nodes g).
Proof.
  unfold updateNode. destruct (mget (nodes g) nodeId) eqn:Hg; simpl; [|done].
  split_and!; auto. rewrite mkeys_mset.
  unfold mhas. by rewrite Hg.
Qed.

Lemma updateEdge_spec g edgeId p :
  let g' := updateEdge g edgeId p in
  nodes g' = nodes g ∧ isWeighted g' = isWeighted g ∧
  isDirected g' = isDirected g ∧ mkeys (edges g') = mkeys (edges g) ∧
  ∀ e, e ∈ mvalues (edges g') →
       e ∈ mvalues (edges g) ∨
       ∃ e0, e0 ∈ mvalues (edges g) ∧ e = assign_edge e0 p.
Proof.
  unfold updateEdge. destruct (mget (edges g) edgeId) eqn:Hg; simpl;
    [|split_and!; auto].
  split_and!; auto.
  - rewrite mkeys_mset. unfold mhas. by rewrite Hg.
  - intros e' [->|Hin]%elem_of_mvalues_mset; [right|by left].
    exists e. split; [|done]. apply elem_mvalues. exists edgeId.
    by apply mget_Some_elem.
Qed.

Lemma fromJSON_spec g data :
  let g' := fromJSON g data in
  isWeighted g' = s_isWeighted data ∧ isDirected g' = s_isDirected data ∧
  maps_ok g' ∧
  (∀ k, k ∈ mkeys (nodes g') ↔ k ∈ n_id <$> s_nodes data) ∧
  (∀ e, e ∈ mvalues (edges g') → e ∈ s_edges data).
Proof.
  unfold fromJSON; simpl. split_and!; auto.
  - split; simpl; apply foldl_mset_NoDup; apply NoDup_nil_2.
  - intros k. rewrite foldl_mset_keys. simpl. rewrite elem_of_nil. naive_solver.
  - intros e [Hin|Hin]%foldl_mset_values; [|done].
    simpl in Hin. by apply elem_of_nil in Hin.
Qed.

(** ** Invariant 1: edges reference existing nodes *)

Lemma maps_ok_exec g m : maps_ok g → maps_ok (exec g m).
Proof.
  intros [Hn He]. destruct m; simpl.
  - split; [by apply addNode_NoDup|].
    by rewrite (proj1 (addNode_edges g id label x y data)).
  - by apply removeNode_spec.
  - destruct (addEdge_spec g sourceId targetId w label id) as (Hn' & _ & _ & Hnd & _).
    split; [by rewrite Hn'|by apply Hnd].
  - split; [done|by apply mdelete_NoDup].
  - destruct (updateNode_spec g nodeId p) as (He' & _ & _ & Hk).
    split; [by rewrite Hk|by rewrite He'].
  - destruct (updateNode_spec g nodeId (mkNodeProps None None (Some x) (Some y) None))
      as (He' & _ & _ & Hk).
    unfold updateNodePosition. split; [by rewrite Hk|by rewrite He'].
  - destruct (updateEdge_spec g edgeId p) as (Hn' & _ & _ & Hk & _).
    split; [by rewrite Hn'|by rewrite Hk].
  - done.
  - split; apply NoDup_nil_2.
  - apply fromJSON_spec.
Qed.

(** C5 (as amended): every mutating call that does not itself name a
    missing endpoint keeps every edge attached to existing nodes: this
    covers [addNode], [removeNode], [addEdge], [removeEdge], [updateNode],
    [updateNodePosition], [setGraphType] and [clear] without condition,
    [updateEdge] when the [source] and [target] it assigns (if any) are
    node ids, and [fromJSON] when the edges of the snapshot reference nodes
    of the snapshot.  After [removeNode(id)] no edge has [id] as source or
    target. *)
Theorem edges_reference_nodes (g : Graph) (m : Mutation) :
  maps_ok g → refs_ok g → endpoint_safe g m →
  maps_ok (exec g m) ∧ refs_ok (exec g m) ∧
  ∀ nodeId, m = MRemoveNode nodeId →
    ∀ e, e ∈ mvalues (edges (exec g m)) → source e ≠ nodeId ∧ target e ≠ nodeId.
Proof.
  intros Hok Hrefs Hsafe. split; [by apply maps_ok_exec|].
  assert (Hkeys : ∀ e, e ∈ mvalues (edges g) →
            source e ∈ mkeys (nodes g) ∧ target e ∈ mkeys (nodes g)).
  { intros e He. destruct (Hrefs e He). by rewrite <- !mhas_true. }
  destruct m; simpl in *; (split; [|try discriminate]).
  - intros e He. rewrite (proj1 (addNode_edges g id label x y data)) in He.
    destruct (Hkeys e He). rewrite !mhas_true. split; by apply addNode_keys.
  - destruct (removeNode_spec g nodeId) as (_ & _ & Hsub & Hk & _ & Hgone).
    intros e He.
    assert (e ∈ mvalues (edges g)) as He0.
    { apply elem_mvalues in He as [k Hin]. apply elem_mvalues. exists k. auto. }
    destruct (Hkeys e He0) as [Hs Ht].
    destruct (mhas (nodes g) nodeId) eqn:Hh.
    + destruct (Hgone (proj2 Hok) eq_refl e He).
      rewrite !mhas_true. split; by apply Hk.
    + unfold removeNode. rewrite Hh. simpl. by apply Hrefs.
  - intros ? [= <-] e He.
    destruct (removeNode_spec g nodeId) as (_ & _ & Hsub & Hk & _ & Hgone).
    destruct (mhas (nodes g) nodeId) eqn:Hh;
      [apply Hgone; [apply Hok|done|done]|].
    unfold removeNode in He. rewrite Hh in He. simpl in He.
    apply mhas_false in Hh.
    destruct (Hkeys e He). split; intros Heq; rewrite Heq in *; done.
  - destruct (addEdge_spec g sourceId targetId w label id) as (Hn & _ & _ & _ & Hin).
    intros e He. rewrite Hn.
    destruct (Hin e He) as [?|(Hs & Ht & ? & ? & _)]; [by apply Hrefs|].
    by rewrite Hs, Ht.
  - intros e [k Hin]%elem_mvalues. apply Hrefs. apply elem_mvalues.
    exists k. simpl in Hin. by eapply elem_of_mdelete.
  - destruct (updateNode_spec g nodeId p) as (He' & _ & _ & Hk).
    intros e He. rewrite He' in He. rewrite !mhas_true, Hk. by apply Hkeys.
  - destruct (updateNode_spec g nodeId (mkNodeProps None None (Some x) (Some y) None))
      as (He' & _ & _ & Hk).
    unfold updateNodePosition.
    intros e He. rewrite He' in He. rewrite !mhas_true, Hk. by apply Hkeys.
  - destruct (updateEdge_spec g edgeId p) as (Hn & _ & _ & _ & Hin).
    destruct Hsafe as [Hs Ht].
    intros e He. rewrite Hn.
    destruct (Hin e He) as [?|(e0 & He0 & ->)]; [by apply Hrefs|].
    destruct (Hrefs e0 He0). simpl.
    destruct (ep_source p); destruct (ep_target p); simpl; auto.
  - done.
  - intros e He. simpl in He. by apply elem_of_nil in He.
  - destruct (fromJSON_spec g data) as (_ & _ & _ & Hk & Hin).
    intros e He. rewrite !mhas_true, !Hk. apply Hsafe. by apply Hin.
Qed.


Lemma sample_graph_ok : maps_ok sample_graph ∧ refs_ok sample_graph.
Proof.
  split.
  - split; vm_compute; repeat constructor; set_solver.
  - intros e He. vm_compute in He.
    apply list_elem_of_singleton in He as ->. split; reflexivity.
Qed.

Lemma edges_reference_nodes_witness :
  maps_ok (exec sample_graph (MRemoveNode "B")) ∧
  refs_ok (exec sample_graph (MRemoveNode "B")).
Proof.
  destruct (edges_reference_nodes sample_graph (MRemoveNode "B")) as (Hm & Hr & _).
  - apply sample_graph_ok.
  - apply sample_graph_ok.
  - exact I.
  - split; [exact Hm|exact Hr].
Defined.

(** C5 as stated fails for [updateEdge]: the call assigns whatever
    [target] it is given, here the id of no node. *)
Lemma updateEdge_dangling_target :
  let p := mkEdgeProps None None (Some "Z") None None None in
  let g' := exec sample_graph (MUpdateEdge "edge_1" p) in
  refs_ok sample_graph ∧
  (∃ e, e ∈ mvalues (edges g') ∧ target e = "Z") ∧
  mhas (nodes g') "Z" = false ∧
  ¬ refs_ok g'.
Proof.
  simpl. split_and!.
  - apply sample_graph_ok.
  - eexists. split; [vm_compute; left|reflexivity].
  - reflexivity.
  - intros Hr.
    destruct (Hr (mkEdge "edge_1" "A" "Z" 1 "" false)) as [_ Ht];
      [vm_compute; left|discriminate Ht].
Qed.

(** ** Invariant 3: weights of an unweighted graph *)

Lemma weight_neutral_exec g m :
  isWeighted g = false → unit_weights g → weight_neutral m →
  isWeighted (exec g m) = false ∧ unit_weights (exec g m).
Proof.
  intros Hw Hu Hm. unfold unit_weights in *.
  destruct m; cbn [exec weight_neutral] in *.
  - destruct (addNode_edges g id label x y data) as (-> & -> & _). done.
  - destruct (removeNode_spec g nodeId) as (-> & _ & Hsub & _).
    split; [done|]. intros e [k Hin]%elem_mvalues. apply Hu, elem_mvalues.
    exists k. auto.
  - destruct (addEdge_spec g sourceId targetId w label id) as (_ & -> & _ & _ & Hin).
    split; [done|]. intros e He.
    destruct (Hin e He) as [?|(_ & _ & _ & _ & ->)]; [auto|by rewrite Hw].
  - split; [done|]. intros e [k Hin]%elem_mvalues. apply Hu, elem_mvalues.
    exists k. simpl in Hin. by eapply elem_of_mdelete.
  - destruct (updateNode_spec g nodeId p) as (-> & -> & _). done.
  - unfold updateNodePosition.
    destruct (updateNode_spec g nodeId (mkNodeProps None None (Some x) (Some y) None))
      as (-> & -> & _). done.
  - destruct (updateEdge_spec g edgeId p) as (_ & -> & _ & _ & Hin).
    split; [done|]. intros e He.
    destruct (Hin e He) as [?|(e0 & He0 & ->)]; [auto|]. simpl.
    destruct Hm as [-> | ->]; simpl; auto.
  - done.
  - split; [done|]. intros e He. by apply elem_of_nil in He.
  - destruct (fromJSON_spec g data) as (-> & _ & _ & _ & Hin).
    destruct Hm as [Hf Hall]. split; [done|]. intros e He. by apply Hall, Hin.
Qed.

Lemma weight_neutral_run g ms :
  isWeighted g = false → unit_weights g → Forall weight_neutral ms →
  isWeighted (run g ms) = false ∧ unit_weights (run g ms).
Proof.
  revert g. induction ms as [|m ms IH]; intros g Hw Hu Hall; simpl; [done|].
  apply Forall_cons in Hall as [Hm Hall].
  destruct (weight_neutral_exec g m Hw Hu Hm). by apply IH.
Qed.

Lemma connects_self dir e : connects dir (source e) (target e) e = true.
Proof. unfold connects. by rewrite bool_decide_eq_true_2. Qed.

Lemma findEdge_Some g s t e :
  findEdge g s t = Some e →
  e ∈ mvalues (edges g) ∧ connects (isDirected g) s t e = true.
Proof.
  unfold findEdge. intros [Hin Hc]%List.find_some.
  split; [by apply list_elem_of_In|done].
Qed.

Lemma findEdge_None g s t e :
  findEdge g s t = None → e ∈ mvalues (edges g) →
  connects (isDirected g) s t e = false.
Proof.
  unfold findEdge. intros Hn Hin. eapply List.find_none; [exact Hn|].
  by apply list_elem_of_In.
Qed.

(** C4 (as amended): in an unweighted graph where every stored weight is
    1 (the fresh graph, for one), any sequence of [addNode], [removeNode],
    [addEdge] with whatever weight, [removeEdge], [updateNode],
    [updateNodePosition], [clear], [updateEdge] assigning no weight other
    than 1, [setGraphType] keeping the graph unweighted and [fromJSON] of
    an unweighted snapshot with unit weights leaves the graph unweighted
    and [getEdgeWeight] returns 1 for the endpoints of every edge. *)
Theorem unweighted_edge_weight (g : Graph) (ms : list Mutation) :
  isWeighted g = false → unit_weights g → Forall weight_neutral ms →
  isWeighted (run g ms) = false ∧
  ∀ e, e ∈ mvalues (edges (run g ms)) →
       getEdgeWeight (run g ms) (source e) (target e) = Finite 1.
Proof.
  intros Hw Hu Hall.
  destruct (weight_neutral_run g ms Hw Hu Hall) as [Hw' Hu'].
  split; [done|]. intros e He. unfold getEdgeWeight.
  destruct (findEdge (run g ms) (source e) (target e)) as [e'|] eqn:Hf.
  - apply findEdge_Some in Hf as [Hin _]. by rewrite (Hu' e' Hin).
  - pose proof (findEdge_None _ _ _ e Hf He) as Hc.
    by rewrite connects_self in Hc.
Qed.

Lemma unweighted_edge_weight_witness :
  getEdgeWeight (run newGraph sample_calls) "A" "B" = Finite 1.
Proof.
  refine (proj2 (unweighted_edge_weight newGraph sample_calls _ _ _)
            (mkEdge "edge_1" "A" "B" 1 "ab" false) _).
  - reflexivity.
  - intros e He. by apply elem_of_nil in He.
  - unfold sample_calls. repeat constructor.
  - vm_compute. left.
Defined.

(** C4 as stated fails: [updateEdge] stores the weight it is given and
    [getEdgeWeight] returns the stored weight, without looking at
    [isWeighted]. *)
Lemma updateEdge_weight_in_unweighted_graph :
  let p := mkEdgeProps None None None (Some 5) None None in
  let g' := run newGraph [MAddNode (Some "A") "" 0 0 [];
                          MAddNode (Some "B") "" 0 0 [];
                          MAddEdge "A" "B" 1 "" None;
                          MUpdateEdge "edge_1" p] in
  isWeighted g' = false ∧
  (∃ e, e ∈ mvalues (edges g') ∧ source e = "A" ∧ target e = "B") ∧
  getEdgeWeight g' "A" "B" = Finite 5.
Proof.
  simpl. split_and!; [reflexivity| |reflexivity].
  eexists. split; [vm_compute; left|split; reflexivity].
Qed.

(** ** Snapshot and restore *)

(** C8 (as amended): for every graph [g] whose nodes and edges are stored
    under their own id and whose counters are not zero, loading
    [g.toJSON()] into any graph [h] gives exactly [g]: the same node and
    edge maps in the same order, the same flags and the same counters,
    whatever [h] held before. *)
Theorem toJSON_fromJSON (g h : Graph) :
  keyed g → fromJSON h (toJSON g) = g.
Proof.
  intros ([Hn He] & Hkn & Hke & Hcn & Hce).
  apply Graph_eq; unfold fromJSON, toJSON; simpl.
  - by rewrite (foldl_mset_rebuild n_id [] (nodes g)).
  - by rewrite (foldl_mset_rebuild e_id [] (edges g)).
  - done.
  - done.
  - unfold num_or_1. by rewrite bool_decide_eq_false_2.
  - unfold num_or_1. by rewrite bool_decide_eq_false_2.
Qed.

Lemma sample_graph_keyed : keyed sample_graph.
Proof.
  split; [apply sample_graph_ok|]. split_and!; try discriminate.
  - intros k n Hin. vm_compute in Hin.
    repeat (apply elem_of_cons in Hin as [Hin|Hin]; [by simplify_eq|]).
    by apply elem_of_nil in Hin.
  - intros k n Hin. vm_compute in Hin.
    repeat (apply elem_of_cons in Hin as [Hin|Hin]; [by simplify_eq|]).
    by apply elem_of_nil in Hin.
Qed.

Lemma toJSON_fromJSON_witness :
  keyed sample_graph ∧ fromJSON newGraph (toJSON sample_graph) = sample_graph.
Proof.
  split; [apply sample_graph_keyed|].
  apply (toJSON_fromJSON sample_graph newGraph), sample_graph_keyed.
Defined.

(** C8 as stated fails: [fromJSON] files every node under its [id] field,
    so two nodes whose records carry the same id (here after
    [updateNode("B", {id: "A"})]) come back as one. *)
Lemma toJSON_fromJSON_merges_nodes :
  length (nodes relabelled_graph) = 2%nat ∧
  length (nodes (fromJSON newGraph (toJSON relabelled_graph))) = 1%nat ∧
  fromJSON newGraph (toJSON relabelled_graph) ≠ relabelled_graph.
Proof. split_and!; [reflexivity|reflexivity|discriminate]. Qed.


Section UnionFind_facts.
Variable els : gset (option string).
Implicit Types (uf : UnionFind) (x y p r : option string).

Lemma parent_get_elem uf x p : parent uf !! x = Some p → parent_get uf x = p.
Proof. unfold parent_get. by intros ->. Qed.

Lemma root_of_fun uf x r1 r2 : root_of uf x r1 → root_of uf x r2 → r1 = r2.
Proof.
  induction 1 as [x Hx|x p r Hp Hne Hr IH]; inversion 1; simplify_eq; auto.
Qed.

Lemma root_of_is_root uf x r : root_of uf x r → parent uf !! r = Some r.
Proof. induction 1; auto. Qed.

Lemma inv_parent_in uf x p :
  uf_inv els uf → x ∈ els → parent uf !! x = Some p → p ∈ els.
Proof.
  intros Hinv Hx Hp. destruct (inv_parent _ _ Hinv x Hx) as (p' & Hp' & Hin).
  congruence.
Qed.

Lemma root_of_els uf x r : uf_inv els uf → x ∈ els → root_of uf x r → r ∈ els.
Proof.
  intros Hinv Hx Hr. induction Hr as [x Hp|x p r Hp Hne Hr IH]; [done|].
  apply IH. by eapply inv_parent_in.
Qed.

Lemma root_of_rank uf x r :
  uf_inv els uf → x ∈ els → root_of uf x r → (rk uf x ≤ rk uf r)%nat.
Proof.
  intros Hinv Hx Hr. induction Hr as [x Hp|x p r Hp Hne Hr IH]; [done|].
  pose proof (inv_mono _ _ Hinv x p Hx Hp Hne).
  pose proof (inv_parent_in uf x p Hinv Hx Hp) as Hin.
  specialize (IH Hin). lia.
Qed.

Lemma above_parent uf x p :
  uf_inv els uf → x ∈ els → parent uf !! x = Some p → p ≠ x →
  (size (above uf p) < size (above uf x))%nat.
Proof.
  intros Hinv Hx Hp Hne.
  pose proof (inv_mono _ _ Hinv x p Hx Hp Hne) as Hlt.
  pose proof (inv_parent_in uf x p Hinv Hx Hp) as Hin.
  destruct (inv_parent _ _ Hinv p Hin) as (q & Hq & _).
  apply subset_size. unfold above. apply strict_spec_alt. split.
  - intros y. rewrite !elem_of_filter. intros [? ?]. split; [lia|done].
  - intros Heq. assert (p ∈ filter (λ y, (rk uf p < rk uf y)%nat) (dom (parent uf))) as Hc.
    { rewrite Heq. apply elem_of_filter. split; [done|]. by apply elem_of_dom. }
    apply elem_of_filter in Hc as [Hc _]. lia.
Qed.

Lemma above_bound uf x : (size (above uf x) ≤ size (parent uf))%nat.
Proof.
  rewrite <- size_dom. apply subseteq_size. unfold above.
  intros y. rewrite elem_of_filter. by intros [_ ?].
Qed.

Lemma rk_rank_eq uf uf' x : rank uf' = rank uf → rk uf' x = rk uf x.
Proof. unfold rk, rank_get. by intros ->. Qed.

Lemma compress_root_of uf x r :
  root_of uf x r →
  ∀ y r', root_of uf y r' → root_of (parent_set uf x r) y r'.
Proof.
  intros Hx y r' Hy.
  pose proof (root_of_is_root _ _ _ Hx) as Hroot.
  induction Hy as [y Hp|y q r' Hp Hne Hq IH].
  - destruct (decide (y = x)) as [->|Hyx].
    + assert (r = x) as -> by (eapply root_of_fun; [exact Hx|by constructor]).
      constructor. simpl. by rewrite lookup_insert_eq.
    + constructor. simpl. by rewrite lookup_insert_ne.
  - destruct (decide (y = x)) as [->|Hyx].
    + assert (r' = r) as ->.
      { eapply root_of_fun; [|exact Hx]. by econstructor. }
      destruct (decide (r = x)) as [->|Hrx].
      * constructor. simpl. by rewrite lookup_insert_eq.
      * apply root_step with r; [simpl; by rewrite lookup_insert_eq|done|].
        constructor. simpl. by rewrite lookup_insert_ne.
    + apply root_step with q; [simpl; by rewrite lookup_insert_ne|done|done].
Qed.

Lemma find_fuel_spec n uf x :
  uf_inv els uf → x ∈ els → (size (above uf x) < n)%nat →
  ∃ r uf', find_fuel n uf x = Some (r, uf') ∧ find_post els uf x r uf'.
Proof.
  revert x. induction n as [|n IH]; intros x Hinv Hx Hn; [lia|].
  destruct (inv_parent _ _ Hinv x Hx) as (p & Hp & Hpin).
  simpl. rewrite (parent_get_elem _ _ _ Hp).
  destruct (decide (p = x)) as [->|Hne].
  - exists x, uf. split; [done|]. split_and!; auto. by constructor.
  - pose proof (above_parent uf x p Hinv Hx Hp Hne) as Hlt.
    destruct (IH p Hinv Hpin) as (r & uf1 & -> & Hpost); [lia|].
    destruct Hpost as (Hr & Hrank & Hdom & Hinv1 & Hpres & Hout).
    assert (root_of uf x r) as Hxr by (by econstructor).
    assert (r ∈ els) as Hrin by (by eapply (root_of_els uf x r)).
    exists r, (parent_set uf1 x r). split.
    { unfold parent_get. simpl. by rewrite lookup_insert_eq. }
    split_and!; auto.
    + simpl. rewrite dom_insert_L, Hdom.
      assert (x ∈ dom (parent uf)) by (by apply elem_of_dom).
      set_solver.
    + split.
      * intros y Hy. simpl. destruct (decide (y = x)) as [->|Hyx].
        -- exists r. by rewrite lookup_insert_eq.
        -- rewrite lookup_insert_ne by done. by apply (inv_parent _ _ Hinv1).
      * intros y Hy. simpl. by apply (inv_rank _ _ Hinv1).
      * intros y q Hy. simpl. destruct (decide (y = x)) as [->|Hyx].
        -- rewrite lookup_insert_eq. intros [= <-] Hrx.
           change (rk uf1 x < rk uf1 r)%nat.
           rewrite !(rk_rank_eq uf uf1) by done.
           pose proof (inv_mono _ _ Hinv x p Hx Hp Hne).
           pose proof (root_of_rank uf p r Hinv Hpin Hr).
           lia.
        -- rewrite lookup_insert_ne by done. intros Hq Hqy.
           change (rk uf1 y < rk uf1 q)%nat.
           by apply (inv_mono _ _ Hinv1).
    + intros y r' Hy. apply compress_root_of; auto.
    + intros y Hy. simpl. rewrite lookup_insert_ne; [by apply Hout|].
      intros ->. done.
Qed.

Lemma find_spec uf x :
  uf_inv els uf → x ∈ els →
  ∃ r uf', find uf x = Some (r, uf') ∧ find_post els uf x r uf'.
Proof.
  intros Hinv Hx. apply find_fuel_spec; auto.
  pose proof (above_bound uf x). lia.
Qed.
End UnionFind_facts.


Section UnionFind_union.
Variable els : gset (option string).
Implicit Types (uf : UnionFind) (x y p r : option string).

Lemma root_total uf x : uf_inv els uf → x ∈ els → ∃ r, root_of uf x r.
Proof.
  intros Hinv Hx. destruct (find_spec els uf x Hinv Hx) as (r & uf' & _ & Hr & _).
  by exists r.
Qed.

Lemma root_of_parent_eq uf uf' y r :
  parent uf' = parent uf → root_of uf y r → root_of uf' y r.
Proof.
  intros Heq. induction 1 as [y Hp|y q r Hp Hne Hr IH].
  - constructor. by rewrite Heq.
  - apply root_step with q; [by rewrite Heq|done|done].
Qed.

(** The outcome of [connected]: both roots, compared. *)
Lemma connected_spec uf a b :
  uf_inv els uf → a ∈ els → b ∈ els →
  ∃ ra rb uf', connected uf a b = Some (bool_decide (ra = rb), uf') ∧
    root_of uf a ra ∧ root_of uf b rb ∧
    uf_inv els uf' ∧ rank uf' = rank uf ∧ dom (parent uf') = dom (parent uf) ∧
    (∀ y r, root_of uf y r → root_of uf' y r) ∧
    (∀ y, y ∉ els → parent uf' !! y = parent uf !! y).
Proof.
  intros Hinv Ha Hb. unfold connected.
  destruct (find_spec els uf a Hinv Ha)
    as (ra & uf1 & -> & Hra & Hrk1 & Hdom1 & Hinv1 & Hpres1 & Hout1).
  destruct (find_spec els uf1 b Hinv1 Hb)
    as (rb & uf2 & -> & Hrb & Hrk2 & Hdom2 & Hinv2 & Hpres2 & Hout2).
  destruct (root_total uf b Hinv Hb) as [rb0 Hrb0].
  assert (rb0 = rb) as -> by (eapply root_of_fun; [apply Hpres1, Hrb0|done]).
  exists ra, rb, uf2. split_and!; auto; try congruence.
  intros y Hy. rewrite Hout2, Hout1; auto.
Qed.

Lemma link_spec uf c w :
  uf_inv els uf → c ∈ els → w ∈ els →
  parent uf !! c = Some c → parent uf !! w = Some w → c ≠ w →
  (rk uf c < rk uf w)%nat →
  uf_inv els (parent_set uf c w) ∧
  ∀ y r, root_of uf y r →
         root_of (parent_set uf c w) y (if decide (r = c) then w else r).
Proof.
  intros Hinv Hc Hw Hpc Hpw Hne Hlt. split.
  - split.
    + intros y Hy. simpl. destruct (decide (y = c)) as [->|Hyc].
      * exists w. by rewrite lookup_insert_eq.
      * rewrite lookup_insert_ne by done. by apply (inv_parent _ _ Hinv).
    + intros y Hy. by apply (inv_rank _ _ Hinv).
    + intros y q Hy. simpl. destruct (decide (y = c)) as [->|Hyc].
      * rewrite lookup_insert_eq. by intros [= <-] _.
      * rewrite lookup_insert_ne by done. by apply (inv_mono _ _ Hinv).
  - intros y r. induction 1 as [y Hp|y q r Hp Hq Hr IH].
    + destruct (decide (y = c)) as [->|Hyc].
      * apply root_step with w; [simpl; by rewrite lookup_insert_eq|done|].
        constructor. simpl. by rewrite lookup_insert_ne.
      * constructor. simpl. by rewrite lookup_insert_ne.
    + apply root_step with q; [|done|done].
      simpl. rewrite lookup_insert_ne; [done|]. intros <-. congruence.
Qed.

Lemma rank_bump_spec uf w k :
  uf_inv els uf → parent uf !! w = Some w → rk uf w = k →
  uf_inv els (rank_set uf w (Some (S k))) ∧
  rk (rank_set uf w (Some (S k))) w = S k ∧
  (∀ y, y ≠ w → rk (rank_set uf w (Some (S k))) y = rk uf y).
Proof.
  intros Hinv Hpw Hk.
  assert (Hsame : ∀ y, y ≠ w → rk (rank_set uf w (Some (S k))) y = rk uf y).
  { intros y Hy. unfold rk, rank_get. simpl. by rewrite lookup_insert_ne. }
  assert (Hw : rk (rank_set uf w (Some (S k))) w = S k).
  { unfold rk, rank_get. simpl. by rewrite lookup_insert_eq. }
  split_and!; [|done|done]. split.
  - intros y Hy. by apply (inv_parent _ _ Hinv).
  - intros y Hy. simpl. destruct (decide (y = w)) as [->|Hyw].
    + exists (S k). by rewrite lookup_insert_eq.
    + rewrite lookup_insert_ne by done. by apply (inv_rank _ _ Hinv).
  - intros y q Hy Hq Hne. simpl in Hq.
    assert (y ≠ w) by (intros ->; congruence).
    rewrite Hsame by done.
    pose proof (inv_mono _ _ Hinv y q Hy Hq Hne).
    destruct (decide (q = w)) as [->|Hqw]; [rewrite Hw; lia|].
    by rewrite Hsame.
Qed.

Lemma union_spec uf a b :
  uf_inv els uf → a ∈ els → b ∈ els →
  ∃ uf', union uf a b = Some uf' ∧ union_post els uf a b uf'.
Proof.
  intros Hinv Ha Hb. unfold union.
  destruct (find_spec els uf a Hinv Ha)
    as (ra & uf1 & -> & Hra & Hrk1 & Hdom1 & Hinv1 & Hpres1 & Hout1).
  destruct (find_spec els uf1 b Hinv1 Hb)
    as (rb & uf2 & -> & Hrb & Hrk2 & Hdom2 & Hinv2 & Hpres2 & Hout2).
  destruct (root_total uf b Hinv Hb) as [rb0 Hrb0].
  assert (rb0 = rb) as -> by (eapply root_of_fun; [apply Hpres1, Hrb0|done]).
  assert (Hpres : ∀ y r, root_of uf y r → root_of uf2 y r) by auto.
  assert (Hout : ∀ y, y ∉ els → parent uf2 !! y = parent uf !! y).
  { intros y Hy. rewrite Hout2, Hout1; auto. }
  assert (Hdom : dom (parent uf2) = dom (parent uf)) by congruence.
  pose proof (root_of_els els uf a ra Hinv Ha Hra) as Hrain.
  pose proof (root_of_els els uf b rb Hinv Hb Hrb0) as Hrbin.
  pose proof (root_of_is_root _ _ _ (Hpres _ _ Hra)) as Hpa.
  pose proof (root_of_is_root _ _ _ (Hpres _ _ Hrb0)) as Hpb.
  assert (Hdomset : ∀ c w, c ∈ els → parent uf2 !! c = Some c →
            dom (parent (parent_set uf2 c w)) = dom (parent uf)).
  { intros c w Hc Hpc. simpl. rewrite dom_insert_L, Hdom.
    assert (c ∈ dom (parent uf)) by (rewrite <- Hdom; by apply elem_of_dom).
    set_solver. }
  assert (Houtset : ∀ c w, c ∈ els → ∀ y, y ∉ els →
            parent (parent_set uf2 c w) !! y = parent uf !! y).
  { intros c w Hc y Hy. simpl. rewrite lookup_insert_ne; [by apply Hout|].
    intros ->. done. }
  destruct (decide (ra = rb)) as [<-|Hne].
  { exists uf2. split; [done|]. exists ra, ra, ra. split_and!; auto.
    intros y r Hr. case_decide as Hd; [|auto].
    assert (r = ra) as -> by (by destruct Hd). auto. }
  destruct (inv_rank _ _ Hinv2 ra Hrain) as [ka Hka].
  destruct (inv_rank _ _ Hinv2 rb Hrbin) as [kb Hkb].
  assert (rank_get uf2 ra = Some ka) as Hga by (unfold rank_get; by rewrite Hka).
  assert (rank_get uf2 rb = Some kb) as Hgb by (unfold rank_get; by rewrite Hkb).
  assert (rk uf2 ra = ka) as Hrka by (unfold rk; by rewrite Hga).
  assert (rk uf2 rb = kb) as Hrkb by (unfold rk; by rewrite Hgb).
  cbv zeta. rewrite Hga, Hgb. simpl.
  destruct (decide (ka < kb)%nat) as [Hlt|Hge].
  - rewrite bool_decide_eq_true_2 by done.
    destruct (link_spec uf2 ra rb Hinv2 Hrain Hrbin Hpa Hpb Hne) as [Hinv' Hroot'];
      [lia|].
    eexists. split; [done|]. exists ra, rb, rb. split_and!; auto.
    intros y r Hr. specialize (Hroot' y r (Hpres _ _ Hr)).
    destruct (decide (r = ra)) as [->|Hra'].
    + by rewrite decide_True by (by left).
    + destruct (decide (r = rb)) as [->|Hrb'].
      * by rewrite decide_True by (by right).
      * rewrite decide_False; [done|]. by intros [?|?].
  - rewrite bool_decide_eq_false_2 by done.
    assert (Hswap : ∀ uf', (∀ y r, root_of uf2 y r →
               root_of uf' y (if decide (r = rb) then ra else r)) →
             ∀ y r, root_of uf y r →
               root_of uf' y (if decide (r = ra ∨ r = rb) then ra else r)).
    { intros uf' Hroot' y r Hr. specialize (Hroot' y r (Hpres _ _ Hr)).
      destruct (decide (r = rb)) as [->|Hrb'].
      - by rewrite decide_True by (by right).
      - destruct (decide (r = ra)) as [->|Hra'].
        + by rewrite decide_True by (by left).
        + rewrite decide_False; [done|]. by intros [?|?]. }
    destruct (decide (kb < ka)%nat) as [Hlt|Hge'].
    + rewrite bool_decide_eq_true_2 by done.
      destruct (link_spec uf2 rb ra Hinv2 Hrbin Hrain Hpb Hpa) as [Hinv' Hroot'];
        [done|lia|].
      eexists. split; [done|]. exists ra, rb, ra. split_and!; auto.
    + rewrite bool_decide_eq_false_2 by done.
      destruct (rank_bump_spec uf2 ra ka Hinv2 Hpa Hrka) as (Hinvb & Hrkw & Hrko).
      destruct (link_spec (rank_set uf2 ra (Some (S ka))) rb ra
                  Hinvb Hrbin Hrain Hpb Hpa) as [Hinv' Hroot'];
        [done|rewrite Hrkw, Hrko by done; lia|].
      eexists. split; [done|]. exists ra, rb, ra.
      split_and!;
        [done|done|by left|exact Hinv'|by apply (Hdomset rb ra)|
        |by apply (Houtset rb ra)].
      apply Hswap. intros y r Hr. apply Hroot'.
      by apply (root_of_parent_eq uf2).
Qed.
End UnionFind_union.


Lemma newUnionFind_lookup (elements : list string) (x : option string) :
  parent (newUnionFind elements) !! x
    = (if decide (x ∈ els_of elements) then Some x else None) ∧
  rank (newUnionFind elements) !! x
    = (if decide (x ∈ els_of elements) then Some (Some 0%nat) else None).
Proof.
  unfold newUnionFind, els_of.
  assert (G : ∀ l uf0,
    let uf := foldl (λ uf e, rank_set (parent_set uf (Some e) (Some e))
                               (Some e) (Some 0%nat)) uf0 l in
    parent uf !! x = (if decide (x ∈ Some <$> l) then Some x else parent uf0 !! x) ∧
    rank uf !! x = (if decide (x ∈ Some <$> l) then Some (Some 0%nat)
                    else rank uf0 !! x)).
  { induction l as [|e l IH]; intros uf0.
    - cbn [foldl]. rewrite fmap_nil.
      destruct (decide (x ∈ [])) as [Hin|_]; [by apply elem_of_nil in Hin|done].
    - cbn [foldl]. rewrite fmap_cons. cbv zeta in IH.
      destruct (IH (rank_set (parent_set uf0 (Some e) (Some e)) (Some e) (Some 0%nat)))
        as [-> ->]. simpl.
      destruct (decide (x ∈ Some <$> l)) as [Hin|Hnin];
        destruct (decide (x ∈ Some e :: (Some <$> l))) as [Hin'|Hnin'];
        try done.
      + exfalso. apply Hnin'. by right.
      + apply elem_of_cons in Hin' as [->|?]; [|done].
        by rewrite !lookup_insert_eq.
      + rewrite !lookup_insert_ne; [done| |]; intros <-; apply Hnin'; left. }
  destruct (G elements (mkUnionFind ∅ ∅)) as [Hp Hr].
  rewrite Hp, Hr. simpl. rewrite !lookup_empty.
  assert (x ∈ Some <$> elements ↔ x ∈ (list_to_set (Some <$> elements) : gset _))
    as Hiff by (by rewrite elem_of_list_to_set).
  split; destruct (decide (x ∈ Some <$> elements));
    destruct (decide (x ∈ list_to_set (Some <$> elements))); try done;
    exfalso; naive_solver.
Qed.

Lemma newUnionFind_inv (elements : list string) :
  uf_inv (els_of elements) (newUnionFind elements) ∧
  dom (parent (newUnionFind elements)) = els_of elements.
Proof.
  split; [split|].
  - intros x Hx. exists x. split; [|done].
    rewrite (proj1 (newUnionFind_lookup elements x)). by rewrite decide_True.
  - intros x Hx. exists 0%nat.
    rewrite (proj2 (newUnionFind_lookup elements x)). by rewrite decide_True.
  - intros x p Hx. rewrite (proj1 (newUnionFind_lookup elements x)).
    rewrite decide_True by done. by intros [= <-] ?.
  - apply set_eq. intros x. rewrite elem_of_dom.
    rewrite (proj1 (newUnionFind_lookup elements x)).
    case_decide; split; try done; by intros [? ?].
Qed.

Lemma elem_els_of (elements : list string) (x : string) :
  Some x ∈ els_of elements ↔ x ∈ elements.
Proof.
  unfold els_of. rewrite elem_of_list_to_set, list_elem_of_fmap. split.
  - by intros (y & [= ->] & ?).
  - intros ?. by exists x.
Qed.

Lemma None_not_els_of (elements : list string) : None ∉ els_of elements.
Proof.
  unfold els_of. rewrite elem_of_list_to_set, list_elem_of_fmap.
  by intros (y & ? & _).
Qed.

(** Every call on elements returns and keeps the forest invariant. *)
Lemma uf_call_inv (elements : list string) (uf : UnionFind) (c : UFCall) :
  uf_inv (els_of elements) uf → dom (parent uf) = els_of elements →
  call_on elements c →
  ∃ uf', uf_call uf c = Some uf' ∧
    uf_inv (els_of elements) uf' ∧ dom (parent uf') = els_of elements ∧
    ∀ y r1 r2 z, root_of uf y r1 → root_of uf z r1 →
                 root_of uf' y r2 → root_of uf' z r2.
Proof.
  intros Hinv Hdom Hc. destruct c as [x|x y|x y]; simpl in *.
  - destruct (find_spec _ uf x Hinv Hc)
      as (r & uf' & -> & _ & _ & Hd & Hinv' & Hpres & _).
    exists uf'. split_and!; auto; [congruence|].
    intros y r1 r2 z Hy Hz Hy'.
    by rewrite (root_of_fun _ _ _ _ Hy' (Hpres _ _ Hy)); auto.
  - destruct Hc as [Hx Hy].
    destruct (union_spec _ uf x y Hinv Hx Hy)
      as (uf' & -> & ra & rb & w & _ & _ & _ & Hinv' & Hd & Hroots & _).
    exists uf'. split_and!; auto; [congruence|].
    intros y0 r1 r2 z Hy0 Hz Hy0'.
    by rewrite (root_of_fun _ _ _ _ Hy0' (Hroots _ _ Hy0)); auto.
  - destruct Hc as [Hx Hy].
    destruct (connected_spec _ uf x y Hinv Hx Hy)
      as (ra & rb & uf' & -> & _ & _ & Hinv' & _ & Hd & Hpres & _).
    exists uf'. split_and!; auto; [congruence|].
    intros y0 r1 r2 z Hy0 Hz Hy0'.
    by rewrite (root_of_fun _ _ _ _ Hy0' (Hpres _ _ Hy0)); auto.
Qed.

Lemma uf_reachable_inv (elements : list string) (uf : UnionFind) :
  uf_reachable elements uf →
  uf_inv (els_of elements) uf ∧ dom (parent uf) = els_of elements.
Proof.
  induction 1 as [|uf c uf' _ [Hinv Hdom] Hc Hcall]; [apply newUnionFind_inv|].
  destruct (uf_call_inv elements uf c Hinv Hdom Hc) as (uf'' & Heq & ? & ? & _).
  by simplify_eq.
Qed.

(** [connected(a, b)] is the comparison of the two roots. *)
Lemma same_class_roots els (uf : UnionFind) (a b : option string) :
  uf_inv els uf → a ∈ els → b ∈ els →
  same_class uf a b ↔ ∃ r, root_of uf a r ∧ root_of uf b r.
Proof.
  intros Hinv Ha Hb. unfold same_class.
  destruct (connected_spec els uf a b Hinv Ha Hb)
    as (ra & rb & uf' & -> & Hra & Hrb & _).
  split.
  - intros (uf'' & [= Heq _]). apply bool_decide_eq_true in Heq as ->. eauto.
  - intros (r & Har & Hbr).
    rewrite (root_of_fun _ _ _ _ Hra Har), (root_of_fun _ _ _ _ Hrb Hbr).
    rewrite bool_decide_eq_true_2 by done. eauto.
Qed.


(** ** Disjoint sets used with arbitrary values *)

Lemma groot_fun uf x r1 r2 : groot uf x r1 → groot uf x r2 → r1 = r2.
Proof. induction 1; inversion 1; simplify_eq; auto. Qed.

Lemma groot_is_root uf x r : groot uf x r → parent_get uf r = r.
Proof. induction 1; auto. Qed.

Lemma groot_idem uf x r : groot uf x r → groot uf r r.
Proof. intros H. constructor. by eapply groot_is_root. Qed.

Lemma groot_height h uf x r : climbs h uf → groot uf x r → (h x ≤ h r)%nat.
Proof.
  intros Hh. induction 1 as [|x r Hne _ IH]; [done|].
  specialize (Hh x Hne). lia.
Qed.

Lemma parent_get_set uf x r y :
  parent_get (parent_set uf x r) y = if decide (y = x) then r else parent_get uf y.
Proof.
  unfold parent_get. simpl. destruct (decide (y = x)) as [->|Hne].
  - by rewrite lookup_insert_eq.
  - by rewrite lookup_insert_ne.
Qed.

Lemma parent_get_station uf x : uf_forest uf → parent_get uf x ∈ stations uf.
Proof.
  intros Hf. unfold parent_get, stations.
  destruct (parent uf !! x) as [[p|]|] eqn:E; simpl.
  - apply elem_of_union_l. by eapply uf_values.
  - apply elem_of_union_r. by apply elem_of_singleton.
  - apply elem_of_union_r. by apply elem_of_singleton.
Qed.

Lemma root_has_entry uf (p : string) :
  parent_get uf (Some p) = Some p → Some p ∈ dom (parent uf).
Proof.
  unfold parent_get. intros H. apply elem_of_dom.
  destruct (parent uf !! Some p); [eauto|done].
Qed.

Lemma higher_parent h uf x :
  uf_forest uf → climbs h uf → parent_get uf x ≠ x →
  (size (higher h uf (parent_get uf x)) < size (higher h uf x))%nat.
Proof.
  intros Hf Hh Hne. specialize (Hh x Hne).
  pose proof (parent_get_station uf x Hf) as Hst.
  apply subset_size. unfold higher. apply strict_spec_alt. split.
  - intros y. rewrite !elem_of_filter. intros [? ?]. split; [lia|done].
  - intros Heq.
    assert (parent_get uf x ∈ filter (λ y, (h (parent_get uf x) < h y)%nat)
                                    (stations uf)) as Hc.
    { rewrite Heq. apply elem_of_filter. by split. }
    apply elem_of_filter in Hc as [Hc _]. lia.
Qed.

Lemma higher_bound h uf x : (size (higher h uf x) ≤ size (parent uf) + 1)%nat.
Proof.
  assert (size (stations uf) ≤ size (parent uf) + 1)%nat as Hs.
  { unfold stations.
    pose proof (size_union_alt (C:=gset (option string)) (dom (parent uf)) {[None]}) as Hu.
    rewrite Hu, size_dom.
    assert (size (({[None]} : gset (option string)) ∖ dom (parent uf)) ≤ 1)%nat.
    { rewrite <- (size_singleton (C:=gset (option string)) None).
      apply subseteq_size. set_solver. }
    lia. }
  assert (size (higher h uf x) ≤ size (stations uf))%nat.
  { apply subseteq_size. unfold higher. intros y. rewrite elem_of_filter. tauto. }
  lia.
Qed.

Lemma compress_groot uf x r :
  groot uf x r → ∀ y r', groot uf y r' → groot (parent_set uf x r) y r'.
Proof.
  intros Hx y r' Hy. pose proof (groot_is_root _ _ _ Hx) as Hroot.
  induction Hy as [y Hp|y r' Hne Hq IH].
  - constructor. rewrite parent_get_set. case_decide as Hd; [|done].
    subst y. eapply groot_fun; [exact Hx|by constructor].
  - destruct (decide (y = x)) as [->|Hyx].
    + assert (r' = r) as ->.
      { eapply groot_fun; [|exact Hx]. by apply groot_step. }
      destruct (decide (r = x)) as [->|Hrx].
      * constructor. rewrite parent_get_set. by rewrite decide_True.
      * apply groot_step; rewrite parent_get_set, decide_True by done; [done|].
        constructor. rewrite parent_get_set. by rewrite decide_False.
    + apply groot_step; rewrite parent_get_set, decide_False by done; done.
Qed.

Lemma find_fuel_any h n uf x :
  uf_forest uf → climbs h uf → (size (higher h uf x) < n)%nat →
  ∃ r uf', find_fuel n uf x = Some (r, uf') ∧ groot uf x r ∧
    climbs h uf' ∧ uf_forest uf' ∧
    (∀ y r', groot uf y r' → groot uf' y r').
Proof.
  revert x. induction n as [|n IH]; intros x Hf Hh Hn; [lia|].
  simpl. destruct (decide (parent_get uf x = x)) as [Heq|Hne].
  - exists (parent_get uf x), uf. rewrite Heq. split_and!; auto. by constructor.
  - pose proof (higher_parent h uf x Hf Hh Hne) as Hlt.
    destruct (IH (parent_get uf x) Hf Hh) as (r & uf1 & -> & Hr & Hh1 & Hf1 & Hpres);
      [lia|].
    assert (groot uf x r) as Hxr by (by apply groot_step).
    pose proof (Hpres _ _ Hxr) as Hxr1.
    pose proof (groot_is_root _ _ _ Hxr1) as Hroot1.
    exists r, (parent_set uf1 x r). split.
    { by rewrite parent_get_set, decide_True. }
    split_and!; auto.
    + intros y. rewrite !parent_get_set.
      destruct (decide (y = x)) as [->|Hyx]; [|by apply Hh1].
      intros Hrx. pose proof (Hh x Hne).
      pose proof (groot_height h uf _ _ Hh Hr). lia.
    + split.
      * exists h. intros y. rewrite !parent_get_set.
        destruct (decide (y = x)) as [->|Hyx]; [|by apply Hh1].
        intros Hrx. pose proof (Hh x Hne).
        pose proof (groot_height h uf _ _ Hh Hr). lia.
      * intros y p. simpl. destruct (decide (y = x)) as [->|Hyx].
        -- rewrite lookup_insert_eq. intros [= ->].
           rewrite dom_insert_L. apply elem_of_union_r. by apply root_has_entry.
        -- rewrite lookup_insert_ne by done. intros Hy.
           rewrite dom_insert_L. apply elem_of_union_r. by eapply uf_values.
    + intros y r' Hy. apply compress_groot; auto.
Qed.


Lemma find_any uf x :
  uf_forest uf →
  ∃ r uf', find uf x = Some (r, uf') ∧ groot uf x r ∧ uf_forest uf' ∧
           (∀ y r', groot uf y r' → groot uf' y r').
Proof.
  intros Hf. destruct (uf_height _ Hf) as [h Hh].
  destruct (find_fuel_any h (2 + size (parent uf)) uf x Hf Hh)
    as (r & uf' & Hfind & Hr & _ & Hf' & Hpres).
  { pose proof (higher_bound h uf x). lia. }
  exists r, uf'. by split_and!.
Qed.

Lemma groot_parent_eq uf uf' y r :
  parent uf' = parent uf → groot uf y r → groot uf' y r.
Proof.
  intros Heq.
  assert (Hg : ∀ z, parent_get uf' z = parent_get uf z)
    by (intros z; unfold parent_get; by rewrite Heq).
  induction 1 as [y Hp|y r Hne Hr IH].
  - constructor. by rewrite Hg.
  - apply groot_step; rewrite Hg; done.
Qed.

Lemma uf_forest_parent_eq uf uf' :
  parent uf' = parent uf → uf_forest uf → uf_forest uf'.
Proof.
  intros Heq [[h Hh] Hv]. split.
  - exists h. intros x. unfold parent_get. rewrite Heq. apply Hh.
  - intros x p. rewrite Heq. apply Hv.
Qed.

(** Hanging the root [c] under another root [w]. *)
Lemma link_any uf c w :
  uf_forest uf → parent_get uf c = c → parent_get uf w = w → c ≠ w →
  uf_forest (parent_set uf c w) ∧
  ∀ y r, groot uf y r →
         groot (parent_set uf c w) y (if decide (r = c) then w else r).
Proof.
  intros [[h Hh] Hv] Hc Hw Hne. split; [split|].
  - exists (λ y, if decide (y = w) then max (h w) (S (h c)) else h y).
    intros x. rewrite parent_get_set.
    destruct (decide (x = c)) as [->|Hxc].
    + intros _. rewrite decide_False by done. rewrite decide_True by done. lia.
    + intros Hx. pose proof (Hh x Hx) as Hlt.
      rewrite (decide_False (P:=x = w)) by (intros ->; congruence).
      case_decide as Hpw; [rewrite Hpw in Hlt|]; lia.
  - intros x p. simpl. rewrite dom_insert_L.
    destruct (decide (x = c)) as [->|Hxc].
    + rewrite lookup_insert_eq. intros [= ->].
      apply elem_of_union_r. by apply root_has_entry.
    + rewrite lookup_insert_ne by done. intros Hx.
      apply elem_of_union_r. by eapply Hv.
  - intros y r. induction 1 as [y Hp|y r Hny Hr IH].
    + destruct (decide (y = c)) as [->|Hyc].
      * apply groot_step; rewrite parent_get_set, decide_True by done; [done|].
        constructor. by rewrite parent_get_set, decide_False.
      * constructor. by rewrite parent_get_set, decide_False.
    + assert (y ≠ c) by (intros ->; congruence).
      apply groot_step; rewrite parent_get_set, decide_False by done; done.
Qed.

(** [union] on any two values: it returns, and the classes of the two
    arguments become one. *)
Lemma union_any uf a b :
  uf_forest uf →
  ∃ uf' ra rb w, union uf a b = Some uf' ∧ uf_forest uf' ∧
    groot uf a ra ∧ groot uf b rb ∧ (w = ra ∨ w = rb) ∧
    ∀ y r, groot uf y r →
           groot uf' y (if decide (r = ra ∨ r = rb) then w else r).
Proof.
  intros Hf. unfold union.
  destruct (find_any uf a Hf) as (ra & uf1 & -> & Hra & Hf1 & Hpres1).
  destruct (find_any uf1 b Hf1) as (rb & uf2 & -> & Hrb & Hf2 & Hpres2).
  destruct (find_any uf b Hf) as (rb0 & _ & _ & Hrb0 & _).
  assert (rb0 = rb) as -> by (eapply groot_fun; [apply Hpres1, Hrb0|done]).
  assert (Hpres : ∀ y r, groot uf y r → groot uf2 y r) by auto.
  pose proof (groot_is_root _ _ _ (Hpres _ _ Hra)) as Hpa.
  pose proof (groot_is_root _ _ _ (Hpres _ _ Hrb0)) as Hpb.
  destruct (decide (ra = rb)) as [<-|Hne].
  { exists uf2, ra, ra, ra. split_and!; auto.
    intros y r Hr. case_decide as Hd; [|auto].
    assert (r = ra) as -> by (by destruct Hd). auto. }
  assert (Hab : ∀ uf', (∀ y r, groot uf2 y r →
               groot uf' y (if decide (r = ra) then rb else r)) →
             ∀ y r, groot uf y r →
               groot uf' y (if decide (r = ra ∨ r = rb) then rb else r)).
  { intros uf' Hroot' y r Hr. specialize (Hroot' y r (Hpres _ _ Hr)).
    destruct (decide (r = ra)) as [->|Hra'].
    - by rewrite decide_True by (by left).
    - destruct (decide (r = rb)) as [->|Hrb'].
      + by rewrite decide_True by (by right).
      + rewrite decide_False; [done|]. by intros [?|?]. }
  assert (Hba : ∀ uf', (∀ y r, groot uf2 y r →
               groot uf' y (if decide (r = rb) then ra else r)) →
             ∀ y r, groot uf y r →
               groot uf' y (if decide (r = ra ∨ r = rb) then ra else r)).
  { intros uf' Hroot' y r Hr. specialize (Hroot' y r (Hpres _ _ Hr)).
    destruct (decide (r = rb)) as [->|Hrb'].
    - by rewrite decide_True by (by right).
    - destruct (decide (r = ra)) as [->|Hra'].
      + by rewrite decide_True by (by left).
      + rewrite decide_False; [done|]. by intros [?|?]. }
  destruct (link_any uf2 ra rb Hf2 Hpa Hpb Hne) as [Hfab Hrab].
  destruct (link_any uf2 rb ra Hf2 Hpb Hpa) as [Hfba Hrba]; [done|].
  cbv zeta.
  destruct (rank_lt (rank_get uf2 ra) (rank_get uf2 rb)).
  - exists (parent_set uf2 ra rb), ra, rb, rb. split_and!; auto.
  - destruct (rank_lt (rank_get uf2 rb) (rank_get uf2 ra)).
    + exists (parent_set uf2 rb ra), ra, rb, ra. split_and!; auto.
    + eexists _, ra, rb, ra. split_and!; [done| |done|done|by left|].
      * eapply uf_forest_parent_eq; [|exact Hfba]. done.
      * apply Hba. intros y r Hr.
        eapply groot_parent_eq; [|by apply Hrba]. done.
Qed.

Lemma connected_any uf a b :
  uf_forest uf →
  ∃ ra rb uf', connected uf a b = Some (bool_decide (ra = rb), uf') ∧
    groot uf a ra ∧ groot uf b rb ∧ uf_forest uf' ∧
    (∀ y r, groot uf y r → groot uf' y r).
Proof.
  intros Hf. unfold connected.
  destruct (find_any uf a Hf) as (ra & uf1 & -> & Hra & Hf1 & Hpres1).
  destruct (find_any uf1 b Hf1) as (rb & uf2 & -> & Hrb & Hf2 & Hpres2).
  destruct (find_any uf b Hf) as (rb0 & _ & _ & Hrb0 & _).
  assert (rb0 = rb) as -> by (eapply groot_fun; [apply Hpres1, Hrb0|done]).
  exists ra, rb, uf2. split_and!; auto.
Qed.

Lemma groot_total uf x : uf_forest uf → ∃ r, groot uf x r.
Proof. intros Hf. destruct (find_any uf x Hf) as (r & _ & _ & Hr & _). eauto. Qed.

Lemma same_class_groot uf a b :
  uf_forest uf → same_class uf a b ↔ same_groot uf a b.
Proof.
  intros Hf. unfold same_class, same_groot.
  destruct (connected_any uf a b Hf) as (ra & rb & uf' & -> & Hra & Hrb & _).
  split.
  - intros (uf'' & [= Heq _]). apply bool_decide_eq_true in Heq as ->. eauto.
  - intros (r & Har & Hbr).
    rewrite (groot_fun _ _ _ _ Hra Har), (groot_fun _ _ _ _ Hrb Hbr).
    rewrite bool_decide_eq_true_2 by done. eauto.
Qed.

(** Every call returns, keeps the forest, and keeps together what was
    together. *)
Lemma uf_call_any uf c :
  uf_forest uf →
  ∃ uf', uf_call uf c = Some uf' ∧ uf_forest uf' ∧
         ∀ y z, same_groot uf y z → same_groot uf' y z.
Proof.
  intros Hf. destruct c as [x|x y|x y]; simpl.
  - destruct (find_any uf x Hf) as (r & uf' & -> & _ & Hf' & Hpres).
    exists uf'. split_and!; auto. intros y z (r0 & ? & ?). exists r0. auto.
  - destruct (union_any uf x y Hf)
      as (uf' & ra & rb & w & -> & Hf' & _ & _ & _ & Hroots).
    exists uf'. split_and!; auto. intros y0 z (r0 & ? & ?). eexists. eauto.
  - destruct (connected_any uf x y Hf) as (ra & rb & uf' & -> & _ & _ & Hf' & Hpres).
    exists uf'. split_and!; auto. intros y0 z (r0 & ? & ?). exists r0. auto.
Qed.

Lemma newUnionFind_forest (elements : list string) :
  uf_forest (newUnionFind elements) ∧
  ∀ x, x ∉ els_of elements → same_groot (newUnionFind elements) x None.
Proof.
  assert (Hget : ∀ x, parent_get (newUnionFind elements) x
                      = if decide (x ∈ els_of elements) then x else None).
  { intros x. unfold parent_get.
    rewrite (proj1 (newUnionFind_lookup elements x)). by case_decide. }
  pose proof (None_not_els_of elements) as HNone.
  split; [split|].
  - exists (λ y, if decide (y = None) then 1%nat else 0%nat).
    intros x. rewrite Hget. case_decide as Hx; [intros Hn; by destruct Hn|].
    intros Hne.
    rewrite (decide_False (P:=x = None)) by done.
    rewrite decide_True by done. lia.
  - intros x p. rewrite (proj1 (newUnionFind_lookup elements x)).
    case_decide as Hx; [|done]. intros [= ->].
    by rewrite (proj2 (newUnionFind_inv elements)).
  - intros x Hx.
    assert (groot (newUnionFind elements) None None) as Hn.
    { constructor. rewrite Hget. by rewrite decide_False. }
    exists None. split; [|done].
    destruct (decide (x = None)) as [->|Hne]; [done|].
    apply groot_step; rewrite Hget, decide_False by done; done.
Qed.

Lemma uf_reachable_any_forest (elements : list string) (uf : UnionFind) :
  uf_reachable_any elements uf →
  uf_forest uf ∧ ∀ x, x ∉ els_of elements → same_groot uf x None.
Proof.
  induction 1 as [|uf c uf' _ [Hf Hun] Hcall]; [apply newUnionFind_forest|].
  destruct (uf_call_any uf c Hf) as (uf'' & Heq & Hf' & Hmono).
  simplify_eq. split; [done|]. intros x Hx. by apply Hmono, Hun.
Qed.

Lemma uf_reachable_is_any (elements : list string) (uf : UnionFind) :
  uf_reachable elements uf → uf_reachable_any elements uf.
Proof. induction 1; [constructor|by econstructor]. Qed.


(** C9: in every state that a [UnionFind] built over an element set
    reaches, through any sequence of [find], [union] and [connected]
    calls, and for all values [a], [b], [c] (the elements among them):
    [union(a, b)] returns and [connected(a, b)] is true afterwards;
    [connected] is reflexive, symmetric and transitive; every further call
    returns and keeps [connected(a, b)] true; and a [find] changes the
    result of no later [find] and of no [connected]. *)
Theorem disjoint_set_equivalence
    (elements : list string) (uf : UnionFind) (a b c : option string) :
  uf_reachable_any elements uf →
  (∃ uf1, union uf a b = Some uf1 ∧ same_class uf1 a b) ∧
  same_class uf a a ∧
  (same_class uf a b → same_class uf b a) ∧
  (same_class uf a b → same_class uf b c → same_class uf a c) ∧
  (∀ call, ∃ uf', uf_call uf call = Some uf' ∧
                  (same_class uf a b → same_class uf' a b)) ∧
  (∀ x, ∃ r uf', find uf x = Some (r, uf') ∧
       (same_class uf' a b ↔ same_class uf a b) ∧
       ∀ y, ∃ ry uf1 uf2, find uf y = Some (ry, uf1) ∧
                          find uf' y = Some (ry, uf2)).
Proof.
  intros Hreach.
  destruct (uf_reachable_any_forest elements uf Hreach) as [Hf _].
  split_and!.
  - destruct (union_any uf a b Hf)
      as (uf1 & ra & rb & w & Hu & Hf1 & Hra & Hrb & _ & Hroots).
    exists uf1. split; [done|]. apply same_class_groot; [done|]. exists w. split.
    + pose proof (Hroots _ _ Hra) as H1. by rewrite decide_True in H1 by (by left).
    + pose proof (Hroots _ _ Hrb) as H1. by rewrite decide_True in H1 by (by right).
  - apply same_class_groot; [done|].
    destruct (groot_total uf a Hf) as [r Hr]. by exists r.
  - rewrite !same_class_groot by done. intros (r & ? & ?). by exists r.
  - rewrite !same_class_groot by done.
    intros (r & Har & Hbr) (r' & Hbr' & Hcr').
    rewrite (groot_fun _ _ _ _ Hbr' Hbr) in Hcr'. by exists r.
  - intros call. destruct (uf_call_any uf call Hf) as (uf' & Heq & Hf' & Hmono).
    exists uf'. split; [done|]. rewrite !same_class_groot by done. apply Hmono.
  - intros x. destruct (find_any uf x Hf) as (r & uf' & Hfind & _ & Hf' & Hpres).
    exists r, uf'. split_and!; [done| |].
    + rewrite !same_class_groot by done. split.
      * intros (r' & Har & Hbr).
        destruct (groot_total uf a Hf) as [ra Hra].
        destruct (groot_total uf b Hf) as [rb Hrb].
        rewrite <- (groot_fun _ _ _ _ (Hpres _ _ Hra) Har) in Hbr.
        rewrite (groot_fun _ _ _ _ (Hpres _ _ Hrb) Hbr) in Hrb. by exists ra.
      * intros (r' & Har & Hbr). exists r'. auto.
    + intros y.
      destruct (find_any uf y Hf) as (ry & uf1 & Hf1 & Hry & _).
      destruct (find_any uf' y Hf') as (ry' & uf2 & Hf2 & Hry' & _).
      exists ry, uf1, uf2. split; [done|].
      by rewrite (groot_fun _ _ _ _ (Hpres _ _ Hry) Hry').
Qed.

Lemma disjoint_set_equivalence_witness :
  same_class (newUnionFind ["A"; "B"; "C"]) (Some "A") (Some "A") ∧
  ∃ uf1, union (newUnionFind ["A"; "B"; "C"]) (Some "A") (Some "B") = Some uf1 ∧
         same_class uf1 (Some "A") (Some "B").
Proof.
  destruct (disjoint_set_equivalence ["A"; "B"; "C"] (newUnionFind ["A"; "B"; "C"])
              (Some "A") (Some "B") (Some "C")) as (Hu & Hr & _).
  - constructor.
  - split; [exact Hr|exact Hu].
Defined.

(** A value without a parent entry is sent to [undefined] by [find], as
    long as [undefined] has no entry itself. *)
Lemma find_unknown (uf : UnionFind) (x : option string) :
  parent_get uf x = None → parent_get uf None = None →
  ∃ uf', find uf x = Some (None, uf') ∧
         ∀ y, parent_get uf y = None → parent_get uf' y = None.
Proof.
  intros Hx Hn. unfold find. simpl.
  rewrite Hx. destruct (decide (None = x)) as [<-|Hne].
  - by exists uf.
  - rewrite Hn. rewrite decide_True by done.
    eexists. split.
    + f_equal. f_equal. unfold parent_get. simpl. by rewrite lookup_insert_eq.
    + intros y Hy. unfold parent_get in *. simpl.
      destruct (decide (x = y)) as [->|Hxy].
      * by rewrite lookup_insert_eq.
      * by rewrite lookup_insert_ne.
Qed.

(** C10: in every state that a [UnionFind] built over [elements] reaches,
    whatever was called on it, [connected(a, b)] raises nothing and returns
    [true] for any two values [a], [b] outside [elements]: [find] gives both
    the same representative.  As long as the calls named elements only,
    that representative is [undefined]. *)
Theorem unknown_elements_connected
    (elements : list string) (uf : UnionFind) (a b : option string) :
  uf_reachable_any elements uf → a ∉ els_of elements → b ∉ els_of elements →
  (∃ uf', connected uf a b = Some (true, uf')) ∧
  (∃ r uf1 uf2, find uf a = Some (r, uf1) ∧ find uf b = Some (r, uf2)) ∧
  (uf_reachable elements uf →
   ∃ uf1 uf2, find uf a = Some (None, uf1) ∧ find uf b = Some (None, uf2)).
Proof.
  intros Hreach Ha Hb.
  destruct (uf_reachable_any_forest elements uf Hreach) as [Hf Hun].
  assert (same_groot uf a b) as (r & Har & Hbr).
  { destruct (Hun a Ha) as (r & Har & Hnr). destruct (Hun b Hb) as (r' & Hbr & Hnr').
    rewrite (groot_fun _ _ _ _ Hnr' Hnr) in Hbr. by exists r. }
  split_and!.
  - apply same_class_groot; [done|]. by exists r.
  - destruct (find_any uf a Hf) as (ra & uf1 & Hf1 & Hra & _).
    destruct (find_any uf b Hf) as (rb & uf2 & Hf2 & Hrb & _).
    rewrite (groot_fun _ _ _ _ Hra Har) in Hf1.
    rewrite (groot_fun _ _ _ _ Hrb Hbr) in Hf2. eauto.
  - intros Hel. destruct (uf_reachable_inv elements uf Hel) as [_ Hdom].
    assert (Hget : ∀ y, y ∉ els_of elements → parent_get uf y = None).
    { intros y Hy. unfold parent_get. rewrite <- Hdom in Hy.
      apply not_elem_of_dom in Hy. by rewrite Hy. }
    pose proof (Hget None (None_not_els_of elements)) as Hn.
    destruct (find_unknown uf a (Hget a Ha) Hn) as (uf1 & Hf1 & _).
    destruct (find_unknown uf b (Hget b Hb) Hn) as (uf2 & Hf2 & _).
    eauto.
Qed.

Lemma unknown_elements_connected_witness :
  ∃ uf', connected (newUnionFind ["A"; "B"]) (Some "X") (Some "Y") = Some (true, uf').
Proof.
  apply (unknown_elements_connected ["A"; "B"] (newUnionFind ["A"; "B"])
           (Some "X") (Some "Y")).
  - constructor.
  - unfold els_of. set_solver.
  - unfold els_of. set_solver.
Defined.

(** Once a [union] has named a value outside the element set, the common
    representative of the unknown values need not be [undefined] any more:
    [union("A", "X")] files [undefined] under ["A"], and [find("Y")] then
    answers ["A"]. *)
Example unknown_representative_after_foreign_union :
  ∃ uf1 uf2,
    union (newUnionFind ["A"]) (Some "A") (Some "X") = Some uf1 ∧
    find uf1 (Some "Y") = Some (Some "A", uf2).
Proof.
  eexists _, _. split.
  - vm_compute. reflexivity.
  - vm_compute. reflexivity.
Qed.


Lemma elem_of_set_add (s : list string) (x y : string) :
  y ∈ set_add s x ↔ y ∈ s ∨ y = x.
Proof.
  unfold set_add. case_bool_decide as Hin.
  - split; [by left|]. by intros [?| ->].
  - by rewrite elem_of_app, list_elem_of_singleton.
Qed.

Lemma set_add_NoDup (s : list string) (x : string) :
  NoDup s → NoDup (set_add s x).
Proof.
  intros Hnd. unfold set_add. case_bool_decide as Hin; [done|].
  apply NoDup_app. split_and!; [done| |apply NoDup_singleton].
  intros y Hy ->%list_elem_of_singleton. done.
Qed.

Lemma elem_of_getNeighbors (g : Graph) (u v : string) :
  v ∈ getNeighbors g u ↔ hop g u v.
Proof.
  unfold getNeighbors, hop.
  set (f := λ (nb : list string) (e : Edge),
         if bool_decide (source e = u) then set_add nb (target e)
         else if negb (isDirected g) && bool_decide (target e = u)
              then set_add nb (source e) else nb).
  assert (G : ∀ es acc, v ∈ foldl f acc es ↔
            v ∈ acc ∨ ∃ e, e ∈ es ∧
              ((source e = u ∧ target e = v) ∨
               (isDirected g = false ∧ target e = u ∧ source e = v))).
  { induction es as [|e es IH]; intros acc; simpl.
    - split; [by left|]. intros [?|(e & He & _)]; [done|].
      by apply elem_of_nil in He.
    - rewrite IH. unfold f.
      split.
      + intros [Hin|(e' & He' & Hc)]; [|right; exists e'; split; [by right|done]].
        case_bool_decide as Hs.
        * apply elem_of_set_add in Hin as [?| ->]; [by left|].
          right. exists e. split; [left|]. by left.
        * destruct (isDirected g) eqn:Hd; simpl in Hin; [by left|].
          case_bool_decide as Ht; [|by left].
          apply elem_of_set_add in Hin as [?| ->]; [by left|].
          right. exists e. split; [left|]. by right.
      + intros [Hin|(e' & [->|He']%elem_of_cons & Hc)].
        * left. case_bool_decide; [apply elem_of_set_add; by left|].
          destruct (negb (isDirected g) && bool_decide (target e = u));
            [apply elem_of_set_add; by left|done].
        * left. destruct Hc as [[Hs Ht]|(Hd & Ht & Hs)].
          -- rewrite bool_decide_eq_true_2 by done.
             apply elem_of_set_add. by right.
          -- case_bool_decide as Hs'.
             ++ apply elem_of_set_add. right. congruence.
             ++ rewrite Hd. simpl. rewrite bool_decide_eq_true_2 by done.
                apply elem_of_set_add. by right.
        * right. eauto. }
  rewrite G. split; [|by right]. intros [Hin|?]; [|done].
  by apply elem_of_nil in Hin.
Qed.

Lemma getNeighbors_NoDup (g : Graph) (u : string) : NoDup (getNeighbors g u).
Proof.
  unfold getNeighbors.
  generalize (mvalues (edges g)). intros es.
  assert (G : ∀ acc : list string, NoDup acc →
     NoDup (foldl (λ nb e,
           if bool_decide (source e = u) then set_add nb (target e)
           else if negb (isDirected g) && bool_decide (target e = u)
                then set_add nb (source e)
                else nb) acc es)).
  { induction es as [|e es IH]; intros acc Hnd; simpl; [done|].
    apply IH. case_bool_decide; [by apply set_add_NoDup|].
    destruct (negb (isDirected g) && bool_decide (target e = u));
      [by apply set_add_NoDup|done]. }
  apply G, NoDup_nil_2.
Qed.

Section Ordering_facts.
Variable localeCompare : string → string → Z.

Lemma sort_insert_Permutation x l :
  sort_insert localeCompare x l ≡ₚ x :: l.
Proof.
  induction l as [|y l IH]; simpl; [done|].
  destruct (compareIds localeCompare x y <=? 0); [done|].
  rewrite IH. apply Permutation_swap.
Qed.

Lemma sortNeighbors_Permutation l : sortNeighbors localeCompare l ≡ₚ l.
Proof.
  unfold sortNeighbors. induction l as [|x l IH]; simpl; [done|].
  by rewrite sort_insert_Permutation, IH.
Qed.

Lemma elem_of_sortNeighbors l x : x ∈ sortNeighbors localeCompare l ↔ x ∈ l.
Proof. by rewrite sortNeighbors_Permutation. Qed.
End Ordering_facts.


Lemma walk_zero g s v : walk g s v 0 → v = s.
Proof. by inversion 1. Qed.

Lemma hop_universe g s u v : hop g u v → v ∈ bfs_universe g s.
Proof.
  intros (e & He & Hc). unfold bfs_universe.
  destruct Hc as [[_ <-]|(_ & _ & <-)].
  - apply elem_of_union_r, elem_of_list_to_set, list_elem_of_fmap. eauto.
  - apply elem_of_union_l, elem_of_union_r, elem_of_list_to_set, list_elem_of_fmap.
    eauto.
Qed.

Section BFS_correct.
Variable g : Graph.
Variable s : string.

Lemma bfs_inv_init : bfs_inv g s 0 None (bfs_init s).
Proof.
  split; simpl.
  - set_solver.
  - intros v. rewrite elem_of_singleton. split.
    + intros ->. rewrite lookup_singleton_eq. eauto.
    + intros [o Ho]. apply lookup_singleton_Some in Ho as [-> _]. done.
  - intros v o [<- <-]%lookup_singleton_Some. exists 0%nat. split; [done|].
    split; [constructor|lia].
  - exists [s], []. split_and!; [done| |].
    + intros u ->%list_elem_of_singleton. by rewrite lookup_singleton_eq.
    + intros u Hu. by apply elem_of_nil in Hu.
  - intros v n Hw Hn. assert (n = 0%nat) as -> by lia.
    apply walk_zero in Hw as ->. set_solver.
  - intros u ->%elem_of_singleton Hq. exfalso. apply Hq. left.
  - discriminate.
  - unfold bfs_universe. set_solver.
Qed.

(** When the nodes at distance [k] are exhausted, the level rises. *)
Lemma bfs_inv_bump k st :
  bfs_inv g s k None st →
  (∀ u, u ∈ b_queue st → b_distance st !! u = Some (Some (S k))) →
  bfs_inv g s (S k) None st.
Proof.
  intros [Hs Hdom Hdist Hq Hlev Hcl Hcur Hun] Hall. split; auto.
  - exists (b_queue st), []. split_and!; [by rewrite app_nil_r|done|].
    intros u Hu. by apply elem_of_nil in Hu.
  - intros v n Hw Hn. destruct (decide (n ≤ k)%nat) as [Hle|Hgt]; [eauto|].
    assert (n = S k) as -> by lia.
    inversion Hw as [|u v' n' Hwu Hhop]; subst.
    assert (u ∈ b_visited st) as Hu by (by eapply Hlev).
    apply (Hcl u); [done| |done|done].
    intros Huq. destruct (Hdist u _ (Hall u Huq)) as (d & [= <-] & _ & Hmin).
    specialize (Hmin k Hwu). lia.
  - discriminate.
Qed.

Lemma bfs_inv_head k st u rest :
  bfs_inv g s k None st → b_queue st = u :: rest →
  ∃ k', bfs_inv g s k' None st ∧ b_distance st !! u = Some (Some k').
Proof.
  intros Hinv Hqe. destruct (bi_queue _ _ _ _ _ Hinv) as (q1 & q2 & Hq & H1 & H2).
  destruct q1 as [|u' q1].
  - exists (S k). simpl in Hq. split.
    + apply bfs_inv_bump; [done|]. intros w Hw. apply H2. by rewrite <- Hq.
    + apply H2. rewrite <- Hq, Hqe. left.
  - exists k. split; [done|]. apply H1.
    rewrite Hqe in Hq. simpl in Hq. injection Hq as -> _. left.
Qed.

Lemma bfs_inv_pop k st u rest :
  bfs_inv g s k None st → b_queue st = u :: rest →
  b_distance st !! u = Some (Some k) →
  bfs_inv g s k (Some u)
    (mkBfsState (b_visited st) rest (b_visitOrder st ++ [u])
                (b_parent st) (b_distance st) (b_found st)).
Proof.
  intros [Hs Hdom Hdist Hq Hlev Hcl Hcur Hun] Hqe Hu. split; simpl; auto.
  - destruct Hq as (q1 & q2 & Hq & H1 & H2). rewrite Hqe in Hq.
    destruct q1 as [|u' q1]; simpl in Hq.
    + exfalso. assert (u ∈ q2) as Hin by (rewrite <- Hq; left).
      specialize (H2 u Hin). rewrite Hu in H2. injection H2. lia.
    + injection Hq as -> ->. exists q1, q2. split_and!; [done| |done].
      intros w Hw. apply H1. by right.
  - intros w Hw Hnq Hne v Hhop. apply (Hcl w); auto.
    rewrite Hqe. intros [->|?]%elem_of_cons; [by apply Hne|done].
  - by intros ? [= <-].
Qed.

Lemma bfs_visit_inv k st u v :
  bfs_inv g s k (Some u) st → hop g u v →
  bfs_inv g s k (Some u) (bfs_visit u st v) ∧
  v ∈ b_visited (bfs_visit u st v) ∧
  b_visited st ⊆ b_visited (bfs_visit u st v) ∧
  bfs_measure g s (bfs_visit u st v) = bfs_measure g s st.
Proof.
  intros Hinv Hhop. unfold bfs_visit. case_bool_decide as Hv; [done|].
  destruct Hinv as [Hs Hdom Hdist Hq Hlev Hcl Hcur Hun].
  pose proof (Hcur u eq_refl) as Hdu. rewrite Hdu. simpl.
  assert (b_distance st !! v = None) as Hnone.
  { destruct (b_distance st !! v) eqn:E; [|done].
    exfalso. apply Hv, Hdom. eauto. }
  assert (u ∈ b_visited st) as Huv by (apply Hdom; eauto).
  assert (v ∈ bfs_universe g s) as Hvu by (by eapply hop_universe).
  split_and!.
  - split; simpl.
    + set_solver.
    + intros w. rewrite elem_of_union, elem_of_singleton, Hdom.
      destruct (decide (w = v)) as [->|Hne].
      * rewrite lookup_insert_eq. split; eauto.
      * rewrite lookup_insert_ne by done. naive_solver.
    + intros w o. destruct (decide (w = v)) as [->|Hne].
      * rewrite lookup_insert_eq. intros [= <-]. exists (S k). split; [done|].
        destruct (Hdist u _ Hdu) as (d & [= <-] & Hw & _).
        split; [by econstructor|].
        intros n Hn. destruct (decide (S k ≤ n)%nat); [done|].
        exfalso. apply Hv. apply (Hlev v n); [done|lia].
      * rewrite lookup_insert_ne by done. apply Hdist.
    + destruct Hq as (q1 & q2 & -> & H1 & H2).
      exists q1, (q2 ++ [v]). split_and!; [by rewrite app_assoc| |].
      * intros w Hw. rewrite lookup_insert_ne; [by apply H1|].
        intros <-. specialize (H1 _ Hw). congruence.
      * intros w [Hw| ->%list_elem_of_singleton]%elem_of_app.
        -- rewrite lookup_insert_ne; [by apply H2|].
           intros <-. specialize (H2 _ Hw). congruence.
        -- by rewrite lookup_insert_eq.
    + intros w n Hw Hn. apply elem_of_union_r. eauto.
    + intros w Hw Hnq Hne x Hx.
      rewrite elem_of_app, list_elem_of_singleton in Hnq.
      apply elem_of_union in Hw as [->%elem_of_singleton|Hw];
        [exfalso; apply Hnq; by right|].
      apply elem_of_union_r. apply (Hcl w); auto.
    + intros ? [= <-]. rewrite lookup_insert_ne; [done|].
      intros <-. done.
    + set_solver.
  - simpl. set_solver.
  - simpl. set_solver.
  - unfold bfs_measure. simpl. rewrite length_app. simpl.
    assert (bfs_universe g s ∖ b_visited st
            = {[v]} ∪ (bfs_universe g s ∖ ({[v]} ∪ b_visited st))) as ->.
    { apply set_eq. intros w.
      rewrite elem_of_union, !elem_of_difference, elem_of_union, elem_of_singleton.
      destruct (decide (w = v)) as [->|?]; naive_solver. }
    rewrite (size_union (C:=gset string) {[v]}
               (bfs_universe g s ∖ ({[v]} ∪ b_visited st))); [|set_solver].
    rewrite size_singleton. lia.
Qed.

Lemma bfs_fold_inv k u (l : list string) st :
  bfs_inv g s k (Some u) st → (∀ v, v ∈ l → hop g u v) →
  let st' := foldl (bfs_visit u) st l in
  bfs_inv g s k (Some u) st' ∧ (∀ v, v ∈ l → v ∈ b_visited st') ∧
  b_visited st ⊆ b_visited st' ∧ bfs_measure g s st' = bfs_measure g s st.
Proof.
  revert st. induction l as [|v l IH]; intros st Hinv Hl; simpl.
  - split_and!; auto. intros v Hv. by apply elem_of_nil in Hv.
  - destruct (bfs_visit_inv k st u v Hinv) as (Hinv1 & Hv1 & Hsub1 & Hm1);
      [apply Hl; left|].
    destruct (IH (bfs_visit u st v) Hinv1) as (Hinv2 & Hall2 & Hsub2 & Hm2);
      [intros w Hw; apply Hl; by right|].
    split_and!; auto.
    + intros w [->|Hw]%elem_of_cons; auto.
    + set_solver.
    + congruence.
Qed.

Lemma bfs_inv_finish k st u :
  bfs_inv g s k (Some u) st → (∀ v, hop g u v → v ∈ b_visited st) →
  bfs_inv g s k None st.
Proof.
  intros [Hs Hdom Hdist Hq Hlev Hcl Hcur Hun] Hall. split; auto.
  - intros w Hw Hnq _ v Hhop. destruct (decide (w = u)) as [->|Hne]; [auto|].
    apply (Hcl w); auto. congruence.
  - discriminate.
Qed.

Lemma bfs_loop_spec (localeCompare : string → string → Z) fuel st k :
  bfs_inv g s k None st → (bfs_measure g s st < fuel)%nat →
  ∃ st' k', bfs_loop localeCompare fuel g None st = Some st' ∧
            bfs_inv g s k' None st' ∧ b_queue st' = [].
Proof.
  revert st k. induction fuel as [|fuel IH]; intros st k Hinv Hm; [lia|].
  simpl. destruct (b_queue st) as [|u rest] eqn:Hq; [eauto|].
  destruct (bfs_inv_head k st u rest Hinv Hq) as (k' & Hinv' & Hdu).
  pose proof (bfs_inv_pop k' st u rest Hinv' Hq Hdu) as Hpop.
  set (st1 := mkBfsState _ rest _ _ _ _) in *.
  destruct (bfs_fold_inv k' u
              (sortNeighbors localeCompare (getNeighbors g u)) st1 Hpop)
    as (Hinv2 & Hall & _ & Hm2).
  { intros v Hv. apply elem_of_sortNeighbors in Hv.
    by apply elem_of_getNeighbors. }
  apply (IH _ k').
  - apply (bfs_inv_finish k' _ u); [done|].
    intros v Hv. apply Hall. apply elem_of_sortNeighbors.
    by apply elem_of_getNeighbors.
  - rewrite Hm2. unfold bfs_measure in *. rewrite Hq in Hm.
    subst st1. simpl in *. lia.
Qed.

(** At the exit of the loop the visited set is closed under [hop]. *)
Lemma bfs_exit_reach k st :
  bfs_inv g s k None st → b_queue st = [] →
  ∀ v n, walk g s v n → v ∈ b_visited st.
Proof.
  intros Hinv Hq v n Hw. induction Hw as [|u v n Hw IH Hhop].
  - apply (bi_start _ _ _ _ _ Hinv).
  - apply (bi_closed _ _ _ _ _ Hinv u); auto.
    rewrite Hq. apply not_elem_of_nil.
Qed.
End BFS_correct.

Lemma min_hops_unique g s v d1 d2 :
  min_hops g s v d1 → min_hops g s v d2 → d1 = d2.
Proof.
  intros [Hw1 Hm1] [Hw2 Hm2]. specialize (Hm1 _ Hw2). specialize (Hm2 _ Hw1). lia.
Qed.

(** The complete traversal: [bfs(startNodeId)] returns, and its
    [distances] are exactly the least hop counts of the nodes that a path
    from the start reaches. *)
Lemma bfs_complete_distances (localeCompare : string → string → Z)
    (g : Graph) (s : string) :
  ∃ r, bfs localeCompare g s None = Some r ∧
    (∀ v d, bfs_distances r !! v = Some (Some d) ↔ min_hops g s v d) ∧
    (∀ v, is_Some (bfs_distances r !! v) ↔ ∃ n, walk g s v n).
Proof.
  destruct (bfs_loop_spec g s localeCompare
              (2 + size (bfs_universe g s)) (bfs_init s) 0 (bfs_inv_init g s))
    as (st & k & Hloop & Hinv & Hq).
  { unfold bfs_measure. simpl.
    assert (size (bfs_universe g s ∖ {[s]}) ≤ size (bfs_universe g s))%nat
      by (apply subseteq_size; set_solver).
    lia. }
  unfold bfs. rewrite Hloop. simpl. eexists. split; [done|]. simpl.
  assert (Hreach : ∀ v n, walk g s v n → ∃ d, b_distance st !! v = Some (Some d)
                                            ∧ min_hops g s v d).
  { intros v n Hw.
    pose proof (bfs_exit_reach g s k st Hinv Hq v n Hw) as Hv.
    apply (bi_dom _ _ _ _ _ Hinv) in Hv as [o Ho].
    destruct (bi_dist _ _ _ _ _ Hinv v o Ho) as (d & -> & Hmin). eauto. }
  split.
  - intros v d. split.
    + intros Hd. destruct (bi_dist _ _ _ _ _ Hinv v _ Hd) as (d' & [= <-] & ?). done.
    + intros Hmin. destruct (Hreach v d (proj1 Hmin)) as (d' & Hd' & Hmin').
      by rewrite (min_hops_unique _ _ _ _ _ Hmin Hmin').
  - intros v. split.
    + intros [o Ho]. destruct (bi_dist _ _ _ _ _ Hinv v o Ho) as (d & _ & Hw & _).
      eauto.
    + intros [n Hw]. destruct (Hreach v n Hw) as (d & -> & _). eauto.
Qed.

(** C6: for every graph and every start node [s] of it, [bfs(s)] returns
    a record whose [distances] map binds [v] to [d] exactly when [d] is
    the least number of edges on a path from [s] to [v]; a node is bound
    in the map exactly when some path from [s] reaches it. *)
Theorem bfs_distances_are_min_hops (localeCompare : string → string → Z)
    (g : Graph) (s : string) :
  mhas (nodes g) s = true →
  ∃ r, bfs localeCompare g s None = Some r ∧
    (∀ v d, bfs_distances r !! v = Some (Some d) ↔ min_hops g s v d) ∧
    (∀ v, is_Some (bfs_distances r !! v) ↔ ∃ n, walk g s v n).
Proof. intros _. apply bfs_complete_distances. Qed.


Lemma bfs_distances_are_min_hops_witness :
  mhas (nodes sample_graph) "A" = true ∧
  ∃ r, bfs codeUnitCompare sample_graph "A" None = Some r ∧
       ∀ v d, bfs_distances r !! v = Some (Some d) ↔ min_hops sample_graph "A" v d.
Proof.
  split; [reflexivity|].
  destruct (bfs_distances_are_min_hops codeUnitCompare sample_graph "A" eq_refl)
    as (r & Hr & Hd & _).
  exists r. split; [exact Hr|exact Hd].
Defined.

(** ** Unknown node ids *)

(** [dfs] raises exactly when its guard fails: the start is not a node, or
    a truthy target is not a node. *)
Lemma dfs_raises_iff (localeCompare : string → string → Z)
    (g : Graph) (s : string) (t : option string) :
  dfs localeCompare g s t = Some (Throw UnknownNodeError) ↔
  mhas (nodes g) s = false ∨
  (falsy t = false ∧ mhas (nodes g) (default "" t) = false).
Proof.
  unfold dfs. destruct (dfs_guard g s t) eqn:Hg; cbn [negb].
  - split.
    + destruct (dfs_loop localeCompare _ _ _ _) as [st|]; [|done].
      destruct (falsy t); cbn [negb]; [done|].
      destruct (d_found st); [|done].
      destruct (reconstructPath _ _ _); done.
    + unfold dfs_guard, getNode, mhas in *.
      destruct (mget (nodes g) s); [|done].
      intros [?|[Hf Hm]]; [done|]. rewrite Hf in Hg. cbn [negb] in Hg.
      by destruct (mget (nodes g) (default "" t)).
  - split; [intros _|done].
    unfold dfs_guard, getNode, mhas in *.
    destruct (mget (nodes g) s); [|by left]. right.
    destruct (falsy t); cbn [negb] in Hg; [done|].
    by destruct (mget (nodes g) (default "" t)).
Qed.

(** C1, at the input where the code departs from it: ["Z"] is no node of
    the sample graph; [dfs("Z")] raises [UnknownNodeError], but [bfs("Z")]
    returns a result record that reports a successful traversal
    visiting ["Z"]. *)
Theorem bfs_accepts_unknown_start (localeCompare : string → string → Z) :
  getNode sample_graph "Z" = None ∧
  dfs localeCompare sample_graph "Z" None = Some (Throw UnknownNodeError) ∧
  ∃ r, bfs localeCompare sample_graph "Z" None = Some r ∧
       bfs_visitOrder r = ["Z"] ∧ bfs_found r = true ∧
       bfs_distances r !! "Z" = Some (Some 0%nat).
Proof.
  split_and!; [reflexivity|reflexivity|].
  eexists. split; [vm_compute; reflexivity|].
  split_and!; reflexivity.
Qed.

(** ** The identity check of [compareMST] *)

(** C3, at the input where the code departs from it: on the weighted
    triangle with equal weights, [kruskal] keeps the edges [A-B] and [B-C]
    while [prim] keeps [A-B] and [A-C]; every edge normalizes to the key
    ["NaN-NaN-1"], and [compareMST] reports the two edge sets as
    identical. *)
Theorem compareMST_identical_on_different_trees :
  ∃ c, compareMST triangle = Some (Ok c) ∧
       e_id <$> k_mstEdges (c_kruskal c) = ["edge_1"; "edge_2"] ∧
       e_id <$> p_mstEdges (c_prim c) = ["edge_1"; "edge_3"] ∧
       normalize <$> k_mstEdges (c_kruskal c)
         = [Some "NaN-NaN-1"; Some "NaN-NaN-1"] ∧
       areMSTsIdentical (k_mstEdges (c_kruskal c)) (p_mstEdges (c_prim c))
         = Some true ∧
       c_identical c = true.
Proof.
  eexists. split; [vm_compute; reflexivity|].
  split_and!; vm_compute; reflexivity.
Qed.


(** ** Chains of edges and the exchange of one edge of a spanning tree *)

Lemma ends_sym e x y : ends e x y → ends e y x.
Proof. unfold ends. tauto. Qed.

Lemma adj_sym L x y : adj L x y → adj L y x.
Proof. intros (e & He & Hends). exists e. split; [done|by apply ends_sym]. Qed.

Lemma adj_mono (L1 L2 : list Edge) x y :
  (∀ e, e ∈ L1 → e ∈ L2) → adj L1 x y → adj L2 x y.
Proof. intros Hsub (e & He & Hends). exists e. auto. Qed.

Lemma conn_mono (L1 L2 : list Edge) x y :
  (∀ e, e ∈ L1 → e ∈ L2) → conn L1 x y → conn L2 x y.
Proof.
  intros Hsub. unfold conn. induction 1 as [|x x' y Hadj _ IH]; [constructor|].
  eapply rtc_l; [|exact IH]. by eapply adj_mono.
Qed.

Lemma conn_sym L x y : conn L x y → conn L y x.
Proof.
  unfold conn. induction 1 as [|x x' y Hadj _ IH]; [constructor|].
  eapply rtc_r; [exact IH|]. by apply adj_sym.
Qed.

Lemma conn_trans L x y z : conn L x y → conn L y z → conn L x z.
Proof. unfold conn. apply rtc_trans. Qed.

Lemma conn_edge L e x y : e ∈ L → ends e x y → conn L x y.
Proof. intros He Hends. apply rtc_once. by exists e. Qed.

Lemma elem_of_without e f L : f ∈ without e L ↔ f ∈ L ∧ f ≠ e.
Proof. unfold without. rewrite list_elem_of_filter. tauto. Qed.

Lemma without_NoDup e L : NoDup L → NoDup (without e L).
Proof. apply NoDup_filter. Qed.

Lemma without_length_lt e L : e ∈ L → (length (without e L) < length L)%nat.
Proof.
  unfold without. induction L as [|f L IH]; [by intros ?%elem_of_nil|].
  intros Hin. rewrite filter_cons. destruct (decide (f ≠ e)) as [Hne|Heq].
  - simpl. apply elem_of_cons in Hin as [->|Hin]; [done|].
    specialize (IH Hin). lia.
  - pose proof (length_filter (λ f, f ≠ e) L). simpl. lia.
Qed.

Lemma without_length e L :
  NoDup L → e ∈ L → (length (without e L) + 1 = length L)%nat.
Proof.
  unfold without. induction L as [|f L IH]; [by intros _ ?%elem_of_nil|].
  intros [Hf Hnd]%NoDup_cons Hin. rewrite filter_cons.
  destruct (decide (f ≠ e)) as [Hne|Heq].
  - simpl. apply elem_of_cons in Hin as [->|Hin]; [done|].
    specialize (IH Hnd Hin). lia.
  - assert (f = e) as -> by (by destruct (decide (f = e))).
    simpl. f_equal. rewrite Nat.add_1_r. f_equal.
    clear IH Hin Heq Hnd. induction L as [|f L IH]; [done|].
    apply not_elem_of_cons in Hf as [Hne Hf]. rewrite filter_cons.
    rewrite decide_True by done. simpl. f_equal. by apply IH.
Qed.

Lemma total_weight_without e L :
  NoDup L → e ∈ L → total_weight L = weight e + total_weight (without e L).
Proof.
  unfold without. induction L as [|f L IH]; [by intros _ ?%elem_of_nil|].
  intros [Hf Hnd]%NoDup_cons Hin. rewrite filter_cons. simpl.
  destruct (decide (f ≠ e)) as [Hne|Heq].
  - simpl. apply elem_of_cons in Hin as [->|Hin]; [done|].
    rewrite (IH Hnd Hin). lia.
  - assert (f = e) as -> by (by destruct (decide (f = e))).
    f_equal. f_equal.
    clear IH Hin Heq Hnd. induction L as [|f L IH]; [done|].
    apply not_elem_of_cons in Hf as [Hne Hf]. rewrite filter_cons.
    rewrite decide_True by done. f_equal. by apply IH.
Qed.

Lemma total_weight_Permutation L1 L2 :
  L1 ≡ₚ L2 → total_weight L1 = total_weight L2.
Proof.
  induction 1; simpl; try lia.
Qed.

Lemma total_weight_app L1 L2 :
  total_weight (L1 ++ L2) = total_weight L1 + total_weight L2.
Proof. induction L1 as [|e L1 IH]; simpl; lia. Qed.

(** Adding the edge [e] between [u] and [v] links exactly the pairs that
    were linked, or that reach [u] and [v] from either side. *)
Lemma conn_add_edge L e u v x y :
  ends e u v →
  conn (e :: L) x y →
  conn L x y ∨ (conn L x u ∧ conn L v y) ∨ (conn L x v ∧ conn L u y).
Proof.
  intros He. unfold conn.
  induction 1 as [x|x x' y (f & Hf & Hends) _ IH]; [left; constructor|].
  assert (adj L x x' ∨ ((x = u ∧ x' = v) ∨ (x = v ∧ x' = u))) as [Hadj|Hnew].
  { apply elem_of_cons in Hf as [->|Hf]; [right|left; by exists f].
    unfold ends in *. naive_solver. }
  - destruct IH as [IH|[[IH1 IH2]|[IH1 IH2]]].
    + left. by eapply rtc_l.
    + right; left. split; [by eapply rtc_l|done].
    + right; right. split; [by eapply rtc_l|done].
  - destruct Hnew as [[-> ->]|[-> ->]].
    + destruct IH as [IH|[[IH1 IH2]|[IH1 IH2]]].
      * right; left. split; [constructor|done].
      * right; left. split; [constructor|done].
      * left. done.
    + destruct IH as [IH|[[IH1 IH2]|[IH1 IH2]]].
      * right; right. split; [constructor|done].
      * left. done.
      * right; right. split; [constructor|done].
Qed.

(** Removing the edge [e'] between [a] and [b] from a chain. *)
Lemma conn_split L e' a b x y :
  ends e' a b →
  conn L x y →
  conn (without e' L) x y ∨
  (conn (without e' L) x a ∧ conn (without e' L) b y) ∨
  (conn (without e' L) x b ∧ conn (without e' L) a y).
Proof.
  intros He Hc. apply (conn_add_edge _ e' a b); [done|].
  eapply conn_mono; [|exact Hc].
  intros f Hf. destruct (decide (f = e')) as [->|Hne]; [left|right].
  by apply elem_of_without.
Qed.

Section Cut.
Variable inside : string → Prop.
Hypothesis S_dec : ∀ x, inside x ∨ ¬ inside x.

(** A chain that leaves [inside] has a first edge that crosses the cut, reached
  through edges that stay inside. *)
Lemma first_crossing L x y :
conn L x y → inside x → ¬ inside y →
∃ e a b, e ∈ L ∧ crosses inside e a b ∧ conn L b y ∧
         ∀ e', (∀ p q, ends e' p q → ¬ (inside p ∧ inside q)) → conn (without e' L) x a.
Proof.
unfold conn. induction 1 as [x|x x' y (f & Hf & Hends) Hrest IH];
  intros Hx Hy; [done|].
destruct (S_dec x') as [Hx'|Hx'].
- destruct (IH Hx' Hy) as (e & a & b & He & Hcr & Hb & Hin).
  exists e, a, b. split_and!; auto.
  intros e' He'. eapply rtc_l; [|by apply Hin].
  exists f. split; [|done]. apply elem_of_without. split; [done|].
  intros ->. by apply (He' x x').
- exists f, x, x'. split_and!; auto; [done|].
  intros e' _. constructor.
Qed.

Lemma crossing_not_inside e a b :
crosses inside e a b → ∀ p q, ends e p q → ¬ (inside p ∧ inside q).
Proof.
intros (Hab & Ha & Hb) p q Hpq [Hp Hq]. unfold ends in *.
destruct Hab as [[? ?]|[? ?]], Hpq as [[? ?]|[? ?]]; subst; congruence.
Qed.

(** A chain from inside [inside] to outside contains a crossing edge whose
  removal leaves the start linked to its inner end and its outer end
  linked to the goal. *)
Lemma crossing_bridge n L x y :
(length L ≤ n)%nat → conn L x y → inside x → ¬ inside y →
∃ e a b, e ∈ L ∧ crosses inside e a b ∧
         conn (without e L) x a ∧ conn (without e L) b y.
Proof.
revert L x y. induction n as [|n IH]; intros L x y Hlen Hc Hx Hy.
- destruct L; [|simpl in Hlen; lia].
  exfalso. unfold conn in Hc. inversion Hc as [|? ? ? (f & Hf & _)]; subst;
    [done|by apply elem_of_nil in Hf].
- destruct (first_crossing L x y Hc Hx Hy) as (e & a & b & He & Hcr & Hby & Hxa).
  pose proof (Hxa e (crossing_not_inside e a b Hcr)) as Hxa'.
  destruct (conn_split L e a b b y (proj1 Hcr) Hby) as [Hd|[[_ Hd]|[_ Hd]]].
  + exists e, a, b. by split_and!.
  + exists e, a, b. by split_and!.
  + assert (conn (without e L) x y) as Hxy by (by eapply conn_trans).
    pose proof (without_length_lt e L He) as Hlt.
    destruct (IH (without e L) x y) as (e2 & a2 & b2 & He2 & Hcr2 & H1 & H2);
      [lia|done|done|done|].
    apply elem_of_without in He2 as [He2 Hne].
    assert (Hsub : ∀ f, f ∈ without e2 (without e L) → f ∈ without e2 L).
    { intros f. rewrite !elem_of_without. tauto. }
    exists e2, a2, b2. split_and!; auto; by eapply conn_mono.
Qed.

(** The exchange step: a spanning tree [T] that misses the edge [e] across
  the cut contains a crossing edge [e'] such that [T] with [e'] replaced
  by [e] is again a spanning tree. *)
Lemma exchange V E T e u v :
spanning V E T → e ∈ E → e ∉ T → crosses inside e u v → u ∈ V → v ∈ V →
∃ e' a b, e' ∈ T ∧ crosses inside e' a b ∧ spanning V E (e :: without e' T).
Proof.
intros (Hsub & Hnd & Hlen & Hconn) HeE HeT (Huv & Hu & Hv) HuV HvV.
destruct (crossing_bridge (length T) T u v) as (e' & a & b & He' & Hcr & Hua & Hbv);
  [lia|by apply Hconn|done|done|].
exists e', a, b. split_and!; auto. split_and!.
- intros f [->|[Hf _]%elem_of_without]%elem_of_cons; auto.
- apply NoDup_cons. split; [|by apply without_NoDup].
  rewrite elem_of_without. tauto.
- simpl. pose proof (without_length e' T Hnd He'). lia.
- intros x y Hx Hy.
  assert (Hweak : ∀ p q, conn (without e' T) p q → conn (e :: without e' T) p q).
  { intros p q. apply conn_mono. intros f Hf. by right. }
  assert (conn (e :: without e' T) a b) as Hab.
  { eapply conn_trans; [apply conn_sym, Hweak, Hua|].
    eapply conn_trans; [|apply conn_sym, Hweak, Hbv].
    apply (conn_edge _ e); [left|done]. }
  destruct (conn_split T e' a b x y (proj1 Hcr) (Hconn x y Hx Hy))
    as [Hd|[[H1 H2]|[H1 H2]]].
  + by apply Hweak.
  + eapply conn_trans; [apply Hweak, H1|].
    eapply conn_trans; [exact Hab|]. by apply Hweak.
  + eapply conn_trans; [apply Hweak, H1|].
    eapply conn_trans; [apply conn_sym, Hab|]. by apply Hweak.
Qed.
End Cut.


(** ** Sums of weights *)

(** A safe integer is a double. *)
Lemma round_double_exact (x : Z) : Z.abs x ≤ 2 ^ 53 → round_double x = x.
Proof.
  intros Hx. unfold round_double.
  destruct (Z.leb_spec (Z.log2 (Z.abs x) - 52) 0) as [Hle|Hgt]; [done|].
  assert (0 < Z.abs x) as Hpos.
  { destruct (decide (Z.abs x = 0)) as [H0|]; [|lia]. rewrite H0 in Hgt.
    simpl in Hgt. lia. }
  pose proof (Z.log2_spec (Z.abs x) Hpos) as [Hlo Hhi].
  assert (Z.log2 (Z.abs x) ≤ 53) as Hlog.
  { replace 53 with (Z.log2 (2 ^ 53)) by done. by apply Z.log2_le_mono. }
  assert (Z.log2 (Z.abs x) = 53) as Heq by lia.
  rewrite Heq in Hlo |- *.
  assert (Z.abs x = 2 ^ 53) as Habs by lia.
  rewrite Habs. change (Z.sgn x * 2 ^ 53 = x). lia.
Qed.

Lemma to_number_exact (x : Z) : Z.abs x ≤ 2 ^ 53 → to_number x = Num x.
Proof.
  intros Hx. unfold to_number. rewrite round_double_exact by done.
  assert (2 ^ 53 < 2 ^ 1024) by (apply Z.pow_lt_mono_r; lia).
  destruct (Z.leb_spec (2 ^ 1024) x); [lia|].
  destruct (Z.leb_spec x (- 2 ^ 1024)); [lia|done].
Qed.

Lemma number_sum_snoc L e :
  number_sum (L ++ [e]) = number_add (number_sum L) (Num (weight e)).
Proof. unfold number_sum. by rewrite foldl_app. Qed.

Lemma abs_weight_nonneg L : 0 ≤ abs_weight L.
Proof. induction L as [|e L IH]; simpl; lia. Qed.

Lemma abs_weight_total L : Z.abs (total_weight L) ≤ abs_weight L.
Proof. induction L as [|e L IH]; simpl; lia. Qed.

Lemma abs_weight_app L1 L2 : abs_weight (L1 ++ L2) = abs_weight L1 + abs_weight L2.
Proof. induction L1 as [|e L IH]; simpl; lia. Qed.

Lemma abs_weight_Permutation L1 L2 : L1 ≡ₚ L2 → abs_weight L1 = abs_weight L2.
Proof. induction 1; simpl; lia. Qed.

(** Distinct edges of the graph weigh no more than all of them. *)
Lemma abs_weight_sub T E :
  NoDup T → (∀ e, e ∈ T → e ∈ E) → abs_weight T ≤ abs_weight E.
Proof.
  intros Hnd Hsub.
  destruct (submseteq_Permutation T E) as [E' HE'].
  { by apply NoDup_submseteq. }
  rewrite (abs_weight_Permutation _ _ HE'), abs_weight_app.
  pose proof (abs_weight_nonneg E'). lia.
Qed.

Lemma total_weight_snoc L e : total_weight (L ++ [e]) = total_weight L + weight e.
Proof. induction L as [|f L IH]; simpl; lia. Qed.

(** Small weights are added without rounding. *)
Lemma number_sum_exact L :
  abs_weight L ≤ 2 ^ 53 → number_sum L = Num (total_weight L).
Proof.
  induction L as [|e L IH] using rev_ind; [done|].
  rewrite abs_weight_app. simpl. intros Hb.
  pose proof (abs_weight_nonneg L).
  rewrite number_sum_snoc, IH by lia. simpl.
  rewrite total_weight_snoc. apply to_number_exact.
  pose proof (abs_weight_total L). lia.
Qed.

Lemma number_sum_exact_in g T :
  exact_weights g → NoDup T → (∀ e, e ∈ T → e ∈ mvalues (edges g)) →
  number_sum T = Num (total_weight T).
Proof.
  intros Hex Hnd Hsub. apply number_sum_exact.
  pose proof (abs_weight_sub T _ Hnd Hsub). unfold exact_weights in Hex. lia.
Qed.

(** ** Printed Numbers *)

(** Below [2^53] all the digits are printed. *)
Lemma Number_toString_safe (x : Z) :
  Z.abs x < 2 ^ 53 → Number_toString x = pretty x.
Proof.
  intros Hx.
  assert (Z.log2 (Z.abs x) - 52 ≤ 0) as Hlog.
  { destruct (decide (Z.abs x = 0)) as [->|Hne]; [done|].
    assert (Z.log2 (Z.abs x) < 53); [|lia].
    apply Z.log2_lt_pow2; lia. }
  unfold Number_toString.
  assert (round_double (Z.abs x) = Z.abs x) as ->.
  { apply round_double_exact. rewrite Z.abs_idemp. lia. }
  assert (2 ^ 53 < 2 ^ 1024) by (apply Z.pow_lt_mono_r; lia).
  assert (2 ^ 53 < 10 ^ 21) by done.
  destruct (Z.leb_spec (2 ^ 1024) (Z.abs x)); [lia|].
  unfold shortest.
  destruct (Z.leb_spec (Z.log2 (Z.abs x) - 52) 0); [|lia].
  destruct (Z.ltb_spec (Z.abs x) (10 ^ 21)); [|lia].
  destruct x as [|p|p]; done.
Qed.

(** Beyond, the digits of the shortest decimal number that is read back
    as the same double, and the exponent form from [10^21] on. *)
Example Number_toString_large :
  Number_toString (2 ^ 53 + 2) = "9007199254740994" ∧
  Number_toString (2 ^ 64) = "18446744073709552000" ∧
  Number_toString (10 ^ 21) = "1e+21" ∧
  Number_toString (- 2 ^ 70) = "-1.1805916207174113e+21" ∧
  number_add (Num (2 ^ 53)) (Num 1) = Num (2 ^ 53) ∧
  number_add (Num (2 ^ 53 + 2)) (Num 1) = Num (2 ^ 53 + 4).
Proof. by vm_compute. Qed.


(** ** The greedy choice *)

Lemma extendable_nil V E : extendable V E [].
Proof.
  intros T HT. exists T. split_and!; [done| |lia].
  intros f Hf. by apply elem_of_nil in Hf.
Qed.

(** Accepting a lightest edge across a cut that no accepted edge crosses
    keeps the accepted edges extendable to a spanning tree of least
    weight. *)
Lemma extendable_step V E F e u v (inside : string → Prop) :
  (∀ x, inside x ∨ ¬ inside x) →
  extendable V E F →
  e ∈ E → crosses inside e u v → u ∈ V → v ∈ V →
  (∀ f p q, f ∈ F → ends f p q → inside p → inside q) →
  (∀ e' a b, e' ∈ E → crosses inside e' a b → weight e ≤ weight e') →
  extendable V E (e :: F).
Proof.
  intros Hdec Hext HeE Hcr Hu Hv HF Hmin T HT.
  destruct (Hext T HT) as (T' & HT' & Hsub & Hle).
  destruct (decide (e ∈ T')) as [HeT|HeT].
  - exists T'. split_and!; [done| |done].
    intros f [->|Hf]%elem_of_cons; auto.
  - destruct (exchange inside Hdec V E T' e u v HT' HeE HeT Hcr Hu Hv)
      as (e' & a & b & He' & Hcr' & HT'').
    exists (e :: without e' T'). split_and!; [done| |].
    + intros f [->|Hf]%elem_of_cons; [left|right].
      apply elem_of_without. split; [auto|].
      intros ->. destruct Hcr' as (Hends & Ha & Hb). apply Hb.
      by apply (HF e' a b).
    + destruct HT' as (HsubE & Hnd & _).
      simpl. rewrite (total_weight_without e' T' Hnd He') in Hle.
      specialize (Hmin e' a b (HsubE _ He') Hcr'). lia.
Qed.

Lemma conn_Permutation L1 L2 x y : L1 ≡ₚ L2 → conn L1 x y → conn L2 x y.
Proof. intros HP. apply conn_mono. intros e. by rewrite HP. Qed.

Lemma spanning_Permutation V E T1 T2 :
  T1 ≡ₚ T2 → spanning V E T1 → spanning V E T2.
Proof.
  intros HP (Hsub & Hnd & Hlen & Hconn). split_and!.
  - intros e. rewrite <- HP. auto.
  - by rewrite <- HP.
  - by rewrite <- HP.
  - intros x y Hx Hy. eapply conn_Permutation; eauto.
Qed.

(** Once one edge fewer than nodes has been accepted, the accepted edges
    are a spanning tree of least weight (if the graph has one at all). *)
Lemma extendable_full V E F T :
  extendable V E F → NoDup F → (length F + 1 = length V)%nat →
  spanning V E T →
  spanning V E F ∧ total_weight F ≤ total_weight T.
Proof.
  intros Hext Hnd Hlen HT.
  destruct (Hext T HT) as (T' & HT' & Hsub & Hle).
  assert (F ≡ₚ T') as HP.
  { apply submseteq_length_Permutation.
    - by apply NoDup_submseteq.
    - destruct HT' as (_ & _ & Hlen' & _). lia. }
  split.
  - eapply spanning_Permutation; [symmetry; exact HP|done].
  - by rewrite (total_weight_Permutation _ _ HP).
Qed.


(** ** [kruskal] *)

Lemma weight_insert_Permutation e l : weight_insert e l ≡ₚ e :: l.
Proof.
  induction l as [|y l IH]; simpl; [done|].
  destruct (weight e <=? weight y); [done|].
  rewrite IH. apply Permutation_swap.
Qed.

Lemma sortByWeight_Permutation l : sortByWeight l ≡ₚ l.
Proof.
  unfold sortByWeight. induction l as [|x l IH]; simpl; [done|].
  by rewrite weight_insert_Permutation, IH.
Qed.

Lemma ascending_cons e l :
  ascending (e :: l) ↔ (∀ f, f ∈ l → weight e ≤ weight f) ∧ ascending l.
Proof.
  split.
  - intros Ha. split.
    + intros f Hf. by apply (Ha [] e l).
    + intros l1 e' l2 -> f Hf. by apply (Ha (e :: l1) e' l2).
  - intros [Hhd Htl] l1 e' l2 Heq f Hf. destruct l1 as [|x l1]; simpl in Heq.
    + injection Heq as -> ->. auto.
    + injection Heq as -> ->. by apply (Htl l1 e' l2).
Qed.

Lemma weight_insert_ascending e l : ascending l → ascending (weight_insert e l).
Proof.
  induction l as [|y l IH]; simpl; intros Ha.
  - apply ascending_cons. split; [by intros f ?%elem_of_nil|done].
  - destruct (Z.leb_spec (weight e) (weight y)) as [Hle|Hgt].
    + apply ascending_cons. split; [|done].
      apply ascending_cons in Ha as [Hy _].
      intros f [->|Hf]%elem_of_cons; [done|]. specialize (Hy f Hf). lia.
    + apply ascending_cons in Ha as [Hy Ha]. apply ascending_cons. split.
      * intros f. rewrite weight_insert_Permutation.
        intros [->|Hf]%elem_of_cons; [lia|auto].
      * auto.
Qed.

Lemma sortByWeight_ascending l : ascending (sortByWeight l).
Proof.
  unfold sortByWeight. induction l as [|x l IH]; simpl.
  - intros l1 e l2 Heq. by destruct l1.
  - by apply weight_insert_ascending.
Qed.

Section Roots.
Variable els : gset (option string).

Lemma elem_of_roots uf r :
r ∈ roots els uf ↔ r ∈ els ∧ root_of uf r r.
Proof.
unfold roots. rewrite elem_of_filter. split.
- intros [Hp Hr]. split; [done|by constructor].
- intros [Hr Hroot]. split; [|done]. by eapply root_of_is_root.
Qed.

Lemma root_of_idem uf x r : root_of uf x r → root_of uf r r.
Proof. intros H. constructor. by eapply root_of_is_root. Qed.

Lemma same_root_preserved uf uf' x y :
uf_inv els uf → x ∈ els → y ∈ els →
(∀ z r, root_of uf z r → root_of uf' z r) →
same_root uf' x y ↔ same_root uf x y.
Proof.
intros Hinv Hx Hy Hpres. split.
- intros (r & Hxr & Hyr).
  destruct (root_total els uf x Hinv Hx) as [rx Hrx].
  destruct (root_total els uf y Hinv Hy) as [ry Hry].
  rewrite <- (root_of_fun _ _ _ _ (Hpres _ _ Hrx) Hxr) in Hyr.
  rewrite (root_of_fun _ _ _ _ (Hpres _ _ Hry) Hyr) in Hry.
  by exists rx.
- intros (r & Hxr & Hyr). exists r. auto.
Qed.

Lemma roots_preserved uf uf' :
uf_inv els uf →
(∀ z r, root_of uf z r → root_of uf' z r) →
roots els uf' = roots els uf.
Proof.
intros Hinv Hpres. apply set_eq. intros r. rewrite !elem_of_roots.
split; intros [Hr Hroot]; (split; [done|]); [|auto].
destruct (root_total els uf r Hinv Hr) as [r0 Hr0].
rewrite (root_of_fun _ _ _ _ (Hpres _ _ Hr0) Hroot) in Hr0. done.
Qed.

(** A [union] of two classes removes exactly one root. *)
Lemma roots_union uf uf' a b ra rb :
uf_inv els uf → a ∈ els → b ∈ els →
root_of uf a ra → root_of uf b rb → ra ≠ rb →
union_post els uf a b uf' →
(size (roots els uf') + 1 = size (roots els uf))%nat ∧
∀ x y, x ∈ els → y ∈ els →
  (same_root uf' x y ↔
   same_root uf x y ∨ (same_root uf x a ∧ same_root uf y b)
                    ∨ (same_root uf x b ∧ same_root uf y a)).
Proof.
intros Hinv Ha Hb Hra Hrb Hne (ra' & rb' & w & Hra' & Hrb' & Hw & Hinv' & _ & Hroots & _).
rewrite <- (root_of_fun _ _ _ _ Hra Hra') in *.
rewrite <- (root_of_fun _ _ _ _ Hrb Hrb') in *.
clear Hra' Hrb' ra' rb'.
pose proof (root_of_els els uf a ra Hinv Ha Hra) as Hrain.
pose proof (root_of_els els uf b rb Hinv Hb Hrb) as Hrbin.
set (c := if decide (w = ra) then rb else ra).
assert (c ≠ w ∧ (c = ra ∨ c = rb) ∧ ∀ r, (r = ra ∨ r = rb) ↔ (r = w ∨ r = c))
  as (Hcw & Hc & Hcases).
{ unfold c. destruct (decide (w = ra)) as [->|Hwa].
  - split_and!; [done|by right|]. intros r. tauto.
  - destruct Hw as [->| ->]; [done|]. split_and!; [done|by left|].
    intros r. tauto. }
assert (Hnew : ∀ x r, x ∈ els → root_of uf x r →
          root_of uf' x (if decide (r = ra ∨ r = rb) then w else r)) by auto.
split.
- assert (roots els uf = {[c]} ∪ roots els uf') as ->.
  { apply set_eq. intros r.
    rewrite elem_of_union, elem_of_singleton, !elem_of_roots. split.
    - intros [Hr Hroot]. destruct (decide (r = c)) as [->|Hrc]; [by left|right].
      split; [done|]. pose proof (Hnew r r Hr Hroot) as Hn.
      destruct (decide (r = ra ∨ r = rb)) as [Hd|Hd]; [|done].
      apply Hcases in Hd as [->| ->]; done.
    - intros [->|[Hr Hroot]].
      + destruct Hc as [->| ->]; split; auto; by eapply root_of_idem.
      + split; [done|].
        destruct (root_total els uf r Hinv Hr) as [r0 Hr0].
        pose proof (Hnew r r0 Hr Hr0) as Hn.
        pose proof (root_of_fun _ _ _ _ Hn Hroot) as Heq.
        destruct (decide (r0 = ra ∨ r0 = rb)) as [Hd|Hd]; [|by subst].
        subst r. destruct Hw as [->| ->]; by eapply root_of_idem. }
  rewrite (size_union (C:=gset (option string)) {[c]} (roots els uf')).
  + rewrite size_singleton. lia.
  + apply disjoint_singleton_l. rewrite elem_of_roots. intros [Hcin Hroot].
    assert (root_of uf c c) as Hcc.
    { destruct Hc as [->| ->]; by eapply root_of_idem. }
    pose proof (Hnew c c Hcin Hcc) as Hn.
    rewrite decide_True in Hn by (by apply Hcases; right).
    by pose proof (root_of_fun _ _ _ _ Hn Hroot).
- intros x y Hx Hy.
  destruct (root_total els uf x Hinv Hx) as [rx Hrx].
  destruct (root_total els uf y Hinv Hy) as [ry Hry].
  pose proof (Hnew x rx Hx Hrx) as Hnx. pose proof (Hnew y ry Hy Hry) as Hny.
  assert (Hsr : ∀ p q rp rq, root_of uf p rp → root_of uf q rq →
            (same_root uf p q ↔ rp = rq)).
  { intros p q rp rq Hp Hq. split.
    - intros (r & H1 & H2).
      by rewrite (root_of_fun _ _ _ _ Hp H1), (root_of_fun _ _ _ _ Hq H2).
    - intros ->. by exists rq. }
  rewrite (Hsr x y rx ry), (Hsr x a rx ra), (Hsr y b ry rb),
          (Hsr x b rx rb), (Hsr y a ry ra) by done.
  split.
  + intros (r & H1 & H2).
    pose proof (root_of_fun _ _ _ _ Hnx H1) as E1.
    pose proof (root_of_fun _ _ _ _ Hny H2) as E2.
    destruct (decide (rx = ra ∨ rx = rb)) as [Dx|Dx];
      destruct (decide (ry = ra ∨ ry = rb)) as [Dy|Dy]; subst.
    * destruct Dx as [->| ->], Dy as [->| ->]; tauto.
    * exfalso. apply Dy. destruct Hw as [->| ->]; tauto.
    * exfalso. apply Dx. destruct Hw as [->| ->]; tauto.
    * by left.
  + intros Hcase.
    assert ((if decide (rx = ra ∨ rx = rb) then w else rx)
            = (if decide (ry = ra ∨ ry = rb) then w else ry)) as Heq.
    { destruct Hcase as [->|[[-> ->]|[-> ->]]].
      - done.
      - rewrite !decide_True by tauto. done.
      - rewrite !decide_True by tauto. done. }
    eexists. split; [exact Hnx|]. rewrite Heq. exact Hny.
Qed.
End Roots.


Lemma conn_nil x y : conn [] x y → x = y.
Proof.
  unfold conn. inversion 1 as [|? ? ? (f & Hf & _)]; [done|].
  by apply elem_of_nil in Hf.
Qed.

Lemma ends_source_target e : ends e (source e) (target e).
Proof. by left. Qed.

Lemma ends_inv e x y :
  ends e x y → (x = source e ∧ y = target e) ∨ (x = target e ∧ y = source e).
Proof. unfold ends. intros [[<- <-]|[<- <-]]; auto. Qed.

(** A chain stays among the nodes when the edges do. *)
Lemma conn_closed (V : list string) L x y :
  (∀ f, f ∈ L → source f ∈ V ∧ target f ∈ V) → conn L x y → x ∈ V → y ∈ V.
Proof.
  intros HL. unfold conn. induction 1 as [|x x' y (f & Hf & Hends) _ IH]; [done|].
  intros _. apply IH. destruct (HL f Hf).
  destruct (ends_inv _ _ _ Hends) as [[-> ->]|[-> ->]]; done.
Qed.

(** A chain of edges whose ends are linked in [F] links its ends in [F]. *)
Lemma conn_refine L F x y :
  (∀ f, f ∈ L → conn F (source f) (target f)) → conn L x y → conn F x y.
Proof.
  intros HL. unfold conn. induction 1 as [|x x' y (f & Hf & Hends) _ IH];
    [constructor|].
  eapply rtc_trans; [|exact IH].
  destruct (ends_inv _ _ _ Hends) as [[-> ->]|[-> ->]].
  - by apply HL.
  - apply conn_sym. by apply HL.
Qed.

Lemma refs_ok_ends g e :
  refs_ok g → e ∈ mvalues (edges g) →
  source e ∈ mkeys (nodes g) ∧ target e ∈ mkeys (nodes g).
Proof. intros Hr He. destruct (Hr e He). by rewrite <- !mhas_true. Qed.

Lemma elem_of_els_of_inv (elements : list string) (r : option string) :
  r ∈ els_of elements → ∃ x, r = Some x ∧ x ∈ elements.
Proof.
  unfold els_of. rewrite elem_of_list_to_set, list_elem_of_fmap.
  intros (x & -> & Hx). eauto.
Qed.

Section Kruskal_correct.
Variable g : Graph.
Hypothesis Hok : maps_ok g.
Hypothesis Hrefs : refs_ok g.
Hypothesis HndE : NoDup (mvalues (edges g)).

Local Abbreviation V := (mkeys (nodes g)).
Local Abbreviation E := (mvalues (edges g)).
Local Abbreviation els := (els_of (mkeys (nodes g))).

Lemma V_els x : x ∈ V → Some x ∈ els.
Proof. intros. by apply elem_els_of. Qed.

Lemma kruskal_inv_init :
kruskal_inv g [] (mkKruskalState (newUnionFind V) [] (Num 0) []).
Proof.
destruct (newUnionFind_inv V) as [Hinv Hdom].
assert (Hroot : ∀ x, x ∈ els → root_of (newUnionFind V) x x).
{ intros x Hx. constructor.
  rewrite (proj1 (newUnionFind_lookup V x)). by rewrite decide_True. }
split; simpl.
- done.
- intros x y Hx Hy. split.
  + intros (r & Hxr & Hyr).
    pose proof (root_of_fun _ _ _ _ Hxr (Hroot _ (V_els x Hx))) as ->.
    pose proof (root_of_fun _ _ _ _ Hyr (Hroot _ (V_els y Hy))) as [= ->].
    constructor.
  + intros ->%conn_nil. exists (Some y). split; by apply Hroot, V_els.
- intros f Hf. by apply elem_of_nil in Hf.
- apply NoDup_nil_2.
- intros f Hf. by apply elem_of_nil in Hf.
- done.
- assert (roots els (newUnionFind V) = els) as ->.
  { apply set_eq. intros r. rewrite elem_of_roots. split; [by intros [? _]|].
    intros Hr. split; [done|by apply Hroot]. }
  unfold els_of. rewrite size_list_to_set.
  + rewrite length_fmap. unfold mkeys. rewrite length_fmap. lia.
  + apply NoDup_fmap_2; [|apply Hok]. by intros ? ? [=].
- apply extendable_nil.
Qed.

Lemma kruskal_step_inv done e rest st :
sortByWeight E = done ++ e :: rest →
kruskal_inv g done st →
∃ st1, kruskal_step st e = Some st1 ∧ kruskal_inv g (done ++ [e]) st1.
Proof.
intros Hsorted [Huf Hcl Hsub Hnd Hdone Htot Hcnt Hgr].
assert (Hperm : done ++ e :: rest ≡ₚ E)
  by (rewrite <- Hsorted; apply sortByWeight_Permutation).
assert (e ∈ E) as HeE by (rewrite <- Hperm; set_solver).
destruct (refs_ok_ends g e Hrefs HeE) as [Hu Hv].
assert (e ∉ done) as Hfresh.
{ assert (NoDup (done ++ e :: rest)) as Hn by (by rewrite Hperm).
  apply NoDup_app in Hn as (_ & Hn & _). intros Hin. apply (Hn e Hin). left. }
assert (HFV : ∀ f, f ∈ k_mst st → source f ∈ V ∧ target f ∈ V).
{ intros f Hf. apply (refs_ok_ends g f Hrefs). rewrite <- Hperm.
  apply elem_of_app. left. auto. }
unfold kruskal_step.
destruct (connected_spec els (k_unionFind st) (Some (source e)) (Some (target e))
            Huf (V_els _ Hu) (V_els _ Hv))
  as (ra & rb & uf1 & -> & Hra & Hrb & Huf1 & _ & _ & Hpres & _).
assert (Hcl1 : ∀ x y, x ∈ V → y ∈ V →
          same_root uf1 (Some x) (Some y) ↔ conn (k_mst st) x y).
{ intros x y Hx Hy. rewrite <- Hcl by done.
  apply (same_root_preserved els); auto using V_els. }
assert (Hroots1 : roots els uf1 = roots els (k_unionFind st))
  by (by apply roots_preserved).
destruct (decide (ra = rb)) as [<-|Hne].
- rewrite bool_decide_eq_true_2 by done. eexists. split; [done|].
  split; simpl; auto.
  + intros f Hf. apply elem_of_app. left. auto.
  + intros f [Hf| ->%list_elem_of_singleton]%elem_of_app; [auto|].
    apply Hcl; [done|done|]. by exists ra.
  + by rewrite Hroots1.
- rewrite bool_decide_eq_false_2 by done.
  destruct (union_spec els uf1 (Some (source e)) (Some (target e))
              Huf1 (V_els _ Hu) (V_els _ Hv)) as (uf2 & -> & Hpost).
  destruct (roots_union els uf1 uf2 (Some (source e)) (Some (target e)) ra rb
              Huf1 (V_els _ Hu) (V_els _ Hv) (Hpres _ _ Hra) (Hpres _ _ Hrb)
              Hne Hpost) as [Hsize Hsame].
  assert (Hnotconn : ¬ conn (k_mst st) (source e) (target e)).
  { intros Hc. apply Hcl in Hc as (r & H1 & H2); [|done|done].
    apply Hne. by rewrite (root_of_fun _ _ _ _ Hra H1),
                          (root_of_fun _ _ _ _ Hrb H2). }
  assert (Hweak : ∀ x y, conn (k_mst st) x y → conn (k_mst st ++ [e]) x y).
  { intros x y. apply conn_mono. intros f Hf. apply elem_of_app. by left. }
  assert (Hnew : conn (k_mst st ++ [e]) (source e) (target e)).
  { apply (conn_edge _ e); [|apply ends_source_target].
    apply elem_of_app. right. left. }
  eexists. split; [done|].
  destruct Hpost as (ra' & rb' & w & _ & _ & _ & Huf2 & _).
  split; simpl; auto.
  + intros x y Hx Hy. rewrite (Hsame _ _ (V_els x Hx) (V_els y Hy)).
    rewrite !Hcl1 by done. split.
    * intros [Hc|[[H1 H2]|[H1 H2]]].
      -- by apply Hweak.
      -- eapply conn_trans; [apply Hweak, H1|].
         eapply conn_trans; [exact Hnew|]. apply conn_sym. by apply Hweak.
      -- eapply conn_trans; [apply Hweak, H1|].
         eapply conn_trans; [apply conn_sym, Hnew|]. apply conn_sym.
         by apply Hweak.
    * intros Hc.
      assert (conn (e :: k_mst st) x y) as Hc'.
      { eapply conn_mono; [|exact Hc]. intros f.
        rewrite elem_of_app, list_elem_of_singleton, elem_of_cons. tauto. }
      destruct (conn_add_edge _ e (source e) (target e) x y
                  (ends_source_target e) Hc') as [H|[[H1 H2]|[H1 H2]]].
      -- by left.
      -- right; left. split; [done|by apply conn_sym].
      -- right; right. split; [done|by apply conn_sym].
  + intros f [Hf|Hf]%elem_of_app; apply elem_of_app; [left; auto|by right].
  + apply NoDup_app. split_and!; [done| |apply NoDup_singleton].
    intros f Hf ->%list_elem_of_singleton. by apply Hfresh, Hsub.
  + intros f [Hf| ->%list_elem_of_singleton]%elem_of_app; [|done].
    by apply Hweak, Hdone.
  + by rewrite number_sum_snoc, Htot.
  + rewrite length_app. simpl. rewrite Hroots1 in Hsize. lia.
  + assert (extendable V E (e :: k_mst st)) as Hext.
    { apply (extendable_step V E (k_mst st) e (source e) (target e)
               (λ x, conn (k_mst st) (source e) x)); auto.
      - intros x. destruct (decide (x ∈ V)) as [Hx|Hx].
        + destruct (root_total els uf1 (Some x) Huf1 (V_els x Hx)) as [rx Hrx].
          destruct (decide (ra = rx)) as [<-|Hd].
          * left. apply Hcl1; [done|done|]. exists ra. auto.
          * right. intros Hc. apply Hcl1 in Hc as (r & H1 & H2); [|done|done].
            apply Hd.
            by rewrite (root_of_fun _ _ _ _ (Hpres _ _ Hra) H1),
                       (root_of_fun _ _ _ _ Hrx H2).
        + right. intros Hc. apply Hx. by eapply (conn_closed V).
      - split_and!; [apply ends_source_target|constructor|done].
      - intros f p q Hf Hends Hp. eapply conn_trans; [exact Hp|].
        by apply (conn_edge _ f).
      - intros e' a b He' (Hends & Ha & Hb).
        assert (e' ∈ done ++ e :: rest) as Hin by (by rewrite Hperm).
        apply elem_of_app in Hin as [Hin|Hin].
        + exfalso. apply Hb. eapply conn_trans; [exact Ha|].
          destruct (ends_inv _ _ _ Hends) as [[-> ->]|[-> ->]].
          * by apply Hdone.
          * apply conn_sym. by apply Hdone.
        + apply elem_of_cons in Hin as [->|Hin]; [lia|].
          by apply (sortByWeight_ascending E done e rest). }
    intros T HT. destruct (Hext T HT) as (T' & HT' & Hsub' & Hle).
    exists T'. split_and!; [done| |done].
    intros f. rewrite elem_of_app, list_elem_of_singleton.
    intros [Hf| ->]; apply Hsub'; [by right|left].
Qed.

Lemma kruskal_loop_inv rest :
∀ done st,
sortByWeight E = done ++ rest →
kruskal_inv g done st →
∃ st' done', kruskal_loop (msize (nodes g)) rest st = Some st' ∧
  kruskal_inv g done' st' ∧
  (Z.of_nat (length (k_mst st')) = msize (nodes g) - 1 ∨
   done' = sortByWeight E).
Proof.
induction rest as [|e rest IH]; intros done st Hsorted Hinv; simpl.
- exists st, done. split_and!; [done|done|]. right.
  by rewrite Hsorted, app_nil_r.
- destruct (kruskal_step_inv done e rest st Hsorted Hinv) as (st1 & -> & Hinv1).
  case_bool_decide as Hlen.
  + exists st1, (done ++ [e]). by split_and!; [| |left].
  + apply (IH (done ++ [e])); [|done]. by rewrite <- app_assoc.
Qed.

(** With every edge processed and the graph connected, a single class is
  left. *)
Lemma kruskal_exhausted st :
connected_graph g → V ≠ [] →
kruskal_inv g (sortByWeight E) st →
(length (k_mst st) + 1 = length (nodes g))%nat.
Proof.
intros Hconn HV [Huf Hcl Hsub Hnd Hdone Htot Hcnt Hgr].
destruct (mkeys (nodes g)) as [|x0 V'] eqn:HVeq; [done|].
assert (x0 ∈ V) as Hx0 by (rewrite HVeq; left).
rewrite <- HVeq in *. clear HVeq V'.
destruct (root_total els (k_unionFind st) (Some x0) Huf (V_els x0 Hx0))
  as [r0 Hr0].
assert (roots els (k_unionFind st) = {[r0]}) as Hroots.
{ apply set_eq. intros r. rewrite elem_of_roots, elem_of_singleton. split.
  - intros [Hr Hroot]. destruct (elem_of_els_of_inv _ _ Hr) as (x & -> & Hx).
    assert (conn (k_mst st) x0 x) as Hc.
    { apply (conn_refine E); [|by apply Hconn].
      intros f Hf. apply Hdone. by rewrite sortByWeight_Permutation. }
    apply Hcl in Hc as (r & H1 & H2); [|done|done].
    by rewrite (root_of_fun _ _ _ _ Hroot H2), (root_of_fun _ _ _ _ Hr0 H1).
  - intros ->. split; [|by eapply root_of_idem].
    by eapply (root_of_els els _ (Some x0)); [|apply V_els|]. }
rewrite Hroots, size_singleton in Hcnt. lia.
Qed.

Lemma kruskal_spec :
isWeighted g = true → connected_graph g → V ≠ [] →
∃ kr, kruskal g = Some (Ok kr) ∧
      k_totalWeight kr = number_sum (k_mstEdges kr) ∧
      NoDup (k_mstEdges kr) ∧
      (length (k_mstEdges kr) + 1 = length V)%nat ∧
      extendable V E (k_mstEdges kr).
Proof.
intros Hw Hconn HV. unfold kruskal. rewrite Hw. simpl.
destruct (kruskal_loop_inv (sortByWeight E) [] _ eq_refl kruskal_inv_init)
  as (st & done' & Hloop & Hinv & Hend).
unfold getEdges. rewrite Hloop.
eexists. split; [done|]. simpl.
assert (length (k_mst st) + 1 = length V)%nat as Hlen.
{ assert (length V = length (nodes g)) as ->
    by (unfold mkeys; by rewrite length_fmap).
  destruct Hend as [Hlen| ->].
  - unfold msize in Hlen.
    assert (length (nodes g) ≠ 0)%nat.
    { intros Hz. apply HV. unfold mkeys.
      destruct (nodes g); [done|discriminate]. }
    lia.
  - by apply kruskal_exhausted. }
split_and!; [apply Hinv|apply Hinv|done|apply Hinv].
Qed.
End Kruskal_correct.


(** ** [prim] *)

Lemma connects_undirected s t e : connects false s t e = true ↔ ends e s t.
Proof.
  unfold connects, ends. simpl.
  rewrite orb_true_iff, !bool_decide_eq_true. tauto.
Qed.

(** A fold keeps what each step keeps, along the prefix already done. *)
Lemma foldl_prefix_inv {A B} (f : A → B → A) (Q : list B → A → Prop)
    (l : list B) (a : A) :
  Q [] a →
  (∀ pre x acc, Q pre acc → x ∈ l → Q (pre ++ [x]) (f acc x)) →
  Q l (foldl f a l).
Proof.
  intros H0 Hstep.
  assert (G : ∀ rest pre acc, pre ++ rest = l → Q pre acc →
            Q l (foldl f acc rest)).
  { induction rest as [|x rest IH]; intros pre acc Heq HQ; simpl.
    - by rewrite app_nil_r in Heq; subst.
    - apply (IH (pre ++ [x])); [by rewrite <- app_assoc|].
      apply Hstep; [done|]. rewrite <- Heq. set_solver. }
  by apply (G l []).
Qed.

Section Prim_scan.
Variable g : Graph.
Hypothesis Hdir : isDirected g = false.
Hypothesis Hsimple :
∀ e1 e2 x y, e1 ∈ mvalues (edges g) → e2 ∈ mvalues (edges g) →
             ends e1 x y → ends e2 x y → e1 = e2.
Variable inMST : list string.

Local Abbreviation E := (mvalues (edges g)).

Lemma hop_adj u v : hop g u v ↔ adj E u v.
Proof.
unfold hop, adj, ends. rewrite Hdir. split.
- intros (e & He & [[? ?]|(_ & ? & ?)]); exists e; tauto.
- intros (e & He & [[? ?]|[? ?]]); exists e; tauto.
Qed.

Lemma findEdge_neighbor u v :
v ∈ getNeighbors g u →
∃ f, findEdge g u v = Some f ∧ f ∈ E ∧ ends f u v.
Proof.
intros (e & He & Hends)%elem_of_getNeighbors%hop_adj.
destruct (findEdge g u v) as [f|] eqn:Hf.
- apply findEdge_Some in Hf as [Hin Hc]. rewrite Hdir in Hc.
  exists f. split_and!; [done|done|by apply connects_undirected].
- pose proof (findEdge_None g u v e Hf He) as Hc. rewrite Hdir in Hc.
  apply connects_undirected in Hends. congruence.
Qed.

Lemma scan_bound_trans acc e w f :
scan_bound acc f → weight e ≤ match acc with (Some e0, _) => weight e0 | _ => weight e end →
scan_bound (Some e, Finite w) f.
Proof. destruct acc as [[e0|] [w0|]]; simpl; try done. lia. Qed.

Lemma prim_consider_ok seen acc cur nb :
scan_ok g inMST seen acc → cur ∈ inMST → nb ∈ getNeighbors g cur →
scan_ok g inMST (λ u v, seen u v ∨ (u = cur ∧ v = nb))
        (prim_consider g inMST cur acc nb).
Proof.
intros [Hwf Hb] Hcur Hnb. unfold prim_consider.
case_bool_decide as Hin.
- split; [done|]. intros u v f [Hs|[-> ->]] Hu Hv; [by apply Hb|done].
- destruct (findEdge_neighbor cur nb Hnb) as (f0 & Hf0 & Hf0E & Hends0).
  unfold getEdgeWeight. rewrite Hf0.
  assert (Hnew : ∀ f, f ∈ E → ends f cur nb → f = f0).
  { intros f Hf Hends. by apply (Hsimple f f0 cur nb). }
  destruct acc as [[e|] [w|]]; simpl in *; try done.
  + destruct Hwf as (-> & HeE & Hcross).
    destruct (Z.ltb_spec (weight f0) (weight e)) as [Hlt|Hge].
    * split; simpl.
      -- split_and!; [done|done|]. exists cur, nb. by split_and!.
      -- intros u v f [Hs|[-> ->]] Hu Hv Hf Hends.
         ++ specialize (Hb u v f Hs Hu Hv Hf Hends). simpl in Hb. lia.
         ++ rewrite (Hnew f Hf Hends). lia.
    * split; simpl; [done|].
      intros u v f [Hs|[-> ->]] Hu Hv Hf Hends.
      -- by apply (Hb u v f).
      -- rewrite (Hnew f Hf Hends). lia.
  + split; simpl.
    * split_and!; [done|done|]. exists cur, nb. by split_and!.
    * intros u v f [Hs|[-> ->]] Hu Hv Hf Hends.
      -- exfalso. by apply (Hb u v f).
      -- rewrite (Hnew f Hf Hends). lia.
Qed.

Lemma scan_ok_ext seen1 seen2 acc :
(∀ u v, seen2 u v → seen1 u v) →
scan_ok g inMST seen1 acc → scan_ok g inMST seen2 acc.
Proof. intros Hs [Hwf Hb]. split; [done|]. intros u v f H2. apply Hb. auto. Qed.

(** The scan accounts for every boundary edge of the graph. *)
Lemma prim_scan_ok :
scan_ok g inMST (λ u v, u ∈ inMST ∧ v ∈ getNeighbors g u) (prim_scan g inMST).
Proof.
unfold prim_scan.
apply (foldl_prefix_inv _
         (λ pre acc, scan_ok g inMST
                       (λ u v, u ∈ pre ∧ v ∈ getNeighbors g u) acc)
         inMST (None, Infinity)).
- split; [done|]. intros u v f [Hu _]. by apply elem_of_nil in Hu.
- intros pre cur acc Hacc Hcur.
  assert (scan_ok g inMST
            (λ u v, (u ∈ pre ∧ v ∈ getNeighbors g u) ∨
                    (u = cur ∧ v ∈ getNeighbors g cur))
            (foldl (prim_consider g inMST cur) acc (getNeighbors g cur))) as Hin.
  { apply (foldl_prefix_inv _
             (λ pre' acc', scan_ok g inMST
                 (λ u v, (u ∈ pre ∧ v ∈ getNeighbors g u) ∨
                         (u = cur ∧ v ∈ pre')) acc')
             (getNeighbors g cur) acc).
    - eapply scan_ok_ext; [|exact Hacc].
      intros u v [?|[_ Hv]]; [done|by apply elem_of_nil in Hv].
    - intros pre' nb acc' Hacc' Hnb.
      eapply scan_ok_ext; [|by apply prim_consider_ok].
      intros u v [?|[-> Hv]]; [left; by left|].
      apply elem_of_app in Hv as [Hv| ->%list_elem_of_singleton].
      + left. right. done.
      + right. done. }
  eapply scan_ok_ext; [|exact Hin].
  intros u v [Hu Hv]. apply elem_of_app in Hu as [Hu| ->%list_elem_of_singleton].
  + left. done.
  + right. done.
Qed.

(** The outcome of one scan: a lightest edge that leaves [inMST], or
  nothing when no edge leaves it. *)
Lemma prim_scan_spec :
match prim_scan g inMST with
| (Some e, Finite w) =>
    w = weight e ∧ e ∈ E ∧ (∃ u v, ends e u v ∧ u ∈ inMST ∧ v ∉ inMST) ∧
    ∀ f a b, f ∈ E → ends f a b → a ∈ inMST → b ∉ inMST → weight e ≤ weight f
| (None, _) =>
    ∀ f a b, f ∈ E → ends f a b → a ∈ inMST → b ∉ inMST → False
| _ => False
end.
Proof.
destruct prim_scan_ok as [Hwf Hb].
assert (Hall : ∀ f a b, f ∈ E → ends f a b → a ∈ inMST → b ∉ inMST →
          scan_bound (prim_scan g inMST) f).
{ intros f a b Hf Hends Ha Hb'. apply (Hb a b f); auto. split; [done|].
  apply elem_of_getNeighbors, hop_adj. by exists f. }
destruct (prim_scan g inMST) as [[e|] [w|]]; simpl in *; try done.
destruct Hwf as (-> & HeE & Hcross). split_and!; auto.
Qed.
End Prim_scan.


Lemma extendable_ext V E F1 F2 :
  (∀ f, f ∈ F2 → f ∈ F1) → extendable V E F1 → extendable V E F2.
Proof.
  intros Hsub Hext T HT. destruct (Hext T HT) as (T' & HT' & Hin & Hle).
  exists T'. split_and!; auto.
Qed.

(** A list without repetition that is shorter than another misses one of
    its elements. *)
Lemma missing_element (I V : list string) :
  NoDup V → (length I < length V)%nat → ∃ y, y ∈ V ∧ y ∉ I.
Proof.
  intros Hnd Hlen.
  destruct (decide (Forall (λ y, y ∈ I) V)) as [Hall|Hnot].
  - exfalso. rewrite Forall_forall in Hall.
    pose proof (submseteq_length _ _ (NoDup_submseteq V I Hnd Hall)). lia.
  - apply not_Forall_Exists in Hnot; [|apply _].
    apply Exists_exists in Hnot as (y & Hy & Hn). eauto.
Qed.

Section Prim_correct.
Variable g : Graph.
Hypothesis Hg : simple_undirected g.
Hypothesis Hconn : connected_graph g.
Variable start : string.
Hypothesis Hstart : start ∈ mkeys (nodes g).

Local Abbreviation V := (mkeys (nodes g)).
Local Abbreviation E := (mvalues (edges g)).

Lemma prim_inv_init : prim_inv g start (mkPrimState [start] [] (Num 0) []).
Proof.
split; simpl.
- apply NoDup_singleton.
- left.
- by intros x ->%list_elem_of_singleton.
- done.
- intros f Hf. by apply elem_of_nil in Hf.
- apply NoDup_nil_2.
- intros x ->%list_elem_of_singleton. constructor.
- done.
- apply extendable_nil.
Qed.

Lemma prim_inv_length st :
prim_inv g start st → (length (p_inMST st) ≤ length (nodes g))%nat.
Proof.
intros Hinv.
assert (length V = length (nodes g)) as <-
  by (unfold mkeys; by rewrite length_fmap).
apply submseteq_length, NoDup_submseteq; apply Hinv.
Qed.

Lemma prim_loop_inv fuel st :
prim_inv g start st →
(length (nodes g) ≤ fuel + length (p_inMST st))%nat →
∃ st', prim_loop fuel g st = Some st' ∧ prim_inv g start st' ∧
       length (p_inMST st') = length (nodes g).
Proof.
destruct Hg as (Hdir & Hw & Hok & Hrefs & HndE & Hsimple).
revert st. induction fuel as [|fuel IH]; intros st Hinv Hfuel.
- pose proof (prim_inv_length st Hinv). simpl.
  rewrite bool_decide_eq_false_2 by lia. exists st. split_and!; auto. lia.
- pose proof (prim_inv_length st Hinv) as Hle. simpl.
  case_bool_decide as Hlt; [|exists st; split_and!; auto; lia].
  destruct Hinv as [Hnd Hst Hsub Hlen Hedges Hmnd Hpc Htot Hgr].
  assert (length V = length (nodes g)) as HlenV
    by (unfold mkeys; by rewrite length_fmap).
  destruct (missing_element (p_inMST st) V (proj1 Hok)) as (y & Hy & Hny);
    [lia|].
  destruct (first_crossing (λ x, x ∈ p_inMST st)
              (λ x, match decide (x ∈ p_inMST st) with
                    | left H => or_introl H | right H => or_intror H end)
              E start y (Hconn start y Hstart Hy) Hst Hny)
    as (e0 & a0 & b0 & He0 & (Hends0 & Ha0 & Hb0) & _).
  pose proof (prim_scan_spec g Hdir Hsimple (p_inMST st)) as Hscan.
  destruct (prim_scan g (p_inMST st)) as [[e|] [w|]]; try done;
    [|exfalso; by apply (Hscan e0 a0 b0)|exfalso; by apply (Hscan e0 a0 b0)].
  destruct Hscan as (-> & HeE & (u & v & Hends & Hu & Hv) & Hmin).
  destruct (refs_ok_ends g e Hrefs HeE) as [HsV HtV].
  assert ((if bool_decide (source e ∈ p_inMST st) then target e else source e)
          = v) as ->.
  { destruct (ends_inv _ _ _ Hends) as [[-> ->]|[-> ->]].
    - by rewrite bool_decide_eq_true_2.
    - by rewrite bool_decide_eq_false_2. }
  assert (v ∈ V ∧ u ∈ V) as [HvV HuV].
  { destruct (ends_inv _ _ _ Hends) as [[-> ->]|[-> ->]]; done. }
  assert (set_add (p_inMST st) v = p_inMST st ++ [v]) as ->.
  { unfold set_add. by rewrite bool_decide_eq_false_2. }
  apply IH.
  + split; simpl.
    * apply NoDup_app. split_and!; [done| |apply NoDup_singleton].
      intros x Hx ->%list_elem_of_singleton. done.
    * apply elem_of_app. by left.
    * intros x [Hx| ->%list_elem_of_singleton]%elem_of_app; auto.
    * rewrite !length_app. simpl. lia.
    * intros f [Hf| ->%list_elem_of_singleton]%elem_of_app.
      -- destruct (Hedges f Hf) as (? & ? & ?).
         split_and!; [done| |]; apply elem_of_app; by left.
      -- split; [done|].
         destruct (ends_inv _ _ _ Hends) as [[-> ->]|[-> ->]]; split;
           apply elem_of_app; (by left) || (right; left).
    * apply NoDup_app. split_and!; [done| |apply NoDup_singleton].
      intros f Hf ->%list_elem_of_singleton.
      destruct (Hedges e Hf) as (_ & Hs & Ht).
      destruct (ends_inv _ _ _ Hends) as [[-> ->]|[-> ->]]; done.
    * assert (Hweak : ∀ p q, conn (p_mst st) p q → conn (p_mst st ++ [e]) p q).
      { intros p q. apply conn_mono. intros f Hf. apply elem_of_app. by left. }
      intros x [Hx| ->%list_elem_of_singleton]%elem_of_app; [by apply Hweak, Hpc|].
      eapply conn_trans; [apply Hweak, (Hpc u Hu)|].
      apply (conn_edge _ e); [|done]. apply elem_of_app. right. left.
    * by rewrite number_sum_snoc, Htot.
    * apply (extendable_ext V E (e :: p_mst st)).
      { intros f. rewrite elem_of_app, list_elem_of_singleton, elem_of_cons.
        tauto. }
      apply (extendable_step V E (p_mst st) e u v (λ x, x ∈ p_inMST st));
        [|exact Hgr|exact HeE|by split_and!|exact HuV|exact HvV| |].
      -- intros x. destruct (decide (x ∈ p_inMST st)); auto.
      -- intros f p q Hf Hfe Hp. destruct (Hedges f Hf) as (_ & Hs & Ht).
         destruct (ends_inv _ _ _ Hfe) as [[-> ->]|[-> ->]]; done.
      -- intros e' a b He' (Hends' & Ha & Hb). by apply (Hmin e' a b).
  + simpl. rewrite length_app. simpl. lia.
Qed.

Lemma prim_from_start :
∃ st, prim_loop (length (nodes g)) g (mkPrimState [start] [] (Num 0) [])
        = Some st ∧
      p_total st = number_sum (p_mst st) ∧
      NoDup (p_mst st) ∧ (length (p_mst st) + 1 = length V)%nat ∧
      extendable V E (p_mst st) ∧ spanning V E (p_mst st).
Proof.
destruct (prim_loop_inv (length (nodes g)) _ prim_inv_init) as (st & Hloop & Hinv & Hlen);
  [simpl; lia|].
exists st. split; [done|].
destruct Hinv as [Hnd Hst Hsub Hlen' Hedges Hmnd Hpc Htot Hgr].
assert (length V = length (nodes g)) as HlenV
  by (unfold mkeys; by rewrite length_fmap).
assert (length (p_mst st) + 1 = length V)%nat as HlenP by lia.
split_and!; auto.
split_and!; auto.
- intros f Hf. by apply Hedges.
- assert (p_inMST st ≡ₚ V) as HP.
  { apply submseteq_length_Permutation; [by apply NoDup_submseteq|lia]. }
  intros x y Hx Hy. rewrite <- HP in Hx, Hy.
  eapply conn_trans; [apply conn_sym, Hpc, Hx|by apply Hpc].
Qed.
End Prim_correct.


(** ** Kruskal and Prim agree *)

(** C7 (as amended): on every weighted undirected graph that satisfies
    invariants 1 and 2 of the data model (edges reference nodes, at most
    one edge per pair of nodes), is connected and has weights whose
    absolute values add up to [2^53] at most, and for every start node
    of the graph (or none), [kruskal()] and [prim(start)] both return and
    their [totalWeight]s are the same Number, the exact weight of either
    tree, so [sameWeight] holds. *)
Theorem kruskal_prim_same_weight (g : Graph) (startNodeId : option string) :
  simple_undirected g → connected_graph g → exact_weights g →
  prim_start_ok g startNodeId →
  ∃ kr pr, kruskal g = Some (Ok kr) ∧ prim g startNodeId = Some (Ok pr) ∧
           k_totalWeight kr = Num (total_weight (k_mstEdges kr)) ∧
           p_totalWeight pr = k_totalWeight kr ∧
           sameWeight (k_totalWeight kr) (p_totalWeight pr) = true.
Proof.
  intros Hg Hconn Hexact Hstart.
  pose proof Hg as (Hdir & Hw & Hok & Hrefs & HndE & Hsimple).
  destruct (mkeys (nodes g)) as [|first V'] eqn:HV.
  - assert (mvalues (edges g) = []) as HE.
    { destruct (mvalues (edges g)) as [|e E'] eqn:HE; [done|].
      destruct (refs_ok_ends g e Hrefs) as [Hs _]; [rewrite HE; left|].
      rewrite HV in Hs. by apply elem_of_nil in Hs. }
    unfold kruskal, prim, getEdges. rewrite Hw, HV, HE. simpl.
    eexists _, _. split_and!; reflexivity.
  - set (start := if falsy startNodeId then first else default "" startNodeId).
    assert (start ∈ mkeys (nodes g)) as Hs.
    { unfold start. destruct Hstart as [->|Hm].
      - rewrite HV. left.
      - destruct (falsy startNodeId); [rewrite HV; left|by apply mhas_true]. }
    destruct (kruskal_spec g Hok Hrefs HndE Hw Hconn)
      as (kr & Hkr & Hktot & Hknd & Hklen & Hkext); [by rewrite HV|].
    destruct (prim_from_start g Hg Hconn start Hs)
      as (st & Hloop & Hptot & Hpnd & Hplen & Hpext & Hpspan).
    destruct (extendable_full _ _ _ _ Hkext Hknd Hklen Hpspan) as [Hkspan Hle1].
    destruct (extendable_full _ _ _ _ Hpext Hpnd Hplen Hkspan) as [_ Hle2].
    rewrite (number_sum_exact_in g) in Hktot;
      [|done|done|by destruct Hkspan].
    rewrite (number_sum_exact_in g) in Hptot;
      [|done|done|by destruct Hpspan].
    exists kr. unfold prim. rewrite Hw, HV. simpl. fold start. rewrite Hloop.
    eexists. split_and!; [done|done|done| |]; simpl.
    + rewrite Hptot, Hktot. f_equal. lia.
    + rewrite Hptot, Hktot. simpl. apply bool_decide_eq_true. lia.
Qed.

Lemma scenario_simple : simple_undirected scenario.
Proof.
  split_and!; try reflexivity.
  - split; vm_compute; repeat constructor; set_solver.
  - intros e He. vm_compute in He.
    repeat (apply elem_of_cons in He as [->|He]; [split; reflexivity|]).
    by apply elem_of_nil in He.
  - vm_compute. repeat constructor; set_solver.
  - intros e1 e2 x y He1 He2 H1 H2. vm_compute in He1, He2. unfold ends in *.
    repeat (apply elem_of_cons in He1 as [->|He1];
            [repeat (apply elem_of_cons in He2 as [->|He2];
                     [simpl in *; try reflexivity;
                      exfalso; intuition congruence|]);
             by apply elem_of_nil in He2|]).
    by apply elem_of_nil in He1.
Qed.

Lemma scenario_connected : connected_graph scenario.
Proof.
  assert (HA : ∀ x, x ∈ mkeys (nodes scenario) →
            conn (mvalues (edges scenario)) "A" x).
  { intros x Hx. vm_compute in Hx.
    assert (Hab : conn (mvalues (edges scenario)) "A" "B").
    { apply (conn_edge _ (mkEdge "edge_1" "A" "B" 1 "1" false));
        [vm_compute; left|by left]. }
    assert (Hbc : conn (mvalues (edges scenario)) "B" "C").
    { apply (conn_edge _ (mkEdge "edge_2" "B" "C" 2 "2" false));
        [vm_compute; right; left|by left]. }
    assert (Hcd : conn (mvalues (edges scenario)) "C" "D").
    { apply (conn_edge _ (mkEdge "edge_4" "C" "D" 3 "3" false));
        [vm_compute; do 3 right; left|by left]. }
    repeat (apply elem_of_cons in Hx as [->|Hx]);
      [constructor|done|by eapply conn_trans|
       eapply conn_trans; [|exact Hcd]; by eapply conn_trans|
       by apply elem_of_nil in Hx]. }
  intros x y Hx Hy. eapply conn_trans; [apply conn_sym, HA, Hx|by apply HA].
Qed.

Lemma scenario_exact : exact_weights scenario.
Proof. by vm_compute. Qed.

Lemma kruskal_prim_same_weight_witness :
  simple_undirected scenario ∧ connected_graph scenario ∧
  exact_weights scenario ∧ prim_start_ok scenario (Some "D") ∧
  ∃ kr pr, kruskal scenario = Some (Ok kr) ∧
           prim scenario (Some "D") = Some (Ok pr) ∧
           k_totalWeight kr = Num (total_weight (k_mstEdges kr)) ∧
           p_totalWeight pr = k_totalWeight kr ∧
           sameWeight (k_totalWeight kr) (p_totalWeight pr) = true.
Proof.
  split_and!;
    [apply scenario_simple|apply scenario_connected|apply scenario_exact
    |by right|].
  apply (kruskal_prim_same_weight scenario (Some "D")).
  - apply scenario_simple.
  - apply scenario_connected.
  - apply scenario_exact.
  - by right.
Defined.

Lemma one_way_connected : connected_graph one_way.
Proof.
  assert (Hab : conn (mvalues (edges one_way)) "A" "B").
  { apply (conn_edge _ (mkEdge "edge_1" "A" "B" 5 "5" true));
      [vm_compute; left|by left]. }
  intros x y Hx Hy. vm_compute in Hx, Hy.
  repeat (apply elem_of_cons in Hx as [->|Hx]);
    repeat (apply elem_of_cons in Hy as [->|Hy]);
    try (by apply elem_of_nil in Hx); try (by apply elem_of_nil in Hy);
    try constructor; [done|by apply conn_sym].
Qed.

Lemma heavy_path_simple : simple_undirected heavy_path.
Proof.
  split_and!; try reflexivity.
  - split; vm_compute; repeat constructor; set_solver.
  - intros e He. vm_compute in He.
    repeat (apply elem_of_cons in He as [->|He]; [split; reflexivity|]).
    by apply elem_of_nil in He.
  - vm_compute. repeat constructor; set_solver.
  - intros e1 e2 x y He1 He2 H1 H2. vm_compute in He1, He2. unfold ends in *.
    repeat (apply elem_of_cons in He1 as [->|He1];
            [repeat (apply elem_of_cons in He2 as [->|He2];
                     [simpl in *; try reflexivity;
                      exfalso; intuition congruence|]);
             by apply elem_of_nil in He2|]).
    by apply elem_of_nil in He1.
Qed.

Lemma heavy_path_connected : connected_graph heavy_path.
Proof.
  assert (HA : ∀ x, x ∈ mkeys (nodes heavy_path) →
            conn (mvalues (edges heavy_path)) "A" x).
  { intros x Hx. vm_compute in Hx.
    assert (Hab : conn (mvalues (edges heavy_path)) "A" "B").
    { apply (conn_edge _ (mkEdge "edge_1" "A" "B" 9007199254740992
                            "9007199254740992" false));
        [vm_compute; left|by left]. }
    assert (Hbc : conn (mvalues (edges heavy_path)) "B" "C").
    { apply (conn_edge _ (mkEdge "edge_2" "B" "C" 1 "1" false));
        [vm_compute; right; left|by left]. }
    assert (Hcd : conn (mvalues (edges heavy_path)) "C" "D").
    { apply (conn_edge _ (mkEdge "edge_3" "C" "D" 1 "1" false));
        [vm_compute; do 2 right; left|by left]. }
    repeat (apply elem_of_cons in Hx as [->|Hx]);
      [constructor|done|by eapply conn_trans|
       eapply conn_trans; [|exact Hcd]; by eapply conn_trans|
       by apply elem_of_nil in Hx]. }
  intros x y Hx Hy. eapply conn_trans; [apply conn_sym, HA, Hx|by apply HA].
Qed.

(** C7 as stated fails on directed graphs, on graphs with two edges
    between the same nodes, and on large weights.  On the connected
    directed graph with the single edge [A -> B] of weight 5, [kruskal]
    totals 5 while [prim("B")], which follows outgoing edges only, totals
    0.  On the undirected graph with the two edges [A-B] of weights 5 and
    1, [kruskal] totals 1 while [prim], which reads the weight of the
    first edge between two nodes, totals 5.  On the connected undirected
    path [A-B-C-D] with the weights [2^53], 1 and 1, [kruskal] adds
    [1 + 1 + 2^53] and totals [2^53 + 2], while [prim] adds
    [2^53 + 1 + 1], where each sum is rounded back to [2^53]. *)
Lemma kruskal_prim_differ :
  (isWeighted one_way = true ∧ connected_graph one_way ∧
   mhas (nodes one_way) "B" = true ∧
   ∃ kr pr, kruskal one_way = Some (Ok kr) ∧
            prim one_way (Some "B") = Some (Ok pr) ∧
            k_totalWeight kr = Num 5 ∧ p_totalWeight pr = Num 0 ∧
            sameWeight (k_totalWeight kr) (p_totalWeight pr) = false) ∧
  (isWeighted parallel_edges = true ∧ isDirected parallel_edges = false ∧
   ∃ kr pr, kruskal parallel_edges = Some (Ok kr) ∧
            prim parallel_edges None = Some (Ok pr) ∧
            k_totalWeight kr = Num 1 ∧ p_totalWeight pr = Num 5 ∧
            sameWeight (k_totalWeight kr) (p_totalWeight pr) = false) ∧
  (simple_undirected heavy_path ∧ connected_graph heavy_path ∧
   ∃ kr pr, kruskal heavy_path = Some (Ok kr) ∧
            prim heavy_path None = Some (Ok pr) ∧
            k_totalWeight kr = Num 9007199254740994 ∧
            p_totalWeight pr = Num 9007199254740992 ∧
            sameWeight (k_totalWeight kr) (p_totalWeight pr) = false).
Proof.
  split; [|split].
  - split_and!; [reflexivity|apply one_way_connected|reflexivity|].
    eexists _, _. split_and!; vm_compute; reflexivity.
  - split_and!; [reflexivity|reflexivity|].
    eexists _, _. split_and!; vm_compute; reflexivity.
  - split_and!; [apply heavy_path_simple|apply heavy_path_connected|].
    eexists _, _. split_and!; vm_compute; reflexivity.
Qed.


(** ** Minimum spanning trees *)

(** The accepted edges come from the edges handed to the loop. *)
Lemma kruskal_loop_sub n rest st st' :
  kruskal_loop n rest st = Some st' →
  ∀ f, f ∈ k_mst st' → f ∈ k_mst st ∨ f ∈ rest.
Proof.
  revert st. induction rest as [|e rest IH]; intros st; simpl.
  - intros [= <-] f Hf. by left.
  - destruct (kruskal_step st e) as [st1|] eqn:Hstep; [|done].
    assert (∀ f, f ∈ k_mst st1 → f ∈ k_mst st ∨ f = e) as Hst1.
    { unfold kruskal_step in Hstep.
      destruct (connected _ _ _) as [[[] uf1]|]; [| |done].
      - injection Hstep as <-. simpl. auto.
      - destruct (union _ _ _); [|done]. injection Hstep as <-. simpl.
        intros f [?| ->%list_elem_of_singleton]%elem_of_app; auto. }
    case_bool_decide.
    + intros [= <-] f Hf. destruct (Hst1 f Hf) as [?| ->]; [by left|right; left].
    + intros Hloop f Hf. destruct (IH _ Hloop f Hf) as [Hf1|?]; [|right; by right].
      destruct (Hst1 f Hf1) as [?| ->]; [by left|right; left].
Qed.

Section Kruskal_tree.
Variable g : Graph.
Hypothesis Hok : maps_ok g.
Hypothesis Hrefs : refs_ok g.
Hypothesis HndE : NoDup (mvalues (edges g)).

Local Abbreviation V := (mkeys (nodes g)).
Local Abbreviation E := (mvalues (edges g)).
Local Abbreviation els := (els_of (mkeys (nodes g))).

(** With one edge fewer than nodes accepted, a single class is left, so
  the accepted edges link all nodes. *)
Lemma kruskal_full_conn done st :
kruskal_inv g done st →
(length (k_mst st) + 1 = length (nodes g))%nat →
∀ x y, x ∈ V → y ∈ V → conn (k_mst st) x y.
Proof.
intros [Huf Hcl Hsub Hnd Hdone Htot Hcnt Hgr] Hlen x y Hx Hy.
apply Hcl; [done|done|].
destruct (root_total els (k_unionFind st) (Some x) Huf) as [rx Hrx];
  [by apply elem_els_of|].
destruct (root_total els (k_unionFind st) (Some y) Huf) as [ry Hry];
  [by apply elem_els_of|].
assert (rx ∈ roots els (k_unionFind st)) as Hrx'.
{ apply elem_of_roots. split; [|by eapply root_of_idem].
  eapply (root_of_els els _ (Some x)); [done|by apply elem_els_of|done]. }
assert (ry ∈ roots els (k_unionFind st)) as Hry'.
{ apply elem_of_roots. split; [|by eapply root_of_idem].
  eapply (root_of_els els _ (Some y)); [done|by apply elem_els_of|done]. }
assert (size (roots els (k_unionFind st)) = 1%nat) as Hone by lia.
apply size_1_elem_of in Hone as [r Hr].
assert (rx = r) as -> by set_solver.
assert (ry = r) as -> by set_solver.
by exists r.
Qed.

Lemma kruskal_tree :
isWeighted g = true → connected_graph g → V ≠ [] →
∃ kr, kruskal g = Some (Ok kr) ∧
      k_totalWeight kr = number_sum (k_mstEdges kr) ∧
      minimum_spanning V E (k_mstEdges kr).
Proof.
intros Hw Hconn HV. unfold kruskal. rewrite Hw. simpl.
destruct (kruskal_loop_inv g Hok Hrefs HndE (sortByWeight E) [] _ eq_refl
            (kruskal_inv_init g Hok))
  as (st & done' & Hloop & Hinv & Hend).
unfold getEdges. rewrite Hloop.
eexists. split; [done|]. simpl.
assert (length (k_mst st) + 1 = length (nodes g))%nat as Hlen.
{ destruct Hend as [Hlen| ->].
  - unfold msize in Hlen.
    assert (length (nodes g) ≠ 0)%nat.
    { intros Hz. apply HV. unfold mkeys.
      destruct (nodes g); [done|discriminate]. }
    lia.
  - by apply kruskal_exhausted. }
assert (length V = length (nodes g)) as HlenV
  by (unfold mkeys; by rewrite length_fmap).
assert (spanning V E (k_mst st)) as Hspan.
{ split_and!.
  - intros f Hf. destruct (kruskal_loop_sub _ _ _ _ Hloop f Hf) as [Hn|Hs].
    + simpl in Hn. by apply elem_of_nil in Hn.
    + by rewrite sortByWeight_Permutation in Hs.
  - apply Hinv.
  - lia.
  - by apply (kruskal_full_conn done'). }
split; [apply Hinv|]. split; [done|].
intros T HT.
apply (extendable_full V E (k_mst st) T); [apply Hinv|apply Hinv|lia|done].
Qed.
End Kruskal_tree.

(** X1. On a weighted graph whose edges join existing nodes and in which
    every two nodes are linked by a chain of edges, [kruskal()] returns a
    spanning tree of the graph of least total weight.  [totalWeight] is
    the sum of the weights of [mstEdges] as the loop adds them, in that
    order, each sum rounded to a double; it is the exact weight of the
    tree when the absolute values of the weights of the graph add up to
    [2^53] at most. *)
Theorem kruskal_minimum_spanning_tree (g : Graph) :
  isWeighted g = true → maps_ok g → refs_ok g → NoDup (mvalues (edges g)) →
  connected_graph g → mkeys (nodes g) ≠ [] →
  ∃ kr, kruskal g = Some (Ok kr) ∧
        minimum_spanning (mkeys (nodes g)) (mvalues (edges g)) (k_mstEdges kr) ∧
        k_totalWeight kr = number_sum (k_mstEdges kr) ∧
        (exact_weights g →
         k_totalWeight kr = Num (total_weight (k_mstEdges kr))).
Proof.
  intros Hw Hok Hrefs Hnd Hconn HV.
  destruct (kruskal_tree g Hok Hrefs Hnd Hw Hconn HV) as (kr & Hkr & Htot & Hmin).
  exists kr. split_and!; [done..|].
  intros Hexact. rewrite Htot.
  destruct Hmin as [(Hsub & Hndt & _) _].
  by apply (number_sum_exact_in g).
Qed.

Lemma kruskal_minimum_spanning_tree_witness :
  ∃ kr, kruskal scenario = Some (Ok kr) ∧
        minimum_spanning (mkeys (nodes scenario)) (mvalues (edges scenario))
                         (k_mstEdges kr) ∧
        k_totalWeight kr = Num (total_weight (k_mstEdges kr)).
Proof.
  pose proof scenario_simple as (_ & Hw & Hok & Hrefs & Hnd & _).
  destruct (kruskal_minimum_spanning_tree scenario Hw Hok Hrefs Hnd)
    as (kr & Hkr & Hmin & _ & Hexact).
  - apply scenario_connected.
  - discriminate.
  - exists kr. split_and!; [exact Hkr | exact Hmin | exact (Hexact scenario_exact)].
Defined.

(** X2. On a connected weighted undirected graph that satisfies
    invariants 1 and 2 of the data model, [prim(start)], for a start node
    of the graph or none, returns a spanning tree of least total weight;
    every node is reached and [isComplete] is true.  [totalWeight] is
    the sum of the weights of [mstEdges] as the loop adds them, in that
    order, each sum rounded to a double; it is the exact weight of the
    tree when the absolute values of the weights of the graph add up to
    [2^53] at most. *)
Theorem prim_minimum_spanning_tree (g : Graph) (startNodeId : option string) :
  simple_undirected g → connected_graph g → prim_start_ok g startNodeId →
  mkeys (nodes g) ≠ [] →
  ∃ pr, prim g startNodeId = Some (Ok pr) ∧
        minimum_spanning (mkeys (nodes g)) (mvalues (edges g)) (p_mstEdges pr) ∧
        p_nodesReached pr = length (nodes g) ∧ p_isComplete pr = true ∧
        p_totalWeight pr = number_sum (p_mstEdges pr) ∧
        (exact_weights g →
         p_totalWeight pr = Num (total_weight (p_mstEdges pr))).
Proof.
  intros Hg Hconn Hstart HV.
  pose proof Hg as (Hdir & Hw & Hok & Hrefs & HndE & Hsimple).
  destruct (mkeys (nodes g)) as [|first V'] eqn:HVeq; [done|].
  set (start := if falsy startNodeId then first else default "" startNodeId).
  assert (start ∈ mkeys (nodes g)) as Hs.
  { unfold start. destruct Hstart as [->|Hm].
    - rewrite HVeq. left.
    - destruct (falsy startNodeId); [rewrite HVeq; left|by apply mhas_true]. }
  destruct (prim_loop_inv g Hg Hconn start Hs (length (nodes g)) _
              (prim_inv_init g start Hs)) as (st & Hloop & Hinv & Hlen);
    [simpl; lia|].
  destruct (prim_from_start g Hg Hconn start Hs)
    as (st' & Hloop' & Hptot & Hpnd & Hplen & Hpext & Hpspan).
  rewrite Hloop in Hloop'. injection Hloop' as <-.
  unfold prim. rewrite Hw, HVeq. simpl. fold start. rewrite Hloop.
  eexists. split; [done|]. simpl. rewrite <- HVeq.
  split_and!; [|done|by apply bool_decide_eq_true|done|].
  - split; [done|]. intros T HT.
    by apply (extendable_full _ _ _ T Hpext).
  - intros Hexact. rewrite Hptot.
    destruct Hpspan as (Hsub & Hndt & _).
    by apply (number_sum_exact_in g).
Qed.

Lemma prim_minimum_spanning_tree_witness :
  ∃ pr, prim scenario (Some "C") = Some (Ok pr) ∧
        minimum_spanning (mkeys (nodes scenario)) (mvalues (edges scenario))
                         (p_mstEdges pr) ∧
        p_nodesReached pr = length (nodes scenario) ∧ p_isComplete pr = true ∧
        p_totalWeight pr = Num (total_weight (p_mstEdges pr)).
Proof.
  destruct (prim_minimum_spanning_tree scenario (Some "C"))
    as (pr & Hpr & Hmin & Hreach & Hcomplete & _ & Hexact).
  - apply scenario_simple.
  - apply scenario_connected.
  - by right.
  - discriminate.
  - exists pr.
    split_and!; [exact Hpr | exact Hmin | exact Hreach | exact Hcomplete
                |exact (Hexact scenario_exact)].
Defined.


(** ** The classes of a union-find *)

Lemma same_groot_refl uf x : uf_forest uf → same_groot uf x x.
Proof. intros Hf. destruct (groot_total uf x Hf) as [r Hr]. by exists r. Qed.

Lemma same_groot_sym uf x y : same_groot uf x y → same_groot uf y x.
Proof. intros (r & ? & ?). by exists r. Qed.

Lemma same_groot_trans uf x y z :
  same_groot uf x y → same_groot uf y z → same_groot uf x z.
Proof.
  intros (r & Hx & Hy) (r' & Hy' & Hz).
  rewrite (groot_fun _ _ _ _ Hy' Hy) in Hz. by exists r.
Qed.

(** Pointers that lead every value to the root it had lead no two values
    together that were apart. *)
Lemma same_groot_reflect uf uf' y z :
  uf_forest uf → (∀ x r, groot uf x r → groot uf' x r) →
  same_groot uf' y z → same_groot uf y z.
Proof.
  intros Hf Hpres (r & Hy & Hz).
  destruct (groot_total uf y Hf) as [ry Hry].
  destruct (groot_total uf z Hf) as [rz Hrz].
  rewrite <- (groot_fun _ _ _ _ (Hpres _ _ Hry) Hy) in Hz.
  rewrite (groot_fun _ _ _ _ (Hpres _ _ Hrz) Hz) in Hrz. by exists ry.
Qed.

Lemma joined_mono elements calls1 calls2 x y :
  (∀ a b, CUnion a b ∈ calls1 → CUnion a b ∈ calls2) →
  joined elements calls1 x y → joined elements calls2 x y.
Proof.
  intros Hsub. induction 1.
  - apply joined_refl.
  - by apply joined_unknown.
  - apply joined_union. auto.
  - by apply joined_sym.
  - by eapply joined_trans.
Qed.

(** The fresh structure: every element is its own class, the values that
    are no elements form one more class. *)
Lemma newUnionFind_groot (elements : list string) (x : option string) :
  groot (newUnionFind elements) x (if decide (x ∈ els_of elements) then x else None).
Proof.
  assert (Hget : ∀ x, parent_get (newUnionFind elements) x
                      = if decide (x ∈ els_of elements) then x else None).
  { intros y. unfold parent_get.
    rewrite (proj1 (newUnionFind_lookup elements y)). by case_decide. }
  pose proof (None_not_els_of elements) as HNone.
  case_decide as Hx.
  - apply groot_self. rewrite Hget. by rewrite decide_True.
  - destruct (decide (x = None)) as [->|Hne].
    + apply groot_self. rewrite Hget. by rewrite decide_False.
    + apply groot_step.
      * rewrite Hget. rewrite decide_False by done. congruence.
      * rewrite Hget. rewrite decide_False by done.
        apply groot_self. rewrite Hget. by rewrite decide_False.
Qed.

Lemma newUnionFind_classes (elements : list string) (a b : option string) :
  same_groot (newUnionFind elements) a b ↔ joined elements [] a b.
Proof.
  pose proof (newUnionFind_forest elements) as [Hf _].
  split.
  - intros (r & Ha & Hb).
    pose proof (groot_fun _ _ _ _ Ha (newUnionFind_groot elements a)) as Hra.
    pose proof (groot_fun _ _ _ _ Hb (newUnionFind_groot elements b)) as Hrb.
    pose proof (None_not_els_of elements) as HNone.
    repeat case_decide; subst.
    + apply joined_refl.
    + done.
    + done.
    + by apply joined_unknown.
  - induction 1 as [x|x y Hx Hy|x y Hin|x y _ IH|x y z _ IH1 _ IH2].
    + by apply same_groot_refl.
    + exists None. split.
      * pose proof (newUnionFind_groot elements x) as H.
        by rewrite decide_False in H.
      * pose proof (newUnionFind_groot elements y) as H.
        by rewrite decide_False in H.
    + by apply elem_of_nil in Hin.
    + by apply same_groot_sym.
    + by eapply same_groot_trans.
Qed.

(** One call: it returns, and the classes afterwards are what the calls
    before it and this one have joined. *)
Lemma uf_call_classes (elements : list string) done uf c :
  uf_forest uf →
  (∀ a b, same_groot uf a b ↔ joined elements done a b) →
  ∃ uf', uf_call uf c = Some uf' ∧ uf_forest uf' ∧
         ∀ a b, same_groot uf' a b ↔ joined elements (done ++ [c]) a b.
Proof.
  intros Hf Hcl.
  assert (Hkeep : ∀ uf', uf_forest uf' →
            (∀ x r, groot uf x r → groot uf' x r) →
            (∀ a b, CUnion a b ∈ done ++ [c] → CUnion a b ∈ done) →
            ∀ a b, same_groot uf' a b ↔ joined elements (done ++ [c]) a b).
  { intros uf' Hf' Hpres Hsame a b. split.
    - intros H. apply (same_groot_reflect uf) in H; [|done|done].
      apply Hcl in H. eapply joined_mono; [|exact H].
      intros ? ? ?. apply elem_of_app. by left.
    - intros H. apply (joined_mono _ _ done) in H; [|done].
      apply Hcl in H as (r & ? & ?). exists r. auto. }
  destruct c as [x|x y|x y]; simpl.
  - destruct (find_any uf x Hf) as (r & uf' & -> & _ & Hf' & Hpres).
    exists uf'. split_and!; [done|done|]. apply Hkeep; [done|done|].
    intros a b [?|[=]%list_elem_of_singleton]%elem_of_app; done.
  - destruct (union_any uf x y Hf)
      as (uf' & rx & ry & w & -> & Hf' & Hrx & Hry & Hw & Hroots).
    exists uf'. split_and!; [done|done|].
    assert (Hxy : same_groot uf' x y).
    { exists w. split.
      - pose proof (Hroots _ _ Hrx) as H. by rewrite decide_True in H by (by left).
      - pose proof (Hroots _ _ Hry) as H. by rewrite decide_True in H by (by right). }
    assert (Hmono : ∀ a b, same_groot uf a b → same_groot uf' a b).
    { intros a b (r & ? & ?). eexists. eauto. }
    intros a b. split.
    + intros (r & Ha & Hb).
      destruct (groot_total uf a Hf) as [ra Hra].
      destruct (groot_total uf b Hf) as [rb Hrb].
      pose proof (groot_fun _ _ _ _ (Hroots _ _ Hra) Ha) as Hea.
      pose proof (groot_fun _ _ _ _ (Hroots _ _ Hrb) Hb) as Heb.
      assert (Hold : ∀ u v, same_groot uf u v → joined elements (done ++ [CUnion x y]) u v).
      { intros u v H. apply Hcl in H. eapply joined_mono; [|exact H].
        intros ? ? ?. apply elem_of_app. by left. }
      assert (Hnew : joined elements (done ++ [CUnion x y]) x y).
      { apply joined_union, elem_of_app. right. left. }
      (* each of [a], [b] keeps its root or sat in the class of [x] or [y] *)
      assert (Hside : ∀ u ru, groot uf u ru → (ru = rx ∨ ru = ry) →
                joined elements (done ++ [CUnion x y]) u x).
      { intros u ru Hu [->| ->].
        - apply Hold. by exists rx.
        - apply (joined_trans _ _ _ y); [|by apply joined_sym].
          apply Hold. by exists ry. }
      destruct (decide (ra = rx ∨ ra = ry)) as [Hda|Hda];
        destruct (decide (rb = rx ∨ rb = ry)) as [Hdb|Hdb].
      * eapply joined_trans; [by eapply Hside|apply joined_sym; by eapply Hside].
      * exfalso. subst r rb.
        destruct Hw as [->| ->]; apply Hdb; [by left|by right].
      * exfalso. subst r ra.
        destruct Hw as [->| ->]; apply Hda; [by left|by right].
      * subst r rb. apply Hold. by exists ra.
    + induction 1 as [u|u v Hu Hv|u v Hin|u v _ IH|u v z _ IH1 _ IH2].
      * by apply same_groot_refl.
      * apply Hmono, Hcl. by apply joined_unknown.
      * apply elem_of_app in Hin as [Hin|[= -> ->]%list_elem_of_singleton].
        -- apply Hmono, Hcl. by apply joined_union.
        -- done.
      * by apply same_groot_sym.
      * by eapply same_groot_trans.
  - destruct (connected_any uf x y Hf) as (ra & rb & uf' & -> & _ & _ & Hf' & Hpres).
    exists uf'. split_and!; [done|done|]. apply Hkeep; [done|done|].
    intros a b [?|[=]%list_elem_of_singleton]%elem_of_app; done.
Qed.

Lemma uf_run_classes (elements : list string) rest :
  ∀ done uf, uf_forest uf →
  (∀ a b, same_groot uf a b ↔ joined elements done a b) →
  ∃ uf', uf_run uf rest = Some uf' ∧ uf_forest uf' ∧
         ∀ a b, same_groot uf' a b ↔ joined elements (done ++ rest) a b.
Proof.
  induction rest as [|c rest IH]; intros done uf Hf Hcl; simpl.
  - exists uf. rewrite app_nil_r. auto.
  - destruct (uf_call_classes elements done uf c Hf Hcl) as (uf1 & -> & Hf1 & Hcl1).
    destruct (IH (done ++ [c]) uf1 Hf1 Hcl1) as (uf' & Hrun & Hf' & Hcl').
    exists uf'. split_and!; [done|done|].
    intros a b. rewrite Hcl'. by rewrite <- app_assoc.
Qed.

(** X3. A [UnionFind] built over any elements answers every sequence of
    [find], [union] and [connected] calls, whatever their arguments, and
    afterwards [connected(a, b)] is true exactly when [a] and [b] are
    related by the least equivalence that contains the argument pairs of
    the [union] calls and relates all values that are no elements. *)
Theorem union_find_classes (elements : list string) (calls : list UFCall) :
  ∃ uf, uf_run (newUnionFind elements) calls = Some uf ∧
        ∀ a b, same_class uf a b ↔ joined elements calls a b.
Proof.
  destruct (newUnionFind_forest elements) as [Hf _].
  destruct (uf_run_classes elements calls [] _ Hf (newUnionFind_classes elements))
    as (uf & Hrun & Hf' & Hcl).
  exists uf. split; [done|]. intros a b.
  rewrite same_class_groot by done. apply Hcl.
Qed.


(** ** Lookup after insertion and removal *)

Section JSMap_lookup.
Context {V : Type}.
Implicit Types (m : list (string * V)) (k : string) (v : V).

Lemma mget_mset_eq m k v : mget (mset m k v) k = Some v.
Proof.
  induction m as [|[k' v'] m IH]; simpl.
  - by rewrite decide_True.
  - case_decide as Hk; simpl.
    + by rewrite decide_True.
    + by rewrite decide_False.
Qed.

Lemma mget_mset_ne m k v k' : k ≠ k' → mget (mset m k v) k' = mget m k'.
Proof.
  intros Hne. induction m as [|[k0 v0] m IH]; simpl.
  - by rewrite decide_False.
  - case_decide as Hk; simpl.
    + subst. by rewrite !decide_False.
    + case_decide; [done|apply IH].
Qed.

Lemma mdelete_filter m k :
  NoDup (mkeys m) → mdelete m k = filter (λ kv, kv.1 ≠ k) m.
Proof.
  unfold mkeys. induction m as [|[k' v'] m IH]; simpl; [done|].
  intros [Hk Hnd]%NoDup_cons. case_decide as Heq.
  - subst. rewrite filter_cons_False by (simpl; auto).
    clear IH Hnd. induction m as [|[k0 v0] m IH]; [done|].
    simpl in Hk. apply not_elem_of_cons in Hk as [Hne Hk].
    rewrite filter_cons_True by (simpl; auto). f_equal. by apply IH.
  - rewrite filter_cons_True by (simpl; auto). f_equal. by apply IH.
Qed.

Lemma filter_keys_NoDup (P : string * V → Prop) `{!∀ kv, Decision (P kv)} m :
  NoDup (mkeys m) → NoDup (mkeys (filter P m)).
Proof.
  unfold mkeys. induction m as [|[k v] m IH]; simpl; [done|].
  intros [Hk Hnd]%NoDup_cons.
  destruct (decide (P (k, v))).
  - rewrite filter_cons_True by done. simpl. apply NoDup_cons. split; [|auto].
    intros Hin. apply Hk. apply list_elem_of_fmap in Hin as [kv [-> Hin]].
    apply list_elem_of_filter in Hin as [_ Hin].
    apply list_elem_of_fmap. by exists kv.
  - rewrite filter_cons_False by done. auto.
Qed.

Lemma foldl_mdelete_filter m ks :
  NoDup (mkeys m) → foldl mdelete m ks = filter (λ kv, kv.1 ∉ ks) m.
Proof.
  revert m. induction ks as [|k ks IH]; intros m Hnd; simpl.
  - symmetry. induction m as [|kv m IHm]; [done|].
    rewrite filter_cons_True by apply not_elem_of_nil. f_equal. apply IHm.
    unfold mkeys in *. simpl in Hnd. by apply NoDup_cons in Hnd as [_ ?].
  - rewrite IH by (by apply mdelete_NoDup).
    rewrite mdelete_filter by done. rewrite list_filter_filter.
    apply list_filter_iff. intros [k' v']. simpl.
    rewrite not_elem_of_cons. naive_solver.
Qed.
End JSMap_lookup.

(** ** What the mutators of [Graph] store *)

Lemma joins_connects dir s t e : joins dir s t e = connects dir s t e.
Proof.
  unfold joins, connects. destruct dir; simpl.
  - by rewrite orb_false_r.
  - repeat case_bool_decide; naive_solver.
Qed.

Lemma connects_swap s t e : connects false s t e = connects false t s e.
Proof. unfold connects. simpl. repeat case_bool_decide; naive_solver. Qed.

Lemma findEdge_first g s t e :
  e ∈ mvalues (edges g) → connects (isDirected g) s t e = true →
  (∀ e', e' ∈ mvalues (edges g) → connects (isDirected g) s t e' = true → e' = e) →
  findEdge g s t = Some e.
Proof.
  intros Hin Hc Huniq. unfold findEdge.
  destruct (List.find _ _) as [e'|] eqn:Hfind.
  - apply List.find_some in Hfind as [Hin' Hc'].
    f_equal. apply Huniq; [by apply list_elem_of_In|done].
  - exfalso. eapply List.find_none in Hfind; [|by apply list_elem_of_In].
    congruence.
Qed.



(** X5. A call of [addEdge] that returns stores an edge from [sourceId] to
    [targetId] with the direction flag of the graph, the given weight in a
    weighted graph and [1] otherwise; its id is the given one or [edge_]
    followed by [edgeIdCounter], and its label the given one or, in a
    weighted graph, the weight, both Numbers as [Number::toString] prints
    them ([1e+21] for [10^21]); the two nodes had no edge before, and
    now [hasEdge] holds and [getEdgeWeight] returns the stored weight, in
    both orientations when the graph is undirected.  The edge map has no
    test for its own key: the new edge takes the place of an edge that was
    stored under the same id, otherwise it is appended and all edges stay. *)
Theorem addEdge_stores (g g' : Graph) (s t : string) (w : Z) (label : string)
    (id : option string) (e : Edge) :
  addEdge g s t w label id = (g', Ok e) →
  e = mkEdge (if falsy id then "edge_" +:+ Number_toString (edgeIdCounter g)
              else default "" id)
             s t (if isWeighted g then w else 1)
             (str_or label (if isWeighted g then Number_toString w else ""))
             (isDirected g) ∧
  mhas (nodes g) s = true ∧ mhas (nodes g) t = true ∧
  hasEdge g s t = false ∧
  hasEdge g' s t = true ∧ getEdgeWeight g' s t = Finite (weight e) ∧
  (isDirected g = false →
   hasEdge g' t s = true ∧ getEdgeWeight g' t s = Finite (weight e)) ∧
  getEdge g' (e_id e) = Some e ∧
  (∀ k, k ≠ e_id e → getEdge g' k = getEdge g k) ∧
  mkeys (edges g') = (if mhas (edges g) (e_id e) then mkeys (edges g)
                      else mkeys (edges g) ++ [e_id e]) ∧
  nodes g' = nodes g ∧ isDirected g' = isDirected g ∧
  isWeighted g' = isWeighted g.
Proof.
  unfold addEdge.
  destruct (mhas (nodes g) s) eqn:Hs; simpl; [|done].
  destruct (mhas (nodes g) t) eqn:Ht; simpl; [|done].
  destruct (fresh_edge_id g id) as [k g1] eqn:Hf.
  pose proof Hf as Hk. unfold fresh_edge_id in Hk.
  apply fresh_edge_id_frame in Hf as (Hn & He & Hd & Hw & _).
  destruct (existsb _ _) eqn:Hex; [done|].
  intros [= <- <-]. simpl. rewrite Hn, He, Hd, Hw in *.
  assert (Hnone : ∀ e', e' ∈ mvalues (edges g) →
                        connects (isDirected g) s t e' = false).
  { intros e' Hin. rewrite <- joins_connects.
    destruct (joins _ _ _ e') eqn:Hj; [|done].
    assert (existsb (joins (isDirected g) s t) (mvalues (edges g)) = true);
      [|congruence].
    apply existsb_exists. exists e'. split; [by apply list_elem_of_In|done]. }
  set (e := mkEdge k s t _ _ _).
  assert (Hfind : findEdge (set_edges g1 (mset (edges g) k e)) s t = Some e).
  { apply findEdge_first; simpl; rewrite ?Hd.
    - apply mvalues_mset_new.
    - unfold connects. simpl. by rewrite bool_decide_eq_true_2.
    - intros e' [->|Hin]%elem_of_mvalues_mset Hc; [done|].
      rewrite Hnone in Hc; done. }
  assert (Hfind' : isDirected g = false →
            findEdge (set_edges g1 (mset (edges g) k e)) t s = Some e).
  { intros Hud. apply findEdge_first; simpl; rewrite ?Hd, ?Hud.
    - apply mvalues_mset_new.
    - unfold connects. simpl. rewrite (bool_decide_eq_true_2 (s = s ∧ t = t)) by done.
      apply orb_true_r.
    - intros e' [->|Hin]%elem_of_mvalues_mset Hc; [done|].
      rewrite <- connects_swap in Hc. rewrite Hud in Hnone.
      rewrite Hnone in Hc; done. }
  split_and!; auto.
  - subst e. f_equal. by destruct (falsy id); injection Hk as <- _.
  - unfold hasEdge. destruct (findEdge g s t) as [e'|] eqn:Hfe; [|done].
    apply findEdge_Some in Hfe as [Hin Hc]. rewrite Hnone in Hc; done.
  - unfold hasEdge. by rewrite Hfind.
  - unfold getEdgeWeight. by rewrite Hfind.
  - intros Hud. unfold hasEdge, getEdgeWeight. by rewrite (Hfind' Hud).
  - unfold getEdge. simpl. apply mget_mset_eq.
  - intros k' Hne. unfold getEdge. simpl. by apply mget_mset_ne.
  - simpl. rewrite mkeys_mset. done.
Qed.

Lemma addEdge_stores_witness :
  ∃ g' e, addEdge one_way "B" "A" (10 ^ 21) "" (Some "edge_1") = (g', Ok e) ∧
          weight e = 10 ^ 21 ∧ e_label e = "1e+21" ∧
          hasEdge g' "B" "A" = true ∧
          hasEdge g' "A" "B" = false ∧ mkeys (edges g') = ["edge_1"].
Proof.
  eexists _, _. split; [reflexivity|].
  destruct (addEdge_stores one_way _ "B" "A" (10 ^ 21) "" (Some "edge_1") _ eq_refl)
    as (H1 & _ & _ & _ & H2 & _).
  split_and!; [by rewrite H1|by rewrite H1|exact H2|reflexivity|reflexivity].
Defined.

Lemma filter_ext_in {A} (P1 P2 : A → Prop)
    `{!∀ x, Decision (P1 x), !∀ x, Decision (P2 x)} (l : list A) :
  (∀ x, x ∈ l → (P1 x ↔ P2 x)) → filter P1 l = filter P2 l.
Proof.
  induction l as [|a l IH]; intros Hiff; [done|].
  rewrite !filter_cons.
  assert (P1 a ↔ P2 a) as Ha by (apply Hiff; left).
  rewrite IH by (intros x Hx; apply Hiff; by right).
  destruct (decide (P1 a)), (decide (P2 a)); tauto.
Qed.

Lemma entry_unique {V} (m : list (string * V)) k v v' :
  NoDup (mkeys m) → (k, v) ∈ m → (k, v') ∈ m → v = v'.
Proof.
  intros Hnd H1 H2.
  apply (mget_NoDup _ _ _ Hnd) in H1. apply (mget_NoDup _ _ _ Hnd) in H2.
  congruence.
Qed.

(** X6. [removeNode(id)] on a graph whose maps hold one entry per key:
    when [id] is no node it returns [false] and changes nothing (edges
    that name [id] stay); otherwise it returns [true], and what is left is
    exactly every other node and every edge that has [id] neither as
    source nor as target, in their order; flags and counters stay. *)
Theorem removeNode_removes (g : Graph) (nodeId : string) :
  maps_ok g →
  (mhas (nodes g) nodeId = false → removeNode g nodeId = (g, false)) ∧
  (mhas (nodes g) nodeId = true →
   removeNode g nodeId =
     (mkGraph (filter (λ kv, kv.1 ≠ nodeId) (nodes g))
              (filter (λ kv, source kv.2 ≠ nodeId ∧ target kv.2 ≠ nodeId)
                      (edges g))
              (isDirected g) (isWeighted g) (nodeIdCounter g) (edgeIdCounter g),
      true)).
Proof.
  intros [Hn He]. unfold removeNode. split; intros ->; [done|].
  f_equal. unfold set_nodes, set_edges. simpl. f_equal.
  - by apply mdelete_filter.
  - rewrite foldl_mdelete_filter by done.
    apply filter_ext_in. intros [k e] Hke. simpl. split.
    + intros Hk. by apply (edgesToRemove_spec (edges g) nodeId k e).
    + intros [Hs Ht] Hin. unfold edgesToRemove in Hin.
      apply list_elem_of_fmap in Hin as [[k' e'] [Heq Hin]]. simpl in Heq. subst k'.
      apply list_elem_of_filter in Hin as [Hp Hin]. simpl in Hp.
      rewrite (entry_unique _ _ _ _ He Hke Hin) in Hs, Ht. tauto.
Qed.

Lemma removeNode_removes_witness :
  removeNode sample_graph "A" =
    (mkGraph [("B", mkNode "B" "B" 0 0 [])] [] false false 1 2, true).
Proof.
  destruct (removeNode_removes sample_graph "A") as [_ H].
  - apply sample_graph_ok.
  - apply H. reflexivity.
Defined.

(** X7. The three edge queries agree: [getNeighbors(u)] lists [v], once,
    exactly when [hasEdge(u, v)] holds, which is exactly when
    [getEdgeWeight(u, v)] is not [Infinity]; in an undirected graph
    [hasEdge] and [getEdgeWeight] do not depend on the order of their
    arguments. *)
Theorem edge_queries_agree (g : Graph) (u v : string) :
  (v ∈ getNeighbors g u ↔ hasEdge g u v = true) ∧
  NoDup (getNeighbors g u) ∧
  (hasEdge g u v = true ↔ ∃ w, getEdgeWeight g u v = Finite w) ∧
  (isDirected g = false →
   hasEdge g u v = hasEdge g v u ∧ getEdgeWeight g u v = getEdgeWeight g v u).
Proof.
  split_and!.
  - rewrite elem_of_getNeighbors. unfold hasEdge, hop. split.
    + intros (e & Hin & Hcase).
      destruct (findEdge g u v) as [e'|] eqn:Hf; [done|].
      pose proof (findEdge_None g u v e Hf Hin) as Hc. unfold connects in Hc.
      destruct Hcase as [[Hs Ht]|(Hd & Ht & Hs)].
      * rewrite (bool_decide_eq_true_2 (source e = u ∧ target e = v)) in Hc by done.
        done.
      * rewrite Hd in Hc. simpl in Hc.
        rewrite (bool_decide_eq_true_2 (source e = v ∧ target e = u)) in Hc by done.
        by rewrite orb_true_r in Hc.
    + destruct (findEdge g u v) as [e|] eqn:Hf; [|done]. intros _.
      apply findEdge_Some in Hf as [Hin Hc]. exists e. split; [done|].
      unfold connects in Hc. apply orb_true_iff in Hc as [Hc|Hc].
      * apply bool_decide_eq_true in Hc. by left.
      * apply andb_true_iff in Hc as [Hd Hc].
        apply bool_decide_eq_true in Hc as [Hs Ht]. right.
        by destruct (isDirected g).
  - apply getNeighbors_NoDup.
  - unfold hasEdge, getEdgeWeight. destruct (findEdge g u v); split;
      try done; eauto; by intros [w ?].
  - intros Hd.
    assert (findEdge g u v = findEdge g v u) as Heq.
    { unfold findEdge. rewrite Hd.
      induction (mvalues (edges g)) as [|e l IH]; [done|]. simpl.
      by rewrite (connects_swap u v e), IH. }
    unfold hasEdge, getEdgeWeight. by rewrite Heq.
Qed.

(** X8. [removeEdge(id)] on a graph whose edge map holds one entry per
    key returns whether [id] was bound; afterwards [getEdge(id)] is
    [undefined], every other key is bound as before, and nodes, flags and
    counters are untouched. *)
Theorem removeEdge_removes (g g' : Graph) (edgeId : string) (b : bool) :
  NoDup (mkeys (edges g)) → removeEdge g edgeId = (g', b) →
  (b = true ↔ is_Some (getEdge g edgeId)) ∧
  getEdge g' edgeId = None ∧
  (∀ k, k ≠ edgeId → getEdge g' k = getEdge g k) ∧
  edges g' = filter (λ kv, kv.1 ≠ edgeId) (edges g) ∧
  nodes g' = nodes g ∧ isDirected g' = isDirected g ∧
  isWeighted g' = isWeighted g ∧ nodeIdCounter g' = nodeIdCounter g ∧
  edgeIdCounter g' = edgeIdCounter g.
Proof.
  intros Hnd [= <- <-]. simpl. split_and!; auto.
  - unfold mhas, getEdge. destruct (mget (edges g) edgeId); split;
      try done; eauto; by intros [? ?].
  - unfold getEdge. simpl. apply mget_None. by apply mdelete_gone.
  - intros k Hne. unfold getEdge. simpl.
    rewrite mdelete_filter by done.
    induction (edges g) as [|[k' e'] l IH]; [done|].
    unfold mkeys in Hnd. simpl in Hnd. apply NoDup_cons in Hnd as [_ Hnd].
    rewrite filter_cons. simpl. destruct (decide (k' ≠ edgeId)) as [Hk|Hk]; simpl.
    + case_decide; [done|by apply IH].
    + apply dec_stable in Hk. subst k'. rewrite decide_False by done. by apply IH.
  - by apply mdelete_filter.
Qed.

Lemma removeEdge_removes_witness :
  ∃ g', removeEdge sample_graph "edge_1" = (g', true) ∧
        getEdge g' "edge_1" = None ∧ nodes g' = nodes sample_graph.
Proof.
  eexists. split; [reflexivity|].
  destruct (removeEdge_removes sample_graph (removeEdge sample_graph "edge_1").1
              "edge_1" true) as (_ & H1 & _ & _ & H2 & _).
  - apply sample_graph_ok.
  - reflexivity.
  - split; [exact H1|exact H2].
Defined.


(** ** Graphs built by the editor, and their copies *)

Lemma pretty_N_go_length (x : N) (s : string) :
  (String.length s ≤ String.length (pretty_N_go x s))%nat.
Proof.
  revert s. induction (N.lt_wf_0 x) as [x _ IH]; intros s.
  destruct (decide (x = 0%N)) as [->|Hx]; [by rewrite pretty_N_go_0|].
  rewrite pretty_N_go_step by lia.
  etrans; [|apply IH, N.div_lt; lia]. simpl. lia.
Qed.

Lemma pretty_N_nonempty (x : N) : pretty x ≠ "".
Proof.
  unfold pretty, pretty_N. case_decide; [done|].
  rewrite pretty_N_go_step by lia.
  intros Heq.
  pose proof (pretty_N_go_length (x `div` 10)
                (String (pretty_N_char (x `mod` 10)) "")) as Hlen.
  rewrite Heq in Hlen. simpl in Hlen. lia.
Qed.

Lemma pretty_Z_nonempty (z : Z) : pretty z ≠ "".
Proof.
  destruct z as [|p|p]; unfold pretty, pretty_Z; [done| |done].
  apply pretty_N_nonempty.
Qed.

Lemma Number_toString_nonempty (x : Z) : Number_toString x ≠ "".
Proof.
  unfold Number_toString.
  set (a := round_double (Z.abs x)).
  assert ((if 2 ^ 1024 <=? a then "Infinity"
           else if shortest a <? 10 ^ 21 then pretty (shortest a)
                else exponent_form (shortest a)) ≠ "") as Htext.
  { destruct (2 ^ 1024 <=? a); [done|].
    destruct (shortest a <? 10 ^ 21); [apply pretty_Z_nonempty|].
    unfold exponent_form.
    destruct (pretty (strip_zeros _ _)) as [|d rest] eqn:Hp; [|done].
    by apply pretty_Z_nonempty in Hp. }
  destruct (x <? 0); [done|exact Htext].
Qed.

Lemma str_or_nonempty a b : b ≠ "" → str_or a b ≠ "".
Proof. unfold str_or. by case_bool_decide. Qed.

Lemma str_or_id a b : a ≠ "" → str_or a b = a.
Proof. unfold str_or. intros. by rewrite bool_decide_eq_false_2. Qed.

Lemma fresh_node_id_nonempty g id k g1 : fresh_node_id g id = (k, g1) → k ≠ "".
Proof.
  unfold fresh_node_id. destruct id as [s|]; simpl.
  - case_bool_decide; intros [= <- _]; [done|done].
  - intros [= <- _]. done.
Qed.

Lemma fresh_edge_id_nonempty g id k g1 : fresh_edge_id g id = (k, g1) → k ≠ "".
Proof.
  unfold fresh_edge_id. destruct id as [s|]; simpl.
  - case_bool_decide; intros [= <- _]; [done|done].
  - intros [= <- _]. done.
Qed.

Lemma elem_of_mset {V} (m : list (string * V)) k v k' v' :
  NoDup (mkeys m) →
  (k', v') ∈ mset m k v → (k' = k ∧ v' = v) ∨ ((k', v') ∈ m ∧ k' ≠ k).
Proof.
  unfold mkeys. induction m as [|[k0 v0] m IH]; simpl; intros Hnd.
  - intros [= -> ->]%list_elem_of_singleton. by left.
  - apply NoDup_cons in Hnd as [Hk0 Hnd]. case_decide as Hk.
    + subst k0. intros [[= -> ->]|Hin]%elem_of_cons; [by left|].
      right. split; [by right|]. intros ->. apply Hk0.
      apply list_elem_of_fmap. by exists (k, v').
    + intros [[= -> ->]|Hin]%elem_of_cons.
      * right. split; [left|done].
      * destruct (IH Hnd Hin) as [?|[? ?]]; [by left|right].
        split; [by right|done].
Qed.

Lemma well_formed_fresh (dir wtd : bool) :
  well_formed (setGraphType newGraph dir wtd).
Proof.
  split; simpl.
  - split; apply NoDup_nil_2.
  - intros k n Hin. by apply elem_of_nil in Hin.
  - intros k e Hin. by apply elem_of_nil in Hin.
  - intros k1 e1 k2 e2 Hin. by apply elem_of_nil in Hin.
Qed.

Lemma well_formed_clear g : well_formed (clear g).
Proof.
  split; simpl.
  - split; apply NoDup_nil_2.
  - intros k n Hin. by apply elem_of_nil in Hin.
  - intros k e Hin. by apply elem_of_nil in Hin.
  - intros k1 e1 k2 e2 Hin. by apply elem_of_nil in Hin.
Qed.

(** Entries, flags and keys decide well-formedness: a graph whose node
    entries and edge entries are among those of a well-formed graph with
    the same flags, and which keeps the endpoints of its edges, is
    well-formed. *)
Lemma well_formed_sub g h :
  well_formed g → maps_ok h →
  isDirected h = isDirected g → isWeighted h = isWeighted g →
  (∀ kv, kv ∈ nodes h → kv ∈ nodes g) →
  (∀ kv, kv ∈ edges h → kv ∈ edges g) →
  (∀ k e, (k, e) ∈ edges h →
          mhas (nodes h) (source e) = true ∧ mhas (nodes h) (target e) = true) →
  well_formed h.
Proof.
  intros [Hm Hn He Hs] Hmh Hd Hw Hsn Hse Hends. split.
  - done.
  - intros k n Hin. by apply Hn, Hsn.
  - intros k e Hin. destruct (He k e (Hse _ Hin)) as (? & ? & ? & _ & _ & ? & ?).
    destruct (Hends k e Hin). rewrite Hd, Hw. by split_and!.
  - intros k1 e1 k2 e2 H1 H2. rewrite Hd. apply Hs; by apply Hse.
Qed.

Lemma well_formed_counters g nc ec :
  well_formed g →
  well_formed (mkGraph (nodes g) (edges g) (isDirected g) (isWeighted g) nc ec).
Proof. intros [Hm Hn He Hs]. by split. Qed.

Lemma well_formed_addNode g id label x y data :
  well_formed g → well_formed (addNode g id label x y data).1.
Proof.
  intros Hwf. pose proof Hwf as [Hm Hn He Hs].
  unfold addNode. destruct (fresh_node_id g id) as [k g1] eqn:Hf.
  pose proof (fresh_node_id_nonempty _ _ _ _ Hf) as Hk.
  apply fresh_node_id_frame in Hf as (Hn1 & He1 & Hd1 & Hw1 & _).
  assert (well_formed g1) as Hwf1.
  { destruct g1; simpl in *; subst. by apply (well_formed_counters g). }
  destruct (mhas (nodes g1) k) eqn:Hhas; simpl; [done|].
  rewrite Hn1 in *. apply mhas_false in Hhas.
  rewrite (mset_fresh _ _ _ Hhas).
  assert (∀ s, mhas (nodes g) s = true →
               mhas (nodes g ++ [(k, mkNode k (str_or label k) x y data)]) s = true)
    as Hkeep.
  { intros s. rewrite !mhas_true. unfold mkeys. rewrite fmap_app, elem_of_app.
    by left. }
  split; simpl.
  - destruct Hm as [Hnn Hne]. split; simpl; [|by rewrite He1].
    unfold mkeys. rewrite fmap_app. apply NoDup_app. split_and!; [done| |].
    + intros s Hs' ->%list_elem_of_singleton. done.
    + apply NoDup_singleton.
  - intros k' n [Hin|[= -> ->]%list_elem_of_singleton]%elem_of_app; [by apply Hn|].
    simpl. split_and!; [done|done|by apply str_or_nonempty].
  - rewrite He1, Hd1, Hw1. intros k' e Hin.
    destruct (He k' e Hin) as (? & ? & ? & ? & ? & ? & ?). split_and!; auto.
  - intros k1 e1 k2 e2. simpl. rewrite He1, Hd1. apply Hs.
Qed.

Lemma well_formed_addEdge g s t w label id :
  well_formed g → well_formed (addEdge g s t w label id).1.
Proof.
  intros Hwf. pose proof Hwf as [Hm Hn He Hs].
  unfold addEdge.
  destruct (mhas (nodes g) s) eqn:Hhs; simpl; [|done].
  destruct (mhas (nodes g) t) eqn:Hht; simpl; [|done].
  destruct (fresh_edge_id g id) as [k g1] eqn:Hf.
  pose proof (fresh_edge_id_nonempty _ _ _ _ Hf) as Hk.
  apply fresh_edge_id_frame in Hf as (Hn1 & He1 & Hd1 & Hw1 & _).
  assert (well_formed g1) as Hwf1.
  { destruct g1; simpl in *; subst. by apply (well_formed_counters g). }
  destruct (existsb _ _) eqn:Hex; simpl; [done|].
  rewrite ?He1, ?Hd1, ?Hw1 in Hex |- *.
  assert (Hnone : ∀ e', e' ∈ mvalues (edges g) → joins (isDirected g) s t e' = false).
  { intros e' Hin. destruct (joins _ _ _ e') eqn:Hj; [|done].
    assert (existsb (joins (isDirected g) s t) (mvalues (edges g)) = true);
      [|congruence].
    apply existsb_exists. exists e'. split; [by apply list_elem_of_In|done]. }
  destruct Hm as [Hnn Hne].
  split; simpl; rewrite ?Hn1, ?Hd1, ?Hw1.
  - split; simpl; [by rewrite Hn1|]. by apply mset_NoDup.
  - done.
  - intros k' e Hin. apply elem_of_mset in Hin as [[-> ->]|[Hin _]]; [|by apply He|done].
    simpl. split_and!; auto.
    + intros ->. done.
    + intros ->. apply str_or_nonempty, Number_toString_nonempty.
  - intros k1 e1 k2 e2 H1 H2 Hj. simpl in H1, H2, Hj. rewrite Hd1 in Hj.
    apply elem_of_mset in H1 as [[-> ->]|[H1 Hk1]]; [| |done];
      apply elem_of_mset in H2 as [[-> ->]|[H2 Hk2]]; try done.
    + simpl in Hj. rewrite Hnone in Hj; [done|].
      apply elem_mvalues. by exists k2.
    + exfalso.
      assert (joins (isDirected g) s t e1 = true) as Hj'.
      { unfold joins in *. simpl in Hj.
        destruct (isDirected g); apply bool_decide_eq_true in Hj;
          apply bool_decide_eq_true; naive_solver. }
      rewrite Hnone in Hj'; [done|]. apply elem_mvalues. by exists k1.
    + by apply (Hs k1 e1 k2 e2).
Qed.

Lemma well_formed_removeNode g nodeId :
  well_formed g → well_formed (removeNode g nodeId).1.
Proof.
  intros Hwf. pose proof Hwf as [Hm Hn He Hs].
  destruct (removeNode_removes g nodeId Hm) as [Hno Hyes].
  destruct (mhas (nodes g) nodeId) eqn:Hhas.
  - rewrite (Hyes eq_refl). simpl.
    apply (well_formed_sub g); simpl; auto.
    + destruct Hm as [Hnn Hne]. split; simpl; by apply filter_keys_NoDup.
    + intros kv [_ ?]%list_elem_of_filter. done.
    + intros kv [_ ?]%list_elem_of_filter. done.
    + intros k e [[Hsrc Htgt] Hin]%list_elem_of_filter. simpl in *.
      destruct (He k e Hin) as (_ & _ & _ & Hhs & Hht & _).
      apply mhas_true in Hhs, Hht. unfold mkeys in Hhs, Hht.
      apply list_elem_of_fmap in Hhs as [[ks ns] [Heqs Hins]].
      apply list_elem_of_fmap in Hht as [[kt nt] [Heqt Hint]].
      simpl in Heqs, Heqt. subst ks kt.
      split; apply mhas_true.
      * apply (elem_mkeys _ _ ns). apply list_elem_of_filter. by split.
      * apply (elem_mkeys _ _ nt). apply list_elem_of_filter. by split.
  - by rewrite (Hno eq_refl).
Qed.

Lemma well_formed_removeEdge g edgeId :
  well_formed g → well_formed (removeEdge g edgeId).1.
Proof.
  intros Hwf. pose proof Hwf as [Hm Hn He Hs]. simpl.
  apply (well_formed_sub g); simpl; auto.
  - destruct Hm as [Hnn Hne]. split; simpl; [done|by apply mdelete_NoDup].
  - intros kv. apply elem_of_mdelete.
  - intros k e Hin%elem_of_mdelete.
    destruct (He k e Hin) as (_ & _ & _ & ? & ? & _). done.
Qed.

Lemma well_formed_updateNodePosition g nodeId x y :
  well_formed g → well_formed (updateNodePosition g nodeId x y).
Proof.
  intros Hwf. pose proof Hwf as [Hm Hn He Hs].
  unfold updateNodePosition, updateNode.
  destruct (mget (nodes g) nodeId) as [n|] eqn:Hget; [|done].
  pose proof (mget_Some_elem _ _ _ Hget) as Hin.
  assert (mkeys (mset (nodes g) nodeId
                      (assign_node n (mkNodeProps None None (Some x) (Some y) None)))
          = mkeys (nodes g)) as Hkeys.
  { rewrite mkeys_mset. unfold mhas. by rewrite Hget. }
  destruct Hm as [Hnn Hne].
  split; simpl.
  - split; simpl; [by rewrite Hkeys|done].
  - intros k n' Hin'. apply elem_of_mset in Hin' as [[-> ->]|[Hin' _]];
      [|by apply Hn|done].
    simpl. by apply Hn.
  - intros k e Hin'. destruct (He k e Hin') as (? & ? & ? & Hhs & Hht & ? & ?).
    split_and!; auto.
    + apply mhas_true. rewrite Hkeys. by apply mhas_true.
    + apply mhas_true. rewrite Hkeys. by apply mhas_true.
  - done.
Qed.

Lemma well_formed_exec g m : structural m → well_formed g → well_formed (exec g m).
Proof.
  destruct m; simpl; try done; intros _.
  - apply well_formed_addNode.
  - apply well_formed_removeNode.
  - apply well_formed_addEdge.
  - apply well_formed_removeEdge.
  - apply well_formed_updateNodePosition.
  - intros _. apply well_formed_clear.
Qed.

Lemma well_formed_run (g : Graph) (ms : list Mutation) :
  well_formed g → Forall structural ms → well_formed (run g ms).
Proof.
  intros Hwf Hms. revert g Hwf. unfold run.
  induction Hms as [|m ms Hm _ IH]; intros g Hwf; simpl; [done|].
  apply IH. by apply well_formed_exec.
Qed.

(** X9. Invariants 1 and 2 of the data model, and the shape of the
    records, are kept by the calls that build a graph: starting from a
    well-formed graph (the fresh graph of either type is one), any
    sequence of [addNode], [addEdge], [removeNode], [removeEdge],
    [updateNodePosition] and [clear] calls, failing ones included, leaves a
    graph in which every record sits under its own non-empty id, every
    edge joins existing nodes and carries the flags of the graph, and no
    two edges join the same pair of nodes. *)
Theorem structural_calls_keep_well_formed (g : Graph) (ms : list Mutation) :
  well_formed g → Forall structural ms → well_formed (run g ms).
Proof. apply well_formed_run. Qed.

Lemma structural_calls_keep_well_formed_witness : well_formed scenario.
Proof.
  apply (structural_calls_keep_well_formed (setGraphType newGraph false true)).
  - apply well_formed_fresh.
  - repeat constructor.
Defined.

Lemma scenario_well_formed : well_formed scenario.
Proof.
  apply (well_formed_run (setGraphType newGraph false true)).
  - apply well_formed_fresh.
  - repeat constructor.
Qed.

(** *** [clone] *)

Lemma foldl_split_inv {A B} (f : A → B → A) (Q : list B → A → Prop)
    (l : list B) (a : A) :
  Q [] a →
  (∀ pre x rest acc, l = pre ++ x :: rest → Q pre acc → Q (pre ++ [x]) (f acc x)) →
  Q l (foldl f a l).
Proof.
  intros H0 Hstep.
  assert (G : ∀ rest pre acc, pre ++ rest = l → Q pre acc →
            Q l (foldl f acc rest)).
  { induction rest as [|x rest IH]; intros pre acc Heq HQ; simpl.
    - by rewrite app_nil_r in Heq; subst.
    - apply (IH (pre ++ [x])); [by rewrite <- app_assoc|].
      by apply (Hstep pre x rest). }
  by apply (G l []).
Qed.

(** The entries of a map whose records sit under their own ids. *)
Lemma rekey {V} (f : V → string) (m : list (string * V)) :
  (∀ k v, (k, v) ∈ m → f v = k) → m = (λ v, (f v, v)) <$> mvalues m.
Proof.
  unfold mvalues. induction m as [|[k v] m IH]; intros Hk; [done|].
  simpl. rewrite (Hk k v) by left. f_equal. apply IH.
  intros k' v' Hin. apply Hk. by right.
Qed.

Lemma mkeys_rekey {V} (f : V → string) (l : list V) :
  mkeys ((λ v, (f v, v)) <$> l) = f <$> l.
Proof. unfold mkeys. rewrite <- list_fmap_compose. done. Qed.

Lemma mvalues_rekey {V} (f : V → string) (l : list V) :
  mvalues ((λ v, (f v, v)) <$> l) = l.
Proof.
  unfold mvalues. induction l as [|a l IH]; [done|]. csimpl. by rewrite IH.
Qed.

Lemma NoDup_app_middle {A} (f : A → string) (pre : list A) x rest :
  NoDup (f <$> (pre ++ x :: rest)) → f x ∉ f <$> pre.
Proof.
  rewrite fmap_app. intros (_ & Hdisj & _)%NoDup_app Hin.
  apply (Hdisj _ Hin). simpl. left.
Qed.

(** X10. [clone()] of a well-formed graph returns: no [addNode] or
    [addEdge] of the copy throws, and the copy has the same nodes and
    edges in the same order, the same flags and the same counters. *)
Theorem clone_copies (g : Graph) : well_formed g → clone g = Ok g.
Proof.
  intros [[Hnn Hne] Hn He Hs].
  set (g0 := setGraphType newGraph (isDirected g) (isWeighted g)).
  assert (Hnodes : nodes g = (λ n, (n_id n, n)) <$> mvalues (nodes g)).
  { apply rekey. intros k n Hin. by apply Hn. }
  assert (Hedges : edges g = (λ e, (e_id e, e)) <$> mvalues (edges g)).
  { apply rekey. intros k e Hin. by apply He. }
  assert (Hkn : NoDup (n_id <$> mvalues (nodes g))).
  { rewrite <- mkeys_rekey. by rewrite <- Hnodes. }
  assert (Hke : NoDup (e_id <$> mvalues (edges g))).
  { rewrite <- mkeys_rekey. by rewrite <- Hedges. }
  assert (Hphase1 : foldl clone_node (Ok g0) (mvalues (nodes g))
            = Ok (mkGraph (nodes g) [] (isDirected g) (isWeighted g) 1 1)).
  { rewrite Hnodes at 2.
    apply (foldl_split_inv clone_node
             (λ pre acc, acc = Ok (mkGraph ((λ n, (n_id n, n)) <$> pre) []
                                     (isDirected g) (isWeighted g) 1 1)));
      [done|].
    intros pre n rest acc Hsplit ->. simpl.
    assert (n ∈ mvalues (nodes g)) as Hin by (rewrite Hsplit; set_solver).
    apply elem_mvalues in Hin as [k Hin].
    destruct (Hn k n Hin) as (Hid & Hk & Hlab). subst k.
    unfold addNode, fresh_node_id. simpl.
    rewrite bool_decide_eq_false_2 by done. simpl.
    assert (n_id n ∉ mkeys ((λ n0, (n_id n0, n0)) <$> pre)) as Hfresh.
    { rewrite mkeys_rekey. apply (NoDup_app_middle n_id pre n rest).
      by rewrite <- Hsplit. }
    rewrite (proj2 (mhas_false _ _) Hfresh).
    rewrite (mset_fresh _ _ _ Hfresh). unfold set_nodes. simpl.
    rewrite (str_or_id _ _ Hlab). rewrite fmap_app. simpl.
    by destruct n. }
  assert (Hphase2 : foldl clone_edge
            (Ok (mkGraph (nodes g) [] (isDirected g) (isWeighted g) 1 1))
            (mvalues (edges g))
            = Ok (mkGraph (nodes g) (edges g) (isDirected g) (isWeighted g) 1 1)).
  { rewrite Hedges at 2.
    apply (foldl_split_inv clone_edge
             (λ pre acc, acc = Ok (mkGraph (nodes g) ((λ e, (e_id e, e)) <$> pre)
                                     (isDirected g) (isWeighted g) 1 1)));
      [done|].
    intros pre e rest acc Hsplit ->. simpl.
    assert (e ∈ mvalues (edges g)) as Hin by (rewrite Hsplit; set_solver).
    apply elem_mvalues in Hin as [k Hin].
    destruct (He k e Hin) as (Hid & Hk & Hdir & Hhs & Hht & Hw1 & Hlab). subst k.
    unfold addEdge. simpl. rewrite Hhs, Hht. simpl.
    unfold fresh_edge_id. simpl. rewrite bool_decide_eq_false_2 by done. simpl.
    assert (e_id e ∉ mkeys ((λ e0, (e_id e0, e0)) <$> pre)) as Hfresh.
    { rewrite mkeys_rekey. apply (NoDup_app_middle e_id pre e rest).
      by rewrite <- Hsplit. }
    rewrite mvalues_rekey.
    assert (existsb (joins (isDirected g) (source e) (target e)) pre = false) as ->.
    { destruct (existsb _ pre) eqn:Hex; [|done]. exfalso.
      apply existsb_exists in Hex as (e2 & Hin2%list_elem_of_In & Hj).
      assert (e2 ∈ mvalues (edges g)) as Hin2' by (rewrite Hsplit; set_solver).
      apply elem_mvalues in Hin2' as [k2 Hin2'].
      destruct (He k2 e2 Hin2') as (Hid2 & _). subst k2.
      pose proof (Hs _ _ _ _ Hin Hin2' Hj) as Heq.
      apply Hfresh. rewrite mkeys_rekey, Heq.
      apply list_elem_of_fmap. by exists e2. }
    match goal with
    | |- context [mset _ _ ?x] => assert (x = e) as ->
    end.
    { destruct e as [eid es et ew el ed]. simpl in *. f_equal.
      - destruct (isWeighted g); [done|]. symmetry. by apply Hw1.
      - destruct (isWeighted g).
        + apply str_or_id. by apply Hlab.
        + unfold str_or. by case_bool_decide.
      - done. }
    rewrite (mset_fresh _ _ _ Hfresh). unfold set_edges. simpl.
    by rewrite fmap_app. }
  unfold clone. fold g0. rewrite Hphase1, Hphase2. simpl. by destruct g.
Qed.

Lemma clone_copies_witness : clone scenario = Ok scenario.
Proof.
  apply clone_copies.
  apply scenario_well_formed.
Defined.


(** ** Reachability *)

Lemma reaches_refl g s : reaches g s s.
Proof. exists 0%nat. constructor. Qed.

Lemma reaches_hop g s u v : reaches g s u → hop g u v → reaches g s v.
Proof. intros [n Hw] Hh. exists (S n). by econstructor. Qed.

Lemma walk_trans g s u v n m : walk g s u n → walk g u v m → walk g s v (n + m).
Proof.
  intros Hsu Huv. induction Huv as [|x y m Hux IH Hxy].
  - by rewrite Nat.add_0_r.
  - rewrite Nat.add_succ_r. by econstructor.
Qed.

Lemma reaches_trans g s u v : reaches g s u → reaches g u v → reaches g s v.
Proof. intros [n Hn] [m Hm]. exists (n + m)%nat. by eapply walk_trans. Qed.

Lemma hop_sym g u v : isDirected g = false → hop g u v → hop g v u.
Proof.
  intros Hd (e & Hin & [[Hs Ht]|(_ & Ht & Hs)]); exists e; split; auto.
Qed.

Lemma reaches_sym g s v : isDirected g = false → reaches g s v → reaches g v s.
Proof.
  intros Hd [n Hw]. induction Hw as [|u v n Hw IH Hh]; [apply reaches_refl|].
  eapply reaches_trans; [|exact IH].
  eapply reaches_hop; [apply reaches_refl|by apply hop_sym].
Qed.

(** A closed set that holds the start holds all that it reaches. *)
Lemma hop_closed_reaches g X s v : hop_closed g X → s ∈ X → reaches g s v → v ∈ X.
Proof.
  intros Hcl Hs [n Hw]. induction Hw as [|u v n Hw IH Hh]; [done|].
  by apply (Hcl u).
Qed.

(** Under invariant 1 a path from a node stays among the nodes. *)
Lemma reaches_node g s v :
  refs_ok g → s ∈ mkeys (nodes g) → reaches g s v → v ∈ mkeys (nodes g).
Proof.
  intros Hrefs Hs [n Hw]. induction Hw as [|u v n Hw IH (e & Hin & Hcase)]; [done|].
  destruct (Hrefs e Hin) as [Hse Hte]. apply mhas_true in Hse, Hte.
  destruct Hcase as [[_ <-]|(_ & _ & <-)]; done.
Qed.

(** ** Counting the pushes of a search *)

Lemma sum_list_with_le {A} (f h : A → nat) (l : list A) :
  (∀ x, x ∈ l → (f x ≤ h x)%nat) → (sum_list_with f l ≤ sum_list_with h l)%nat.
Proof.
  induction l as [|a l IH]; intros Hle; simpl; [lia|].
  pose proof (Hle a ltac:(left)).
  assert (sum_list_with f l ≤ sum_list_with h l)%nat
    by (apply IH; intros x Hx; apply Hle; by right).
  lia.
Qed.

Lemma sum_list_with_add {A} (f h : A → nat) (l : list A) :
  sum_list_with (λ x, f x + h x)%nat l
  = (sum_list_with f l + sum_list_with h l)%nat.
Proof. induction l as [|a l IH]; simpl; lia. Qed.

Lemma sum_indicator_absent (a : string) (l : list string) :
  a ∉ l → sum_list_with (λ v, if decide (v = a) then 1 else 0)%nat l = 0%nat.
Proof.
  induction l as [|x l IH]; simpl; [done|].
  rewrite not_elem_of_cons. intros [Hne Hl].
  rewrite decide_False by done. by rewrite IH.
Qed.

Lemma sum_indicator_NoDup (a : string) (l : list string) :
  NoDup l → (sum_list_with (λ v, if decide (v = a) then 1 else 0) l ≤ 1)%nat.
Proof.
  induction l as [|x l IH]; simpl; [lia|].
  intros [Hx Hnd]%NoDup_cons. case_decide as Heq.
  - subst x. rewrite sum_indicator_absent by done. lia.
  - specialize (IH Hnd). lia.
Qed.

(** Each edge is counted at its two endpoints at most. *)
Lemma incident_sum (g : Graph) (l : list string) :
  NoDup l → (sum_list_with (incident g) l ≤ 2 * length (edges g))%nat.
Proof.
  intros Hnd. unfold incident.
  assert (length (edges g) = length (mvalues (edges g))) as ->
    by (unfold mvalues; by rewrite length_fmap).
  induction (mvalues (edges g)) as [|e E IH].
  - clear Hnd. induction l as [|x l IHl]; simpl in *; lia.
  - assert (sum_list_with
              (λ v, length (filter (λ e0, source e0 = v ∨ target e0 = v) (e :: E))) l
            ≤ 2 + sum_list_with
                    (λ v, length (filter (λ e0, source e0 = v ∨ target e0 = v) E)) l)%nat;
      [|cbn [length]; lia].
    trans (sum_list_with
             (λ v, ((if decide (v = source e) then 1 else 0)
                    + (if decide (v = target e) then 1 else 0))
                   + length (filter (λ e0, source e0 = v ∨ target e0 = v) E))%nat l).
    + apply sum_list_with_le. intros v _. rewrite filter_cons.
      destruct (decide (source e = v ∨ target e = v)) as [Hc|Hc]; simpl; [|lia].
      destruct Hc as [<-|<-]; [rewrite (decide_True (P:=source e = source e)) by done
                              |rewrite (decide_True (P:=target e = target e)) by done];
        lia.
    + rewrite sum_list_with_add, sum_list_with_add.
      pose proof (sum_indicator_NoDup (source e) l Hnd).
      pose proof (sum_indicator_NoDup (target e) l Hnd).
      lia.
Qed.

(** A neighbour list has at most one entry per incident edge. *)
Lemma getNeighbors_incident (g : Graph) (v : string) :
  (length (getNeighbors g v) ≤ incident g v)%nat.
Proof.
  unfold getNeighbors, incident.
  set (f := λ (nb : list string) (e : Edge), _).
  assert (G : ∀ E nb, (length (foldl f nb E)
             ≤ length nb + length (filter (λ e, source e = v ∨ target e = v) E))%nat).
  { induction E as [|e E IH]; intros nb; simpl; [lia|].
    etrans; [apply IH|]. rewrite filter_cons. unfold f.
    assert (Hadd : ∀ x, (length (set_add nb x) ≤ length nb + 1)%nat).
    { intros x. unfold set_add. case_bool_decide; [lia|].
      rewrite length_app. simpl. lia. }
    case_bool_decide as Hs.
    - rewrite decide_True by (by left). simpl. specialize (Hadd (target e)). lia.
    - destruct (negb (isDirected g) && bool_decide (target e = v)) eqn:Ht.
      + apply andb_true_iff in Ht as [_ Ht%bool_decide_eq_true].
        rewrite decide_True by (by right). simpl. specialize (Hadd (source e)). lia.
      + destruct (decide _); simpl; lia. }
  specialize (G (mvalues (edges g)) []). simpl in G. lia.
Qed.

Lemma getNeighbors_endpoint (g : Graph) (v : string) :
  v ∉ endpoints g → getNeighbors g v = [].
Proof.
  intros Hv.
  destruct (getNeighbors g v) as [|w l] eqn:Hn; [done|]. exfalso.
  assert (w ∈ getNeighbors g v) as Hw by (rewrite Hn; left).
  apply elem_of_getNeighbors in Hw as (e & Hin & Hcase).
  apply Hv. unfold endpoints. apply elem_of_elements.
  destruct Hcase as [[<- _]|(_ & <- & _)].
  - apply elem_of_union_l, elem_of_list_to_set, list_elem_of_fmap. by exists e.
  - apply elem_of_union_r, elem_of_list_to_set, list_elem_of_fmap. by exists e.
Qed.

Lemma todo_bound (g : Graph) (visited : gset string) :
  (todo g visited ≤ 2 * length (edges g))%nat.
Proof.
  unfold todo.
  assert (NoDup (endpoints g)) as Hnd by (unfold endpoints; apply NoDup_elements).
  etrans; [|apply (incident_sum g (filter (λ v, v ∉ visited) (endpoints g)))].
  - apply sum_list_with_le. intros v _. apply getNeighbors_incident.
  - by apply NoDup_filter.
Qed.

(** Visiting [v] takes its neighbours off the account. *)
Lemma todo_visit (g : Graph) (visited : gset string) (v : string) :
  v ∉ visited →
  todo g visited = (length (getNeighbors g v) + todo g ({[v]} ∪ visited))%nat.
Proof.
  intros Hv. unfold todo.
  assert (NoDup (endpoints g)) as Hnd by (unfold endpoints; apply NoDup_elements).
  destruct (decide (v ∈ endpoints g)) as [Hin|Hout].
  - induction (endpoints g) as [|x l IH]; [by apply elem_of_nil in Hin|].
    apply NoDup_cons in Hnd as [Hx Hnd].
    rewrite !filter_cons. destruct (decide (x = v)) as [->|Hne].
    + rewrite decide_True by done.
      rewrite (decide_False (P:=(v ∉ {[v]} ∪ visited))) by set_solver.
      simpl. f_equal. f_equal.
      clear IH Hin. induction l as [|y l IHl]; [done|].
      apply not_elem_of_cons in Hx as [Hy Hx].
      apply NoDup_cons in Hnd as [_ Hnd].
      rewrite !filter_cons.
      destruct (decide (y ∉ visited)), (decide (y ∉ {[v]} ∪ visited));
        try (by f_equal; apply IHl); set_solver.
    + apply elem_of_cons in Hin as [->|Hin]; [done|].
      destruct (decide (x ∉ visited)) as [Hxv|Hxv].
      * rewrite (decide_True (P:=(x ∉ {[v]} ∪ visited))) by set_solver.
        simpl. rewrite (IH Hnd Hin). lia.
      * rewrite (decide_False (P:=(x ∉ {[v]} ∪ visited))) by set_solver.
        by apply IH.
  - rewrite (getNeighbors_endpoint g v Hout). simpl. f_equal.
    clear Hnd. induction (endpoints g) as [|x l IH]; [done|].
    apply not_elem_of_cons in Hout as [Hne Hout].
    rewrite !filter_cons.
    destruct (decide (x ∉ visited)), (decide (x ∉ {[v]} ∪ visited));
      try (by f_equal; apply IH); set_solver.
Qed.


(** ** Searches with a stack: [isConnected] and [connectivityAnalysis] *)

Lemma push_unvisited_fold (visited : gset string) (nbs stack : list string) :
  (∀ x, x ∈ foldl (push_unvisited visited) stack nbs
        ↔ x ∈ stack ∨ (x ∈ nbs ∧ x ∉ visited)) ∧
  (length (foldl (push_unvisited visited) stack nbs)
   ≤ length stack + length nbs)%nat.
Proof.
  revert stack. induction nbs as [|nb nbs IH]; intros stack; simpl.
  - split; [|lia]. intros x. rewrite elem_of_nil. naive_solver.
  - destruct (IH (push_unvisited visited stack nb)) as [Hel Hlen]. split.
    + intros x. rewrite Hel. unfold push_unvisited.
      case_bool_decide; rewrite ?elem_of_cons; naive_solver.
    + etrans; [exact Hlen|]. unfold push_unvisited.
      case_bool_decide; simpl; lia.
Qed.

Lemma hop_closed_empty g : hop_closed g ∅.
Proof. intros u v Hu. set_solver. Qed.

Section Component.
Variable g : Graph.
Variable s : string.
Variable V0 : gset string.
Hypothesis HV0 : hop_closed g V0.

Lemma comp_inv_init : s ∉ V0 → comp_inv g s V0 [s] V0 [].
Proof.
intros Hs. split.
- apply NoDup_nil_2.
- intros x. rewrite elem_of_nil. naive_solver.
- intros x Hx. by apply elem_of_nil in Hx.
- intros x [->%list_elem_of_singleton|Hx]; [apply reaches_refl|].
  by apply elem_of_nil in Hx.
- intros u v Hu. by apply elem_of_nil in Hu.
- right. left.
Qed.

Lemma comp_inv_skip u stack visited component :
comp_inv g s V0 (u :: stack) visited component → u ∈ visited →
comp_inv g s V0 stack visited component.
Proof.
intros [Hnd Hvis Hnew Hreach Hnext Hstart] Hu. split; auto.
- intros x [Hx|Hx]; apply Hreach; [left; by right|by right].
- intros w v Hw Hh. destruct (Hnext w v Hw Hh) as [?|[->|?]%elem_of_cons]; auto.
- destruct Hstart as [?|[->|?]%elem_of_cons]; auto.
Qed.

Lemma comp_inv_visit u stack visited component :
comp_inv g s V0 (u :: stack) visited component → u ∉ visited →
comp_inv g s V0
  (foldl (push_unvisited ({[u]} ∪ visited)) stack (getNeighbors g u))
  ({[u]} ∪ visited) (component ++ [u]).
Proof.
intros [Hnd Hvis Hnew Hreach Hnext Hstart] Hu.
destruct (push_unvisited_fold ({[u]} ∪ visited) (getNeighbors g u) stack)
  as [Hel _].
assert (reaches g s u) as Hru by (apply Hreach; left; left).
split.
- apply NoDup_app. split_and!; [done| |apply NoDup_singleton].
  intros x Hx ->%list_elem_of_singleton. apply Hu, Hvis. by right.
- intros x. rewrite elem_of_union, elem_of_singleton, Hvis, elem_of_app,
    list_elem_of_singleton. naive_solver.
- intros x [Hx| ->%list_elem_of_singleton]%elem_of_app; [by apply Hnew|].
  intros Hin. apply Hu, Hvis. by left.
- intros x [Hx|[Hx| ->%list_elem_of_singleton]%elem_of_app].
  + apply Hel in Hx as [Hx|[Hx _]].
    * apply Hreach. left. by right.
    * eapply reaches_hop; [exact Hru|]. by apply elem_of_getNeighbors.
  + apply Hreach. by right.
  + done.
- intros w v [Hw| ->%list_elem_of_singleton]%elem_of_app Hh.
  + destruct (Hnext w v Hw Hh) as [Hv|[->|Hv]%elem_of_cons].
    * left. set_solver.
    * left. set_solver.
    * right. apply Hel. by left.
  + destruct (decide (v ∈ {[u]} ∪ visited)) as [Hv|Hv]; [by left|].
    right. apply Hel. right. split; [|done]. by apply elem_of_getNeighbors.
- destruct Hstart as [Hs|[->|Hs]%elem_of_cons].
  + left. set_solver.
  + left. set_solver.
  + right. apply Hel. by left.
Qed.

Lemma component_loop_spec fuel stack visited component :
comp_inv g s V0 stack visited component →
(length stack + todo g visited < fuel)%nat →
∃ visited' component',
  component_loop fuel g stack visited component = Some (visited', component') ∧
  comp_inv g s V0 [] visited' component'.
Proof.
revert stack visited component.
induction fuel as [|fuel IH]; intros stack visited component Hinv Hm; [lia|].
simpl. destruct stack as [|u stack]; [eauto|].
case_bool_decide as Hu.
- apply IH; [by eapply comp_inv_skip|]. simpl in Hm. lia.
- apply IH; [by apply comp_inv_visit|].
  destruct (push_unvisited_fold ({[u]} ∪ visited) (getNeighbors g u) stack)
    as [_ Hlen].
  rewrite (todo_visit g visited u Hu) in Hm. simpl in Hm. lia.
Qed.

(** At the exit the component is what [s] reaches outside [V0], and the
  visited set is closed again. *)
Lemma comp_inv_exit visited component :
comp_inv g s V0 [] visited component →
hop_closed g visited ∧ s ∈ visited ∧
(∀ x, x ∈ component ↔ reaches g s x ∧ x ∉ V0).
Proof.
intros [Hnd Hvis Hnew Hreach Hnext Hstart].
assert (Hcl : hop_closed g visited).
{ intros u v Hu Hh. apply Hvis in Hu as [Hu|Hu].
  - apply Hvis. left. by apply (HV0 u).
  - destruct (Hnext u v Hu Hh) as [?|Hv]; [done|by apply elem_of_nil in Hv]. }
assert (Hs : s ∈ visited).
{ destruct Hstart as [?|Hs]; [done|by apply elem_of_nil in Hs]. }
split_and!; [done|done|].
intros x. split.
- intros Hx. split; [apply Hreach; by right|by apply Hnew].
- intros [Hr Hx].
  pose proof (hop_closed_reaches g visited s x Hcl Hs Hr) as Hxv.
  apply Hvis in Hxv as [?|?]; done.
Qed.
End Component.

(** [isConnected] runs the loop of [connectivityAnalysis] without
    recording the component. *)
Lemma isConnected_loop_component fuel g stack visited component :
  isConnected_loop fuel g stack visited
  = fst <$> component_loop fuel g stack visited component.
Proof.
  revert stack visited component.
  induction fuel as [|fuel IH]; intros stack visited component; simpl; [done|].
  destruct stack as [|u stack]; [done|].
  case_bool_decide; apply IH.
Qed.

(** The search from [s] with nothing visited before. *)
Lemma search_from g s :
  ∃ visited component,
    component_loop (2 + 2 * length (edges g)) g [s] ∅ [] = Some (visited, component) ∧
    NoDup component ∧
    (∀ x, x ∈ visited ↔ reaches g s x) ∧
    (∀ x, x ∈ component ↔ reaches g s x).
Proof.
  destruct (component_loop_spec g s ∅ (hop_closed_empty g)
              (2 + 2 * length (edges g))%nat [s] ∅ [])
    as (visited & component & Hloop & Hinv).
  { apply comp_inv_init. set_solver. }
  { pose proof (todo_bound g ∅). simpl. lia. }
  destruct (comp_inv_exit g s ∅ (hop_closed_empty g) _ _ Hinv) as (Hcl & Hs & Hc).
  exists visited, component. split_and!; [done|apply Hinv| |].
  - intros x. rewrite (ci_visited _ _ _ _ _ _ Hinv), Hc. set_solver.
  - intros x. rewrite Hc. set_solver.
Qed.

Lemma size_keys_eq (keys : list string) (X : gset string) :
  NoDup keys → (∀ x, x ∈ X → x ∈ keys) →
  (size X = length keys ↔ ∀ k, k ∈ keys → k ∈ X).
Proof.
  intros Hnd Hsub.
  assert (size (list_to_set keys : gset string) = length keys) as Hsize
    by (by apply size_list_to_set).
  assert (X ⊆ list_to_set keys) as Hsub' by set_solver.
  split.
  - intros Heq k Hk.
    assert (X = list_to_set keys) as ->.
    { apply set_subseteq_size_eq; [done|]. lia. }
    set_solver.
  - intros Hall. rewrite <- Hsize. f_equal.
    apply leibniz_equiv. set_solver.
Qed.

Lemma isConnected_first (g : Graph) :
  maps_ok g → refs_ok g →
  ∃ b, isConnected g = Some b ∧
       (b = true ↔ ∀ first v, head (mkeys (nodes g)) = Some first →
                              v ∈ mkeys (nodes g) → reaches g first v).
Proof.
  intros [Hnn _] Hrefs. unfold isConnected.
  destruct (mkeys (nodes g)) as [|first [|second rest]] eqn:Hkeys.
  - exists true. split; [done|]. split; [|done]. intros _ f v [=].
  - exists true. split; [done|]. split; [|done].
    intros _ f v [= <-] ->%list_elem_of_singleton. apply reaches_refl.
  - destruct (search_from g first) as (visited & component & Hloop & _ & Hvis & _).
    rewrite (isConnected_loop_component _ _ _ _ []), Hloop. simpl.
    eexists. split; [done|]. rewrite <- Hkeys in Hnn |- *.
    assert (length (nodes g) = length (mkeys (nodes g))) as Hlen
      by (unfold mkeys; by rewrite length_fmap).
    unfold msize. rewrite bool_decide_eq_true, Hlen, Nat2Z.inj_iff.
    rewrite (size_keys_eq (mkeys (nodes g)) visited Hnn).
    + rewrite Hkeys. split.
      * intros Hall f v [= <-] Hv. by apply Hvis, Hall.
      * intros Hall k Hk. apply Hvis. by apply Hall.
    + intros x Hx%Hvis. apply (reaches_node g first); [done| |done].
      rewrite Hkeys. left.
Qed.

(** X11. On a graph whose edges join existing nodes, [isConnected()]
    returns [true] exactly when a path leads from the first node of the
    node map to every node (with fewer than two nodes it is [true]); in an
    undirected graph this is exactly when a path leads from every node to
    every node. *)
Theorem isConnected_correct (g : Graph) :
  maps_ok g → refs_ok g →
  ∃ b, isConnected g = Some b ∧
       (b = true ↔ ∀ first v, head (mkeys (nodes g)) = Some first →
                              v ∈ mkeys (nodes g) → reaches g first v) ∧
       (isDirected g = false →
        (b = true ↔ ∀ x y, x ∈ mkeys (nodes g) → y ∈ mkeys (nodes g) →
                           reaches g x y)).
Proof.
  intros Hok Hrefs. destruct (isConnected_first g Hok Hrefs) as (b & Hb & Hiff).
  exists b. split_and!; [done|done|]. intros Hd. rewrite Hiff. split.
  - intros Hall x y Hx Hy.
    destruct (mkeys (nodes g)) as [|first rest] eqn:Hkeys;
      [by apply elem_of_nil in Hx|].
    apply (reaches_trans g x first y).
    + apply reaches_sym; [done|]. by apply Hall.
    + by apply Hall.
  - intros Hall first v Hhead Hv. apply Hall; [|done].
    destruct (mkeys (nodes g)); [done|]. injection Hhead as ->. left.
Qed.

Lemma isConnected_correct_witness :
  ∃ b, isConnected scenario = Some b ∧
       (b = true ↔ ∀ x y, x ∈ mkeys (nodes scenario) → y ∈ mkeys (nodes scenario) →
                          reaches scenario x y).
Proof.
  destruct (isConnected_correct scenario) as (b & Hb & _ & Hiff).
  - apply scenario_well_formed.
  - intros e [k Hin]%elem_mvalues.
    destruct (wf_edges _ scenario_well_formed k e Hin) as (_ & _ & _ & ? & ? & _).
    done.
  - exists b. split; [exact Hb|]. by apply Hiff.
Defined.


(** ** [connectivityAnalysis] *)

Lemma elem_of_concat {A} (x : A) (ls : list (list A)) :
  x ∈ concat ls ↔ ∃ l, l ∈ ls ∧ x ∈ l.
Proof.
  induction ls as [|l ls IH]; simpl.
  - rewrite elem_of_nil. split; [done|]. intros (l & Hl & _).
    by apply elem_of_nil in Hl.
  - rewrite elem_of_app, IH. split.
    + intros [Hx|(l' & Hl' & Hx)]; [exists l; split; [left|done]|].
      exists l'. split; [by right|done].
    + intros (l' & [->|Hl']%elem_of_cons & Hx); [by left|right; eauto].
Qed.

Section Analysis.
Variable g : Graph.
Hypothesis Hok : maps_ok g.
Hypothesis Hrefs : refs_ok g.

Lemma analysis_inv_init : analysis_inv g [] ∅ [].
Proof.
split.
- apply hop_closed_empty.
- intros x. simpl. rewrite elem_of_nil. set_solver.
- apply NoDup_nil_2.
- intros k Hk. by apply elem_of_nil in Hk.
- intros x Hx. set_solver.
- intros c Hc. by apply elem_of_nil in Hc.
- intros _ c x y Hc. by apply elem_of_nil in Hc.
- done.
Qed.

Lemma analysis_step pre k visited components :
k ∈ mkeys (nodes g) →
analysis_inv g pre visited components →
∃ visited' components',
  component_step g (Some (visited, components)) k = Some (visited', components') ∧
  analysis_inv g (pre ++ [k]) visited' components'.
Proof.
intros Hk [Hcl Hmem Hnd Hdone Hnodes Hroot Hclass Hfirst].
unfold component_step. case_bool_decide as Hkv.
- (* [k] was reached from an earlier key *)
  exists visited, components. split; [done|]. split; auto.
  + intros k' [?| ->%list_elem_of_singleton]%elem_of_app; auto.
  + intros c Hc. destruct (Hroot c Hc) as (s & Hs & Hsc & Hall).
    exists s. split_and!; [|done|done]. apply elem_of_app. by left.
  + destruct pre as [|first pre'].
    * subst components. exfalso. apply Hmem in Hkv. simpl in Hkv.
      by apply elem_of_nil in Hkv.
    * simpl. destruct Hfirst as (c1 & cs & Hcomps & Hc1 & Hcs).
      exists c1, cs. split_and!; [done|done|].
      intros Hne. destruct (Hcs Hne) as (k' & Hk' & Hnr).
      exists k'. split; [|done].
      apply elem_of_cons in Hk' as [->|Hk']; [left|right].
      apply elem_of_app. by left.
- (* a new component is searched from [k] *)
  destruct (component_loop_spec g k visited Hcl
              (2 + 2 * length (edges g))%nat [k] visited [])
    as (visited' & component & Hloop & Hinv).
  { by apply comp_inv_init. }
  { pose proof (todo_bound g visited). simpl. lia. }
  rewrite Hloop.
  destruct (comp_inv_exit g k visited Hcl _ _ Hinv) as (Hcl' & Hk' & Hc).
  exists visited', (components ++ [component]). split; [done|].
  assert (Hkc : k ∈ component) by (apply Hc; split; [apply reaches_refl|done]).
  split.
  + done.
  + intros x. rewrite (ci_visited _ _ _ _ _ _ Hinv), Hmem.
    rewrite concat_app, elem_of_app. simpl. rewrite app_nil_r. done.
  + rewrite concat_app. simpl. rewrite app_nil_r.
    apply NoDup_app. split_and!; [done| |apply Hinv].
    intros x Hx%Hmem Hxc. by apply (ci_new _ _ _ _ _ _ Hinv x).
  + intros k' [?%Hdone| ->%list_elem_of_singleton]%elem_of_app; [|done].
    apply (ci_visited _ _ _ _ _ _ Hinv). by left.
  + intros x [?|Hx]%(ci_visited _ _ _ _ _ _ Hinv); [auto|].
    apply Hc in Hx as [Hx _]. by apply (reaches_node g k).
  + intros c [Hc'| ->%list_elem_of_singleton]%elem_of_app.
    * destruct (Hroot c Hc') as (s & Hs & Hsc & Hall).
      exists s. split_and!; [|done|done]. apply elem_of_app. by left.
    * exists k. split_and!; [apply elem_of_app; right; left|done|].
      intros x Hx%Hc. apply Hx.
  + intros Hd c x y [Hc'| ->%list_elem_of_singleton]%elem_of_app Hx Hr.
    * by apply (Hclass Hd c x y).
    * apply Hc in Hx as [Hkx Hxv]. apply Hc. split.
      -- by apply (reaches_trans g k x y).
      -- intros Hyv. apply Hkv.
         apply (hop_closed_reaches g visited y k Hcl Hyv).
         apply reaches_sym; [done|]. by apply (reaches_trans g k x y).
  + destruct pre as [|first pre']; simpl.
    * subst components. exists component, []. split_and!; [done| |done].
      intros x. rewrite Hc. split; [by intros [? _]|].
      intros Hr. split; [done|]. intros Hx%Hmem. simpl in Hx.
      by apply elem_of_nil in Hx.
    * destruct Hfirst as (c1 & cs & -> & Hc1 & Hcs).
      exists c1, (cs ++ [component]). split_and!; [done|done|].
      intros _. exists k. split.
      -- right. apply elem_of_app. right. left.
      -- intros Hr. apply Hkv, Hmem. simpl. apply elem_of_app. left.
         by apply Hc1.
Qed.

Lemma analysis_fold keys :
∀ pre visited components,
(∀ k, k ∈ keys → k ∈ mkeys (nodes g)) →
analysis_inv g pre visited components →
∃ visited' components',
  foldl (component_step g) (Some (visited, components)) keys
    = Some (visited', components') ∧
  analysis_inv g (pre ++ keys) visited' components'.
Proof.
induction keys as [|k keys IH]; intros pre visited components Hkeys Hinv.
- exists visited, components. rewrite app_nil_r. done.
- destruct (analysis_step pre k visited components) as (v1 & c1 & Hstep & Hinv1);
    [apply Hkeys; left|done|].
  cbn [foldl]. rewrite Hstep.
  destruct (IH (pre ++ [k]) v1 c1) as (v2 & c2 & Hfold & Hinv2);
    [intros k' Hk'; apply Hkeys; by right|done|].
  exists v2, c2. split; [done|]. by rewrite <- app_assoc in Hinv2.
Qed.

Lemma largest_of_spec (components : list (list string)) :
(largest_of components = [] ∨ largest_of components ∈ components) ∧
∀ c, c ∈ components → (length c ≤ length (largest_of components))%nat.
Proof.
unfold largest_of.
assert (G : ∀ cs acc,
  let r := foldl (λ largest current : list string,
                    if bool_decide (length largest < length current)%nat
                    then current else largest) acc cs in
  (r = acc ∨ r ∈ cs) ∧ (length acc ≤ length r)%nat ∧
  ∀ c, c ∈ cs → (length c ≤ length r)%nat).
{ induction cs as [|c cs IH]; intros acc; simpl.
  - split_and!; [by left|lia|]. intros c Hc. by apply elem_of_nil in Hc.
  - destruct (IH (if bool_decide (length acc < length c)%nat then c else acc))
      as (Hr & Hacc & Hall).
    split_and!.
    + destruct Hr as [Hr|Hr]; [|right; by right].
      rewrite Hr. case_bool_decide; [right; left|by left].
    + case_bool_decide; lia.
    + intros c' [->|Hc']%elem_of_cons; [|by apply Hall].
      case_bool_decide; lia. }
destruct (G components []) as (Hr & _ & Hall). done.
Qed.

Lemma connectivityAnalysis_spec :
∃ r visited, connectivityAnalysis g = Some r ∧
  analysis_inv g (mkeys (nodes g)) visited (ca_components r) ∧
  ca_componentCount r = length (ca_components r) ∧
  ca_isConnected r = bool_decide (length (ca_components r) ≤ 1)%nat ∧
  ca_largestComponent r = largest_of (ca_components r).
Proof.
destruct (analysis_fold (mkeys (nodes g)) [] ∅ []) as (v & cs & Hfold & Hinv);
  [done|apply analysis_inv_init|].
unfold connectivityAnalysis. rewrite Hfold. simpl in Hinv.
eexists _, v. split; [done|]. simpl. done.
Qed.

Lemma analysis_partition visited components :
analysis_inv g (mkeys (nodes g)) visited components →
concat components ≡ₚ mkeys (nodes g).
Proof.
intros [Hcl Hmem Hnd Hdone Hnodes Hroot Hclass Hfirst].
apply NoDup_Permutation; [done|apply Hok|].
intros x. rewrite <- Hmem. split; auto.
Qed.
End Analysis.

(** X12. On a graph whose edges join existing nodes,
    [connectivityAnalysis()] returns components that hold every node id
    exactly once and nothing else; every component holds a node from
    which a path leads to all its members; [componentCount] is their
    number, [isConnected] says that there is at most one, and
    [largestComponent] is one of the longest, or empty when there is
    none.  In an undirected graph two nodes are in the same component
    exactly when a path leads from one to the other. *)
Theorem connectivityAnalysis_components (g : Graph) :
  maps_ok g → refs_ok g →
  ∃ r, connectivityAnalysis g = Some r ∧
    concat (ca_components r) ≡ₚ mkeys (nodes g) ∧
    (∀ c, c ∈ ca_components r → ∃ s, s ∈ c ∧ ∀ x, x ∈ c → reaches g s x) ∧
    ca_componentCount r = length (ca_components r) ∧
    ca_isConnected r = bool_decide (length (ca_components r) ≤ 1)%nat ∧
    (ca_largestComponent r = [] ∨ ca_largestComponent r ∈ ca_components r) ∧
    (∀ c, c ∈ ca_components r →
          (length c ≤ length (ca_largestComponent r))%nat) ∧
    (isDirected g = false →
     ∀ x y, x ∈ mkeys (nodes g) → y ∈ mkeys (nodes g) →
       ((∃ c, c ∈ ca_components r ∧ x ∈ c ∧ y ∈ c) ↔ reaches g x y)).
Proof.
  intros Hok Hrefs.
  destruct (connectivityAnalysis_spec g Hok Hrefs) as (r & visited & Hr & Hinv & Hcnt & Hconn & Hlarge).
  exists r. split; [done|].
  pose proof (analysis_partition g Hok _ _ Hinv) as Hperm.
  pose proof (largest_of_spec (ca_components r)) as [Hl1 Hl2].
  split_and!; auto.
  - intros c Hc. destruct (ai_root _ _ _ _ Hinv c Hc) as (s & _ & Hs & Hall). eauto.
  - by rewrite Hlarge.
  - by rewrite Hlarge.
  - intros Hd x y Hx Hy. split.
    + intros (c & Hc & Hxc & Hyc).
      destruct (ai_root _ _ _ _ Hinv c Hc) as (s & _ & Hs & Hall).
      apply (reaches_trans g x s y); [|by apply Hall].
      apply reaches_sym; [done|]. by apply Hall.
    + intros Hreach.
      assert (x ∈ concat (ca_components r)) as Hxin by (by rewrite Hperm).
      apply elem_of_concat in Hxin as (c & Hc & Hxc).
      exists c. split_and!; [done|done|].
      by apply (ai_class _ _ _ _ Hinv Hd c x y).
Qed.

Lemma connectivityAnalysis_components_witness :
  ∃ r, connectivityAnalysis scenario = Some r ∧
       concat (ca_components r) ≡ₚ mkeys (nodes scenario).
Proof.
  destruct (connectivityAnalysis_components scenario) as (r & Hr & Hperm & _).
  - apply scenario_well_formed.
  - intros e [k Hin]%elem_mvalues.
    destruct (wf_edges _ scenario_well_formed k e Hin) as (_ & _ & _ & ? & ? & _).
    done.
  - exists r. split; [exact Hr|exact Hperm].
Defined.

(** X13. On a graph whose edges join existing nodes, the two connectivity
    tests agree: [connectivityAnalysis().isConnected] is the answer of
    [Graph.isConnected()]. *)
Theorem isConnected_agree (g : Graph) :
  maps_ok g → refs_ok g →
  ∃ b r, isConnected g = Some b ∧ connectivityAnalysis g = Some r ∧
         ca_isConnected r = b.
Proof.
  intros Hok Hrefs.
  destruct (isConnected_first g Hok Hrefs) as (b & Hb & Hiff).
  destruct (connectivityAnalysis_spec g Hok Hrefs) as (r & visited & Hr & Hinv & _ & Hconn & _).
  exists b, r. split_and!; [done|done|]. rewrite Hconn.
  destruct Hinv as [Hcl Hmem Hnd Hdone Hnodes Hroot Hclass Hfirst].
  destruct (mkeys (nodes g)) as [|first keys] eqn:Hkeys.
  - rewrite Hfirst. simpl. symmetry. apply Hiff. intros f v [=].
  - destruct Hfirst as (c1 & cs & Hcomps & Hc1 & Hcs). rewrite Hcomps. simpl.
    destruct cs as [|c2 cs].
    + rewrite bool_decide_eq_true_2 by (simpl; lia). symmetry. apply Hiff.
      intros f v [= <-] Hv. apply Hc1.
      apply Hdone, Hmem in Hv. rewrite Hcomps in Hv. simpl in Hv.
      by rewrite app_nil_r in Hv.
    + rewrite bool_decide_eq_false_2 by (simpl; lia).
      destruct b; [|done]. exfalso.
      destruct (Hcs ltac:(done)) as (k & Hk & Hnr). apply Hnr.
      by apply (proj1 Hiff eq_refl).
Qed.

Lemma isConnected_agree_witness :
  ∃ b r, isConnected scenario = Some b ∧ connectivityAnalysis scenario = Some r ∧
         ca_isConnected r = b.
Proof.
  apply (isConnected_agree scenario).
  - apply scenario_well_formed.
  - intros e [k Hin]%elem_mvalues.
    destruct (wf_edges _ scenario_well_formed k e Hin) as (_ & _ & _ & ? & ? & _).
    done.
Defined.


(** ** Paths from parent maps *)

Lemma trail_snoc g path p t :
  trail g path → last path = Some p → hop g p t → trail g (path ++ [t]).
Proof.
  induction path as [|u rest IH]; [done|].
  destruct rest as [|v rest'].
  - simpl. intros _ [= ->] Hh. done.
  - intros [Hh Htr] Hlast Hpt. cbn [app]. split; [done|].
    apply IH; done.
Qed.

Lemma trail_walk_from g path :
  ∀ s t s0 n, head path = Some s → last path = Some t → trail g path →
              walk g s0 s n → walk g s0 t (n + length path - 1).
Proof.
  induction path as [|x rest IH]; intros s t s0 n Hhead Hlast Htr Hw; [done|].
  injection Hhead as ->. destruct rest as [|y rest'].
  - injection Hlast as ->. simpl. by replace (n + 1 - 1)%nat with n by lia.
  - destruct Htr as [Hh Htr].
    replace (n + length (s :: y :: rest') - 1)%nat
      with (S n + length (y :: rest') - 1)%nat by (simpl; lia).
    apply (IH y t s0 (S n)); [done|done|done|].
    by apply (walk_hop g s0 s).
Qed.

Lemma trail_walk g path s t :
  path_from_to g s t path → walk g s t (length path - 1).
Proof.
  intros (Hhead & Hlast & Htr).
  apply (trail_walk_from g path s t s 0 Hhead Hlast Htr). constructor.
Qed.

Lemma parent_tree_init g s : parent_tree g s {[s := None]}.
Proof.
  split.
  - apply lookup_singleton_eq.
  - intros v [-> _]%lookup_singleton_Some. done.
  - intros v p [_ [=]]%lookup_singleton_Some.
  - exists (λ _, 0%nat). split.
    + intros x _. rewrite map_size_singleton. lia.
    + intros v p [_ [=]]%lookup_singleton_Some.
Qed.

Lemma parent_tree_insert g s parents v p :
  parent_tree g s parents → parents !! v = None → is_Some (parents !! p) →
  hop g p v → parent_tree g s (<[v := Some p]> parents).
Proof.
  intros [Hstart Hroot Hedge (rk & Hbound & Hmono)] Hv Hp Hh.
  assert (p ≠ v) as Hpv by (intros ->; rewrite Hv in Hp; by destruct Hp).
  split.
  - rewrite lookup_insert_ne; [done|]. intros <-. congruence.
  - intros w. destruct (decide (w = v)) as [->|Hne].
    + by rewrite lookup_insert_eq.
    + rewrite lookup_insert_ne by done. apply Hroot.
  - intros w q. destruct (decide (w = v)) as [->|Hne].
    + rewrite lookup_insert_eq. intros [= <-]. split; [done|].
      by rewrite lookup_insert_ne.
    + rewrite lookup_insert_ne by done. intros Hw.
      destruct (Hedge w q Hw) as [Hhop Hq]. split; [done|].
      rewrite lookup_insert_ne; [done|]. intros <-. rewrite Hv in Hq. by destruct Hq.
  - exists (λ x, if decide (x = v) then size parents else rk x). split.
    + intros x Hx. rewrite map_size_insert_None by done.
      case_decide as Hxv; [lia|].
      rewrite lookup_insert_ne in Hx by done. specialize (Hbound x Hx). lia.
    + intros w q. destruct (decide (w = v)) as [->|Hne].
      * rewrite lookup_insert_eq. intros [= <-].
        rewrite decide_False by done. rewrite ?decide_True by done.
        by apply Hbound.
      * rewrite lookup_insert_ne by done. intros Hw.
        destruct (Hedge w q Hw) as [_ Hq].
        assert (q ≠ v) as Hqv by (intros ->; rewrite Hv in Hq; by destruct Hq).
        destruct (decide (q = v)), (decide (w = v)); try done. by apply Hmono.
Qed.

(** The walk of [reconstructPath] from a bound id ends at the start and
    returns the path that the bindings describe; when the bindings go
    down one level at a time, its length is the level of the id. *)
Lemma reconstruct_loop_tree g s parents (rk : string → nat) :
  parent_tree g s parents →
  (∀ v p, parents !! v = Some (Some p) → (rk p < rk v)%nat) →
  ∀ n t acc fuel,
    (rk t < n)%nat → is_Some (parents !! t) → (rk t + 2 ≤ fuel)%nat →
    ∃ pre, reconstruct_loop fuel parents (Some t) acc = Some (pre ++ acc) ∧
           path_from_to g s t pre ∧
           (∀ x, x ∈ pre → is_Some (parents !! x)) ∧
           ∀ d : string → nat, d s = 0%nat →
             (∀ v p, parents !! v = Some (Some p) → d v = S (d p)) →
             length pre = S (d t).
Proof.
  intros [Hstart Hroot Hedge _] Hmono.
  induction n as [|n IH]; intros t acc fuel Hn Ht Hfuel; [lia|].
  destruct fuel as [|fuel]; [lia|]. simpl.
  destruct Ht as [o Ht]. rewrite Ht. destruct o as [p|].
  - destruct (Hedge t p Ht) as [Hhop Hp].
    pose proof (Hmono t p Ht) as Hlt.
    destruct (IH p (t :: acc) fuel) as (pre & Hloop & (Hhead & Hlast & Htr) & Hdom & Hlen);
      [lia|done|lia|].
    exists (pre ++ [t]). split_and!.
    + rewrite Hloop. by rewrite <- app_assoc.
    + split_and!.
      * destruct pre; simpl in *; done.
      * by rewrite last_snoc.
      * by apply (trail_snoc g pre p t).
    + intros x [Hx| ->%list_elem_of_singleton]%elem_of_app; [auto|eauto].
    + intros d Hd0 Hd. rewrite length_app. simpl.
      rewrite (Hlen d Hd0 Hd), (Hd t p Ht). lia.
  - apply Hroot in Ht as Hts. subst t.
    destruct fuel as [|fuel]; [lia|]. simpl.
    exists [s]. split_and!; [done|done| |].
    + intros x ->%list_elem_of_singleton. eauto.
    + intros d Hd0 _. simpl. by rewrite Hd0.
Qed.

Lemma reconstructPath_tree g s parents t :
  parent_tree g s parents → is_Some (parents !! t) →
  ∃ path, reconstructPath parents s t = Some path ∧
          path_from_to g s t path ∧
          ∀ d : string → nat, d s = 0%nat →
            (∀ v p, parents !! v = Some (Some p) → d v = S (d p)) →
            length path = S (d t).
Proof.
  intros Htree Ht. pose proof Htree as [_ _ _ (rk & Hbound & Hmono)].
  destruct (reconstruct_loop_tree g s parents rk Htree Hmono (S (rk t)) t []
              (2 + size parents)) as (pre & Hloop & Hpath & _ & Hlen);
    [lia|done|specialize (Hbound t Ht); lia|].
  unfold reconstructPath. rewrite Hloop, app_nil_r.
  destruct Hpath as (Hhead & Hlast & Htr).
  rewrite decide_True by done. exists pre. by split_and!.
Qed.


(** ** [dfs] *)

Section DFS.
Variable localeCompare : string → string → Z.
Variable g : Graph.
Variable s : string.
Variable t : option string.

(** The pushes of one visit. *)
Lemma dfs_push_fold u (nbs : list string) (st : DfsState) :
parent_tree g s (d_parent st) → is_Some (d_parent st !! u) →
(∀ x, x ∈ nbs → hop g u x) →
let st' := foldl (dfs_push u) st nbs in
d_visited st' = d_visited st ∧ d_visitOrder st' = d_visitOrder st ∧
d_found st' = d_found st ∧
(∀ x, x ∈ d_stack st' ↔ x ∈ d_stack st ∨ (x ∈ nbs ∧ x ∉ d_visited st)) ∧
(length (d_stack st') ≤ length (d_stack st) + length nbs)%nat ∧
parent_tree g s (d_parent st') ∧
(∀ x, is_Some (d_parent st !! x) → is_Some (d_parent st' !! x)) ∧
(∀ x, x ∈ nbs → x ∉ d_visited st → is_Some (d_parent st' !! x)).
Proof.
revert st. induction nbs as [|nb nbs IH]; intros st Htree Hu Hhop; simpl.
- split_and!.
  + done.
  + done.
  + done.
  + intros x. rewrite elem_of_nil. naive_solver.
  + lia.
  + done.
  + auto.
  + intros x Hx. by apply elem_of_nil in Hx.
- assert (Hstep : d_visited (dfs_push u st nb) = d_visited st ∧
                  d_visitOrder (dfs_push u st nb) = d_visitOrder st ∧
                  d_found (dfs_push u st nb) = d_found st ∧
                  (∀ x, x ∈ d_stack (dfs_push u st nb)
                        ↔ x ∈ d_stack st ∨ (x = nb ∧ x ∉ d_visited st)) ∧
                  (length (d_stack (dfs_push u st nb)) ≤ length (d_stack st) + 1)%nat ∧
                  parent_tree g s (d_parent (dfs_push u st nb)) ∧
                  (∀ x, is_Some (d_parent st !! x) →
                        is_Some (d_parent (dfs_push u st nb) !! x)) ∧
                  (nb ∉ d_visited st → is_Some (d_parent (dfs_push u st nb) !! nb))).
  { clear IH. unfold dfs_push. case_bool_decide as Hv; simpl.
    - split_and!.
      + done.
      + done.
      + done.
      + naive_solver.
      + lia.
      + done.
      + auto.
      + done.
    - case_bool_decide as Hk; simpl.
      + split_and!.
        * done.
        * done.
        * done.
        * intros x. rewrite elem_of_cons. naive_solver.
        * lia.
        * done.
        * auto.
        * done.
      + assert (d_parent st !! nb = None) as Hnone.
        { destruct (d_parent st !! nb) eqn:E; [|done]. exfalso. apply Hk. eauto. }
        split_and!.
        * done.
        * done.
        * done.
        * intros x. rewrite elem_of_cons. naive_solver.
        * lia.
        * apply parent_tree_insert; auto. apply Hhop. left.
        * intros x Hx. destruct (decide (x = nb)) as [->|Hne].
          -- rewrite lookup_insert_eq. eauto.
          -- by rewrite lookup_insert_ne.
        * intros _. rewrite lookup_insert_eq. eauto. }
  destruct Hstep as (Hv1 & Ho1 & Hf1 & Hs1 & Hl1 & Ht1 & Hk1 & Hn1).
  destruct (IH (dfs_push u st nb)) as (Hv2 & Ho2 & Hf2 & Hs2 & Hl2 & Ht2 & Hk2 & Hn2);
    [done|by apply Hk1|intros x Hx; apply Hhop; by right|].
  split_and!.
  + congruence.
  + congruence.
  + congruence.
  + intros x. rewrite Hs2, Hs1, Hv1, elem_of_cons. naive_solver.
  + lia.
  + done.
  + auto.
  + intros x [->|Hx]%elem_of_cons Hxv.
    * apply Hk2. by apply Hn1.
    * apply Hn2; [done|]. by rewrite Hv1.
Qed.

Lemma dfs_inv_init :
dfs_inv g s t (mkDfsState [s] ∅ [] {[s := None]} false).
Proof.
split; simpl.
- apply NoDup_nil_2.
- intros x. rewrite elem_of_nil. set_solver.
- intros x [->%list_elem_of_singleton|Hx]; [apply reaches_refl|].
  by apply elem_of_nil in Hx.
- intros _ u v Hu. by apply elem_of_nil in Hu.
- right. left.
- by left.
- intros _ x Hx. by apply elem_of_nil in Hx.
- done.
- apply parent_tree_init.
- intros x [->%list_elem_of_singleton|Hx]; [|set_solver].
  rewrite lookup_singleton_eq. eauto.
Qed.

Lemma dfs_loop_spec fuel st :
dfs_inv g s t st → d_found st = false →
(length (d_stack st) + todo g (d_visited st) < fuel)%nat →
∃ st', dfs_loop localeCompare fuel g t st = Some st' ∧ dfs_inv g s t st' ∧
       (d_found st' = true ∨ d_stack st' = []).
Proof.
revert st. induction fuel as [|fuel IH]; intros st Hinv Hnf Hm; [lia|].
simpl. destruct (d_stack st) as [|u stack] eqn:Hstack.
{ exists st. split_and!; auto. }
pose proof Hinv as [Hnd Hvis Hreach Hnext Hstart Hhead Hmiss Hhit Htree Hknown].
rewrite Hstack in *.
case_bool_decide as Hu.
- (* popped an id that was visited in the meantime *)
  apply IH; [|done|simpl in *; lia]. clear IH.
  split; simpl.
  + done.
  + done.
  + intros x [Hx|Hx]; apply Hreach; [left; by right|by right].
  + intros _ w v Hw Hh.
    destruct (Hnext Hnf w v Hw Hh) as [?|[->|?]%elem_of_cons];
      [by left|by left|by right].
  + destruct Hstart as [?|[->|?]%elem_of_cons]; [by left|by left|by right].
  + destruct Hhead as [[Hvo [= -> ->]]|?]; [|by right].
    exfalso. apply Hvis in Hu. rewrite Hvo in Hu. by apply elem_of_nil in Hu.
  + done.
  + done.
  + done.
  + intros x [Hx|Hx]; apply Hknown; [left; by right|by right].
- (* a visit *)
  assert (reaches g s u) as Hru by (apply Hreach; left; left).
  assert (u ∉ d_visitOrder st) as Huo by (by rewrite <- Hvis).
  assert (Hhead' : head (d_visitOrder st ++ [u]) = Some s).
  { destruct Hhead as [[-> [= -> ->]]|Hh]; [done|].
    destruct (d_visitOrder st); [done|]. done. }
  assert (Hvis' : ∀ x, x ∈ {[u]} ∪ d_visited st ↔ x ∈ d_visitOrder st ++ [u]).
  { intros x. rewrite elem_of_union, elem_of_singleton, Hvis, elem_of_app,
      list_elem_of_singleton. naive_solver. }
  assert (Hnd' : NoDup (d_visitOrder st ++ [u])).
  { apply NoDup_app. split_and!; [done| |apply NoDup_singleton].
    intros x Hx ->%list_elem_of_singleton. done. }
  destruct (is_target t u) eqn:Htgt.
  + (* the target: the loop ends *)
    clear IH. eexists. split; [done|]. split; [|by left]. split; simpl.
    * done.
    * done.
    * intros x [Hx|[Hx| ->%list_elem_of_singleton]%elem_of_app].
      -- apply Hreach. left. by right.
      -- apply Hreach. by right.
      -- done.
    * done.
    * left. apply Hvis'. destruct (d_visitOrder st) as [|a l]; simpl in *.
      -- injection Hhead' as ->. left.
      -- injection Hhead' as ->. left.
    * by right.
    * done.
    * intros _. exists u. split; [by rewrite last_snoc|done].
    * done.
    * intros x [Hx|[->%elem_of_singleton|Hx]%elem_of_union]; apply Hknown.
      -- left. by right.
      -- left. left.
      -- by right.
  + set (st1 := mkDfsState stack ({[u]} ∪ d_visited st) (d_visitOrder st ++ [u])
                           (d_parent st) (d_found st)).
    set (nbs := rev (sortNeighbors localeCompare (getNeighbors g u))).
    assert (Hnbs : ∀ x, x ∈ nbs ↔ hop g u x).
    { intros x. unfold nbs.
      rewrite list_elem_of_In, <- in_rev, <- list_elem_of_In.
      by rewrite elem_of_sortNeighbors, elem_of_getNeighbors. }
    assert (Hnlen : length nbs = length (getNeighbors g u)).
    { unfold nbs. rewrite length_rev.
      by rewrite (sortNeighbors_Permutation localeCompare). }
    destruct (dfs_push_fold u nbs st1)
      as (Hv2 & Ho2 & Hf2 & Hs2 & Hl2 & Ht2 & Hk2 & Hn2); simpl.
    { done. }
    { apply Hknown. left. left. }
    { intros x Hx. by apply Hnbs. }
    simpl in Hv2, Ho2, Hf2, Hs2, Hl2, Hk2, Hn2.
    apply IH.
    * split.
      -- by rewrite Ho2.
      -- intros x. rewrite Hv2, Ho2. apply Hvis'.
      -- intros x. rewrite Hs2, Ho2.
         intros [[Hx|[Hx _]]|[Hx| ->%list_elem_of_singleton]%elem_of_app].
         ++ apply Hreach. left. by right.
         ++ eapply reaches_hop; [exact Hru|]. by apply Hnbs.
         ++ apply Hreach. by right.
         ++ done.
      -- intros _ w v. rewrite Ho2, Hv2. intros Hw Hh. rewrite Hs2.
         apply elem_of_app in Hw as [Hw| ->%list_elem_of_singleton].
         ++ destruct (Hnext Hnf w v Hw Hh) as [Hv|[->|Hv]%elem_of_cons].
            ** left. set_solver.
            ** left. set_solver.
            ** right. by left.
         ++ destruct (decide (v ∈ {[u]} ∪ d_visited st)) as [Hv|Hv]; [by left|].
            right. right. split; [by apply Hnbs|done].
      -- rewrite Hv2. left. destruct Hstart as [Hs|[->|Hs]%elem_of_cons].
         ++ set_solver.
         ++ set_solver.
         ++ destruct Hhead as [[_ [= _ ->]]|Hh]; [by apply elem_of_nil in Hs|].
            apply Hvis'. apply elem_of_app. left.
            destruct (d_visitOrder st) as [|a l]; [done|].
            injection Hh as ->. left.
      -- right. by rewrite Ho2.
      -- intros _ x. rewrite Ho2.
         intros [Hx| ->%list_elem_of_singleton]%elem_of_app; [by apply Hmiss|done].
      -- rewrite Hf2. simpl. by rewrite Hnf.
      -- done.
      -- intros x. rewrite Hs2, Hv2.
         intros [[Hx|[Hx Hxv]]|[->%elem_of_singleton|Hx]%elem_of_union].
         ++ apply Hk2. simpl. apply Hknown. left. by right.
         ++ by apply Hn2.
         ++ apply Hk2. simpl. apply Hknown. left. left.
         ++ apply Hk2. simpl. apply Hknown. by right.
    * rewrite Hf2. simpl. done.
    * rewrite Hv2. rewrite (todo_visit g (d_visited st) u Hu) in Hm.
      simpl in Hm. lia.
Qed.

(** At an exit without the target found, the visit order is what [s]
  reaches. *)
Lemma dfs_inv_exhausted st :
dfs_inv g s t st → d_found st = false → d_stack st = [] →
∀ x, x ∈ d_visitOrder st ↔ reaches g s x.
Proof.
intros [Hnd Hvis Hreach Hnext Hstart Hhead Hmiss Hhit Htree Hknown] Hnf Hstack x.
rewrite Hstack in *. split; [intros; apply Hreach; by right|].
intros Hr. apply Hvis.
apply (hop_closed_reaches g (d_visited st) s x); [| |done].
- intros u v Hu Hh. apply Hvis in Hu.
  destruct (Hnext Hnf u v Hu Hh) as [?|Hv]; [done|by apply elem_of_nil in Hv].
- destruct Hstart as [?|Hs]; [done|by apply elem_of_nil in Hs].
Qed.

Lemma dfs_run :
∃ st, dfs_loop localeCompare (2 + 2 * length (edges g)) g t
        (mkDfsState [s] ∅ [] {[s := None]} false) = Some st ∧
      dfs_inv g s t st ∧ (d_found st = true ∨ d_stack st = []).
Proof.
apply dfs_loop_spec; [apply dfs_inv_init|done|].
simpl. pose proof (todo_bound g ∅). lia.
Qed.
End DFS.

Lemma size_visited (visited : gset string) (order : list string) :
  NoDup order → (∀ x, x ∈ visited ↔ x ∈ order) → size visited = length order.
Proof.
  intros Hnd Heq. rewrite <- (size_list_to_set (C:=gset string) order Hnd).
  f_equal. apply leibniz_equiv. intros x. rewrite Heq. set_solver.
Qed.

(** X14. [dfs(start)] without a target, from a node of the graph:
    the call returns; [visitOrder] starts with [start] and lists, each
    once, exactly the ids that a path from [start] reaches; [path] is the
    visit order, [found] is true, [distance] is the number of visited ids
    less one, and [nodesVisited] is their number. *)
Theorem dfs_visits_reachable (localeCompare : string → string → Z)
    (g : Graph) (s : string) (t : option string) :
  mhas (nodes g) s = true → falsy t = true →
  ∃ r, dfs localeCompare g s t = Some (Ok r) ∧
       NoDup (dfs_visitOrder r) ∧
       (∀ v, v ∈ dfs_visitOrder r ↔ reaches g s v) ∧
       head (dfs_visitOrder r) = Some s ∧
       dfs_path r = dfs_visitOrder r ∧ dfs_found r = true ∧
       dfs_isComplete r = true ∧
       dfs_distance r = Z.of_nat (length (dfs_visitOrder r)) - 1 ∧
       dfs_nodesVisited r = length (dfs_visitOrder r).
Proof.
  intros Hs Ht. unfold dfs, dfs_guard, getNode.
  unfold mhas in Hs. destruct (mget (nodes g) s) as [n|]; [|done].
  rewrite Ht. cbn [negb].
  destruct (dfs_run localeCompare g s t) as (st & Hloop & Hinv & Hend).
  rewrite Hloop.
  assert (Hnf : d_found st = false).
  { destruct (d_found st) eqn:Hf; [|done].
    destruct (di_hit _ _ _ _ Hinv Hf) as (x & _ & Hx).
    unfold is_target in Hx. by rewrite Ht in Hx. }
  destruct Hend as [Hf|Hstack]; [congruence|].
  pose proof (dfs_inv_exhausted g s t st Hinv Hnf Hstack) as Hall.
  assert (Hhead : head (d_visitOrder st) = Some s).
  { destruct (di_head _ _ _ _ Hinv) as [[_ Hst]|?]; [|done].
    rewrite Hstack in Hst. done. }
  eexists. split; [done|]. simpl.
  split_and!; auto.
  - apply Hinv.
  - rewrite bool_decide_eq_false_2; [done|].
    intros Hnil. by rewrite Hnil in Hhead.
  - apply size_visited; apply Hinv.
Qed.

Lemma dfs_visits_reachable_witness :
  ∃ r, dfs codeUnitCompare sample_graph "A" None = Some (Ok r) ∧
       NoDup (dfs_visitOrder r) ∧
       (∀ v, v ∈ dfs_visitOrder r ↔ reaches sample_graph "A" v).
Proof.
  destruct (dfs_visits_reachable codeUnitCompare sample_graph "A" None)
    as (r & Hr & Hnd & Hall & _); [reflexivity|reflexivity|].
  exists r. split_and!; [exact Hr|exact Hnd|exact Hall].
Defined.

(** X15. [dfs(start, target)] for two nodes of the graph: the call
    returns; [found] is true exactly when a path leads from [start] to
    [target]; then [path] is a path of the graph from [start] to [target]
    (built from the parent map, not necessarily a shortest one),
    [distance] is its number of edges and the visit order ends with the
    target; otherwise [path] is empty, [distance] is [-1] and the visit
    order lists everything that [start] reaches.  In both cases every
    visited id is reached from [start] and listed once. *)
Theorem dfs_finds_path (localeCompare : string → string → Z)
    (g : Graph) (s tid : string) :
  mhas (nodes g) s = true → mhas (nodes g) tid = true → tid ≠ "" →
  ∃ r, dfs localeCompare g s (Some tid) = Some (Ok r) ∧
       (dfs_found r = true ↔ reaches g s tid) ∧
       NoDup (dfs_visitOrder r) ∧
       (∀ v, v ∈ dfs_visitOrder r → reaches g s v) ∧
       (dfs_found r = true →
        path_from_to g s tid (dfs_path r) ∧
        dfs_distance r = Z.of_nat (length (dfs_path r)) - 1 ∧
        last (dfs_visitOrder r) = Some tid) ∧
       (dfs_found r = false →
        dfs_path r = [] ∧ dfs_distance r = -1 ∧
        ∀ v, v ∈ dfs_visitOrder r ↔ reaches g s v).
Proof.
  intros Hs Htid Hne. unfold dfs, dfs_guard, getNode.
  unfold mhas in Hs, Htid.
  destruct (mget (nodes g) s) as [n|]; [|done].
  assert (falsy (Some tid) = false) as Hfalsy
    by (simpl; by apply bool_decide_eq_false).
  rewrite Hfalsy. change (default "" (Some tid)) with tid. cbn [negb].
  destruct (mget (nodes g) tid) as [n'|]; [|done]. cbn [negb].
  destruct (dfs_run localeCompare g s (Some tid)) as (st & Hloop & Hinv & Hend).
  rewrite Hloop.
  assert (Htarget : ∀ x, is_target (Some tid) x = true ↔ x = tid).
  { intros x. unfold is_target. rewrite Hfalsy. simpl.
    rewrite bool_decide_eq_true. naive_solver. }
  destruct (d_found st) eqn:Hf.
  - destruct (di_hit _ _ _ _ Hinv Hf) as (x & Hlast & Hx).
    apply Htarget in Hx. subst x.
    assert (tid ∈ d_visitOrder st) as Hin.
    { destruct (d_visitOrder st) as [|a l] using rev_ind; [done|].
      rewrite last_snoc in Hlast. injection Hlast as ->. set_solver. }
    assert (is_Some (d_parent st !! tid)) as Hknown.
    { apply (di_known _ _ _ _ Hinv). right. by apply (di_visited _ _ _ _ Hinv). }
    destruct (reconstructPath_tree g s (d_parent st) tid (di_tree _ _ _ _ Hinv) Hknown)
      as (path & Hrec & Hpath & _).
    rewrite Hrec. cbn [negb].
    eexists. split; [done|]. simpl.
    assert (reaches g s tid) as Hr by (apply (di_reach _ _ _ _ Hinv); by right).
    split_and!; try done.
    + apply Hinv.
    + intros v Hv. apply (di_reach _ _ _ _ Hinv). by right.
    + intros _. split_and!; [done| |done].
      rewrite bool_decide_eq_false_2; [done|].
      intros ->. by destruct Hpath as [[=] _].
  - destruct Hend as [Hf'|Hstack]; [congruence|].
    pose proof (dfs_inv_exhausted g s (Some tid) st Hinv Hf Hstack) as Hall.
    cbn [negb]. eexists. split; [done|]. simpl.
    split_and!; try done.
    + split; [done|]. intros Hr%Hall.
      pose proof (di_miss _ _ _ _ Hinv Hf tid Hr) as Hm.
      rewrite (proj2 (Htarget tid) eq_refl) in Hm. done.
    + apply Hinv.
    + intros v Hv. by apply Hall.
Qed.

Lemma dfs_finds_path_witness :
  ∃ r, dfs codeUnitCompare sample_graph "A" (Some "B") = Some (Ok r) ∧
       (dfs_found r = true ↔ reaches sample_graph "A" "B").
Proof.
  destruct (dfs_finds_path codeUnitCompare sample_graph "A" "B")
    as (r & Hr & Hiff & _); [reflexivity|reflexivity|done|].
  exists r. split; [exact Hr|exact Hiff].
Defined.


(** ** [bfs] with a target, and the queries built on it *)

Section BFS_target.
Variable localeCompare : string → string → Z.
Variable g : Graph.
Variable s : string.
Variable t : option string.

Lemma bfs_tree_init : bfs_tree g s t (bfs_init s).
Proof.
split; simpl.
- apply parent_tree_init.
- intros x. rewrite elem_of_singleton. split.
  + intros [o [-> _]%lookup_singleton_Some]. done.
  + intros ->. rewrite lookup_singleton_eq. eauto.
- intros v p [_ [=]]%lookup_singleton_Some.
- apply lookup_singleton_eq.
- intros x. rewrite elem_of_singleton, elem_of_nil, list_elem_of_singleton.
  naive_solver.
- intros _ x Hx. by apply elem_of_nil in Hx.
Qed.

Lemma bfs_tree_pop st u rest :
bfs_tree g s t st → b_queue st = u :: rest → is_target t u = false →
bfs_tree g s t
  (mkBfsState (b_visited st) rest (b_visitOrder st ++ [u])
              (b_parent st) (b_distance st) (b_found st)).
Proof.
intros [Htree Hdom Hlevel Hzero Hsplit Hmiss] Hq Htgt. split; simpl; try done.
- intros x. rewrite Hsplit, Hq, elem_of_app, elem_of_cons,
    list_elem_of_singleton. naive_solver.
- intros Hnf x [Hx| ->%list_elem_of_singleton]%elem_of_app; [by apply Hmiss|done].
Qed.

(** The state at the [break]. *)
Lemma bfs_tree_hit st u rest :
bfs_tree g s t st → b_queue st = u :: rest →
bfs_tree g s t
  (mkBfsState (b_visited st) rest (b_visitOrder st ++ [u])
              (b_parent st) (b_distance st) true).
Proof.
intros [Htree Hdom Hlevel Hzero Hsplit Hmiss] Hq. split; simpl; try done.
intros x. rewrite Hsplit, Hq, elem_of_app, elem_of_cons,
  list_elem_of_singleton. naive_solver.
Qed.

Lemma bfs_tree_visit k st u v :
bfs_inv g s k (Some u) st → bfs_tree g s t st → hop g u v →
bfs_tree g s t (bfs_visit u st v).
Proof.
intros Hinv [Htree Hdom Hlevel Hzero Hsplit Hmiss] Hhop.
unfold bfs_visit. case_bool_decide as Hv; [by split|].
pose proof (bi_cur _ _ _ _ _ Hinv u eq_refl) as Hdu.
assert (u ∈ b_visited st) as Huv.
{ apply (bi_dom _ _ _ _ _ Hinv). eauto. }
assert (b_parent st !! v = None) as Hpv.
{ destruct (b_parent st !! v) eqn:E; [|done]. exfalso. apply Hv, Hdom. eauto. }
assert (Hvisited_ne : ∀ x, x ∈ b_visited st → x ≠ v) by (intros x Hx ->; done).
split; simpl.
- apply parent_tree_insert; [done|done|by apply Hdom|done].
- intros x. rewrite elem_of_union, elem_of_singleton, <- Hdom.
  destruct (decide (x = v)) as [->|Hne].
  + rewrite lookup_insert_eq. split; eauto.
  + rewrite lookup_insert_ne by done. naive_solver.
- intros w p. destruct (decide (w = v)) as [->|Hne].
  + rewrite lookup_insert_eq. intros [= <-]. exists k.
    rewrite lookup_insert_ne by (by apply not_eq_sym, Hvisited_ne).
    rewrite lookup_insert_eq, Hdu. done.
  + rewrite lookup_insert_ne by done. intros Hw.
    destruct (Hlevel w p Hw) as (d & Hp & Hwd). exists d.
    assert (p ≠ v).
    { apply Hvisited_ne, (bi_dom _ _ _ _ _ Hinv). eauto. }
    by rewrite !lookup_insert_ne.
- rewrite lookup_insert_ne; [done|].
  apply not_eq_sym, Hvisited_ne, (bi_start _ _ _ _ _ Hinv).
- intros x. rewrite elem_of_union, elem_of_singleton, Hsplit, elem_of_app,
    list_elem_of_singleton. naive_solver.
- done.
Qed.

Lemma bfs_tree_fold k u (l : list string) st :
bfs_inv g s k (Some u) st → bfs_tree g s t st → (∀ v, v ∈ l → hop g u v) →
bfs_tree g s t (foldl (bfs_visit u) st l).
Proof.
revert st. induction l as [|v l IH]; intros st Hinv Htree Hl; simpl; [done|].
apply IH.
- apply (bfs_visit_inv g s k st u v Hinv). apply Hl. left.
- apply (bfs_tree_visit k); [done|done|]. apply Hl. left.
- intros w Hw. apply Hl. by right.
Qed.

Lemma bfs_fold_found u (l : list string) st :
b_found (foldl (bfs_visit u) st l) = b_found st.
Proof.
revert st. induction l as [|v l IH]; intros st; simpl; [done|].
rewrite IH. unfold bfs_visit. by case_bool_decide.
Qed.

Lemma bfs_loop_target fuel st k :
bfs_inv g s k None st → bfs_tree g s t st → b_found st = false →
(bfs_measure g s st < fuel)%nat →
∃ st' k' cur, bfs_loop localeCompare fuel g t st = Some st' ∧
  bfs_inv g s k' cur st' ∧ bfs_tree g s t st' ∧
  ((b_found st' = true ∧
    ∃ u, last (b_visitOrder st') = Some u ∧ is_target t u = true) ∨
   (b_found st' = false ∧ b_queue st' = [] ∧ cur = None)).
Proof.
revert st k. induction fuel as [|fuel IH]; intros st k Hinv Htree Hnf Hm; [lia|].
simpl. destruct (b_queue st) as [|u rest] eqn:Hq.
{ exists st, k, None. split_and!; [done|done|done|]. right. done. }
destruct (bfs_inv_head g s k st u rest Hinv Hq) as (k' & Hinv' & Hdu).
pose proof (bfs_inv_pop g s k' st u rest Hinv' Hq Hdu) as Hpop.
destruct (is_target t u) eqn:Htgt.
- clear IH. eexists _, k', (Some u). split; [done|]. split_and!.
  + destruct Hpop as [Hs Hdom Hdist Hqq Hlev Hcl Hcur Hun]. by split.
  + by apply bfs_tree_hit.
  + left. split; [done|]. exists u. simpl. by rewrite last_snoc.
- pose proof (bfs_tree_pop st u rest Htree Hq Htgt) as Htree1.
  set (st1 := mkBfsState _ rest _ _ _ _) in *.
  assert (Hnb : ∀ v, v ∈ sortNeighbors localeCompare (getNeighbors g u)
                     → hop g u v).
  { intros v Hv. apply elem_of_sortNeighbors in Hv.
    by apply elem_of_getNeighbors. }
  destruct (bfs_fold_inv g s k' u
              (sortNeighbors localeCompare (getNeighbors g u)) st1 Hpop Hnb)
    as (Hinv2 & Hall & _ & Hm2).
  apply (IH _ k').
  + apply (bfs_inv_finish g s k' _ u); [done|].
    intros v Hv. apply Hall. apply elem_of_sortNeighbors.
    by apply elem_of_getNeighbors.
  + by apply (bfs_tree_fold k').
  + by rewrite bfs_fold_found.
  + rewrite Hm2. unfold bfs_measure in *. rewrite Hq in Hm.
    subst st1. simpl in *. lia.
Qed.

Lemma bfs_run :
∃ st k cur, bfs_loop localeCompare (2 + size (bfs_universe g s)) g t (bfs_init s)
              = Some st ∧
  bfs_inv g s k cur st ∧ bfs_tree g s t st ∧
  ((b_found st = true ∧
    ∃ u, last (b_visitOrder st) = Some u ∧ is_target t u = true) ∨
   (b_found st = false ∧ b_queue st = [] ∧ cur = None)).
Proof.
apply (bfs_loop_target _ _ 0); [apply bfs_inv_init|apply bfs_tree_init|done|].
unfold bfs_measure. simpl.
assert (size (bfs_universe g s ∖ {[s]}) ≤ size (bfs_universe g s))%nat
  by (apply subseteq_size; set_solver).
lia.
Qed.
End BFS_target.

(** The search for a target: what [bfs(start, target)] returns. *)
Lemma bfs_target_spec (localeCompare : string → string → Z)
    (g : Graph) (s tid : string) :
  tid ≠ "" →
  ∃ r, bfs localeCompare g s (Some tid) = Some r ∧
       (bfs_found r = true ↔ reaches g s tid) ∧
       (bfs_found r = true →
        ∃ d, min_hops g s tid d ∧ bfs_distance r = Some (Z.of_nat d) ∧
             path_from_to g s tid (bfs_path r) ∧
             length (bfs_path r) = S d) ∧
       (bfs_found r = false → bfs_path r = [] ∧ bfs_distance r = Some (-1)).
Proof.
  intros Hne.
  assert (falsy (Some tid) = false) as Hfalsy
    by (simpl; by apply bool_decide_eq_false).
  assert (Htarget : ∀ x, is_target (Some tid) x = true ↔ x = tid).
  { intros x. unfold is_target. rewrite Hfalsy. simpl.
    rewrite bool_decide_eq_true. naive_solver. }
  destruct (bfs_run localeCompare g s (Some tid))
    as (st & k & cur & Hloop & Hinv & Htree & Hend).
  unfold bfs. rewrite Hloop, Hfalsy.
  change (default "" (Some tid)) with tid. cbn [negb andb].
  destruct Hend as [[Hf (u & Hlast & Hu)]|(Hf & Hq & ->)]; rewrite Hf.
  - apply Htarget in Hu. subst u.
    assert (tid ∈ b_visited st) as Hvis.
    { apply (bt_split _ _ _ _ Htree). left.
      destruct (b_visitOrder st) as [|a l] using rev_ind; [done|].
      rewrite last_snoc in Hlast. injection Hlast as ->. set_solver. }
    assert (is_Some (b_parent st !! tid)) as Hknown
      by (by apply (bt_dom _ _ _ _ Htree)).
    destruct (reconstructPath_tree g s (b_parent st) tid
                (bt_tree _ _ _ _ Htree) Hknown) as (path & Hrec & Hpath & Hlen).
    rewrite Hrec. eexists. split; [done|]. simpl.
    apply (bi_dom _ _ _ _ _ Hinv) in Hvis as [o Ho].
    destruct (bi_dist _ _ _ _ _ Hinv tid o Ho) as (d & -> & Hmin).
    assert (reaches g s tid) as Hr by (exists d; apply Hmin).
    split_and!; [done| |done].
    intros _. exists d. split_and!; [done|by rewrite Ho|done|].
    rewrite (Hlen (λ x, default 0%nat (mjoin (b_distance st !! x)))).
    + by rewrite Ho.
    + by rewrite (bt_zero _ _ _ _ Htree).
    + intros v p Hvp. destruct (bt_level _ _ _ _ Htree v p Hvp) as (d' & Hp & Hv).
      by rewrite Hp, Hv.
  - eexists. split; [done|]. simpl. split_and!; [|done|done].
    split; [done|]. intros [n Hw]. exfalso.
    pose proof (bfs_exit_reach g s k st Hinv Hq tid n Hw) as Hvis.
    apply (bt_split _ _ _ _ Htree) in Hvis as [Hvo|Hin].
    + pose proof (bt_miss _ _ _ _ Htree Hf tid Hvo) as Hm.
      rewrite (proj2 (Htarget tid) eq_refl) in Hm. done.
    + rewrite Hq in Hin. by apply elem_of_nil in Hin.
Qed.

(** X16. [shortestPath(start, target)] and [hasPath(start, target)], for
    any start and any non-empty target id: the calls return; [found] and
    [hasPath] are true exactly when a path leads from [start] to
    [target]; then [path] is a path of the graph from [start] to [target]
    with the least possible number of edges, and [distance] and [hops]
    are that number; otherwise [path] is empty and [distance] is [-1]. *)
Theorem shortestPath_is_shortest (localeCompare : string → string → Z)
    (g : Graph) (s tid : string) :
  tid ≠ "" →
  ∃ sp hp,
    shortestPath localeCompare g s (Some tid) = Some sp ∧
    hasPath localeCompare g s (Some tid) = Some hp ∧
    (sp_found sp = true ↔ reaches g s tid) ∧
    hp_hasPath hp = sp_found sp ∧ hp_path hp = sp_path sp ∧
    hp_distance hp = sp_distance sp ∧ sp_hops sp = sp_distance sp ∧
    (sp_found sp = true →
     ∃ d, min_hops g s tid d ∧ sp_distance sp = Some (Z.of_nat d) ∧
          path_from_to g s tid (sp_path sp) ∧ length (sp_path sp) = S d) ∧
    (sp_found sp = false → sp_path sp = [] ∧ sp_distance sp = Some (-1)).
Proof.
  intros Hne.
  destruct (bfs_target_spec localeCompare g s tid Hne) as (r & Hr & Hiff & Hyes & Hno).
  unfold shortestPath, hasPath. rewrite Hr.
  eexists _, _. split_and!; try done.
Qed.

Lemma shortestPath_is_shortest_witness :
  ∃ sp, shortestPath codeUnitCompare sample_graph "A" (Some "B") = Some sp ∧
        (sp_found sp = true ↔ reaches sample_graph "A" "B").
Proof.
  destruct (shortestPath_is_shortest codeUnitCompare sample_graph "A" "B")
    as (sp & hp & Hsp & _ & Hiff & _); [done|].
  exists sp. split; [exact Hsp|exact Hiff].
Defined.

(** X17. [shortestDistances(start)] returns, for any start; [distances]
    binds an id to [d] exactly when [d] is the least number of edges on a
    path from [start] to it, and [reachableNodes] is the number of ids
    that a path from [start] reaches, [start] included. *)
Theorem shortestDistances_counts (localeCompare : string → string → Z)
    (g : Graph) (s : string) :
  ∃ r (R : gset string),
    shortestDistances localeCompare g s = Some r ∧
    (∀ v d, sd_distances r !! v = Some (Some d) ↔ min_hops g s v d) ∧
    (∀ v, v ∈ R ↔ reaches g s v) ∧ s ∈ R ∧
    sd_reachableNodes r = size R.
Proof.
  destruct (bfs_complete_distances localeCompare g s) as (r & Hr & Hdist & Hdom).
  unfold shortestDistances. rewrite Hr.
  eexists _, (dom (bfs_distances r)). split; [done|]. simpl.
  assert (∀ v, v ∈ dom (bfs_distances r) ↔ reaches g s v) as HR.
  { intros v. rewrite elem_of_dom. apply Hdom. }
  split_and!; [done|done| |by rewrite size_dom].
  apply HR, reaches_refl.
Qed.


(** ** The history of states *)

Lemma js_index_lookup {A} (l : list A) (i : Z) :
  0 ≤ i → js_index l i = l !! Z.to_nat i.
Proof. intros. unfold js_index. rewrite bool_decide_false; [done | lia]. Qed.

Lemma js_slice0_take {A} (l : list A) (e : Z) :
  0 ≤ e → js_slice0 l e = take (Z.to_nat e) l.
Proof. intros. unfold js_slice0. rewrite bool_decide_false; [done | lia]. Qed.

Lemma js_slice0_length {A} (l : list A) (e : Z) :
  (length (js_slice0 l e) ≤ length l)%nat.
Proof. unfold js_slice0. case_bool_decide; rewrite length_take; lia. Qed.

Lemma findIndex_Some {A} (p : A → bool) (l : list A) (i : nat) :
  findIndex p l = Some i →
  ∃ x, l !! i = Some x ∧ p x = true ∧
       ∀ j y, (j < i)%nat → l !! j = Some y → p y = false.
Proof.
  revert i. induction l as [|a l IH]; intros i; simpl; [done|].
  destruct (p a) eqn:Hpa.
  - intros [= <-]. exists a. split_and!; [done..|]. intros; lia.
  - destruct (findIndex p l) as [k|] eqn:Hk; simpl; [|done].
    intros [= <-]. destruct (IH k eq_refl) as (x & Hx & Hpx & Hlt).
    exists x. split_and!; [done..|].
    intros [|j] y Hj; simpl; [by intros [= <-]|].
    apply Hlt. lia.
Qed.

Lemma findIndex_None {A} (p : A → bool) (l : list A) :
  findIndex p l = None ↔ List.find p l = None.
Proof.
  induction l as [|a l IH]; simpl; [done|].
  destruct (p a); [done|].
  destruct (findIndex p l); simpl.
  - split; [done|]. intros H. by apply IH in H.
  - split; [|done]. intros _. by apply IH.
Qed.

Section History_lemmas.

Context {Results Statistics : Type}.
Variable getStatistics : Graph → Statistics.




Lemma saveState_shape (h : GraphHistory Results Statistics) graph results description id timestamp :
  let r := saveState getStatistics h graph results description id timestamp in
  ∃ kept dropped,
    (length kept ≤ length (history h))%nat ∧
    (-1 ≤ currentIndex h →
     kept = take (Z.to_nat (currentIndex h + 1)) (history h)) ∧
    dropped ++ history r.1 = kept ++ [r.2] ∧
    (length dropped ≤ 1)%nat ∧
    (dropped = [] ↔ (length kept < Z.to_nat maxHistorySize)%nat) ∧
    currentIndex r.1 = Z.of_nat (length (history r.1)) - 1.
Proof.
  intros r. subst r. unfold saveState.
  set (state := mkHistoryState _ _ _ _ _ _ _ _).
  set (kept := if bool_decide (currentIndex h < _) then js_slice0 _ _ else history h).
  assert (length kept ≤ length (history h))%nat as Hlen.
  { subst kept. case_bool_decide; [apply js_slice0_length | done]. }
  assert (-1 ≤ currentIndex h →
          kept = take (Z.to_nat (currentIndex h + 1)) (history h)) as Hkept.
  { intros Hge. subst kept. case_bool_decide.
    - apply js_slice0_take. lia.
    - symmetry. apply take_ge. lia. }
  unfold maxHistorySize. rewrite length_app. simpl length.
  case_bool_decide as Hbig; simpl.
  - destruct kept as [|k0 kept'] eqn:Hk; [simpl in Hbig; lia|].
    exists (k0 :: kept'), [k0]. simpl. rewrite length_app. simpl.
    split_and!; [done | done | done | lia | | lia].
    split; [done|]. simpl in Hbig. lia.
  - exists kept, []. rewrite length_app. simpl.
    split_and!; [done | done | done | lia | | lia].
    split; [lia | done].
Qed.

Lemma history_ok_exec (h : GraphHistory Results Statistics) c :
  history_ok h → history_ok (history_exec getStatistics h c).
Proof.
  unfold history_ok. intros Hok.
  destruct c as [graph results description id timestamp| | |id| |description id timestamp];
    simpl.
  - destruct (saveState_shape h graph results description id timestamp)
      as (kept & dropped & _ & _ & _ & _ & _ & ->). lia.
  - unfold getPreviousState. case_bool_decide; simpl; lia.
  - unfold getNextState. case_bool_decide; simpl; lia.
  - unfold removeState.
    destruct (findIndex _ _) as [i|] eqn:Hi; simpl; [|done].
    apply findIndex_Some in Hi as (x & Hx & _).
    apply lookup_lt_Some in Hx.
    rewrite length_delete by (by apply lookup_lt_is_Some_2).
    case_bool_decide; lia.
  - lia.
  - unfold createBranch. destruct (getCurrentState h); simpl; [|done].
    rewrite length_app. simpl. lia.
Qed.

Lemma history_ok_run (h : GraphHistory Results Statistics) calls :
  history_ok h → history_ok (foldl (history_exec getStatistics) h calls).
Proof.
  revert h. induction calls as [|c calls IH]; intros h Hok; simpl; [done|].
  apply IH, history_ok_exec, Hok.
Qed.

Lemma loadFromStorage_ok (parsed : option (list (HistoryState Results Statistics) * Z)) :
  stored_ok parsed → history_ok (loadFromStorage parsed).
Proof.
  unfold stored_ok, history_ok, loadFromStorage.
  destruct parsed as [[states index]|]; simpl; [|lia].
  case_bool_decide; lia.
Qed.

Lemma history_size_exec (h : GraphHistory Results Statistics) c :
  (length (history (history_exec getStatistics h c))
   ≤ (if is_branch c then S (length (history h))
      else length (history h) `max` Z.to_nat maxHistorySize))%nat.
Proof.
  destruct c as [graph results description id timestamp| | |id| |description id timestamp];
    simpl.
  - destruct (saveState_shape h graph results description id timestamp)
      as (kept & dropped & Hlen & _ & Happ & Hd & Hiff & _).
    apply (f_equal length) in Happ. rewrite !length_app in Happ.
    simpl in Happ.
    destruct dropped as [|d dropped].
    + destruct Hiff as [Hiff _]. specialize (Hiff eq_refl). simpl in Happ. lia.
    + simpl in Happ. lia.
  - unfold getPreviousState. case_bool_decide; simpl; lia.
  - unfold getNextState. case_bool_decide; simpl; lia.
  - unfold removeState.
    destruct (findIndex _ _) as [i|] eqn:Hi; simpl; [|lia].
    apply findIndex_Some in Hi as (x & Hx & _).
    rewrite length_delete by (by eexists). lia.
  - lia.
  - unfold createBranch. destruct (getCurrentState h); simpl; [|lia].
    rewrite length_app. simpl. lia.
Qed.

Lemma history_size_run (h : GraphHistory Results Statistics) calls (n : nat) :
  (length (history h) ≤ Z.to_nat maxHistorySize + n)%nat →
  (length (history (foldl (history_exec getStatistics) h calls))
   ≤ Z.to_nat maxHistorySize + n + branches calls)%nat.
Proof.
  revert h n. induction calls as [|c calls IH]; intros h n Hn; cbn [foldl].
  { unfold branches. cbn [filter length]. lia. }
  pose proof (history_size_exec h c) as Hc.
  unfold branches. rewrite filter_cons.
  destruct (is_branch c) eqn:Hb.
  - rewrite decide_True by done. cbn [length].
    specialize (IH (history_exec getStatistics h c) (S n)).
    unfold branches in IH. lia.
  - rewrite decide_False by (by intros []).
    specialize (IH (history_exec getStatistics h c) n).
    unfold branches in IH. lia.
Qed.

Lemma getCurrentState_Some (h : GraphHistory Results Statistics) c :
  getCurrentState h = Some c ↔
  0 ≤ currentIndex h ∧ history h !! Z.to_nat (currentIndex h) = Some c.
Proof.
  unfold getCurrentState.
  destruct (bool_decide (0 ≤ currentIndex h)) eqn:H0; simpl.
  - apply bool_decide_eq_true in H0.
    case_bool_decide as Hlt.
    + rewrite js_index_lookup by done. naive_solver.
    + split; [done|]. intros [_ Hc]. apply lookup_lt_Some in Hc. lia.
  - apply bool_decide_eq_false in H0. split; [done | lia].
Qed.

End History_lemmas.

(** X18. Whatever calls of [saveState], [getPreviousState],
    [getNextState], [removeState], [clearHistory] and [createBranch]
    follow the constructor, on an empty storage or on a stored history
    whose index is in range: [currentIndex] is at least [-1] and at most
    the position of the last state ([0] on an emptied history), and
    [getCurrentState] answers a state exactly when the index is not
    negative and the history is not empty. *)
Theorem history_index_in_range {Results Statistics : Type}
    (getStatistics : Graph → Statistics)
    (parsed : option (list (HistoryState Results Statistics) * Z))
    (calls : list (HistoryCall Results)) :
  stored_ok parsed →
  let h := foldl (history_exec getStatistics) (newGraphHistory parsed) calls in
  -1 ≤ currentIndex h ≤ Z.max 0 (Z.of_nat (length (history h)) - 1) ∧
  (is_Some (getCurrentState h) ↔ 0 ≤ currentIndex h ∧ history h ≠ []).
Proof.
  intros Hstored h.
  assert (history_ok h) as Hok.
  { apply history_ok_run, loadFromStorage_ok, Hstored. }
  split; [exact Hok|].
  unfold history_ok in Hok. split.
  - intros [c Hc]. apply getCurrentState_Some in Hc as [H0 Hc].
    split; [done|]. intros Hnil. by rewrite Hnil in Hc.
  - intros [H0 Hne].
    destruct (history h !! Z.to_nat (currentIndex h)) as [c|] eqn:Hc.
    + exists c. by apply getCurrentState_Some.
    + apply lookup_ge_None in Hc.
      destruct (history h); [done|]. simpl in *. lia.
Qed.

Lemma history_index_in_range_witness :
  -1 ≤ currentIndex sample_history
     ≤ Z.max 0 (Z.of_nat (length (history sample_history)) - 1) ∧
  (is_Some (getCurrentState sample_history)
   ↔ 0 ≤ currentIndex sample_history ∧ history sample_history ≠ []).
Proof.
  apply (history_index_in_range (λ _, ()) None sample_history_calls). exact I.
Defined.

(** X19. The history holds at most 50 states plus one for every call of
    [createBranch], whatever calls follow the constructor on a storage
    of at most 50 states: [saveState] drops the oldest state beyond 50,
    [createBranch] appends without dropping. *)
Theorem history_size_bounded {Results Statistics : Type}
    (getStatistics : Graph → Statistics)
    (parsed : option (list (HistoryState Results Statistics) * Z))
    (calls : list (HistoryCall Results)) :
  Z.of_nat (stored_length parsed) ≤ maxHistorySize →
  Z.of_nat (length (history (foldl (history_exec getStatistics)
                                   (newGraphHistory parsed) calls)))
  ≤ maxHistorySize + Z.of_nat (branches calls).
Proof.
  intros Hstored.
  pose proof (history_size_run getStatistics (newGraphHistory parsed) calls 0) as H.
  assert (length (history (newGraphHistory parsed)) = stored_length parsed) as Hh.
  { by destruct parsed as [[states index]|]. }
  rewrite Hh in H.
  assert (Z.to_nat maxHistorySize = 50%nat) as Hmax by done.
  rewrite Hmax in H. unfold maxHistorySize in *. lia.
Qed.

Lemma history_size_bounded_witness :
  Z.of_nat (length (history sample_history))
  ≤ maxHistorySize + Z.of_nat (branches sample_history_calls).
Proof.
  apply (history_size_bounded (λ _, ()) None sample_history_calls). done.
Defined.

(** X20. [saveState] on a history whose index is at least [-1]: the
    states after the current one are discarded, the new state is put
    last and is the current state, no state can be redone, and the
    oldest state is dropped exactly when 50 states were kept. *)
Theorem saveState_makes_current {Results Statistics : Type}
    (getStatistics : Graph → Statistics)
    (h : GraphHistory Results Statistics) (graph : Graph)
    (results : option Results) (description id timestamp : string) :
  -1 ≤ currentIndex h →
  let r := saveState getStatistics h graph results description id timestamp in
  let kept := take (Z.to_nat (currentIndex h + 1)) (history h) in
  getCurrentState r.1 = Some r.2 ∧
  canRedo r.1 = false ∧
  hs_id r.2 = id ∧ hs_graph r.2 = toJSON graph ∧
  history r.1
  = (if bool_decide (Z.of_nat (length kept) < maxHistorySize) then kept
     else drop 1 kept) ++ [r.2].
Proof.
  intros Hge r kept.
  destruct (saveState_shape getStatistics h graph results description id timestamp)
    as (kept' & dropped & _ & Hkept & Happ & Hd & Hiff & Hidx).
  fold r in Happ, Hidx. specialize (Hkept Hge). fold kept in Hkept. subst kept'.
  assert (history r.1
          = (if bool_decide (Z.of_nat (length kept) < maxHistorySize) then kept
             else drop 1 kept) ++ [r.2]) as Hhist.
  { case_bool_decide as Hlt.
    - destruct Hiff as [_ Hiff]. rewrite Hiff in Happ; [done|].
      unfold maxHistorySize in *. lia.
    - destruct dropped as [|d [|??]]; [|clear Hiff|simpl in Hd; lia].
      + destruct Hiff as [Hiff _]. specialize (Hiff eq_refl).
        unfold maxHistorySize in *. lia.
      + destruct kept as [|k0 kept0]; [unfold maxHistorySize in *; simpl in *; lia|].
        simpl in Happ. injection Happ as _ Happ. simpl. by rewrite Happ. }
  split_and!; [| | | |done].
  3,4: subst r; unfold saveState; cbv zeta; by destruct (bool_decide (maxHistorySize < _)).
  - apply getCurrentState_Some. rewrite Hidx, Hhist, length_app. simpl.
    split; [lia|].
    set (l := if bool_decide _ then _ else _).
    replace (Z.to_nat _) with (length l + 0)%nat by lia.
    by rewrite lookup_app_r, Nat.add_0_r, Nat.sub_diag by lia.
  - unfold canRedo. apply bool_decide_eq_false. lia.
Qed.

Lemma saveState_makes_current_witness :
  getCurrentState
    (saveState (λ _, ()) sample_history scenario None "cuatro" "s4" "t4").1
  = Some (saveState (λ _, ()) sample_history scenario None "cuatro" "s4" "t4").2.
Proof.
  apply (saveState_makes_current (λ _, ()) sample_history scenario None
           "cuatro" "s4" "t4").
  vm_compute. discriminate.
Defined.

(** X21. Undo then redo: when [canUndo()] holds on a history whose index
    is in range, [getPreviousState] returns the state before the current
    one and makes it current, and [getNextState] then returns the state
    that was current before and leaves the history as it was. *)
Theorem undo_then_redo {Results Statistics : Type}
    (h : GraphHistory Results Statistics) :
  history_ok h →
  canUndo h = true →
  ∃ c p,
    getCurrentState h = Some c ∧
    history h !! Z.to_nat (currentIndex h - 1) = Some p ∧
    (getPreviousState h).2 = Some p ∧
    getCurrentState (getPreviousState h).1 = Some p ∧
    getNextState (getPreviousState h).1 = (h, Some c).
Proof.
  unfold history_ok, canUndo. intros Hok Hundo.
  apply bool_decide_eq_true in Hundo.
  destruct (history h !! Z.to_nat (currentIndex h)) as [c|] eqn:Hc;
    [|apply lookup_ge_None in Hc; lia].
  destruct (history h !! Z.to_nat (currentIndex h - 1)) as [p|] eqn:Hp;
    [|apply lookup_ge_None in Hp; lia].
  exists c, p. unfold getPreviousState. rewrite bool_decide_true by done. simpl.
  split_and!.
  - apply getCurrentState_Some. split; [lia | done].
  - done.
  - by rewrite js_index_lookup by lia.
  - apply getCurrentState_Some. simpl. split; [lia | done].
  - unfold getNextState. simpl. rewrite bool_decide_true by lia.
    replace (currentIndex h - 1 + 1) with (currentIndex h) by lia.
    rewrite js_index_lookup, Hc by lia. by destruct h.
Qed.

Lemma undo_then_redo_witness :
  ∃ c p,
    getCurrentState sample_history = Some c ∧
    history sample_history !! Z.to_nat (currentIndex sample_history - 1) = Some p ∧
    (getPreviousState sample_history).2 = Some p ∧
    getCurrentState (getPreviousState sample_history).1 = Some p ∧
    getNextState (getPreviousState sample_history).1 = (sample_history, Some c).
Proof.
  apply (undo_then_redo sample_history).
  - unfold history_ok. vm_compute. split; discriminate.
  - reflexivity.
Defined.

(** X22. Redo then undo: when [canRedo()] holds and there is a current
    state, [getNextState] returns the state after the current one and
    makes it current, and [getPreviousState] then returns the state that
    was current before and leaves the history as it was. *)
Theorem redo_then_undo {Results Statistics : Type}
    (h : GraphHistory Results Statistics) (c : HistoryState Results Statistics) :
  getCurrentState h = Some c →
  canRedo h = true →
  ∃ n,
    history h !! Z.to_nat (currentIndex h + 1) = Some n ∧
    (getNextState h).2 = Some n ∧
    getCurrentState (getNextState h).1 = Some n ∧
    getPreviousState (getNextState h).1 = (h, Some c).
Proof.
  unfold canRedo. intros [H0 Hc]%getCurrentState_Some Hredo.
  apply bool_decide_eq_true in Hredo.
  destruct (history h !! Z.to_nat (currentIndex h + 1)) as [n|] eqn:Hn;
    [|apply lookup_ge_None in Hn; lia].
  exists n. unfold getNextState. rewrite bool_decide_true by done. simpl.
  split_and!.
  - done.
  - by rewrite js_index_lookup by lia.
  - apply getCurrentState_Some. simpl. split; [lia | done].
  - unfold getPreviousState. simpl. rewrite bool_decide_true by lia.
    replace (currentIndex h + 1 - 1) with (currentIndex h) by lia.
    rewrite js_index_lookup, Hc by lia. by destruct h.
Qed.

Lemma redo_then_undo_witness :
  ∃ c n,
    getCurrentState sample_history = Some c ∧
    (getNextState sample_history).2 = Some n ∧
    getPreviousState (getNextState sample_history).1 = (sample_history, Some c).
Proof.
  destruct (getCurrentState sample_history) as [c|] eqn:Hc; [|by vm_compute in Hc].
  destruct (redo_then_undo sample_history c Hc) as (n & _ & Hn & _ & Hback);
    [reflexivity|].
  exists c, n. split_and!; [done | exact Hn | exact Hback].
Defined.

(** X23. [removeState(id)] when the current state has another id:
    the current state stays the current state.  If no state has the id,
    the call answers [false] and changes nothing; otherwise it answers
    [true] and takes out the first state with that id, and no other. *)
Theorem removeState_keeps_current {Results Statistics : Type}
    (h : GraphHistory Results Statistics) (id : string)
    (c : HistoryState Results Statistics) :
  getCurrentState h = Some c →
  hs_id c ≠ id →
  let r := removeState h id in
  getCurrentState r.1 = Some c ∧
  (getState h id = None → r = (h, false)) ∧
  (is_Some (getState h id) →
   r.2 = true ∧
   ∃ i s, history h !! i = Some s ∧ hs_id s = id ∧
          (∀ j s', (j < i)%nat → history h !! j = Some s' → hs_id s' ≠ id) ∧
          history r.1 = delete i (history h)).
Proof.
  intros Hcur Hne r. pose proof Hcur as [H0 Hc]%getCurrentState_Some.
  subst r. unfold removeState, getState.
  destruct (findIndex _ (history h)) as [i|] eqn:Hi.
  - pose proof Hi as (s & Hs & Hps & Hbefore)%findIndex_Some.
    apply bool_decide_eq_true in Hps. simpl.
    split_and!.
    + apply getCurrentState_Some. simpl.
      assert (i ≠ Z.to_nat (currentIndex h)) as Hic.
      { intros ->. rewrite Hc in Hs. by injection Hs as ->. }
      case_bool_decide as Hle.
      * assert (i < Z.to_nat (currentIndex h))%nat by lia.
        split; [lia|].
        rewrite list_lookup_delete_ge by lia.
        replace (S (Z.to_nat _)) with (Z.to_nat (currentIndex h)) by lia. done.
      * split; [done|]. rewrite list_lookup_delete_lt by lia. done.
    + intros Hnone. apply findIndex_None in Hnone. congruence.
    + intros _. split; [done|]. exists i, s. split_and!; [done..| |done].
      intros j s' Hj Hs'. specialize (Hbefore j s' Hj Hs').
      by apply bool_decide_eq_false in Hbefore.
  - simpl. split_and!; [done | done |].
    intros [s Hs]. apply findIndex_None in Hi. congruence.
Qed.

Lemma removeState_keeps_current_witness :
  ∃ c, getCurrentState sample_history = Some c ∧
       getCurrentState (removeState sample_history "s1").1 = Some c.
Proof.
  destruct (getCurrentState sample_history) as [c|] eqn:Hc; [|by vm_compute in Hc].
  exists c. split; [done|].
  apply (removeState_keeps_current sample_history "s1" c Hc).
  vm_compute in Hc. injection Hc as <-. simpl. discriminate.
Defined.

(** X24. [removeState] of the current state, when the ids of the states
    differ from one another: the state before it becomes the current
    state; if it was the first state, the state after it does; if it was
    the only state, there is no current state any more, and the index is
    [0], not [-1]. *)
Theorem removeState_current {Results Statistics : Type}
    (h : GraphHistory Results Statistics)
    (c : HistoryState Results Statistics) :
  getCurrentState h = Some c →
  NoDup (hs_id <$> history h) →
  let r := removeState h (hs_id c) in
  r.2 = true ∧
  history r.1 = delete (Z.to_nat (currentIndex h)) (history h) ∧
  currentIndex r.1 = Z.max 0 (currentIndex h - 1) ∧
  getCurrentState r.1
  = (if bool_decide (0 < currentIndex h)
     then history h !! Z.to_nat (currentIndex h - 1)
     else history h !! 1%nat).
Proof.
  intros [H0 Hc]%getCurrentState_Some Hnd r.
  subst r. unfold removeState.
  destruct (findIndex _ (history h)) as [i|] eqn:Hi.
  - pose proof Hi as (s & Hs & Hps & _)%findIndex_Some.
    apply bool_decide_eq_true in Hps.
    assert (i = Z.to_nat (currentIndex h)) as ->.
    { apply (NoDup_lookup (hs_id <$> history h) _ _ (hs_id c) Hnd).
      - by rewrite list_lookup_fmap, Hs, <- Hps.
      - by rewrite list_lookup_fmap, Hc. }
    simpl. rewrite bool_decide_true by lia.
    split_and!; [done..|].
    pose proof (lookup_lt_Some _ _ _ Hc) as Hlt.
    unfold getCurrentState. simpl.
    rewrite length_delete by (by eexists).
    rewrite (bool_decide_true (0 ≤ _)) by lia. simpl.
    destruct (decide (0 < currentIndex h)) as [Hpos|Hpos].
    + rewrite (bool_decide_true (0 < _)) by done.
      replace (Z.max 0 (currentIndex h - 1)) with (currentIndex h - 1) by lia.
      rewrite bool_decide_true by lia.
      rewrite js_index_lookup, list_lookup_delete_lt by lia. done.
    + rewrite (bool_decide_false (0 < _)) by done.
      replace (currentIndex h) with 0 in * by lia. simpl in *.
      case_bool_decide as Hlen.
      * rewrite js_index_lookup by lia. simpl.
        by destruct (history h).
      * symmetry. apply lookup_ge_None. lia.
  - apply findIndex_None in Hi.
    assert (In c (history h)) as Hin.
    { apply list_elem_of_In. by eapply list_elem_of_lookup_2. }
    pose proof (find_none _ _ Hi c Hin) as Hf.
    by apply bool_decide_eq_false in Hf.
Qed.

Lemma removeState_current_witness :
  ∃ c, getCurrentState sample_history = Some c ∧
       (removeState sample_history (hs_id c)).2 = true.
Proof.
  destruct (getCurrentState sample_history) as [c|] eqn:Hc; [|by vm_compute in Hc].
  exists c. split; [done|].
  apply (removeState_current sample_history c Hc).
  vm_compute. repeat constructor; set_solver.
Defined.

(** X25. A history that was stored while its first state was the current
    one is loaded with index [-1]: it has no current state and nothing
    to undo, and the next [saveState] discards every stored state, the
    saved state being the only one left. *)
Theorem reload_at_first_state {Results Statistics : Type}
    (getStatistics : Graph → Statistics)
    (states : list (HistoryState Results Statistics)) (graph : Graph)
    (results : option Results) (description id timestamp : string) :
  let h := newGraphHistory (Some (states, 0)) in
  let r := saveState getStatistics h graph results description id timestamp in
  history h = states ∧
  getCurrentState h = None ∧ canUndo h = false ∧
  history r.1 = [r.2] ∧ currentIndex r.1 = 0.
Proof.
  intros h r.
  assert (currentIndex h = -1) as Hidx by done.
  assert (history h = states) as Hh by done.
  destruct (saveState_shape getStatistics h graph results description id timestamp)
    as (kept & dropped & _ & Hkept & Happ & Hd & Hiff & Hi).
  fold r in Happ, Hi. rewrite Hidx in Hkept. specialize (Hkept ltac:(done)).
  simpl in Hkept. rewrite take_0 in Hkept. subst kept.
  destruct Hiff as [_ Hiff].
  rewrite Hiff in Happ by (simpl; unfold maxHistorySize; lia).
  simpl in Happ. rewrite Hi, Happ. done.
Qed.


(** ** Searches for cycles *)

Lemma trail_tail g x l : trail g (x :: l) → trail g l.
Proof. destruct l as [|y l]; [done|]. by intros [_ H]. Qed.

Lemma trail_lookup g l i a b :
  trail g l → l !! i = Some a → l !! S i = Some b → hop g a b.
Proof.
  revert i. induction l as [|x l IH]; intros i Ht Ha Hb; [done|].
  destruct i as [|i].
  - destruct l as [|y l]; [done|]. destruct Ht as [Hh _].
    simpl in Ha, Hb. by simplify_eq.
  - apply (IH i); [by eapply trail_tail|done..].
Qed.

Lemma trail_drop g l i : trail g l → trail g (drop i l).
Proof.
  revert l. induction i as [|i IH]; intros l Ht; [by rewrite drop_0|].
  destruct l as [|x l]; [done|]. simpl. apply IH. by eapply trail_tail.
Qed.

Lemma trail_init g l x : trail g (l ++ [x]) → trail g l.
Proof.
  induction l as [|y l IH]; [done|]. intros Ht.
  destruct l as [|z l]; [done|]. destruct Ht as [Hh Ht].
  split; [done|]. by apply IH.
Qed.

(** The ids on the stack from [v] to the running call, closed by an edge
    back to [v], are a cycle. *)
Lemma back_edge_cycle g path node parent v i :
  NoDup (path ++ [node]) → trail g (path ++ [node]) →
  parent = last path →
  (path ++ [node]) !! i = Some v →
  hop g node v →
  ¬ (isDirected g = false ∧ parent = Some v) →
  cycle g (drop i (path ++ [node])) ∧
  head (drop i (path ++ [node])) = Some v.
Proof.
  intros Hnd Ht -> Hi Hhop Hskip.
  assert (i ≤ length path)%nat as Hle.
  { apply lookup_lt_Some in Hi. rewrite length_app in Hi. simpl in Hi. lia. }
  assert (head (drop i (path ++ [node])) = Some v) as Hhead.
  { by rewrite head_lookup, lookup_drop, Nat.add_0_r. }
  split; [|done]. split_and!.
  - eapply sublist_NoDup; [done | apply sublist_drop].
  - exists v. split; [done|].
    eapply trail_snoc; [by apply trail_drop| |done].
    rewrite drop_app_le by done. apply last_snoc.
  - intros Hd Hlen. apply Hskip. split; [done|].
    rewrite length_drop, length_app in Hlen. simpl in Hlen.
    rewrite last_lookup.
    replace (Init.Nat.pred (length path)) with i by lia.
    rewrite lookup_app_l in Hi by lia. done.
Qed.

(** No cycle runs through finished calls only. *)
Lemma finished_no_cycle g fin p :
  finished g fin → cycle g p → (∀ x, x ∈ p → x ∈ fin.*1) → False.
Proof.
  intros [Hfnd Hfin] (Hnd & (first & Hhead & Htrail) & Hlen) Hall.
  assert (∀ i u, u ∈ p → fin.*1 !! i = Some u → False) as Hno.
  { intros i. induction (lt_wf i) as [i _ IH]. intros u Hu Hi.
    rewrite list_lookup_fmap in Hi.
    destruct (fin !! i) as [[u' pu]|] eqn:Hfi; [|done].
    simpl in Hi. injection Hi as ->.
    apply list_elem_of_lookup in Hu as [k Hk].
    pose proof (lookup_lt_Some _ _ _ Hk) as Hkn.
    rewrite head_lookup in Hhead.
    set (n := length p) in *.
    (* the id after [u] *)
    assert (∃ s ks, p !! ks = Some s ∧ hop g u s ∧
                    ks = if decide (S k < n)%nat then S k else 0%nat)
      as (s & ks & Hks & Hus & Hksv).
    { destruct (decide (S k < n)%nat) as [Hlt|Hge].
      - destruct (lookup_lt_is_Some_2 p (S k) Hlt) as [s Hs].
        exists s, (S k). split_and!; [done| |done].
        apply (trail_lookup g (p ++ [first]) k); [done|..];
          by rewrite lookup_app_l by lia.
      - exists first, 0%nat. split_and!; [done| |done].
        apply (trail_lookup g (p ++ [first]) k); [done|..].
        + by rewrite lookup_app_l by lia.
        + rewrite lookup_app_r by (fold n; lia).
          replace (S k - length p)%nat with 0%nat by (fold n; lia). done. }
    (* the id before [u] *)
    assert (∃ r kr, p !! kr = Some r ∧ hop g r u ∧
                    kr = if decide (k = 0)%nat then (n - 1)%nat else (k - 1)%nat)
      as (r & kr & Hkr & Hru & Hkrv).
    { destruct (decide (k = 0)%nat) as [->|Hpos].
      - destruct (lookup_lt_is_Some_2 p (n - 1)) as [r Hr]; [lia|].
        exists r, (n - 1)%nat. split_and!; [done| |done].
        apply (trail_lookup g (p ++ [first]) (n - 1)); [done|..].
        + by rewrite lookup_app_l by lia.
        + rewrite lookup_app_r by (fold n; lia).
          replace (S (n - 1) - length p)%nat with 0%nat by (fold n; lia).
          simpl. congruence.
      - destruct (lookup_lt_is_Some_2 p (k - 1)) as [r Hr]; [lia|].
        exists r, (k - 1)%nat. split_and!; [done| |done].
        apply (trail_lookup g (p ++ [first]) (k - 1)); [done|..].
        + by rewrite lookup_app_l by lia.
        + replace (S (k - 1)) with k by lia. by rewrite lookup_app_l by lia. }
    assert (∀ v kv, p !! kv = Some v → hop g u v →
                    isDirected g = false ∧ pu = Some v ∧ v ≠ u) as Hpar.
    { intros v kv Hkv Huv.
      destruct (Hfin i u pu Hfi v Huv) as [(j & q & Hj & Hfj)|H]; [|done].
      exfalso. apply (IH j Hj v).
      - by eapply list_elem_of_lookup_2.
      - by rewrite list_lookup_fmap, Hfj. }
    destruct (Hpar s ks Hks Hus) as (Hd & Hps & Hsu).
    destruct (Hpar r kr Hkr (hop_sym g r u Hd Hru)) as (_ & Hpr & _).
    assert (r = s) as -> by congruence.
    pose proof (NoDup_lookup p ks kr s Hnd Hks Hkr) as Heq.
    assert (ks ≠ k) as Hne.
    { intros ->. rewrite Hk in Hks. congruence. }
    specialize (Hlen Hd). fold n in Hlen.
    destruct (decide (S k < n)%nat), (decide (k = 0)%nat); lia. }
  destruct p as [|x p]; [done|].
  assert (x ∈ fin.*1) as Hx by (apply Hall; left).
  apply list_elem_of_lookup in Hx as [i Hi].
  apply (Hno i x); [left | done].
Qed.

Lemma size_union_le (X Y : gset string) : (size (X ∪ Y) ≤ size X + size Y)%nat.
Proof.
  rewrite size_union_alt.
  assert (size (Y ∖ X) ≤ size Y)%nat by (apply subseteq_size; set_solver). lia.
Qed.

Lemma size_list_to_set_le (l : list string) :
  (size (list_to_set l : gset string) ≤ length l)%nat.
Proof.
  induction l as [|x l IH].
  - by rewrite list_to_set_nil, size_empty.
  - rewrite list_to_set_cons. cbn [length].
    pose proof (size_union_le {[x]} (list_to_set l)) as H.
    rewrite size_singleton in H. lia.
Qed.

Lemma ids_size g : (size (ids g) < cycle_fuel g)%nat.
Proof.
  unfold ids, cycle_fuel.
  pose proof (size_union_le (list_to_set (mkeys (nodes g))
                             ∪ list_to_set (source <$> mvalues (edges g)))
                            (list_to_set (target <$> mvalues (edges g)))) as H1.
  pose proof (size_union_le (list_to_set (mkeys (nodes g)))
                            (list_to_set (source <$> mvalues (edges g)))) as H2.
  pose proof (size_list_to_set_le (mkeys (nodes g))) as H3.
  pose proof (size_list_to_set_le (source <$> mvalues (edges g))) as H4.
  pose proof (size_list_to_set_le (target <$> mvalues (edges g))) as H5.
  unfold mkeys, mvalues in *. rewrite !length_fmap in *. lia.
Qed.

Lemma hop_ids g u v : hop g u v → u ∈ ids g ∧ v ∈ ids g.
Proof.
  intros (e & He & Hc). unfold ids.
  assert (source e ∈ (list_to_set (source <$> mvalues (edges g)) : gset string)).
  { apply elem_of_list_to_set, list_elem_of_fmap. eauto. }
  assert (target e ∈ (list_to_set (target <$> mvalues (edges g)) : gset string)).
  { apply elem_of_list_to_set, list_elem_of_fmap. eauto. }
  destruct Hc as [[<- <-]|(_ & <- & <-)]; set_solver.
Qed.

Lemma key_ids g k : k ∈ mkeys (nodes g) → k ∈ ids g.
Proof. intros. unfold ids. set_solver. Qed.

Lemma remaining_visit (U V : gset string) node :
  node ∈ U → node ∉ V → (size (U ∖ (V ∪ {[node]})) < size (U ∖ V))%nat.
Proof. intros. apply subset_size. set_solver. Qed.

Lemma remaining_mono (U V V' : gset string) :
  V ⊆ V' → (size (U ∖ V') ≤ size (U ∖ V))%nat.
Proof. intros. apply subseteq_size. set_solver. Qed.

(** Entering a call. *)
Lemma search_inv_enter g V path fin node parent :
  search_inv g V path fin → node ∉ V →
  parent = last path → (∀ p, parent = Some p → hop g p node) →
  search_inv g (V ∪ {[node]}) (path ++ [node]) fin.
Proof.
  intros [Hnd Ht Hv Hap Hfin] Hnode -> Hpar. split.
  - apply NoDup_app. split_and!; [done| |apply NoDup_singleton].
    intros x Hx ->%list_elem_of_singleton. apply Hnode, Hv. by left.
  - destruct (last path) as [p|] eqn:Hl.
    + eapply trail_snoc; [done..|]. by apply Hpar.
    + apply last_None in Hl as ->. done.
  - intros x. rewrite elem_of_union, elem_of_singleton, elem_of_app,
      list_elem_of_singleton, Hv. tauto.
  - intros x [Hx| ->%list_elem_of_singleton]%elem_of_app; [by apply Hap|].
    intros Hf. apply Hnode, Hv. by right.
  - done.
Qed.

(** Leaving a call whose loop has settled every neighbour. *)
Lemma search_inv_leave g V path fin node parent :
  search_inv g V (path ++ [node]) fin →
  (∀ v, hop g node v → settled g fin parent node v) →
  search_inv g V path (fin ++ [(node, parent)]).
Proof.
  intros [Hnd Ht Hv Hap [Hfnd Hfin]] Hset.
  apply NoDup_app in Hnd as (Hnd & Hnot & _).
  assert (node ∉ fin.*1) as Hnf.
  { apply Hap, elem_of_app. right. by left. }
  split.
  - done.
  - by eapply trail_init.
  - intros x. rewrite Hv, fmap_app, !elem_of_app. simpl.
    rewrite !list_elem_of_singleton. tauto.
  - intros x Hx. rewrite fmap_app, elem_of_app. simpl.
    rewrite list_elem_of_singleton. intros [Hf| ->].
    + revert Hf. apply Hap, elem_of_app. by left.
    + by apply (Hnot node), list_elem_of_singleton.
  - split.
    + rewrite fmap_app. simpl. apply NoDup_app. split_and!; [done| |apply NoDup_singleton].
      by intros x Hx ->%list_elem_of_singleton.
    + intros i u p Hi v Huv.
      destruct (decide (i < length fin)%nat) as [Hlt|Hge].
      * rewrite lookup_app_l in Hi by done.
        destruct (Hfin i u p Hi v Huv) as [(j & q & Hj & Hfj)|H]; [|by right].
        left. exists j, q. split; [done|]. by rewrite lookup_app_l by lia.
      * rewrite lookup_app_r in Hi by lia.
        destruct (i - length fin)%nat as [|k] eqn:Hk; [|done].
        simpl in Hi. injection Hi as <- <-.
        destruct (Hset v Huv) as [Hin|H]; [|by right].
        left. apply list_elem_of_lookup in Hin as [j Hj].
        rewrite list_lookup_fmap in Hj.
        destruct (fin !! j) as [[v' q]|] eqn:Hfj; [|done].
        simpl in Hj. injection Hj as ->.
        exists j, q. split.
        -- apply lookup_lt_Some in Hfj. lia.
        -- by rewrite lookup_app_l by (by eapply lookup_lt_Some).
Qed.

Lemma settled_mono g fin fin' parent node v :
  (∀ x, x ∈ fin.*1 → x ∈ fin'.*1) →
  settled g fin parent node v → settled g fin' parent node v.
Proof. intros Hsub [H|H]; [left; by apply Hsub | by right]. Qed.

Section HasCycles.

Variable g : Graph.

(** A call of [hasCycleDFS] with enough fuel returns; if it answers
    [true] there is a cycle, otherwise it has finished and leaves the
    stack as it found it. *)
Lemma hasCycleDFS_spec fuel :
  ∀ V S path fin node parent,
    search_inv g V path fin → (∀ x, x ∈ S ↔ x ∈ path) → V ⊆ ids g →
    node ∉ V → node ∈ ids g →
    parent = last path → (∀ p, parent = Some p → hop g p node) →
    (size (ids g ∖ V) ≤ fuel)%nat →
    ∃ st' b,
      hasCycleDFS g fuel (mkCycleSearch V S) node parent = Some (st', b) ∧
      (b = true → cyclic g) ∧
      (b = false →
       hc_recursionStack st' = S ∧ V ⊆ hc_visited st' ∧
       hc_visited st' ⊆ ids g ∧
       ∃ fin', search_inv g (hc_visited st') path fin' ∧
               node ∈ fin'.*1 ∧ ∀ x, x ∈ fin.*1 → x ∈ fin'.*1).
Proof.
  induction fuel as [|fuel IH];
    intros V S path fin node parent Hinv HS HV Hnode Hid Hparent Hhop Hfuel.
  { pose proof (remaining_visit (ids g) V node Hid Hnode). lia. }
  cbn [hasCycleDFS]. cbn [hc_visited hc_recursionStack].
  set (call := λ st' neighbor, hasCycleDFS g fuel st' neighbor (Some node)).
  set (S1 := S ∪ {[node]}).
  pose proof (search_inv_enter g V path fin node parent Hinv Hnode Hparent Hhop)
    as Hinv1.
  assert (∀ x, x ∈ S1 ↔ x ∈ path ++ [node]) as HS1.
  { intros x. unfold S1. rewrite elem_of_union, elem_of_singleton, elem_of_app,
      list_elem_of_singleton, HS. tauto. }
  assert (node ∉ S) as HnS.
  { intros Hin. apply Hnode, (si_visited _ _ _ _ Hinv). left. by apply HS. }
  assert (size (ids g ∖ (V ∪ {[node]})) ≤ fuel)%nat as Hfuel1.
  { pose proof (remaining_visit (ids g) V node Hid Hnode). lia. }
  assert (V ∪ {[node]} ⊆ ids g) as HV1 by set_solver.
  assert (V ⊆ V ∪ {[node]}) as Hsub1 by set_solver.
  assert (∀ rest finc Vc,
    search_inv g Vc (path ++ [node]) finc →
    (size (ids g ∖ Vc) ≤ fuel)%nat → Vc ⊆ ids g → V ⊆ Vc →
    (∀ v, hop g node v → v ∈ rest ∨ settled g finc parent node v) →
    (∀ v, v ∈ rest → hop g node v) →
    (∀ x, x ∈ fin.*1 → x ∈ finc.*1) →
    ∃ st' b,
      hasCycleDFS_loop g call node parent rest (mkCycleSearch Vc S1)
      = Some (st', b) ∧
      (b = true → cyclic g) ∧
      (b = false →
       hc_recursionStack st' = S ∧ V ⊆ hc_visited st' ∧
       hc_visited st' ⊆ ids g ∧
       ∃ fin', search_inv g (hc_visited st') path fin' ∧
               node ∈ fin'.*1 ∧ ∀ x, x ∈ fin.*1 → x ∈ fin'.*1)) as Hloop;
    [|apply (Hloop (getNeighbors g node) fin (V ∪ {[node]}));
      [exact Hinv1 | exact Hfuel1 | exact HV1 | exact Hsub1
      |intros v Hv; left; by apply elem_of_getNeighbors
      |intros v Hv; by apply elem_of_getNeighbors
      |intros x Hx; exact Hx]].
  intros rest. induction rest as [|v rest IHrest];
    intros finc Vc Hinvc Hfuelc HVc Hsubc Hall Hnb Hfsub.
  - (* the loop is over *)
    cbn [hasCycleDFS_loop hc_visited hc_recursionStack].
    eexists _, false. split; [done|]. split; [done|]. intros _.
    cbn [hc_visited hc_recursionStack].
    split_and!; [clear IH Hinvc Hall; unfold S1; set_solver | done | done |].
    exists (finc ++ [(node, parent)]). split_and!.
    + apply search_inv_leave; [done|].
      intros v Hv. destruct (Hall v Hv) as [Hin|Hs]; [|done].
      by apply elem_of_nil in Hin.
    + rewrite fmap_app, elem_of_app. right. simpl. left.
    + intros x Hx. rewrite fmap_app, elem_of_app. left. by apply Hfsub.
  - cbn [hasCycleDFS_loop hc_visited hc_recursionStack].
    assert (hop g node v) as Hv by (apply Hnb; left).
    assert (∀ w, w ∈ rest → hop g node w) as Hnb'.
    { intros w Hw. apply Hnb. by right. }
    destruct (negb (isDirected g) && bool_decide (parent = Some v)) eqn:Hskip.
    { (* the parent in an undirected graph *)
      apply andb_true_iff in Hskip as [Hd Hp].
      apply negb_true_iff in Hd. apply bool_decide_eq_true in Hp.
      apply (IHrest finc Vc); try done.
      intros w Hw. destruct (Hall w Hw) as [Hin|Hs]; [|by right].
      apply elem_of_cons in Hin as [->|Hin]; [|by left].
      right. right. split_and!; [done..|].
      intros ->. apply Hnode, (si_visited _ _ _ _ Hinv). left.
      rewrite Hparent in Hp. apply last_Some in Hp as [l' ->].
      apply elem_of_app. right. by left. }
    assert (¬ (isDirected g = false ∧ parent = Some v)) as Hnoskip.
    { intros [Hd Hp]. rewrite Hd, bool_decide_true in Hskip by done. done. }
    destruct (decide (v ∈ Vc)) as [Hvis|Hnew].
    + rewrite (bool_decide_true (v ∈ Vc)) by done. cbn [negb].
      destruct (decide (v ∈ S1)) as [Hst|Hst].
      * (* an id on the stack *)
        rewrite bool_decide_true by done.
        eexists _, true. split; [done|]. split; [|done]. intros _.
        apply HS1, list_elem_of_lookup in Hst as [i Hi].
        exists (drop i (path ++ [node])).
        eapply back_edge_cycle; eauto using si_nodup, si_trail.
      * rewrite bool_decide_false by done.
        apply (IHrest finc Vc); try done.
        intros w Hw. destruct (Hall w Hw) as [Hin|Hs]; [|by right].
        apply elem_of_cons in Hin as [->|Hin]; [|by left].
        right. left.
        apply (si_visited _ _ _ _ Hinvc) in Hvis as [Hp|Hf]; [|done].
        by apply HS1 in Hp.
    + rewrite (bool_decide_false (v ∈ Vc)) by done. cbn [negb].
      destruct (IH Vc S1 (path ++ [node]) finc v (Some node))
        as (st' & b & Hcall & Htrue & Hfalse); try done.
      { by destruct (hop_ids g node v Hv). }
      { by rewrite last_snoc. }
      { by intros p [= <-]. }
      unfold call at 1. rewrite Hcall.
      destruct b.
      * eexists _, true. split; [done|]. split; [|done]. intros _. by apply Htrue.
      * destruct (Hfalse eq_refl) as (HS' & Hsub' & Hids' & fin' & Hinv' & Hvf & Hff).
        destruct st' as [V' S']. cbn [hc_visited hc_recursionStack] in *. subst S'.
        apply (IHrest fin' V'); try done.
        -- pose proof (remaining_mono (ids g) Vc V' Hsub'). lia.
        -- clear IH IHrest Hfalse Hall. set_solver.
        -- intros w Hw. destruct (Hall w Hw) as [Hin|Hs].
           ++ apply elem_of_cons in Hin as [->|Hin]; [|by left].
              right. by left.
           ++ right. by eapply settled_mono.
        -- intros x Hx. by apply Hff, Hfsub.
Qed.

End HasCycles.

Lemma search_inv_start g : search_inv g ∅ [] [].
Proof.
  split.
  - apply NoDup_nil_2.
  - done.
  - intros x. rewrite elem_of_empty. simpl. rewrite !elem_of_nil. tauto.
  - intros x Hx. by apply elem_of_nil in Hx.
  - split; [apply NoDup_nil_2|]. intros i u p Hi. by rewrite lookup_nil in Hi.
Qed.

Lemma hasCycles_loop_spec g fuel keys :
  (size (ids g) ≤ fuel)%nat →
  ∀ V fin,
    search_inv g V [] fin → V ⊆ ids g →
    (∀ k, k ∈ keys → k ∈ ids g) →
    ∃ b, hasCycles_loop g fuel keys (mkCycleSearch V ∅) = Some b ∧
         (b = true → cyclic g) ∧
         (b = false →
          ∃ V' fin', search_inv g V' [] fin' ∧ V ⊆ V' ∧
                     ∀ k, k ∈ keys → k ∈ V').
Proof.
  intros Hfuel. induction keys as [|k keys IH]; intros V fin Hinv HV Hkeys.
  - exists false. split_and!; [done..|]. intros _. exists V, fin.
    split_and!; [done..|]. intros k Hk. by apply elem_of_nil in Hk.
  - cbn [hasCycles_loop hc_visited].
    assert (∀ k', k' ∈ keys → k' ∈ ids g) as Hkeys'.
    { intros k' Hk'. apply Hkeys. by right. }
    destruct (decide (k ∈ V)) as [Hk|Hk].
    + rewrite bool_decide_true by done. cbn [negb].
      destruct (IH V fin Hinv HV Hkeys') as (b & Hb & Ht & Hf).
      exists b. split_and!; [done..|]. intros Hbf.
      destruct (Hf Hbf) as (V' & fin' & Hinv' & Hsub & Hall).
      exists V', fin'. split_and!; [done..|].
      intros k' [->|Hk']%elem_of_cons; [clear IH; set_solver | by apply Hall].
    + rewrite bool_decide_false by done. cbn [negb].
      assert (size (ids g ∖ V) ≤ fuel)%nat as Hrem.
      { assert (size (ids g ∖ V) ≤ size (ids g))%nat
          by (apply subseteq_size; clear IH; set_solver). lia. }
      assert (∀ x : string, x ∈ (∅ : gset string) ↔ x ∈ @nil string) as Hempty.
      { intros x. rewrite elem_of_empty, elem_of_nil. tauto. }
      destruct (hasCycleDFS_spec g fuel V ∅ [] fin k None Hinv Hempty HV Hk
                  (Hkeys k ltac:(left)) eq_refl ltac:(done) Hrem)
        as (st' & b & Hcall & Ht & Hf).
      rewrite Hcall. destruct b.
      * exists true. split_and!; [done | by intros _; apply Ht | done].
      * destruct (Hf eq_refl) as (HS' & Hsub' & Hids' & fin' & Hinv' & Hkf & _).
        destruct st' as [V' S']. cbn [hc_visited hc_recursionStack] in *. subst S'.
        destruct (IH V' fin' Hinv' Hids' Hkeys') as (b & Hb & Ht' & Hf').
        exists b. split_and!; [done..|]. intros Hbf.
        destruct (Hf' Hbf) as (V'' & fin'' & Hinv'' & Hsub'' & Hall).
        exists V'', fin''. split_and!; [done | clear IH Hf Hf'; set_solver |].
        intros k' [->|Hk']%elem_of_cons; [|by apply Hall].
        apply Hsub'', (si_visited _ _ _ _ Hinv'). by right.
Qed.

(** The ids of a cycle are nodes when the edges lead to nodes. *)
Lemma cycle_nodes g p x :
  refs_ok g → cycle g p → x ∈ p → x ∈ mkeys (nodes g).
Proof.
  intros Hrefs (Hnd & (first & Hhead & Htrail) & _) Hx.
  apply list_elem_of_lookup in Hx as [k Hk].
  assert (∃ s, (p ++ [first]) !! S k = Some s) as [s Hs].
  { apply lookup_lt_is_Some_2. apply lookup_lt_Some in Hk.
    rewrite length_app. simpl. lia. }
  assert (hop g x s) as (e & He & Hc).
  { apply (trail_lookup g (p ++ [first]) k); [done| |done].
    rewrite lookup_app_l; [done|]. by eapply lookup_lt_Some. }
  destruct (Hrefs e He) as [Hsrc Htgt].
  apply mhas_true in Hsrc, Htgt.
  destruct Hc as [[<- _]|(_ & <- & _)]; done.
Qed.

(** The search without a cycle has seen that there is none. *)
Lemma searched_no_cycle g V fin :
  refs_ok g → search_inv g V [] fin →
  (∀ k, k ∈ mkeys (nodes g) → k ∈ V) → ¬ cyclic g.
Proof.
  intros Hrefs Hinv Hall [p Hp].
  apply (finished_no_cycle g fin p); [by destruct Hinv | done |].
  intros x Hx.
  apply (cycle_nodes g p x Hrefs Hp), Hall, (si_visited _ _ _ _ Hinv) in Hx
    as [Hx|Hx]; [by apply elem_of_nil in Hx | done].
Qed.

(** X26. [hasCycles()] returns, on any graph whose edges lead to nodes;
    it answers [true] exactly when the graph has more than two nodes and
    a cycle: ids, no two the same, with an edge that can be followed
    from each to the next and from the last to the first (one id with a
    loop counts; two ids of an undirected graph do not). *)
Theorem hasCycles_correct (g : Graph) :
  refs_ok g →
  ∃ b, hasCycles g = Some b ∧
       (b = true ↔ 2 < msize (nodes g) ∧ cyclic g).
Proof.
  intros Hrefs. unfold hasCycles.
  case_bool_decide as Hsize.
  { exists false. split; [done|]. split; [done|]. intros [? _]. lia. }
  destruct (hasCycles_loop_spec g (cycle_fuel g) (mkeys (nodes g)))
    with (V := (∅ : gset string)) (fin := @nil (string * option string))
    as (b & Hb & Ht & Hf).
  - pose proof (ids_size g). lia.
  - apply search_inv_start.
  - set_solver.
  - apply key_ids.
  - exists b. split; [done|]. split.
    + intros Hbt. split; [lia | by apply Ht].
    + intros [_ Hcyc]. destruct b; [done|]. exfalso.
      destruct (Hf eq_refl) as (V' & fin' & Hinv' & _ & Hall).
      by apply (searched_no_cycle g V' fin' Hrefs Hinv' Hall).
Qed.

Lemma well_formed_refs g : well_formed g → refs_ok g.
Proof.
  intros Hwf e He. apply list_elem_of_fmap in He as ([k e'] & -> & Hin).
  destruct (wf_edges g Hwf k e' Hin) as (_ & _ & _ & Hs & Ht & _).
  split; [exact Hs | exact Ht].
Qed.

Lemma there_and_back_refs : refs_ok there_and_back.
Proof.
  apply well_formed_refs.
  apply (well_formed_run (setGraphType newGraph true false)).
  - apply well_formed_fresh.
  - repeat constructor.
Qed.

Lemma hasCycles_correct_witness :
  ∃ b, hasCycles there_and_back = Some b ∧
       (b = true ↔ 2 < msize (nodes there_and_back) ∧ cyclic there_and_back).
Proof. exact (hasCycles_correct there_and_back there_and_back_refs). Defined.


Lemma indexOf_Some x path i : indexOf x path = Some i → path !! i = Some x.
Proof.
  intros (y & Hy & Hp & _)%findIndex_Some.
  by apply bool_decide_eq_true in Hp as ->.
Qed.

Lemma indexOf_None x path : indexOf x path = None → x ∉ path.
Proof.
  intros Hi%findIndex_None Hx.
  apply list_elem_of_In in Hx.
  pose proof (find_none _ _ Hi x Hx) as Hf.
  by apply bool_decide_eq_false in Hf.
Qed.

Lemma closed_cycle_cyclic g c : closed_cycle g c → cyclic g.
Proof. intros (p & first & _ & _ & Hp). by exists p. Qed.

Section DetectCycles.

Variable g : Graph.

(** A call of [dfsForCycles] with enough fuel returns; what it adds to
    the report are cycles; if it adds nothing, it has finished. *)
Lemma dfsForCycles_spec fuel :
  ∀ V cs path node parent,
    NoDup path → trail g path → (∀ x, x ∈ path → x ∈ V) → V ⊆ ids g →
    node ∉ V → node ∈ ids g →
    parent = last path → (∀ p, parent = Some p → hop g p node) →
    (size (ids g ∖ V) ≤ fuel)%nat →
    ∃ V' new,
      dfsForCycles g fuel (mkCycleReport V cs) node path parent
      = Some (mkCycleReport V' (cs ++ new)) ∧
      V ⊆ V' ∧ node ∈ V' ∧ V' ⊆ ids g ∧
      Forall (closed_cycle g) new ∧
      (new = [] → ∀ fin, search_inv g V path fin →
       ∃ fin', search_inv g V' path fin' ∧
               node ∈ fin'.*1 ∧ ∀ x, x ∈ fin.*1 → x ∈ fin'.*1).
Proof.
  induction fuel as [|fuel IH];
    intros V cs path node parent Hnd Htr Hpath HV Hnode Hid Hparent Hhop Hfuel.
  { pose proof (remaining_visit (ids g) V node Hid Hnode). lia. }
  cbn [dfsForCycles]. cbn [dc_visited dc_cycles].
  set (path1 := path ++ [node]).
  set (call := λ st' neighbor, dfsForCycles g fuel st' neighbor path1 (Some node)).
  assert (NoDup path1) as Hnd1.
  { apply NoDup_app. split_and!; [done| |apply NoDup_singleton].
    intros x Hx ->%list_elem_of_singleton. by apply Hnode, Hpath. }
  assert (trail g path1) as Htr1.
  { unfold path1. destruct (last path) as [p|] eqn:Hl.
    - eapply trail_snoc; [done..|]. apply Hhop. congruence.
    - apply last_None in Hl as ->. done. }
  assert (size (ids g ∖ (V ∪ {[node]})) ≤ fuel)%nat as Hfuel1.
  { pose proof (remaining_visit (ids g) V node Hid Hnode). lia. }
  assert (∀ rest Vc cs,
    (∀ x, x ∈ path1 → x ∈ Vc) → Vc ⊆ ids g →
    (size (ids g ∖ Vc) ≤ fuel)%nat →
    (∀ v, v ∈ rest → hop g node v) →
    ∃ V' new,
      dfsForCycles_loop g call path1 parent rest (mkCycleReport Vc cs)
      = Some (mkCycleReport V' (cs ++ new)) ∧
      Vc ⊆ V' ∧ V' ⊆ ids g ∧
      Forall (closed_cycle g) new ∧
      (new = [] → ∀ finc, search_inv g Vc path1 finc →
       (∀ v, hop g node v → v ∈ rest ∨ settled g finc parent node v) →
       ∃ fin', search_inv g V' path fin' ∧
               node ∈ fin'.*1 ∧ ∀ x, x ∈ finc.*1 → x ∈ fin'.*1)) as Hloop.
  { intros rest. induction rest as [|v rest IHrest];
      intros Vc cs' Hp1 HVc Hfuelc Hnb.
    - (* the loop is over *)
      cbn [dfsForCycles_loop]. exists Vc, []. rewrite app_nil_r.
      split_and!; [done..|]. intros _ finc Hinvc Hall.
      exists (finc ++ [(node, parent)]). split_and!.
      + apply search_inv_leave; [done|].
        intros v Hv. destruct (Hall v Hv) as [Hin|Hs]; [|done].
        by apply elem_of_nil in Hin.
      + rewrite fmap_app, elem_of_app. right. simpl. left.
      + intros x Hx. rewrite fmap_app, elem_of_app. by left.
    - cbn [dfsForCycles_loop dc_visited dc_cycles].
      assert (hop g node v) as Hv by (apply Hnb; left).
      assert (∀ w, w ∈ rest → hop g node w) as Hnb'.
      { intros w Hw. apply Hnb. by right. }
      destruct (bool_decide (parent = Some v) && negb (isDirected g)) eqn:Hskip.
      { (* the parent in an undirected graph *)
        apply andb_true_iff in Hskip as [Hp Hd].
        apply negb_true_iff in Hd. apply bool_decide_eq_true in Hp.
        destruct (IHrest Vc cs' Hp1 HVc Hfuelc Hnb')
          as (V' & new & Hrun & Hsub & Hids & Hcyc & Hfin).
        exists V', new. split_and!; [done..|].
        intros Hnew finc Hinvc Hall. apply (Hfin Hnew finc Hinvc).
        intros w Hw. destruct (Hall w Hw) as [Hin|Hs]; [|by right].
        apply elem_of_cons in Hin as [->|Hin]; [|by left].
        right. right. split_and!; [done..|].
        intros ->. apply Hnode, Hpath.
        rewrite Hparent in Hp. apply last_Some in Hp as [l' ->].
        apply elem_of_app. right. by left. }
      assert (¬ (isDirected g = false ∧ parent = Some v)) as Hnoskip.
      { intros [Hd Hp]. rewrite Hd, bool_decide_true in Hskip by done. done. }
      destruct (indexOf v path1) as [i|] eqn:Hidx.
      + (* an id on the path: a cycle is reported *)
        apply indexOf_Some in Hidx.
        destruct (IHrest Vc (cs' ++ [drop i path1 ++ [v]]) Hp1 HVc Hfuelc Hnb')
          as (V' & new & Hrun & Hsub & Hids & Hcyc & _).
        exists V', ((drop i path1 ++ [v]) :: new).
        split_and!; [|done|done| |done].
        * rewrite Hrun. by rewrite <- app_assoc.
        * apply Forall_cons. split; [|done].
          destruct (back_edge_cycle g path node parent v i) as [Hc Hh]; try done.
          by exists (drop i path1), v.
      + apply indexOf_None in Hidx.
        destruct (decide (v ∈ Vc)) as [Hvis|Hnew].
        * rewrite (bool_decide_true (v ∈ Vc)) by done. cbn [negb].
          destruct (IHrest Vc cs' Hp1 HVc Hfuelc Hnb')
            as (V' & new & Hrun & Hsub & Hids & Hcyc & Hfin).
          exists V', new. split_and!; [done..|].
          intros Hnew finc Hinvc Hall. apply (Hfin Hnew finc Hinvc).
          intros w Hw. destruct (Hall w Hw) as [Hin|Hs]; [|by right].
          apply elem_of_cons in Hin as [->|Hin]; [|by left].
          right. left.
          by apply (si_visited _ _ _ _ Hinvc) in Hvis as [Hp|Hf].
        * rewrite (bool_decide_false (v ∈ Vc)) by done. cbn [negb].
          destruct (IH Vc cs' path1 v (Some node))
            as (V1 & new1 & Hcall & Hsub1 & Hv1 & Hids1 & Hcyc1 & Hfin1);
            try done.
          { by destruct (hop_ids g node v Hv). }
          { unfold path1. by rewrite last_snoc. }
          { by intros p [= <-]. }
          unfold call at 1. rewrite Hcall.
          destruct (IHrest V1 (cs' ++ new1))
            as (V' & new2 & Hrun & Hsub & Hids & Hcyc & Hfin); try done.
          { intros x Hx. by apply Hsub1, Hp1. }
          { pose proof (remaining_mono (ids g) Vc V1 Hsub1). lia. }
          exists V', (new1 ++ new2). split_and!.
          -- rewrite Hrun. by rewrite <- app_assoc.
          -- set_solver.
          -- done.
          -- by apply Forall_app.
          -- intros [-> ->]%app_eq_nil finc Hinvc Hall.
             destruct (Hfin1 eq_refl finc Hinvc) as (fin1 & Hinv1 & Hvf & Hff).
             destruct (Hfin eq_refl fin1 Hinv1) as (fin' & Hinv' & Hnf & Hff').
             { intros w Hw. destruct (Hall w Hw) as [Hin|Hs].
               - apply elem_of_cons in Hin as [->|Hin]; [|by left].
                 right. by left.
               - right. by eapply settled_mono. }
             exists fin'. split_and!; [done..|].
             intros x Hx. by apply Hff', Hff. }
  destruct (Hloop (getNeighbors g node) (V ∪ {[node]}) cs)
    as (V' & new & Hrun & Hsub & Hids & Hcyc & Hfin); try done.
  { intros x [Hx| ->%list_elem_of_singleton]%elem_of_app; [|set_solver].
    apply elem_of_union_l. by apply Hpath. }
  { set_solver. }
  { intros v Hv. by apply elem_of_getNeighbors. }
  exists V', new. split_and!; [done | set_solver | set_solver | done | done |].
  intros Hnew fin Hinv.
  apply (Hfin Hnew fin).
  - by apply (search_inv_enter g V path fin node parent).
  - intros v Hv. left. by apply elem_of_getNeighbors.
Qed.

Lemma detectCycles_loop_spec fuel keys :
  (size (ids g) ≤ fuel)%nat →
  ∀ V cs,
    V ⊆ ids g → (∀ k, k ∈ keys → k ∈ ids g) →
    ∃ V' new,
      detectCycles_loop g fuel keys (mkCycleReport V cs)
      = Some (mkCycleReport V' (cs ++ new)) ∧
      V ⊆ V' ∧ V' ⊆ ids g ∧ (∀ k, k ∈ keys → k ∈ V') ∧
      Forall (closed_cycle g) new ∧
      (new = [] → ∀ fin, search_inv g V [] fin →
       ∃ fin', search_inv g V' [] fin').
Proof.
  intros Hfuel. induction keys as [|k keys IH]; intros V cs HV Hkeys.
  - exists V, []. rewrite app_nil_r. split_and!; [done..| |done|by eauto].
    intros k Hk. by apply elem_of_nil in Hk.
  - cbn [detectCycles_loop dc_visited].
    assert (∀ k', k' ∈ keys → k' ∈ ids g) as Hkeys'.
    { intros k' Hk'. apply Hkeys. by right. }
    destruct (decide (k ∈ V)) as [Hk|Hk].
    + rewrite bool_decide_true by done. cbn [negb].
      destruct (IH V cs HV Hkeys') as (V' & new & Hrun & Hsub & Hids & Hall & Hcyc & Hfin).
      exists V', new. split_and!; [done..| |done|done].
      intros k' [->|Hk']%elem_of_cons; [set_solver | by apply Hall].
    + rewrite bool_decide_false by done. cbn [negb].
      destruct (dfsForCycles_spec fuel V cs [] k None)
        as (V1 & new1 & Hcall & Hsub1 & Hk1 & Hids1 & Hcyc1 & Hfin1); try done.
      { apply NoDup_nil_2. }
      { intros x Hx. by apply elem_of_nil in Hx. }
      { apply Hkeys. left. }
      { assert (size (ids g ∖ V) ≤ size (ids g))%nat
          by (apply subseteq_size; set_solver). lia. }
      rewrite Hcall.
      destruct (IH V1 (cs ++ new1) Hids1 Hkeys')
        as (V' & new2 & Hrun & Hsub & Hids & Hall & Hcyc & Hfin).
      exists V', (new1 ++ new2). split_and!.
      * rewrite Hrun. by rewrite <- app_assoc.
      * set_solver.
      * done.
      * intros k' [->|Hk']%elem_of_cons; [set_solver | by apply Hall].
      * by apply Forall_app.
      * intros [-> ->]%app_eq_nil fin Hinv.
        destruct (Hfin1 eq_refl fin Hinv) as (fin1 & Hinv1 & _).
        by apply (Hfin eq_refl fin1).
Qed.

End DetectCycles.

(** X27. [detectCycles()] returns, on any graph whose edges lead to
    nodes; each list it reports is a cycle, closed by its first id; it
    reports at least one exactly when the graph has a cycle. *)
Theorem detectCycles_correct (g : Graph) :
  refs_ok g →
  ∃ cycles,
    detectCycles g = Some cycles ∧
    (∀ c, c ∈ cycles →
          ∃ p first, c = p ++ [first] ∧ head p = Some first ∧ cycle g p) ∧
    (cycles ≠ [] ↔ cyclic g).
Proof.
  intros Hrefs. unfold detectCycles.
  destruct (detectCycles_loop_spec g (cycle_fuel g) (mkeys (nodes g)))
    with (V := (∅ : gset string)) (cs := @nil (list string))
    as (V' & new & Hrun & _ & _ & Hall & Hcyc & Hfin).
  - pose proof (ids_size g). lia.
  - set_solver.
  - apply key_ids.
  - rewrite Hrun. simpl. exists new. split; [done|]. split.
    + intros c Hc. by apply (proj1 (Forall_forall _ _) Hcyc c Hc).
    + split.
      * destruct new as [|c new]; [done|]. intros _.
        apply (closed_cycle_cyclic g c).
        by apply (Forall_inv Hcyc).
      * intros Hc ->.
        destruct (Hfin eq_refl [] (search_inv_start g)) as (fin' & Hinv').
        by apply (searched_no_cycle g V' fin' Hrefs Hinv' Hall).
Qed.

Lemma detectCycles_correct_witness :
  ∃ cycles, detectCycles there_and_back = Some cycles ∧
            (cycles ≠ [] ↔ cyclic there_and_back).
Proof.
  destruct (detectCycles_correct there_and_back there_and_back_refs)
    as (cycles & Hrun & _ & Hiff).
  exists cycles. split; [exact Hrun | exact Hiff].
Defined.
